(** * Voice synthesis and playback pipeline of the orenchi bot

    A shallow embedding of the TypeScript sources

    - [VoiceService] (speech synthesis gateway, RIFF/WAVE wrapping,
      locale resolution),
    - [VoicePlaybackQueue] (per-guild promise chain),
    - [DiscordBot.playAudioBuffer], [flushSilenceFrames], [sanitizeForTTS],
      [handleLeaveVoiceCommand],
    - [loadRuntimeSettings], [saveRuntimeSettings],
    - the presets, the administrators and the voice, engine, model and
      speak commands of [DiscordBot],

    together with the properties that the design document states about
    them and further properties of the same code.  Node's [Buffer], the
    ECMAScript promise machinery and the Discord voice transport are
    modelled as far as the code observes them. *)

From Stdlib Require Import ZArith List String Ascii Bool Lia QArith Qround.
From stdpp Require Import base tactics option list gmap strings fin_maps pretty.

Set Warnings "-register-all".

Local Open Scope Z_scope.

(** ** Results of code that may throw *)

Inductive result (E A : Type) : Type :=
| Ok (a : A)
| Throw (e : E).
Arguments Ok {E A} a.
Arguments Throw {E A} e.

Definition rbind {E A B} (r : result E A) (k : A -> result E B) : result E B :=
  match r with
  | Ok a => k a
  | Throw e => Throw e
  end.

Declare Scope result_scope.
Delimit Scope result_scope with result.
Notation "'try!' x <- r ; k" := (rbind r (fun x => k))
  (at level 10, x name, r at level 100, k at level 200) : result_scope.

(** ** Node buffers and the RIFF/WAVE header *)

Module Wav.

(** A [Buffer] is a sequence of octets; an octet is a [Z] in [0, 256). *)
Definition buffer := list Z.

Inductive buffer_error :=
| ERR_OUT_OF_RANGE (value : Z)
| ERR_BUFFER_OUT_OF_BOUNDS (offset : nat).

Local Open Scope result_scope.

(** [Buffer.alloc(n)]: [n] zero octets. *)
Definition alloc (n : nat) : buffer := repeat 0 n.

(** [buf.write(str, offset)] for an ASCII string that fits. *)
Fixpoint write_codes (codes : list Z) (offset : nat) (buf : buffer) : buffer :=
  match codes with
  | [] => buf
  | c :: rest => write_codes rest (S offset) (<[offset := c]> buf)
  end.

Definition codes_of (s : string) : list Z :=
  map (fun a => Z.of_nat (nat_of_ascii a)) (list_ascii_of_string s).

Definition write (s : string) (offset : nat) (buf : buffer) : buffer :=
  write_codes (codes_of s) offset buf.

(** [buf.writeUInt32LE(value, offset)]: the value is checked against
    [0 .. 2^32-1] and the four octets must lie inside the buffer;
    otherwise a [RangeError] is thrown. *)
Definition writeUInt32LE (value : Z) (offset : nat) (buf : buffer)
  : result buffer_error buffer :=
  if negb (offset + 4 <=? length buf)%nat then Throw (ERR_BUFFER_OUT_OF_BOUNDS offset)
  else if negb ((0 <=? value) && (value <=? 4294967295)) then Throw (ERR_OUT_OF_RANGE value)
  else Ok (<[(offset + 3)%nat := Z.land (Z.shiftr value 24) 255]>
          (<[(offset + 2)%nat := Z.land (Z.shiftr value 16) 255]>
          (<[(offset + 1)%nat := Z.land (Z.shiftr value 8) 255]>
          (<[offset := Z.land value 255]> buf)))).

(** [buf.writeUInt16LE(value, offset)], range [0 .. 2^16-1]. *)
Definition writeUInt16LE (value : Z) (offset : nat) (buf : buffer)
  : result buffer_error buffer :=
  if negb (offset + 2 <=? length buf)%nat then Throw (ERR_BUFFER_OUT_OF_BOUNDS offset)
  else if negb ((0 <=? value) && (value <=? 65535)) then Throw (ERR_OUT_OF_RANGE value)
  else Ok (<[(offset + 1)%nat := Z.land (Z.shiftr value 8) 255]>
          (<[offset := Z.land value 255]> buf)).

(** Readers used to decode a header. *)
Definition octet (buf : buffer) (i : nat) : Z := nth i buf 0.

Definition readUInt16LE (buf : buffer) (offset : nat) : Z :=
  octet buf offset + octet buf (offset + 1) * 2 ^ 8.

Definition readUInt32LE (buf : buffer) (offset : nat) : Z :=
  octet buf offset + octet buf (offset + 1) * 2 ^ 8
  + octet buf (offset + 2) * 2 ^ 16 + octet buf (offset + 3) * 2 ^ 24.

Definition slice (buf : buffer) (from len : nat) : buffer :=
  firstn len (skipn from buf).

(** [VoiceService.wrapLinear16AsWav] at a sample rate that is an integer;
    [Rate.wrapLinear16AsWav] below is the function at any finite number and
    agrees with this one on the integers. *)
Definition wrapLinear16AsWav (pcmBuffer : buffer) (sampleRate : Z)
  : result buffer_error buffer :=
  let channels := 1 in
  let bitsPerSample := 16 in
  let byteRate := sampleRate * channels * (bitsPerSample / 8) in
  let blockAlign := channels * (bitsPerSample / 8) in
  let header := alloc 44 in
  let header := write "RIFF" 0 header in
  try! header <- writeUInt32LE (36 + Z.of_nat (length pcmBuffer)) 4 header;
  let header := write "WAVE" 8 header in
  let header := write "fmt " 12 header in
  try! header <- writeUInt32LE 16 16 header;
  try! header <- writeUInt16LE 1 20 header;
  try! header <- writeUInt16LE channels 22 header;
  try! header <- writeUInt32LE sampleRate 24 header;
  try! header <- writeUInt32LE byteRate 28 header;
  try! header <- writeUInt16LE blockAlign 32 header;
  try! header <- writeUInt16LE bitsPerSample 34 header;
  let header := write "data" 36 header in
  try! header <- writeUInt32LE (Z.of_nat (length pcmBuffer)) 40 header;
  Ok (header ++ pcmBuffer).

(** The header that the function lays out, field by field. *)
Definition le32 (v : Z) : list Z :=
  [Z.land v 255; Z.land (Z.shiftr v 8) 255;
   Z.land (Z.shiftr v 16) 255; Z.land (Z.shiftr v 24) 255].

Definition le16 (v : Z) : list Z :=
  [Z.land v 255; Z.land (Z.shiftr v 8) 255].

Definition wav_header (payload : Z) (sampleRate : Z) : buffer :=
  codes_of "RIFF" ++ le32 (36 + payload) ++ codes_of "WAVE" ++ codes_of "fmt "
  ++ le32 16 ++ le16 1 ++ le16 1 ++ le32 sampleRate ++ le32 (sampleRate * 1 * (16 / 8))
  ++ le16 (1 * (16 / 8)) ++ le16 16 ++ codes_of "data" ++ le32 payload.

(** *** Facts about the header layout *)

Lemma land_255_mod (v : Z) : Z.land v 255 = v mod 256.
Proof. exact (Z.land_ones v 8 ltac:(lia)). Qed.

Lemma shiftr_div (v : Z) (n : Z) : 0 <= n -> Z.shiftr v n = v / 2 ^ n.
Proof. intros Hn. apply Z.shiftr_div_pow2, Hn. Qed.

Lemma le32_decode (v : Z) :
  0 <= v < 2 ^ 32 ->
  Z.land v 255 + Z.land (Z.shiftr v 8) 255 * 2 ^ 8
  + Z.land (Z.shiftr v 16) 255 * 2 ^ 16 + Z.land (Z.shiftr v 24) 255 * 2 ^ 24 = v.
Proof.
  intros Hv. rewrite !land_255_mod, !shiftr_div by lia.
  change (2 ^ 8) with 256. change (2 ^ 16) with 65536.
  change (2 ^ 24) with 16777216. change (2 ^ 32) with 4294967296 in Hv.
  pose proof (Z.div_mod v 256 ltac:(lia)).
  pose proof (Z.mod_pos_bound v 256 ltac:(lia)).
  assert (H16 : v / 65536 = v / 256 / 256) by (rewrite Z.div_div by lia; reflexivity).
  assert (H24 : v / 16777216 = v / 256 / 256 / 256) by (rewrite !Z.div_div by lia; reflexivity).
  rewrite H16, H24.
  pose proof (Z.div_mod (v / 256) 256 ltac:(lia)).
  pose proof (Z.mod_pos_bound (v / 256) 256 ltac:(lia)).
  pose proof (Z.div_mod (v / 256 / 256) 256 ltac:(lia)).
  pose proof (Z.mod_pos_bound (v / 256 / 256) 256 ltac:(lia)).
  assert (0 <= v / 256 / 256 / 256 < 256).
  { split; [repeat apply Z.div_pos; lia|].
    repeat (apply Z.div_lt_upper_bound; [lia|]). lia. }
  rewrite (Z.mod_small (v / 256 / 256 / 256) 256) by lia. lia.
Qed.

Lemma writeUInt32LE_ok (v : Z) (offset : nat) (buf : buffer) :
  (offset + 4 <= length buf)%nat -> 0 <= v <= 4294967295 ->
  writeUInt32LE v offset buf =
    Ok (<[(offset + 3)%nat := Z.land (Z.shiftr v 24) 255]>
       (<[(offset + 2)%nat := Z.land (Z.shiftr v 16) 255]>
       (<[(offset + 1)%nat := Z.land (Z.shiftr v 8) 255]>
       (<[offset := Z.land v 255]> buf)))).
Proof.
  intros Hlen Hv. unfold writeUInt32LE.
  destruct (Nat.leb_spec (offset + 4) (length buf)); [|lia]. simpl.
  destruct (Z.leb_spec 0 v); [|lia].
  destruct (Z.leb_spec v 4294967295); [|lia]. reflexivity.
Qed.

Lemma writeUInt32LE_range (v : Z) (offset : nat) (buf : buffer) :
  (offset + 4 <= length buf)%nat -> ~ (0 <= v <= 4294967295) ->
  writeUInt32LE v offset buf = Throw (ERR_OUT_OF_RANGE v).
Proof.
  intros Hlen Hv. unfold writeUInt32LE.
  destruct (Nat.leb_spec (offset + 4) (length buf)); [|lia]. simpl.
  destruct (Z.leb_spec 0 v); [|reflexivity].
  destruct (Z.leb_spec v 4294967295); [lia|reflexivity].
Qed.

(** Inside the ranges of the 32-bit fields the function returns the header
    followed by the samples. *)
Lemma wrapLinear16AsWav_layout (pcm : buffer) (sampleRate : Z) :
  0 <= sampleRate -> sampleRate * 2 <= 4294967295 ->
  36 + Z.of_nat (length pcm) <= 4294967295 ->
  wrapLinear16AsWav pcm sampleRate
  = Ok (wav_header (Z.of_nat (length pcm)) sampleRate ++ pcm).
Proof.
  intros H0 H1 H2. unfold wrapLinear16AsWav.
  rewrite writeUInt32LE_ok by first [lia | simpl; lia]. simpl rbind.
  rewrite (writeUInt32LE_ok sampleRate) by first [lia | simpl; lia]. simpl rbind.
  rewrite (writeUInt32LE_ok (sampleRate * 1 * (16 / 8)))
    by first [change (16 / 8) with 2; lia | simpl; lia].
  simpl rbind.
  rewrite (writeUInt32LE_ok (Z.of_nat (length pcm))) by first [lia | simpl; lia].
  reflexivity.
Qed.

(** C4, as the code has it: the claim for all sample rates and payload
    lengths that fit the 32-bit header fields.  The result has [L+44] octets;
    the header decodes to format tag 1, one channel, the sample rate, byte
    rate [2*S], block align 2, 16 bits per sample, RIFF chunk size [36+L]
    and data chunk size [L]; the payload follows unchanged. *)
Theorem wrapLinear16AsWav_header (pcm : buffer) (sampleRate : Z) :
  0 <= sampleRate -> sampleRate * 2 <= 4294967295 ->
  36 + Z.of_nat (length pcm) <= 4294967295 ->
  exists wav,
    wrapLinear16AsWav pcm sampleRate = Ok wav
    /\ length wav = (length pcm + 44)%nat
    /\ slice wav 0 4 = codes_of "RIFF"
    /\ readUInt32LE wav 4 = 36 + Z.of_nat (length pcm)
    /\ slice wav 8 8 = codes_of "WAVEfmt "
    /\ readUInt32LE wav 16 = 16
    /\ readUInt16LE wav 20 = 1
    /\ readUInt16LE wav 22 = 1
    /\ readUInt32LE wav 24 = sampleRate
    /\ readUInt32LE wav 28 = sampleRate * 2
    /\ readUInt16LE wav 32 = 2
    /\ readUInt16LE wav 34 = 16
    /\ slice wav 36 4 = codes_of "data"
    /\ readUInt32LE wav 40 = Z.of_nat (length pcm)
    /\ skipn 44 wav = pcm.
Proof.
  intros H0 H1 H2. eexists. split; [apply wrapLinear16AsWav_layout; assumption|].
  unfold wav_header, le32, le16, readUInt32LE, readUInt16LE, octet, slice.
  change (2 ^ 32) with 4294967296 in *.
  repeat split; try reflexivity.
  - rewrite length_app. simpl. lia.
  - simpl nth. apply le32_decode. lia.
  - simpl nth. apply le32_decode. lia.
  - simpl nth. replace (sampleRate * 2) with (sampleRate * 1 * (16 / 8)).
    + apply le32_decode. change (16 / 8) with 2. lia.
    + change (16 / 8) with 2. lia.
  - simpl nth. apply le32_decode. lia.
Qed.

Lemma wrapLinear16AsWav_header_witness :
  exists wav,
    wrapLinear16AsWav [1; 2; 3; 4] 24000 = Ok wav
    /\ length wav = (length [1; 2; 3; 4] + 44)%nat
    /\ slice wav 0 4 = codes_of "RIFF"
    /\ readUInt32LE wav 4 = 36 + Z.of_nat (length [1; 2; 3; 4])
    /\ slice wav 8 8 = codes_of "WAVEfmt "
    /\ readUInt32LE wav 16 = 16
    /\ readUInt16LE wav 20 = 1
    /\ readUInt16LE wav 22 = 1
    /\ readUInt32LE wav 24 = 24000
    /\ readUInt32LE wav 28 = 24000 * 2
    /\ readUInt16LE wav 32 = 2
    /\ readUInt16LE wav 34 = 16
    /\ slice wav 36 4 = codes_of "data"
    /\ readUInt32LE wav 40 = Z.of_nat (length [1; 2; 3; 4])
    /\ skipn 44 wav = [1; 2; 3; 4].
Proof.
  apply (wrapLinear16AsWav_header [1; 2; 3; 4] 24000); simpl; lia.
Defined.

(** A sample rate whose byte rate no longer fits 32 bits makes
    [writeUInt32LE] throw: no container is produced. *)
Lemma wrapLinear16AsWav_byte_rate_overflow :
  ~ (exists wav, wrapLinear16AsWav [] 2147483648 = Ok wav
                 /\ length wav = (length (@nil Z) + 44)%nat).
Proof. intros [wav [H _]]. vm_compute in H. discriminate H. Qed.

Example wrapLinear16AsWav_24000 :
  wrapLinear16AsWav [7; 9] 24000
  = Ok [82; 73; 70; 70; 38; 0; 0; 0; 87; 65; 86; 69; 102; 109; 116; 32;
        16; 0; 0; 0; 1; 0; 1; 0; 192; 93; 0; 0; 128; 187; 0; 0; 2; 0; 16; 0;
        100; 97; 116; 97; 2; 0; 0; 0; 7; 9].
Proof. reflexivity. Qed.

(** *** When the function throws *)

(** The result of [wrapLinear16AsWav], by the first field that does not
    fit. *)
Lemma wrapLinear16AsWav_cases (pcm : buffer) (sampleRate : Z) :
  wrapLinear16AsWav pcm sampleRate
  = if 4294967295 <? 36 + Z.of_nat (length pcm)
    then Throw (ERR_OUT_OF_RANGE (36 + Z.of_nat (length pcm)))
    else if (sampleRate <? 0) || (4294967295 <? sampleRate)
    then Throw (ERR_OUT_OF_RANGE sampleRate)
    else if 4294967295 <? sampleRate * 2
    then Throw (ERR_OUT_OF_RANGE (sampleRate * 1 * (16 / 8)))
    else Ok (wav_header (Z.of_nat (length pcm)) sampleRate ++ pcm).
Proof.
  destruct (Z.ltb_spec 4294967295 (36 + Z.of_nat (length pcm))) as [H1|H1].
  { unfold wrapLinear16AsWav.
    rewrite writeUInt32LE_range by first [lia | simpl; lia]. reflexivity. }
  destruct (Z.ltb_spec sampleRate 0) as [H2|H2]; cbn [orb].
  { unfold wrapLinear16AsWav.
    rewrite writeUInt32LE_ok by first [lia | simpl; lia]. simpl rbind.
    rewrite (writeUInt32LE_range sampleRate) by first [lia | simpl; lia].
    reflexivity. }
  destruct (Z.ltb_spec 4294967295 sampleRate) as [H3|H3].
  { unfold wrapLinear16AsWav.
    rewrite writeUInt32LE_ok by first [lia | simpl; lia]. simpl rbind.
    rewrite (writeUInt32LE_range sampleRate) by first [lia | simpl; lia].
    reflexivity. }
  destruct (Z.ltb_spec 4294967295 (sampleRate * 2)) as [H4|H4].
  { unfold wrapLinear16AsWav.
    rewrite writeUInt32LE_ok by first [lia | simpl; lia]. simpl rbind.
    rewrite (writeUInt32LE_ok sampleRate) by first [lia | simpl; lia]. simpl rbind.
    rewrite (writeUInt32LE_range (sampleRate * 1 * (16 / 8)))
      by first [change (16 / 8) with 2; lia | simpl; lia].
    reflexivity. }
  apply wrapLinear16AsWav_layout; lia.
Qed.

End Wav.

(** ** The container for a sample rate that is any number

    [parseSampleRate] hands on every finite positive number, and a number
    need not be an integer.  A finite number is a rational here, and the
    arithmetic of the function is exact on them: multiplying by one and by
    two loses nothing.  [writeUInt32LE] checks the number itself against
    the range and stores the octets of its integer part. *)

Module Rate.

Import Wav.

Local Open Scope result_scope.

Inductive range_error :=
| ERR_OUT_OF_RANGE (received : Q)
| ERR_BUFFER_OUT_OF_BOUNDS (offset : nat).

(** [min <= value && value <= max], for [min = 0]. *)
Definition in_range (max : Z) (value : Q) : bool :=
  Qle_bool 0 value && Qle_bool value (inject_Z max).

(** [buf.writeUInt32LE(value, offset)]: [checkInt] compares the number with
    the range and then the offset with the buffer; the octets stored are
    those of [value >>> 0], the integer part. *)
Definition writeUInt32LE (value : Q) (offset : nat) (buf : buffer)
  : result range_error buffer :=
  if negb (in_range 4294967295 value) then Throw (ERR_OUT_OF_RANGE value)
  else if negb (offset + 4 <=? length buf)%nat then Throw (ERR_BUFFER_OUT_OF_BOUNDS offset)
  else
    let v := Qfloor value in
    Ok (<[(offset + 3)%nat := Z.land (Z.shiftr v 24) 255]>
       (<[(offset + 2)%nat := Z.land (Z.shiftr v 16) 255]>
       (<[(offset + 1)%nat := Z.land (Z.shiftr v 8) 255]>
       (<[offset := Z.land v 255]> buf)))).

(** [buf.writeUInt16LE(value, offset)] *)
Definition writeUInt16LE (value : Q) (offset : nat) (buf : buffer)
  : result range_error buffer :=
  if negb (in_range 65535 value) then Throw (ERR_OUT_OF_RANGE value)
  else if negb (offset + 2 <=? length buf)%nat then Throw (ERR_BUFFER_OUT_OF_BOUNDS offset)
  else
    let v := Qfloor value in
    Ok (<[(offset + 1)%nat := Z.land (Z.shiftr v 8) 255]>
       (<[offset := Z.land v 255]> buf)).

(** [VoiceService.wrapLinear16AsWav] *)
Definition wrapLinear16AsWav (pcmBuffer : buffer) (sampleRate : Q)
  : result range_error buffer :=
  let channels := 1%Q in
  let bitsPerSample := 16%Q in
  let byteRate := (sampleRate * channels * (bitsPerSample / 8))%Q in
  let blockAlign := (channels * (bitsPerSample / 8))%Q in
  let header := alloc 44 in
  let header := write "RIFF" 0 header in
  try! header <- writeUInt32LE (inject_Z (36 + Z.of_nat (length pcmBuffer))) 4 header;
  let header := write "WAVE" 8 header in
  let header := write "fmt " 12 header in
  try! header <- writeUInt32LE 16%Q 16 header;
  try! header <- writeUInt16LE 1%Q 20 header;
  try! header <- writeUInt16LE channels 22 header;
  try! header <- writeUInt32LE sampleRate 24 header;
  try! header <- writeUInt32LE byteRate 28 header;
  try! header <- writeUInt16LE blockAlign 32 header;
  try! header <- writeUInt16LE bitsPerSample 34 header;
  let header := write "data" 36 header in
  try! header <- writeUInt32LE (inject_Z (Z.of_nat (length pcmBuffer))) 40 header;
  Ok (header ++ pcmBuffer).

(** The byte rate that the function computes. *)
Definition byte_rate (sampleRate : Q) : Q := (sampleRate * 1 * (16 / 8))%Q.

(** The header for a payload, with the integer parts of the sample rate and
    of the byte rate. *)
Definition wav_header (payload : Z) (sampleRate : Q) : buffer :=
  codes_of "RIFF" ++ le32 (36 + payload) ++ codes_of "WAVE" ++ codes_of "fmt "
  ++ le32 16 ++ le16 1 ++ le16 1 ++ le32 (Qfloor sampleRate)
  ++ le32 (Qfloor (byte_rate sampleRate))
  ++ le16 2 ++ le16 16 ++ codes_of "data" ++ le32 payload.

(** *** Facts *)

Lemma in_range_integer (max v : Z) :
  in_range max (inject_Z v) = (0 <=? v) && (v <=? max).
Proof.
  unfold in_range, Qle_bool, inject_Z. cbn [Qnum Qden].
  rewrite !Z.mul_1_r. reflexivity.
Qed.

Lemma in_range_spec (max : Z) (value : Q) :
  in_range max value = true <-> (0 <= value /\ value <= inject_Z max)%Q.
Proof.
  unfold in_range. rewrite andb_true_iff, !Qle_bool_iff. reflexivity.
Qed.

Lemma byte_rate_double (sampleRate : Q) : (byte_rate sampleRate == sampleRate * 2)%Q.
Proof. unfold byte_rate. field. Qed.

Lemma writeUInt32LE_number_ok (value : Q) (offset : nat) (buf : buffer) :
  in_range 4294967295 value = true -> (offset + 4 <= length buf)%nat ->
  writeUInt32LE value offset buf =
    Ok (<[(offset + 3)%nat := Z.land (Z.shiftr (Qfloor value) 24) 255]>
       (<[(offset + 2)%nat := Z.land (Z.shiftr (Qfloor value) 16) 255]>
       (<[(offset + 1)%nat := Z.land (Z.shiftr (Qfloor value) 8) 255]>
       (<[offset := Z.land (Qfloor value) 255]> buf)))).
Proof.
  intros Hv Hlen. unfold writeUInt32LE. rewrite Hv. cbn [negb].
  destruct (Nat.leb_spec (offset + 4) (length buf)); [reflexivity|lia].
Qed.

Lemma writeUInt32LE_number_range (value : Q) (offset : nat) (buf : buffer) :
  in_range 4294967295 value = false ->
  writeUInt32LE value offset buf = Throw (ERR_OUT_OF_RANGE value).
Proof. intros Hv. unfold writeUInt32LE. rewrite Hv. reflexivity. Qed.

Lemma writeUInt16LE_ok (value : Q) (offset : nat) (buf : buffer) :
  in_range 65535 value = true -> (offset + 2 <= length buf)%nat ->
  writeUInt16LE value offset buf =
    Ok (<[(offset + 1)%nat := Z.land (Z.shiftr (Qfloor value) 8) 255]>
       (<[offset := Z.land (Qfloor value) 255]> buf)).
Proof.
  intros Hv Hlen. unfold writeUInt16LE. rewrite Hv. cbn [negb].
  destruct (Nat.leb_spec (offset + 2) (length buf)); [reflexivity|lia].
Qed.

(** The result of [wrapLinear16AsWav], by the first field that does not
    fit. *)
Lemma wrapLinear16AsWav_number_cases (pcm : buffer) (sampleRate : Q) :
  wrapLinear16AsWav pcm sampleRate
  = if 4294967295 <? 36 + Z.of_nat (length pcm)
    then Throw (ERR_OUT_OF_RANGE (inject_Z (36 + Z.of_nat (length pcm))))
    else if negb (in_range 4294967295 sampleRate)
    then Throw (ERR_OUT_OF_RANGE sampleRate)
    else if negb (in_range 4294967295 (byte_rate sampleRate))
    then Throw (ERR_OUT_OF_RANGE (byte_rate sampleRate))
    else Ok (wav_header (Z.of_nat (length pcm)) sampleRate ++ pcm).
Proof.
  unfold wrapLinear16AsWav. cbv zeta. fold (byte_rate sampleRate).
  destruct (Z.ltb_spec 4294967295 (36 + Z.of_nat (length pcm))) as [H1|H1].
  { rewrite writeUInt32LE_number_range; [reflexivity|].
    rewrite in_range_integer. apply andb_false_iff. right. apply Z.leb_gt. lia. }
  rewrite writeUInt32LE_number_ok;
    [|rewrite in_range_integer; apply andb_true_intro; split; apply Z.leb_le; lia
     |simpl; lia].
  cbn [rbind].
  rewrite (writeUInt32LE_number_ok 16%Q) by first [reflexivity|simpl; lia]. cbn [rbind].
  rewrite (writeUInt16LE_ok 1%Q) by first [reflexivity|simpl; lia]. cbn [rbind].
  rewrite (writeUInt16LE_ok 1%Q) by first [reflexivity|simpl; lia]. cbn [rbind].
  destruct (in_range 4294967295 sampleRate) eqn:H2; cbn [negb].
  2:{ rewrite writeUInt32LE_number_range by exact H2. reflexivity. }
  rewrite (writeUInt32LE_number_ok sampleRate) by first [exact H2|simpl; lia]. cbn [rbind].
  destruct (in_range 4294967295 (byte_rate sampleRate)) eqn:H3; cbn [negb].
  2:{ rewrite writeUInt32LE_number_range by exact H3. reflexivity. }
  rewrite (writeUInt32LE_number_ok (byte_rate sampleRate)) by first [exact H3|simpl; lia].
  cbn [rbind].
  rewrite (writeUInt16LE_ok (1 * (16 / 8))%Q) by first [reflexivity|simpl; lia].
  cbn [rbind].
  rewrite (writeUInt16LE_ok 16%Q) by first [reflexivity|simpl; lia]. cbn [rbind].
  rewrite writeUInt32LE_number_ok;
    [|rewrite in_range_integer; apply andb_true_intro; split; apply Z.leb_le; lia
     |simpl; lia].
  cbn [rbind]. rewrite !Qfloor_Z. reflexivity.
Qed.

Lemma in_range_comp (max : Z) (x y : Q) :
  (x == y)%Q -> in_range max x = in_range max y.
Proof.
  intros H. apply eq_true_iff_eq. rewrite !in_range_spec, H. reflexivity.
Qed.

Lemma in_range_floor (value : Q) :
  in_range 4294967295 value = true -> 0 <= Qfloor value < 2 ^ 32.
Proof.
  intros H. apply in_range_spec in H as [H0 H1].
  apply Qfloor_resp_le in H0, H1. rewrite Qfloor_Z in H1.
  change (Qfloor 0) with 0 in H0. change (2 ^ 32) with 4294967296. lia.
Qed.

Lemma Qle_double (x : Q) : (0 <= x)%Q -> (x <= x * 2)%Q.
Proof.
  destruct x as [n d]. unfold Qle. cbn [Qnum Qden Qmult].
  rewrite Pos2Z.inj_mul. intros H. nia.
Qed.

Lemma in_range_double (sampleRate : Q) :
  in_range 4294967295 sampleRate = true ->
  in_range 4294967295 (byte_rate sampleRate) = true
  <-> (sampleRate * 2 <= 4294967295)%Q.
Proof.
  intros H. apply in_range_spec in H as [H0 _].
  rewrite (in_range_comp _ _ _ (byte_rate_double sampleRate)), in_range_spec.
  split; [intros [_ H]; exact H|]. intros H. split; [|exact H].
  apply Qmult_le_0_compat; [exact H0|discriminate].
Qed.

(** The function returns exactly when the three fields fit. *)
Lemma wrapLinear16AsWav_returns (pcm : buffer) (sampleRate : Q) :
  (exists wav, wrapLinear16AsWav pcm sampleRate = Ok wav)
  <-> (0 <= sampleRate)%Q /\ (sampleRate * 2 <= 4294967295)%Q
      /\ 36 + Z.of_nat (length pcm) <= 4294967295.
Proof.
  rewrite wrapLinear16AsWav_number_cases.
  destruct (Z.ltb_spec 4294967295 (36 + Z.of_nat (length pcm))) as [H1|H1].
  { split; [intros [? H]; discriminate|lia]. }
  destruct (in_range 4294967295 sampleRate) eqn:H2; cbn [negb].
  2:{ split; [intros [? H]; discriminate|]. intros (H0 & H & _).
      assert (Hr : in_range 4294967295 sampleRate = true); [|congruence].
      apply in_range_spec. split; [exact H0|].
      apply Qle_trans with (sampleRate * 2)%Q; [apply Qle_double, H0|exact H]. }
  pose proof (in_range_double sampleRate H2) as Hd.
  apply in_range_spec in H2 as [H0 Hm].
  destruct (in_range 4294967295 (byte_rate sampleRate)) eqn:H3; cbn [negb].
  - split; [intros _|eauto]. split; [exact H0|]. split; [apply Hd; reflexivity|exact H1].
  - split; [intros [? H]; discriminate|]. intros (_ & H & _).
    apply Hd in H. discriminate H.
Qed.

(** What it returns: the header with the integer parts of the sample rate
    and of its double, and the samples. *)
Lemma wrapLinear16AsWav_result (pcm wav : buffer) (sampleRate : Q) :
  wrapLinear16AsWav pcm sampleRate = Ok wav ->
  wav = wav_header (Z.of_nat (length pcm)) sampleRate ++ pcm
  /\ length wav = (length pcm + 44)%nat
  /\ readUInt32LE wav 24 = Qfloor sampleRate
  /\ readUInt32LE wav 28 = Qfloor (sampleRate * 2).
Proof.
  rewrite wrapLinear16AsWav_number_cases.
  destruct (4294967295 <? 36 + Z.of_nat (length pcm)); [discriminate|].
  destruct (in_range 4294967295 sampleRate) eqn:H2; cbn [negb]; [|discriminate].
  destruct (in_range 4294967295 (byte_rate sampleRate)) eqn:H3; cbn [negb];
    [|discriminate].
  intros Hw.
  assert (Hwav : wav = wav_header (Z.of_nat (length pcm)) sampleRate ++ pcm)
    by congruence.
  clear Hw. subst wav. split; [reflexivity|].
  split; [rewrite length_app; simpl; lia|].
  unfold wav_header, le32, le16, readUInt32LE, octet. split.
  - simpl nth. apply le32_decode, in_range_floor, H2.
  - simpl nth. rewrite <- (Qfloor_comp _ _ (byte_rate_double sampleRate)).
    apply le32_decode, in_range_floor, H3.
Qed.

(** X1: for every sample rate, integer or not, the function returns a container
    exactly when the sample rate, the byte rate and the RIFF chunk size fit
    their 32-bit fields; otherwise it throws the range error of the first
    field that does not fit, in the order chunk size, sample rate, byte
    rate.  The container holds the integer parts of the sample rate and of
    the byte rate, which is twice the rate and not twice its integer
    part. *)
Theorem wrapLinear16AsWav_domain (pcm : buffer) (sampleRate : Q) :
  ((exists wav, wrapLinear16AsWav pcm sampleRate = Ok wav)
   <-> (0 <= sampleRate)%Q /\ (sampleRate * 2 <= 4294967295)%Q
       /\ 36 + Z.of_nat (length pcm) <= 4294967295)
  /\ (4294967295 < 36 + Z.of_nat (length pcm) ->
      wrapLinear16AsWav pcm sampleRate
      = Throw (ERR_OUT_OF_RANGE (inject_Z (36 + Z.of_nat (length pcm)))))
  /\ (36 + Z.of_nat (length pcm) <= 4294967295 ->
      ~ (0 <= sampleRate /\ sampleRate <= 4294967295)%Q ->
      wrapLinear16AsWav pcm sampleRate = Throw (ERR_OUT_OF_RANGE sampleRate))
  /\ (36 + Z.of_nat (length pcm) <= 4294967295 ->
      (0 <= sampleRate)%Q -> (sampleRate <= 4294967295)%Q ->
      ~ (sampleRate * 2 <= 4294967295)%Q ->
      wrapLinear16AsWav pcm sampleRate
      = Throw (ERR_OUT_OF_RANGE (sampleRate * 1 * (16 / 8))%Q))
  /\ (forall wav, wrapLinear16AsWav pcm sampleRate = Ok wav ->
        wav = wav_header (Z.of_nat (length pcm)) sampleRate ++ pcm
        /\ length wav = (length pcm + 44)%nat
        /\ readUInt32LE wav 24 = Qfloor sampleRate
        /\ readUInt32LE wav 28 = Qfloor (sampleRate * 2)).
Proof.
  split; [apply wrapLinear16AsWav_returns|].
  split; [|split; [|split]].
  - intros H1. rewrite wrapLinear16AsWav_number_cases.
    destruct (Z.ltb_spec 4294967295 (36 + Z.of_nat (length pcm))); [reflexivity|lia].
  - intros H1 Hn. rewrite wrapLinear16AsWav_number_cases.
    destruct (Z.ltb_spec 4294967295 (36 + Z.of_nat (length pcm))); [lia|].
    destruct (in_range 4294967295 sampleRate) eqn:H2; [|reflexivity].
    exfalso. apply Hn, (in_range_spec 4294967295), H2.
  - intros H1 H0 Hm Hn. rewrite wrapLinear16AsWav_number_cases.
    destruct (Z.ltb_spec 4294967295 (36 + Z.of_nat (length pcm))); [lia|].
    assert (H2 : in_range 4294967295 sampleRate = true)
      by (apply in_range_spec; split; assumption).
    rewrite H2. cbn [negb].
    destruct (in_range 4294967295 (byte_rate sampleRate)) eqn:H3; [|reflexivity].
    exfalso. apply Hn, (in_range_double sampleRate H2), H3.
  - intros wav. apply wrapLinear16AsWav_result.
Qed.

(** At an integer sample rate this is the function of the header layout. *)
Lemma wrapLinear16AsWav_integer (pcm wav : buffer) (sampleRate : Z) :
  wrapLinear16AsWav pcm (inject_Z sampleRate) = Ok wav
  <-> Wav.wrapLinear16AsWav pcm sampleRate = Ok wav.
Proof.
  rewrite wrapLinear16AsWav_number_cases, Wav.wrapLinear16AsWav_cases.
  assert (Hb : (byte_rate (inject_Z sampleRate)
                == inject_Z (sampleRate * 1 * (16 / 8)))%Q).
  { rewrite byte_rate_double. change (16 / 8) with 2. rewrite Z.mul_1_r.
    rewrite inject_Z_mult. reflexivity. }
  destruct (Z.ltb_spec 4294967295 (36 + Z.of_nat (length pcm))); [split; discriminate|].
  rewrite in_range_integer, (in_range_comp _ _ _ Hb), in_range_integer.
  unfold wav_header, Wav.wav_header. rewrite (Qfloor_comp _ _ Hb), !Qfloor_Z.
  change (16 / 8) with 2. rewrite !Z.mul_1_r.
  destruct (Z.ltb_spec sampleRate 0), (Z.leb_spec 0 sampleRate); try lia;
    cbn [orb andb negb]; [split; discriminate|].
  destruct (Z.ltb_spec 4294967295 sampleRate), (Z.leb_spec sampleRate 4294967295);
    try lia; cbn [negb]; [split; discriminate|].
  assert (Hdbl : (0 <=? sampleRate * 2) = true) by (apply Z.leb_le; lia).
  rewrite Hdbl.
  destruct (Z.ltb_spec 4294967295 (sampleRate * 2)),
           (Z.leb_spec (sampleRate * 2) 4294967295); try lia;
    cbn [andb negb]; [split; discriminate|].
  change (1 * 2) with 2. split; intros Hw; f_equal; congruence.
Qed.

Example wrapLinear16AsWav_22050_5 :
  wrapLinear16AsWav [7; 9] 22050.5
  = Ok [82; 73; 70; 70; 38; 0; 0; 0; 87; 65; 86; 69; 102; 109; 116; 32;
        16; 0; 0; 0; 1; 0; 1; 0; 34; 86; 0; 0; 69; 172; 0; 0; 2; 0; 16; 0;
        100; 97; 116; 97; 2; 0; 0; 0; 7; 9]
  /\ wrapLinear16AsWav [7; 9] 2147483648 
     = Throw (ERR_OUT_OF_RANGE (2147483648 * 1 * (16 / 8)))
  /\ wrapLinear16AsWav [7; 9] (-1) = Throw (ERR_OUT_OF_RANGE (-1)).
Proof. repeat split. Qed.

End Rate.

(** ** Voice identifier to locale *)

Module Locale.

Local Open Scope string_scope.

(** [String.prototype.split] with a one-character separator: the segments
    between the occurrences of the separator; a string without the
    separator is its own single segment. *)
Fixpoint split (sep : ascii) (s : string) : list string :=
  match s with
  | EmptyString => [EmptyString]
  | String c rest =>
      if Ascii.eqb c sep then EmptyString :: split sep rest
      else match split sep rest with
           | seg :: segs => String c seg :: segs
           | [] => [String c EmptyString]
           end
  end.

Definition hyphen : ascii := "-"%char.

(** An environment variable is absent or holds a string. *)
Definition env_var := option string.

(** [x || fallback] on a possibly undefined string: the empty string and
    [undefined] are falsy. *)
Definition or_else (x : env_var) (fallback : string) : string :=
  match x with
  | Some (String c s) => String c s
  | Some EmptyString | None => fallback
  end.

(** [VoiceService.resolveGoogleLanguageCode]; [GOOGLE_TTS_LANGUAGE] is the
    value of [process.env.GOOGLE_TTS_LANGUAGE]. *)
Definition resolveGoogleLanguageCode (GOOGLE_TTS_LANGUAGE : env_var)
  (voiceName : string) : string :=
  let segments := split hyphen voiceName in
  if (2 <=? length segments)%nat
  then nth 0 segments "" ++ "-" ++ nth 1 segments ""
  else or_else GOOGLE_TTS_LANGUAGE "en-US".

(** A string without any hyphen. *)
Fixpoint hyphen_free (s : string) : bool :=
  match s with
  | EmptyString => true
  | String c rest => negb (Ascii.eqb c hyphen) && hyphen_free rest
  end.

(** *** Facts *)

Lemma split_nonempty (sep : ascii) (s : string) : split sep s <> [].
Proof.
  destruct s as [|c rest]; simpl; [discriminate|].
  destruct (Ascii.eqb c sep); [discriminate|].
  destruct (split sep rest); discriminate.
Qed.

Lemma split_hyphen_free (s : string) :
  hyphen_free s = true -> split hyphen s = [s].
Proof.
  induction s as [|c rest IH]; simpl; [reflexivity|].
  intros H. apply andb_prop in H as [Hc Hrest].
  apply negb_true_iff in Hc. rewrite Hc, (IH Hrest). reflexivity.
Qed.

Lemma split_app_hyphen (s0 t : string) :
  hyphen_free s0 = true ->
  split hyphen (s0 ++ String hyphen t) = s0 :: split hyphen t.
Proof.
  induction s0 as [|c rest IH]; simpl; intros H.
  - reflexivity.
  - apply andb_prop in H as [Hc Hrest]. apply negb_true_iff in Hc.
    rewrite Hc, (IH Hrest). reflexivity.
Qed.

Lemma split_single_hyphen_free (s : string) :
  (length (split hyphen s) < 2)%nat -> hyphen_free s = true.
Proof.
  induction s as [|c rest IH]; simpl; [reflexivity|].
  destruct (Ascii.eqb c hyphen) eqn:Hc; simpl.
  - pose proof (split_nonempty hyphen rest) as Hne.
    destruct (split hyphen rest) eqn:Hs; [congruence|simpl; lia].
  - destruct (split hyphen rest) as [|seg segs] eqn:Hs; simpl in *.
    + exfalso. eapply split_nonempty, Hs.
    + exact IH.
Qed.

(** C7: an identifier with at least two hyphen-delimited segments resolves
    to its first two segments joined by a hyphen; an identifier with fewer
    than two segments (no hyphen at all) resolves to the configured default
    locale, or to ["en-US"] when none is configured. *)
Theorem resolveGoogleLanguageCode_spec (GOOGLE_TTS_LANGUAGE : env_var) :
  (forall s0 s1 tl,
      hyphen_free s0 = true -> hyphen_free s1 = true ->
      (tl = "" \/ exists t, tl = String hyphen t) ->
      resolveGoogleLanguageCode GOOGLE_TTS_LANGUAGE (s0 ++ "-" ++ s1 ++ tl)
      = s0 ++ "-" ++ s1)
  /\ (forall voiceName,
        (length (split hyphen voiceName) < 2)%nat ->
        resolveGoogleLanguageCode GOOGLE_TTS_LANGUAGE voiceName
        = match GOOGLE_TTS_LANGUAGE with
          | Some configured => if String.eqb configured "" then "en-US" else configured
          | None => "en-US"
          end)
  /\ (forall voiceName,
        (length (split hyphen voiceName) < 2)%nat <-> hyphen_free voiceName = true)
  /\ resolveGoogleLanguageCode GOOGLE_TTS_LANGUAGE "en-US-Neural2-F" = "en-US"
  /\ resolveGoogleLanguageCode GOOGLE_TTS_LANGUAGE "solo"
     = or_else GOOGLE_TTS_LANGUAGE "en-US".
Proof.
  repeat split.
  - intros s0 s1 tl H0 H1 Htl. unfold resolveGoogleLanguageCode.
    change (s0 ++ "-" ++ s1 ++ tl) with (s0 ++ String hyphen (s1 ++ tl)).
    rewrite split_app_hyphen by assumption.
    destruct Htl as [-> | [t ->]].
    + replace (s1 ++ "") with s1.
      * rewrite split_hyphen_free by assumption. reflexivity.
      * clear. induction s1 as [|a s1 IH]; [reflexivity|].
        change (String a s1 ++ "") with (String a (s1 ++ "")). congruence.
    + rewrite split_app_hyphen by assumption.
      pose proof (split_nonempty hyphen t) as Hne.
      destruct (split hyphen t) eqn:Hs; [congruence|reflexivity].
  - intros voiceName Hlen. unfold resolveGoogleLanguageCode.
    destruct (Nat.leb_spec 2 (length (split hyphen voiceName))); [lia|].
    destruct GOOGLE_TTS_LANGUAGE as [[|c s]|]; reflexivity.
  - apply split_single_hyphen_free.
  - intros H. rewrite split_hyphen_free by assumption. simpl. lia.
Qed.

Example resolve_examples :
  resolveGoogleLanguageCode None "en-US-Neural2-F" = "en-US"
  /\ resolveGoogleLanguageCode (Some "fr-FR") "ja-JP-Wavenet-A" = "ja-JP"
  /\ resolveGoogleLanguageCode (Some "fr-FR") "solo" = "fr-FR"
  /\ resolveGoogleLanguageCode None "solo" = "en-US"
  /\ resolveGoogleLanguageCode (Some "") "solo" = "en-US"
  /\ resolveGoogleLanguageCode None "en-" = "en-"
  /\ split hyphen "a--b" = ["a"; ""; "b"].
Proof. repeat split; reflexivity. Qed.

End Locale.

(** ** Removing pictographs before synthesis *)

Module Sanitize.

(** A JavaScript string is a sequence of UTF-16 code units. *)
Definition js_string := list Z.

Definition is_high (u : Z) : bool := (0xD800 <=? u) && (u <=? 0xDBFF).
Definition is_low (u : Z) : bool := (0xDC00 <=? u) && (u <=? 0xDFFF).

(** The code point of a surrogate pair. *)
Definition pair_code_point (hi lo : Z) : Z :=
  0x10000 + (hi - 0xD800) * 0x400 + (lo - 0xDC00).

(** The code units of a code point; a lone surrogate is its own unit. *)
Definition units_of (cp : Z) : js_string :=
  if cp <? 0x10000 then [cp]
  else [0xD800 + (cp - 0x10000) / 0x400; 0xDC00 + (cp - 0x10000) mod 0x400].

Definition encode (cps : list Z) : js_string := flat_map units_of cps.

(** Unicode scalar values: code points that are not surrogates. *)
Definition scalar (cp : Z) : bool :=
  (0 <=? cp) && (cp <? 0x110000) && negb (is_high cp || is_low cp).

(** A UTF-16 code unit. *)
Definition code_unit (u : Z) : bool := (0 <=? u) && (u <? 0x10000).

Section Replace.

(** The property [\p{Extended_Pictographic}] on code points. *)
Variable pictographic : Z -> bool.

(** The code points a [/u] regular expression sees: a high surrogate
    followed by a low surrogate is one code point, any other unit (also
    an unpaired surrogate) is a code point of its own. *)
Fixpoint code_points (text : js_string) : list Z :=
  match text with
  | [] => []
  | u :: rest =>
      match rest with
      | l :: rest' =>
          if is_high u && is_low l then pair_code_point u l :: code_points rest'
          else u :: code_points rest
      | [] => [u]
      end
  end.

(** [text.replace(/\p{Extended_Pictographic}/gu, "")]: the scan goes code
    point by code point from the left; a match is dropped, and anything
    else is copied unit by unit. *)
Fixpoint replace_pictographic (text : js_string) : js_string :=
  match text with
  | [] => []
  | u :: rest =>
      match rest with
      | l :: rest' =>
          if is_high u && is_low l then
            if pictographic (pair_code_point u l) then replace_pictographic rest'
            else u :: l :: replace_pictographic rest'
          else
            if pictographic u then replace_pictographic rest
            else u :: replace_pictographic rest
      | [] => if pictographic u then [] else [u]
      end
  end.

(** [DiscordBot.sanitizeForTTS]; the replacement itself does not throw, so
    the [catch] branch that returns [text] is never taken. *)
Definition sanitizeForTTS (text : js_string) : js_string :=
  replace_pictographic text.

Definition plain (cp : Z) : bool := negb (pictographic cp).

End Replace.

(** The property as Unicode 14 defines it (emoji-data.txt), as inclusive
    ranges.  The code does not fix the version: the regular expression reads
    the table of the runtime, and the versions of Unicode differ on code
    points above U+203C (mostly unassigned ones that are reserved for
    pictographs).  The facts about [sanitizeForTTS] are therefore proved for
    any property [pictographic]; this table is used only for the samples,
    whose pictographs U+1F600 and U+2764 have the property in every version,
    and for the code units below U+203C, where the versions agree. *)
Definition Extended_Pictographic_ranges : list (Z * Z) :=
  [(0xA9, 0xA9); (0xAE, 0xAE); (0x203C, 0x203C); (0x2049, 0x2049);
   (0x2122, 0x2122); (0x2139, 0x2139); (0x2194, 0x2199); (0x21A9, 0x21AA);
   (0x231A, 0x231B); (0x2328, 0x2328); (0x2388, 0x2388); (0x23CF, 0x23CF);
   (0x23E9, 0x23F3); (0x23F8, 0x23FA); (0x24C2, 0x24C2); (0x25AA, 0x25AB);
   (0x25B6, 0x25B6); (0x25C0, 0x25C0); (0x25FB, 0x25FE); (0x2600, 0x2605);
   (0x2607, 0x2612); (0x2614, 0x2685); (0x2690, 0x2705); (0x2708, 0x2712);
   (0x2714, 0x2714); (0x2716, 0x2716); (0x271D, 0x271D); (0x2721, 0x2721);
   (0x2728, 0x2728); (0x2733, 0x2734); (0x2744, 0x2744); (0x2747, 0x2747);
   (0x274C, 0x274C); (0x274E, 0x274E); (0x2753, 0x2755); (0x2757, 0x2757);
   (0x2763, 0x2767); (0x2795, 0x2797); (0x27A1, 0x27A1); (0x27B0, 0x27B0);
   (0x27BF, 0x27BF); (0x2934, 0x2935); (0x2B05, 0x2B07); (0x2B1B, 0x2B1C);
   (0x2B50, 0x2B50); (0x2B55, 0x2B55); (0x3030, 0x3030); (0x303D, 0x303D);
   (0x3297, 0x3297); (0x3299, 0x3299); (0x1F000, 0x1F0FF);
   (0x1F10D, 0x1F10F); (0x1F12F, 0x1F12F); (0x1F16C, 0x1F171);
   (0x1F17E, 0x1F17F); (0x1F18E, 0x1F18E); (0x1F191, 0x1F19A);
   (0x1F1AD, 0x1F1E5); (0x1F201, 0x1F20F); (0x1F21A, 0x1F21A);
   (0x1F22F, 0x1F22F); (0x1F232, 0x1F23A); (0x1F23C, 0x1F23F);
   (0x1F249, 0x1F3FA); (0x1F400, 0x1F53D); (0x1F546, 0x1F64F);
   (0x1F680, 0x1F6FF); (0x1F774, 0x1F77F); (0x1F7D5, 0x1F7FF);
   (0x1F80C, 0x1F80F); (0x1F848, 0x1F84F); (0x1F85A, 0x1F85F);
   (0x1F888, 0x1F88F); (0x1F8AE, 0x1F8FF); (0x1F90C, 0x1F93A);
   (0x1F93C, 0x1F945); (0x1F947, 0x1FAFF); (0x1FC00, 0x1FFFD)].

Definition Extended_Pictographic (cp : Z) : bool :=
  existsb (fun r => (fst r <=? cp) && (cp <=? snd r)) Extended_Pictographic_ranges.

(** Units below U+203C other than the copyright and the registered sign. *)
Definition everyday (u : Z) : Prop := u < 0x203C /\ u <> 0xA9 /\ u <> 0xAE.

(** *** Facts *)

Section ReplaceFacts.

Variable pictographic : Z -> bool.

Lemma units_of_scalar_bmp (cp : Z) :
  scalar cp = true -> cp < 0x10000 ->
  units_of cp = [cp] /\ is_high cp = false.
Proof.
  unfold scalar, units_of. intros H Hlt.
  destruct (Z.ltb_spec cp 0x10000); [|lia].
  apply andb_prop in H as [_ H]. apply negb_true_iff, orb_false_elim in H as [H _].
  auto.
Qed.

Lemma units_of_scalar_pair (cp : Z) :
  scalar cp = true -> 0x10000 <= cp ->
  exists hi lo, units_of cp = [hi; lo] /\ is_high hi = true /\ is_low lo = true
                /\ pair_code_point hi lo = cp.
Proof.
  unfold scalar, units_of. intros H Hge.
  destruct (Z.ltb_spec cp 0x10000); [lia|].
  apply andb_prop in H as [H _]. apply andb_prop in H as [_ H].
  apply Z.ltb_lt in H.
  pose proof (Z.div_mod (cp - 0x10000) 0x400 ltac:(lia)) as Hdm.
  pose proof (Z.mod_pos_bound (cp - 0x10000) 0x400 ltac:(lia)) as Hm.
  assert (0 <= (cp - 0x10000) / 0x400 < 0x400) as Hd.
  { split; [apply Z.div_pos; lia|apply Z.div_lt_upper_bound; lia]. }
  eexists _, _. split; [reflexivity|]. unfold is_high, is_low, pair_code_point.
  repeat split.
  - apply andb_true_intro. split; apply Z.leb_le; lia.
  - apply andb_true_intro. split; apply Z.leb_le; lia.
  - lia.
Qed.

Lemma replace_units_of (cp : Z) (s : js_string) :
  scalar cp = true ->
  replace_pictographic pictographic (units_of cp ++ s)
  = (if pictographic cp then [] else units_of cp)
    ++ replace_pictographic pictographic s.
Proof.
  intros Hcp. destruct (Z.lt_ge_cases cp 0x10000) as [Hlt|Hge].
  - destruct (units_of_scalar_bmp cp Hcp Hlt) as [-> Hhigh].
    simpl. rewrite Hhigh. simpl.
    destruct s as [|l rest]; destruct (pictographic cp); reflexivity.
  - destruct (units_of_scalar_pair cp Hcp Hge) as (hi & lo & -> & Hhi & Hlo & Hp).
    simpl. rewrite Hhi, Hlo, Hp. simpl.
    destruct (pictographic cp); reflexivity.
Qed.

Lemma sanitize_encode (cps : list Z) :
  Forall (fun cp => scalar cp = true) cps ->
  sanitizeForTTS pictographic (encode cps)
  = encode (filter (fun cp => plain pictographic cp = true) cps).
Proof.
  unfold sanitizeForTTS, encode, plain.
  induction 1 as [|cp cps Hcp _ IH]; [reflexivity|].
  simpl flat_map. rewrite replace_units_of by assumption. rewrite IH.
  rewrite filter_cons. destruct (pictographic cp); reflexivity.
Qed.

(** A string none of whose code points is pictographic is returned as it
    is, whether it is well formed or not. *)
Lemma sanitize_plain_upto (n : nat) (text : js_string) :
  (length text <= n)%nat ->
  Forall (fun cp => pictographic cp = false) (code_points text) ->
  sanitizeForTTS pictographic text = text.
Proof.
  unfold sanitizeForTTS. revert text.
  induction n as [|n IH]; intros text Hlen Hplain.
  - destruct text; [reflexivity|simpl in Hlen; lia].
  - destruct text as [|u [|l rest']]; [reflexivity| |].
    + simpl in *. inversion Hplain as [|? ? Hu _]; subst. rewrite Hu. reflexivity.
    + simpl in Hlen.
      change (code_points (u :: l :: rest'))
        with (if is_high u && is_low l
              then pair_code_point u l :: code_points rest'
              else u :: code_points (l :: rest')) in Hplain.
      change (replace_pictographic pictographic (u :: l :: rest'))
        with (if is_high u && is_low l then
                if pictographic (pair_code_point u l)
                then replace_pictographic pictographic rest'
                else u :: l :: replace_pictographic pictographic rest'
              else
                if pictographic u
                then replace_pictographic pictographic (l :: rest')
                else u :: replace_pictographic pictographic (l :: rest')).
      destruct (is_high u && is_low l);
        inversion Hplain as [|? ? Hu Hrest]; subst; rewrite Hu.
      * rewrite IH by (assumption || lia). reflexivity.
      * rewrite IH by (assumption || simpl; lia). reflexivity.
Qed.

Lemma sanitize_plain (text : js_string) :
  Forall (fun cp => pictographic cp = false) (code_points text) ->
  sanitizeForTTS pictographic text = text.
Proof. apply (sanitize_plain_upto (length text)). lia. Qed.

Lemma units_of_unit (u : Z) : code_unit u = true -> units_of u = [u].
Proof.
  unfold code_unit, units_of. intros H. apply andb_prop in H as [_ H]. rewrite H.
  reflexivity.
Qed.

Lemma units_of_pair (hi lo : Z) :
  is_high hi = true -> is_low lo = true ->
  units_of (pair_code_point hi lo) = [hi; lo].
Proof.
  unfold is_high, is_low, units_of, pair_code_point. intros Hh Hl.
  apply andb_prop in Hh as [Hh1 Hh2]. apply andb_prop in Hl as [Hl1 Hl2].
  apply Z.leb_le in Hh1, Hh2, Hl1, Hl2.
  destruct (Z.ltb_spec (65536 + (hi - 55296) * 1024 + (lo - 56320)) 65536); [lia|].
  replace (65536 + (hi - 55296) * 1024 + (lo - 56320) - 65536)
    with ((lo - 56320) + (hi - 55296) * 1024) by lia.
  rewrite Z.div_add by lia. rewrite Z.mod_add by lia.
  rewrite Z.div_small by lia. rewrite Z.mod_small by lia.
  f_equal; [lia|f_equal; lia].
Qed.

Lemma encode_plain_cons (cp : Z) (cps : list Z) :
  encode (filter (fun cp => plain pictographic cp = true) (cp :: cps))
  = (if pictographic cp then [] else units_of cp)
    ++ encode (filter (fun cp => plain pictographic cp = true) cps).
Proof.
  rewrite filter_cons. destruct (decide (plain pictographic cp = true)) as [H|H];
    unfold plain in H; destruct (pictographic cp); try discriminate H;
    try reflexivity.
  contradiction H. reflexivity.
Qed.

(** On every string the replacement drops the code points that are
    pictographic, as the scan reads them, and keeps the units of the
    others. *)
Lemma replace_code_points_upto (n : nat) (text : js_string) :
  (length text <= n)%nat ->
  Forall (fun u => code_unit u = true) text ->
  replace_pictographic pictographic text
  = encode (filter (fun cp => plain pictographic cp = true)
              (code_points text)).
Proof.
  revert text. induction n as [|n IH]; intros text Hlen Hu.
  - destruct text; [reflexivity|simpl in Hlen; lia].
  - destruct text as [|u [|l rest']]; [reflexivity| |].
    + apply Forall_cons in Hu as [Hu _].
      change (code_points [u]) with [u]. rewrite encode_plain_cons.
      rewrite (units_of_unit u Hu).
      change (replace_pictographic pictographic [u])
        with (if pictographic u then [] else [u]).
      destruct (pictographic u); reflexivity.
    + simpl in Hlen.
      change (code_points (u :: l :: rest'))
        with (if is_high u && is_low l
              then pair_code_point u l :: code_points rest'
              else u :: code_points (l :: rest')).
      change (replace_pictographic pictographic (u :: l :: rest'))
        with (if is_high u && is_low l then
                if pictographic (pair_code_point u l)
                then replace_pictographic pictographic rest'
                else u :: l :: replace_pictographic pictographic rest'
              else
                if pictographic u
                then replace_pictographic pictographic (l :: rest')
                else u :: replace_pictographic pictographic (l :: rest')).
      apply Forall_cons in Hu as [Hu1 Hu]. pose proof Hu as Hul.
      apply Forall_cons in Hu as [Hu2 Hu].
      destruct (is_high u && is_low l) eqn:Hp.
      * apply andb_prop in Hp as [Hh Hl]. rewrite encode_plain_cons.
        rewrite (IH rest') by (assumption || lia).
        rewrite (units_of_pair u l Hh Hl).
        destruct (pictographic (pair_code_point u l)); reflexivity.
      * rewrite encode_plain_cons.
        rewrite (IH (l :: rest')) by (assumption || simpl; lia).
        rewrite (units_of_unit u Hu1).
        destruct (pictographic u); reflexivity.
Qed.

Lemma code_points_encode (cps : list Z) :
  Forall (fun cp => scalar cp = true) cps -> code_points (encode cps) = cps.
Proof.
  unfold encode. induction 1 as [|cp cps Hcp _ IH]; [reflexivity|].
  simpl flat_map. destruct (Z.lt_ge_cases cp 0x10000) as [Hlt|Hge].
  - destruct (units_of_scalar_bmp cp Hcp Hlt) as [-> Hhigh].
    cbn [app]. destruct (flat_map units_of cps) as [|l rest] eqn:Hf.
    + rewrite <- IH. reflexivity.
    + change (code_points (cp :: l :: rest))
        with (if is_high cp && is_low l
              then pair_code_point cp l :: code_points rest
              else cp :: code_points (l :: rest)).
      rewrite Hhigh. cbn [andb]. rewrite IH. reflexivity.
  - destruct (units_of_scalar_pair cp Hcp Hge) as (hi & lo & -> & Hhi & Hlo & Hp).
    cbn [app code_points]. rewrite Hhi, Hlo, Hp. cbn [andb]. rewrite IH. reflexivity.
Qed.

(** C10, as the code has it.  On every string the sanitizer removes exactly
    the pictographic code points, read as the regular expression reads
    them (a surrogate pair is one code point, an unpaired surrogate is a
    code point of its own), and keeps the units of the others in order; a
    string without pictographic code points is returned unchanged, well
    formed or not.  On a well-formed string (the encoding of Unicode scalar
    values, no unpaired surrogate) the code points are those scalar values
    and the sanitizer is idempotent. *)
Theorem sanitizeForTTS_spec (text : js_string) :
  (Forall (fun u => code_unit u = true) text ->
   sanitizeForTTS pictographic text
   = encode (filter (fun cp => plain pictographic cp = true) (code_points text)))
  /\ (Forall (fun cp => pictographic cp = false) (code_points text) ->
      sanitizeForTTS pictographic text = text)
  /\ (forall cps, Forall (fun cp => scalar cp = true) cps -> text = encode cps ->
        code_points text = cps
        /\ sanitizeForTTS pictographic text
           = encode (filter (fun cp => plain pictographic cp = true) cps)
        /\ sanitizeForTTS pictographic (sanitizeForTTS pictographic text)
           = sanitizeForTTS pictographic text).
Proof.
  split; [|split].
  - intros Hu. apply (replace_code_points_upto (length text)); [lia|exact Hu].
  - apply sanitize_plain.
  - intros cps Hwf ->. split; [apply code_points_encode, Hwf|].
    split; [apply sanitize_encode, Hwf|].
    rewrite !sanitize_encode; try assumption.
    + f_equal. apply list_filter_filter_l. auto.
    + apply Forall_forall. intros cp Hin.
      apply list_elem_of_filter in Hin as [_ Hin].
      rewrite Forall_forall in Hwf. auto.
Qed.

End ReplaceFacts.

Lemma sanitizeForTTS_spec_witness :
  sanitizeForTTS Extended_Pictographic (encode [0x48; 0x1F600; 0x69; 0x2764])
  = encode [0x48; 0x69]
  /\ sanitizeForTTS Extended_Pictographic
       (sanitizeForTTS Extended_Pictographic (encode [0x48; 0x1F600; 0x69; 0x2764]))
     = sanitizeForTTS Extended_Pictographic (encode [0x48; 0x1F600; 0x69; 0x2764])
  /\ sanitizeForTTS Extended_Pictographic [0x48; 0xD83D; 0x69] = [0x48; 0xD83D; 0x69]
  /\ sanitizeForTTS Extended_Pictographic [0xD83D; 0x2764; 0xDE00]
     = encode (filter (fun cp => plain Extended_Pictographic cp = true)
                 (code_points [0xD83D; 0x2764; 0xDE00])).
Proof.
  destruct (sanitizeForTTS_spec Extended_Pictographic
              (encode [0x48; 0x1F600; 0x69; 0x2764])) as (_ & _ & H3).
  destruct (H3 [0x48; 0x1F600; 0x69; 0x2764]) as (_ & Ha & Hb);
    [repeat constructor|reflexivity|].
  split; [exact Ha|]. split; [exact Hb|]. split.
  - destruct (sanitizeForTTS_spec Extended_Pictographic [0x48; 0xD83D; 0x69])
      as (_ & H2 & _).
    apply H2. repeat constructor.
  - destruct (sanitizeForTTS_spec Extended_Pictographic [0xD83D; 0x2764; 0xDE00])
      as (H1 & _ & _).
    apply H1. repeat constructor.
Defined.

Example sanitize_hi : 
  sanitizeForTTS Extended_Pictographic [0x48; 0xD83D; 0xDE00; 0x69; 0x2764] = [0x48; 0x69].
Proof. reflexivity. Qed.

(** An unpaired high surrogate, a heart and an unpaired low surrogate:
    removing the heart brings the two surrogates together, and they now
    read as U+1F600, which a second pass removes. *)
Lemma sanitizeForTTS_not_idempotent :
  sanitizeForTTS Extended_Pictographic [0xD83D; 0x2764; 0xDE00] = [0xD83D; 0xDE00]
  /\ sanitizeForTTS Extended_Pictographic
       (sanitizeForTTS Extended_Pictographic [0xD83D; 0x2764; 0xDE00])
     <> sanitizeForTTS Extended_Pictographic [0xD83D; 0x2764; 0xDE00].
Proof. split; [reflexivity|]. vm_compute. discriminate. Qed.

(** *** Strings of any shape *)

Lemma replace_sublist_upto (pictographic : Z -> bool) (n : nat) (text : js_string) :
  (length text <= n)%nat ->
  sublist (replace_pictographic pictographic text) text.
Proof.
  revert text. induction n as [|n IH]; intros text Hlen.
  - destruct text; [constructor|simpl in Hlen; lia].
  - destruct text as [|u [|l rest']]; [constructor| |].
    + simpl. destruct (pictographic u); repeat constructor.
    + simpl in Hlen.
      change (replace_pictographic pictographic (u :: l :: rest'))
        with (if is_high u && is_low l then
                if pictographic (pair_code_point u l)
                then replace_pictographic pictographic rest'
                else u :: l :: replace_pictographic pictographic rest'
              else
                if pictographic u
                then replace_pictographic pictographic (l :: rest')
                else u :: replace_pictographic pictographic (l :: rest')).
      assert (H1 : sublist (replace_pictographic pictographic rest') rest')
        by (apply IH; lia).
      assert (H2 : sublist (replace_pictographic pictographic (l :: rest')) (l :: rest'))
        by (apply IH; simpl; lia).
      destruct (is_high u && is_low l).
      * destruct (pictographic (pair_code_point u l)).
        -- apply sublist_cons, sublist_cons, H1.
        -- apply sublist_skip, sublist_skip, H1.
      * destruct (pictographic u).
        -- apply sublist_cons, H2.
        -- apply sublist_skip, H2.
Qed.

(** X2: whatever the string, well formed or not, the sanitizer only takes code
    units away: what it returns is the input with some units left out, in
    the same order, so it is never longer than the input. *)
Theorem sanitizeForTTS_sublist (pictographic : Z -> bool) (text : js_string) :
  sublist (sanitizeForTTS pictographic text) text
  /\ (length (sanitizeForTTS pictographic text) <= length text)%nat.
Proof.
  assert (H : sublist (sanitizeForTTS pictographic text) text)
    by (apply (replace_sublist_upto pictographic (length text)); lia).
  split; [exact H|apply sublist_length, H].
Qed.

Lemma everyday_plain (u : Z) : everyday u -> Extended_Pictographic u = false.
Proof.
  intros (H1 & H2 & H3). unfold Extended_Pictographic, Extended_Pictographic_ranges.
  cbn [existsb fst snd].
  repeat match goal with
    | |- context [(?lo <=? u) && (u <=? ?hi)] =>
        replace ((lo <=? u) && (u <=? hi)) with false
          by (symmetry; apply andb_false_iff;
              destruct (Z.leb_spec lo u); [right; apply Z.leb_gt; lia|left; reflexivity])
    end.
  reflexivity.
Qed.

Lemma everyday_code_points (text : js_string) :
  Forall everyday text -> code_points text = text.
Proof.
  induction 1 as [|u rest Hu _ IH]; [reflexivity|].
  destruct rest as [|l rest']; [reflexivity|].
  change (code_points (u :: l :: rest'))
    with (if is_high u && is_low l
          then pair_code_point u l :: code_points rest'
          else u :: code_points (l :: rest')).
  assert (Hh : is_high u = false).
  { unfold is_high. destruct Hu as [Hu _]. apply andb_false_iff. left.
    apply Z.leb_gt. lia. }
  rewrite Hh. cbn [andb]. rewrite IH. reflexivity.
Qed.

(** X3: text in the Latin, Greek, Cyrillic, Hebrew or Arabic script, digits and
    common punctuation pass unchanged: a string whose units are all below
    U+203C, the copyright and the registered sign apart, is returned as it
    is. *)
Theorem sanitizeForTTS_everyday (text : js_string) :
  Forall everyday text ->
  sanitizeForTTS Extended_Pictographic text = text.
Proof.
  intros H. apply sanitize_plain. rewrite everyday_code_points by exact H.
  eapply Forall_impl; [exact H|]. apply everyday_plain.
Qed.

Lemma sanitizeForTTS_everyday_witness :
  sanitizeForTTS Extended_Pictographic [0x48; 0xE9; 0x3B1; 0x416; 0x2019]
  = [0x48; 0xE9; 0x3B1; 0x416; 0x2019].
Proof.
  apply (sanitizeForTTS_everyday [0x48; 0xE9; 0x3B1; 0x416; 0x2019]).
  repeat constructor; unfold everyday; lia.
Defined.

End Sanitize.

(** ** Persisted runtime settings *)

Module Settings.

Local Open Scope string_scope.

(** Values that [JSON.parse] returns. *)
Inductive json :=
| JNull
| JBool (b : bool)
| JNumber (n : Z)
| JString (s : string)
| JArray (items : list json)
| JObject (fields : list (string * json)).

(** An object as the code builds it: property name to value. *)
Abbreviation object := (gmap string json).

(** [DEFAULT_SETTINGS] *)
Definition DEFAULT_SETTINGS : object :=
  <["chatModelPreset" := JString "balanced"]>
  (<["ttsProvider" := JString "openai"]>
  (<["ttsVoice" := JString "alloy"]> ∅)).

(** The own enumerable properties that a spread copies: the fields of an
    object, the indexed elements of an array, the indexed characters of a
    string, and nothing for the other values. *)
Definition own_properties (v : json) : list (string * json) :=
  match v with
  | JObject fields => fields
  | JArray items => imap (fun i x => (pretty i, x)) items
  | JString s =>
      imap (fun i c => (pretty i, JString (String c EmptyString)))
        (list_ascii_of_string s)
  | JNull | JBool _ | JNumber _ => []
  end.

(** [{ ...base, ...v }]: later properties replace earlier ones. *)
Definition spread (base : object) (v : json) : object :=
  foldl (fun o kv => <[fst kv := snd kv]> o) base (own_properties v).

Inductive load_error :=
| FsError (code : string)
| SyntaxError (message : string).

(** What the two file-system calls on [SETTINGS_PATH] observe. *)
Record settings_file := {
  existsSync : bool;
  readFileSync : result load_error string
}.

(** The settings file on disk: absent, or its text. *)
Definition disk := option string.

(** What [existsSync] and [readFileSync] observe of a readable disk. *)
Definition file_of (d : disk) : settings_file :=
  match d with
  | Some raw => {| existsSync := true; readFileSync := Ok raw |}
  | None => {| existsSync := false; readFileSync := Throw (FsError "ENOENT") |}
  end.

(** How [writeFile] ends: the text is on disk, or the promise is rejected
    and the disk is left in some state. *)
Inductive write_outcome :=
| Written
| WriteFailed (e : load_error) (remains : disk).

Section Save.

(** [JSON.stringify(data, null, 2)] of the runtime. *)
Variable JSON_stringify : object -> string.

(** [saveRuntimeSettings] *)
Definition saveRuntimeSettings (io : write_outcome) (data : object) (d : disk)
  : result load_error unit * disk :=
  match io with
  | Written => (Ok tt, Some (JSON_stringify data))
  | WriteFailed e remains => (Throw e, remains)
  end.

End Save.

Section Load.

(** [JSON.parse] of the runtime. *)
Variable JSON_parse : string -> result load_error json.

Local Open Scope result_scope.

(** The body of the [try] block. *)
Definition loadRuntimeSettings_try (f : settings_file) : result load_error object :=
  if negb (existsSync f) then Ok DEFAULT_SETTINGS
  else
    try! raw <- readFileSync f;
    try! parsed <- JSON_parse raw;
    Ok (spread DEFAULT_SETTINGS parsed).

(** [loadRuntimeSettings]: the [catch] branch warns on the console and
    returns a copy of the defaults. *)
Definition loadRuntimeSettings (f : settings_file) : object :=
  match loadRuntimeSettings_try f with
  | Ok settings => settings
  | Throw _ => DEFAULT_SETTINGS
  end.

(** C9: a settings file that is missing, cannot be read or does not parse
    yields the hard-coded defaults (the function returns, it does not
    throw); a result other than the defaults comes from a file that was
    read and parsed. *)
Theorem loadRuntimeSettings_defaults (f : settings_file) :
  (existsSync f = false -> loadRuntimeSettings f = DEFAULT_SETTINGS)
  /\ (forall e, readFileSync f = Throw e -> loadRuntimeSettings f = DEFAULT_SETTINGS)
  /\ (forall raw e, readFileSync f = Ok raw -> JSON_parse raw = Throw e ->
                    loadRuntimeSettings f = DEFAULT_SETTINGS)
  /\ (loadRuntimeSettings f <> DEFAULT_SETTINGS ->
      exists raw parsed,
        existsSync f = true /\ readFileSync f = Ok raw
        /\ JSON_parse raw = Ok parsed
        /\ loadRuntimeSettings f = spread DEFAULT_SETTINGS parsed).
Proof.
  unfold loadRuntimeSettings, loadRuntimeSettings_try.
  destruct (existsSync f) eqn:Hex; simpl.
  - destruct (readFileSync f) as [raw|e] eqn:Hread; simpl.
    + destruct (JSON_parse raw) as [parsed|e] eqn:Hparse; simpl.
      * repeat split; try discriminate.
        -- intros raw' e Hraw. injection Hraw as <-. congruence.
        -- intros _. exists raw, parsed. auto.
      * repeat split; try reflexivity. intros H. contradiction H. reflexivity.
    + repeat split; try reflexivity. intros H. contradiction H. reflexivity.
  - repeat split; try reflexivity. intros H. contradiction H. reflexivity.
Qed.

End Load.

(** A parser that knows three documents, enough to run the function. *)
Definition quoted (s : string) : string :=
  String (ascii_of_nat 34) s ++ String (ascii_of_nat 34) "".

Definition nova_document : string :=
  "{" ++ quoted "ttsVoice" ++ ":" ++ quoted "nova" ++ "}".

Definition toy_parse (raw : string) : result load_error json :=
  if String.eqb raw nova_document
  then Ok (JObject [("ttsVoice", JString "nova")])
  else if String.eqb raw "[7]" then Ok (JArray [JNumber 7])
  else if String.eqb raw "null" then Ok JNull
  else Throw (SyntaxError "Unexpected token").

Example load_missing :
  loadRuntimeSettings toy_parse
    {| existsSync := false; readFileSync := Throw (FsError "ENOENT") |}
  = DEFAULT_SETTINGS.
Proof. reflexivity. Qed.

Example load_unreadable :
  loadRuntimeSettings toy_parse
    {| existsSync := true; readFileSync := Throw (FsError "EACCES") |}
  = DEFAULT_SETTINGS.
Proof. reflexivity. Qed.

Example load_corrupt :
  loadRuntimeSettings toy_parse
    {| existsSync := true; readFileSync := Ok "{ttsVoice:" |}
  = DEFAULT_SETTINGS.
Proof. reflexivity. Qed.

Example load_override :
  loadRuntimeSettings toy_parse
    {| existsSync := true; readFileSync := Ok nova_document |}
  = <["ttsVoice" := JString "nova"]> DEFAULT_SETTINGS.
Proof. reflexivity. Qed.

Example load_array :
  loadRuntimeSettings toy_parse
    {| existsSync := true; readFileSync := Ok "[7]" |}
  = <["0" := JNumber 7]> DEFAULT_SETTINGS.
Proof. reflexivity. Qed.

(** *** More facts *)

Lemma spread_keeps (fields : list (string * json)) : forall (base : object) k,
  is_Some (base !! k) ->
  is_Some (foldl (fun o kv => <[fst kv := snd kv]> o) base fields !! k).
Proof.
  induction fields as [|[k0 v0] fields IH]; intros base k H; [exact H|].
  cbn [foldl fst snd]. apply IH. apply lookup_insert_is_Some'. auto.
Qed.

Lemma spread_union (fields : list (string * json)) : forall base : object,
  NoDup fields.*1 ->
  foldl (fun o kv => <[fst kv := snd kv]> o) base fields
  = list_to_map fields ∪ base.
Proof.
  induction fields as [|[k v] fields IH]; intros base Hnd.
  - cbn. rewrite (left_id ∅ (∪)). reflexivity.
  - cbn [foldl fst snd]. cbn in Hnd. apply NoDup_cons in Hnd as [Hk Hnd].
    rewrite IH by exact Hnd. cbn [list_to_map foldr]. 
    change (foldr (fun kv : string * json => <[kv.1:=kv.2]>) ∅ fields)
      with (list_to_map fields : object).
    rewrite <- insert_union_l. symmetry. apply insert_union_r.
    apply not_elem_of_list_to_map_1, Hk.
Qed.

Section LoadFacts.

Variable JSON_parse : string -> result load_error json.

(** X4: loading never loses a setting: the three keys of the defaults have a
    value in the result, whatever the file holds. *)
Theorem loadRuntimeSettings_keys (f : settings_file) (k : string) :
  is_Some (DEFAULT_SETTINGS !! k) ->
  is_Some (loadRuntimeSettings JSON_parse f !! k).
Proof.
  intros Hk. unfold loadRuntimeSettings, loadRuntimeSettings_try.
  destruct (existsSync f); cbn [negb]; [|exact Hk].
  destruct (readFileSync f) as [raw|]; cbn [rbind]; [|exact Hk].
  destruct (JSON_parse raw) as [parsed|]; cbn [rbind]; [|exact Hk].
  apply spread_keeps, Hk.
Qed.

(** X5: a file that holds an object is merged over the defaults: a property of
    the file takes the place of the default, also one that the defaults do
    not know, and a default that the file does not mention stays. *)
Theorem loadRuntimeSettings_merge (f : settings_file) (raw : string)
  (fields : list (string * json)) :
  existsSync f = true -> readFileSync f = Ok raw ->
  JSON_parse raw = Ok (JObject fields) -> NoDup fields.*1 ->
  (forall k v, (k, v) ∈ fields -> loadRuntimeSettings JSON_parse f !! k = Some v)
  /\ (forall k, k ∉ fields.*1 ->
        loadRuntimeSettings JSON_parse f !! k = DEFAULT_SETTINGS !! k).
Proof.
  intros Hex Hread Hparse Hnd. unfold loadRuntimeSettings, loadRuntimeSettings_try.
  rewrite Hex, Hread. cbn [negb rbind]. rewrite Hparse. cbn [rbind].
  unfold spread. cbn [own_properties]. rewrite spread_union by exact Hnd. split.
  - intros k v Hin. apply lookup_union_Some_l.
    apply elem_of_list_to_map_1; assumption.
  - intros k Hk. apply lookup_union_r. apply not_elem_of_list_to_map_1, Hk.
Qed.

(** X6: what was saved is what the next start loads: after a write that
    succeeded, loading gives the saved settings, completed by the defaults
    for the keys they lack; settings that have the three keys come back as
    they were. *)
Theorem save_then_load (JSON_stringify : object -> string) (data : object)
  (d : disk) (fields : list (string * json)) :
  JSON_parse (JSON_stringify data) = Ok (JObject fields) ->
  NoDup fields.*1 -> list_to_map fields = data ->
  fst (saveRuntimeSettings JSON_stringify Written data d) = Ok tt
  /\ loadRuntimeSettings JSON_parse
       (file_of (snd (saveRuntimeSettings JSON_stringify Written data d)))
     = data ∪ DEFAULT_SETTINGS
  /\ ((forall k, is_Some (DEFAULT_SETTINGS !! k) -> is_Some (data !! k)) ->
      loadRuntimeSettings JSON_parse
        (file_of (snd (saveRuntimeSettings JSON_stringify Written data d)))
      = data).
Proof.
  intros Hparse Hnd Hdata. cbn [saveRuntimeSettings fst snd file_of].
  unfold loadRuntimeSettings, loadRuntimeSettings_try.
  cbn [existsSync readFileSync negb rbind]. rewrite Hparse. cbn [rbind].
  unfold spread. cbn [own_properties]. rewrite spread_union by exact Hnd.
  rewrite Hdata. split; [reflexivity|]. split; [reflexivity|].
  intros Hkeys. apply map_eq. intros k.
  destruct (data !! k) as [v|] eqn:Hv.
  - rewrite (lookup_union_Some_l _ _ _ _ Hv). reflexivity.
  - rewrite lookup_union_r by exact Hv.
    destruct (DEFAULT_SETTINGS !! k) as [v0|] eqn:H0; [|reflexivity].
    destruct (Hkeys k) as [v1 Hv1]; [eauto|]. congruence.
Qed.

End LoadFacts.

Lemma loadRuntimeSettings_keys_witness :
  is_Some (loadRuntimeSettings toy_parse
             {| existsSync := true; readFileSync := Ok "[7]" |} !! "ttsVoice").
Proof.
  apply (loadRuntimeSettings_keys toy_parse
           {| existsSync := true; readFileSync := Ok "[7]" |} "ttsVoice").
  exists (JString "alloy"). reflexivity.
Defined.

Lemma loadRuntimeSettings_merge_witness :
  (forall k v, (k, v) ∈ [("ttsVoice", JString "nova")] ->
     loadRuntimeSettings toy_parse
       {| existsSync := true; readFileSync := Ok nova_document |} !! k = Some v)
  /\ (forall k, k ∉ [("ttsVoice", JString "nova")].*1 ->
        loadRuntimeSettings toy_parse
          {| existsSync := true; readFileSync := Ok nova_document |} !! k
        = DEFAULT_SETTINGS !! k).
Proof.
  apply (loadRuntimeSettings_merge toy_parse
           {| existsSync := true; readFileSync := Ok nova_document |} nova_document
           [("ttsVoice", JString "nova")]); try reflexivity.
  apply NoDup_singleton.
Defined.

(** A serializer that knows one document. *)
Definition toy_stringify (data : object) : string := nova_document.

Lemma save_then_load_witness :
  fst (saveRuntimeSettings toy_stringify Written {[ "ttsVoice" := JString "nova" ]} None)
  = Ok tt
  /\ loadRuntimeSettings toy_parse
       (file_of (snd (saveRuntimeSettings toy_stringify Written
                        {[ "ttsVoice" := JString "nova" ]} None)))
     = {[ "ttsVoice" := JString "nova" ]} ∪ DEFAULT_SETTINGS
  /\ ((forall k, is_Some (DEFAULT_SETTINGS !! k) ->
                 is_Some (({[ "ttsVoice" := JString "nova" ]} : object) !! k)) ->
      loadRuntimeSettings toy_parse
        (file_of (snd (saveRuntimeSettings toy_stringify Written
                         {[ "ttsVoice" := JString "nova" ]} None)))
      = {[ "ttsVoice" := JString "nova" ]}).
Proof.
  apply (save_then_load toy_parse toy_stringify {[ "ttsVoice" := JString "nova" ]} None
           [("ttsVoice", JString "nova")]).
  - reflexivity.
  - apply NoDup_singleton.
  - reflexivity.
Defined.

End Settings.

(** ** The synthesis gateway *)

Module Voice.

Local Open Scope string_scope.
Local Open Scope result_scope.

Inductive TTSProvider := openai | elevenlabs | playht | coqui | azure | google.

Inductive AudioFormat := wav | mp3 | opus.

Inductive GoogleEncoding := LINEAR16 | MP3 | OGG_OPUS.

(** The fields of a [VoiceService] after construction.  [openaiClient]
    tells whether the client is set or [null]. *)
Record VoiceService := {
  provider : TTSProvider;
  voiceName : string;
  audioFormat : AudioFormat;
  enabled : bool;
  openaiClient : bool;
  elevenLabsApiKey : option string;
  googleApiKey : option string;
  googleSampleRate : Q
}.

(** [process.env], as far as the synthesis path reads it. *)
Record process_env := {
  GOOGLE_TTS_VOICE : option string;
  GOOGLE_TTS_LANGUAGE : option string
}.

(** A settled HTTP response.  [audioContent] is the property of that name
    of the JSON body, a base64 string, when the body has one. *)
Record response := {
  ok : bool;
  status : Z;
  text : string;
  arrayBuffer : Wav.buffer;
  audioContent : option string
}.

Inductive synth_error :=
| Error (message : string)
| RangeError (e : Rate.range_error)
| Rejected (reason : string).

(** What lies outside the service: the remote services, with what each
    call answers or the reason why the call itself fails, and the base64
    decoder of the runtime, [Buffer.from(s, "base64")]. *)
Record network := {
  openai_speech_create :
    string -> string -> AudioFormat -> result synth_error Wav.buffer;
  elevenlabs_fetch : string -> string -> string -> result synth_error response;
  google_fetch :
    string -> string -> string -> string -> GoogleEncoding -> Q ->
    result synth_error response;
  Buffer_from_base64 : string -> Wav.buffer
}.

Record synthesis := { buffer : Wav.buffer; format : AudioFormat }.

(** Truthiness of a possibly undefined string. *)
Definition truthy (x : option string) : bool :=
  match x with
  | Some (String _ _) => true
  | Some EmptyString | None => false
  end.

(** The providers that [synthesizeSpeech] serves. *)
Definition supported (p : TTSProvider) : bool :=
  match p with openai | elevenlabs | google => true | _ => false end.

(** [VoiceService.setVoice] *)
Definition setVoice (voice : string) (this : VoiceService) : VoiceService :=
  {| provider := provider this; voiceName := voice;
     audioFormat := audioFormat this; enabled := enabled this;
     openaiClient := openaiClient this;
     elevenLabsApiKey := elevenLabsApiKey this;
     googleApiKey := googleApiKey this;
     googleSampleRate := googleSampleRate this |}.

(** [VoiceService.setProvider] *)
Definition setProvider (p : TTSProvider) (this : VoiceService) : VoiceService :=
  {| provider := p; voiceName := voiceName this;
     audioFormat := audioFormat this; enabled := enabled this;
     openaiClient := openaiClient this;
     elevenLabsApiKey := elevenLabsApiKey this;
     googleApiKey := googleApiKey this;
     googleSampleRate := googleSampleRate this |}.

Section Synthesis.

Variable net : network.
Variable env : process_env.

(** [VoiceService.isEnabled] *)
Definition isEnabled (this : VoiceService) : bool :=
  if negb (enabled this) then false
  else match provider this with
       | openai => openaiClient this
       | elevenlabs => truthy (elevenLabsApiKey this)
       | google => truthy (googleApiKey this)
       | _ => false
       end.

(** [VoiceService.generateOpenAITTS] *)
Definition generateOpenAITTS (this : VoiceService) (text : string)
  (formatOverride : option AudioFormat) : result synth_error synthesis :=
  if negb (openaiClient this) then Throw (Error "OpenAI client is not configured.")
  else
    let format := default (audioFormat this) formatOverride in
    try! arrayBuffer <- openai_speech_create net (voiceName this) text format;
    Ok {| buffer := arrayBuffer; format := format |}.

(** [VoiceService.generateElevenLabsTTS] *)
Definition generateElevenLabsTTS (this : VoiceService) (text : string)
  : result synth_error synthesis :=
  match elevenLabsApiKey this with
  | Some (String c k) =>
      let voiceId := Locale.or_else (Some (voiceName this)) "21m00Tcm4TlvDq8ikWAM" in
      try! response <- elevenlabs_fetch net voiceId (String c k) text;
      if negb (ok response)
      then Throw (Error ("ElevenLabs TTS failed (" ++ pretty (status response)
                         ++ "): " ++ Voice.text response))
      else Ok {| buffer := arrayBuffer response; format := mp3 |}
  | Some EmptyString | None =>
      Throw (Error "ELEVENLABS_API_KEY environment variable is required for ElevenLabs TTS.")
  end.

(** [VoiceService.mapFormatToGoogleEncoding] *)
Definition mapFormatToGoogleEncoding (format : AudioFormat) : GoogleEncoding :=
  match format with
  | mp3 => MP3
  | opus => OGG_OPUS
  | wav => LINEAR16
  end.

(** [VoiceService.generateGoogleCloudTTS] *)
Definition generateGoogleCloudTTS (this : VoiceService) (text : string)
  (formatOverride : option AudioFormat) : result synth_error synthesis :=
  match googleApiKey this with
  | Some (String c k) =>
      let desiredFormat := default (audioFormat this) formatOverride in
      let encoding := mapFormatToGoogleEncoding desiredFormat in
      let voiceName :=
        Locale.or_else (Some (voiceName this))
          (Locale.or_else (GOOGLE_TTS_VOICE env) "en-US-Neural2-F") in
      let languageCode :=
        Locale.resolveGoogleLanguageCode (GOOGLE_TTS_LANGUAGE env) voiceName in
      let sampleRate := googleSampleRate this in
      try! response <-
        google_fetch net (String c k) text voiceName languageCode encoding sampleRate;
      if negb (ok response)
      then Throw (Error ("Google Cloud TTS failed (" ++ pretty (status response)
                         ++ "): " ++ Voice.text response))
      else match audioContent response with
           | Some (String c0 content) =>
               let audioBuffer := Buffer_from_base64 net (String c0 content) in
               match encoding with
               | LINEAR16 =>
                   match Rate.wrapLinear16AsWav audioBuffer sampleRate with
                   | Ok wrapped => Ok {| buffer := wrapped; format := wav |}
                   | Throw e => Throw (RangeError e)
                   end
               | MP3 => Ok {| buffer := audioBuffer; format := mp3 |}
               | OGG_OPUS => Ok {| buffer := audioBuffer; format := opus |}
               end
           | Some EmptyString | None =>
               Throw (Error "Google Cloud TTS response did not include audioContent.")
           end
  | Some EmptyString | None =>
      Throw (Error "GOOGLE_TTS_API_KEY environment variable is required for Google Cloud TTS.")
  end.

(** The request that [generateGoogleCloudTTS] sends with a key. *)
Definition google_request (this : VoiceService) (key text : string)
  (encoding : GoogleEncoding) : result synth_error response :=
  let voiceName :=
    Locale.or_else (Some (voiceName this))
      (Locale.or_else (GOOGLE_TTS_VOICE env) "en-US-Neural2-F") in
  google_fetch net key text voiceName
    (Locale.resolveGoogleLanguageCode (GOOGLE_TTS_LANGUAGE env) voiceName)
    encoding (googleSampleRate this).

(** [VoiceService.synthesizeSpeech] *)
Definition synthesizeSpeech (this : VoiceService) (text : string)
  (personality : option string) (formatOverride : option AudioFormat)
  : result synth_error synthesis :=
  if negb (isEnabled this) then Throw (Error "Voice output is disabled.")
  else match provider this with
       | openai => generateOpenAITTS this text formatOverride
       | elevenlabs => generateElevenLabsTTS this text
       | google => generateGoogleCloudTTS this text formatOverride
       | _ => Throw (Error "TTS provider is not supported yet.")
       end.

(** C5: whatever format the caller asks for, a synthesis through the
    ElevenLabs backend that returns reports the format [mp3]; and it does
    return, with the body of the response, whenever the service is enabled,
    the key is set and the remote call succeeds. *)
Theorem elevenlabs_reports_mp3 (this : VoiceService) (text : string)
  (personality : option string) (requested : option AudioFormat) :
  provider this = elevenlabs ->
  (forall r, synthesizeSpeech this text personality requested = Ok r -> format r = mp3)
  /\ (forall key resp,
        enabled this = true ->
        elevenLabsApiKey this = Some key -> key <> "" ->
        elevenlabs_fetch net
          (Locale.or_else (Some (voiceName this)) "21m00Tcm4TlvDq8ikWAM") key text
        = Ok resp ->
        ok resp = true ->
        synthesizeSpeech this text personality requested
        = Ok {| buffer := arrayBuffer resp; format := mp3 |}).
Proof.
  intros Hprov. unfold synthesizeSpeech, isEnabled, generateElevenLabsTTS.
  rewrite Hprov. split.
  - intros r. destruct (enabled this); simpl; [|discriminate].
    destruct (elevenLabsApiKey this) as [[|c k]|]; simpl; try discriminate.
    destruct (elevenlabs_fetch net _ _ text) as [resp|e]; simpl; [|discriminate].
    destruct (ok resp); simpl; [|discriminate].
    intros H. injection H as <-. reflexivity.
  - intros key resp Hen Hkey Hne Hfetch Hok. rewrite Hen, Hkey.
    destruct key as [|c k]; [congruence|]. cbn -[Locale.or_else].
    rewrite Hfetch. cbn -[Locale.or_else]. rewrite Hok. reflexivity.
Qed.

End Synthesis.

(** A network in which ElevenLabs answers with three octets. *)
Definition demo_network : network := {|
  openai_speech_create := fun _ _ _ => Throw (Rejected "offline");
  elevenlabs_fetch := fun _ _ _ =>
    Ok {| ok := true; status := 200; text := ""; arrayBuffer := [73; 68; 51];
          audioContent := None |};
  google_fetch := fun _ _ _ _ _ _ => Throw (Rejected "offline");
  Buffer_from_base64 := fun _ => []
|}.

Definition demo_env : process_env :=
  {| GOOGLE_TTS_VOICE := None; GOOGLE_TTS_LANGUAGE := None |}.

Definition demo_service : VoiceService := {|
  provider := elevenlabs; voiceName := "Rachel"; audioFormat := wav;
  enabled := true; openaiClient := false; elevenLabsApiKey := Some "sk-demo";
  googleApiKey := None; googleSampleRate := 24000
|}.

Lemma elevenlabs_reports_mp3_witness :
  (forall r, synthesizeSpeech demo_network demo_env demo_service "hello" None (Some wav)
             = Ok r -> format r = mp3)
  /\ (forall key resp,
        enabled demo_service = true ->
        elevenLabsApiKey demo_service = Some key -> key <> "" ->
        elevenlabs_fetch demo_network
          (Locale.or_else (Some (voiceName demo_service)) "21m00Tcm4TlvDq8ikWAM")
          key "hello" = Ok resp ->
        ok resp = true ->
        synthesizeSpeech demo_network demo_env demo_service "hello" None (Some wav)
        = Ok {| buffer := arrayBuffer resp; format := mp3 |}).
Proof.
  apply (elevenlabs_reports_mp3 demo_network demo_env demo_service "hello" None (Some wav)).
  reflexivity.
Defined.

Example elevenlabs_wav_requested :
  synthesizeSpeech demo_network demo_env demo_service "hello" None (Some wav)
  = Ok {| buffer := [73; 68; 51]; format := mp3 |}.
Proof. reflexivity. Qed.

(** *** More facts *)

Section SynthesisFacts.

Variable net : network.
Variable env : process_env.

(** X7: a service set to PlayHT, Coqui or Azure counts as disabled whatever its
    flag and keys: every synthesis fails with the message for a disabled
    voice output, so that the branch for unsupported providers is never
    reached. *)
Theorem unserved_provider_disabled (this : VoiceService) (text : string)
  (personality : option string) (requested : option AudioFormat) :
  supported (provider this) = false ->
  isEnabled this = false
  /\ synthesizeSpeech net env this text personality requested
     = Throw (Error "Voice output is disabled.").
Proof.
  unfold synthesizeSpeech, isEnabled.
  destruct (provider this); cbn [supported]; try discriminate; intros _;
    destruct (enabled this); split; reflexivity.
Qed.

(** X8: OpenAI and Google answer in the format that was asked for: the override
    of the call, or else the format of the service. *)
Theorem requested_format_reported (this : VoiceService) (text : string)
  (personality : option string) (requested : option AudioFormat) (r : synthesis) :
  provider this <> elevenlabs ->
  synthesizeSpeech net env this text personality requested = Ok r ->
  format r = default (audioFormat this) requested.
Proof.
  intros Hp. unfold synthesizeSpeech.
  destruct (isEnabled this); cbn [negb]; [|discriminate].
  destruct (provider this); try discriminate; try contradiction.
  - unfold generateOpenAITTS. destruct (openaiClient this); cbn [negb]; [|discriminate].
    destruct (openai_speech_create net _ _ _); cbn [rbind]; [|discriminate].
    intros H. injection H as <-. reflexivity.
  - unfold generateGoogleCloudTTS.
    destruct (googleApiKey this) as [[|c k]|]; try discriminate.
    cbv zeta. destruct (google_fetch net _ _ _ _ _ _) as [resp|]; cbn [rbind];
      [|discriminate].
    destruct (ok resp); cbn [negb]; [|discriminate].
    destruct (audioContent resp) as [[|c0 content]|]; try discriminate.
    destruct (default (audioFormat this) requested); cbn [mapFormatToGoogleEncoding].
    + destruct (Rate.wrapLinear16AsWav _ _); [|discriminate].
      intros H. injection H as <-. reflexivity.
    + intros H. injection H as <-. reflexivity.
    + intros H. injection H as <-. reflexivity.
Qed.

(** X9: a wav synthesis through Google that returns has sent the request with
    the key and got a response with a non-empty [audioContent]; what it
    returns is the 44-octet header for the sample rate of the service
    followed by the decoded [audioContent], so the sample rate, also one
    that is not an integer, fits the header.  Whenever such a response
    comes and the rate and the length fit, it does return; and a response
    without [audioContent], or with an empty one, makes it throw. *)
Theorem google_wav_wrapped (this : VoiceService) (text : string)
  (personality : option string) (requested : option AudioFormat) :
  provider this = google ->
  default (audioFormat this) requested = wav ->
  (forall r, synthesizeSpeech net env this text personality requested = Ok r ->
     exists key resp content,
       googleApiKey this = Some key
       /\ google_request net env this key text LINEAR16 = Ok resp
       /\ ok resp = true
       /\ audioContent resp = Some content /\ content <> ""
       /\ buffer r
          = (Rate.wav_header
               (Z.of_nat (length (Buffer_from_base64 net content)))
               (googleSampleRate this)
             ++ Buffer_from_base64 net content)%list
       /\ length (buffer r) = (length (Buffer_from_base64 net content) + 44)%nat
       /\ format r = wav
       /\ (0 <= googleSampleRate this)%Q
       /\ (googleSampleRate this * 2 <= 4294967295)%Q)
  /\ (forall key resp content,
        enabled this = true -> googleApiKey this = Some key -> key <> "" ->
        google_request net env this key text LINEAR16 = Ok resp ->
        ok resp = true ->
        audioContent resp = Some content -> content <> "" ->
        (0 <= googleSampleRate this)%Q ->
        (googleSampleRate this * 2 <= 4294967295)%Q ->
        36 + Z.of_nat (length (Buffer_from_base64 net content)) <= 4294967295 ->
        synthesizeSpeech net env this text personality requested
        = Ok {| buffer :=
                  (Rate.wav_header
                     (Z.of_nat (length (Buffer_from_base64 net content)))
                     (googleSampleRate this)
                   ++ Buffer_from_base64 net content)%list;
                format := wav |})
  /\ (forall key resp,
        enabled this = true -> googleApiKey this = Some key -> key <> "" ->
        google_request net env this key text LINEAR16 = Ok resp ->
        ok resp = true ->
        audioContent resp = None \/ audioContent resp = Some "" ->
        synthesizeSpeech net env this text personality requested
        = Throw (Error "Google Cloud TTS response did not include audioContent.")).
Proof.
  intros Hp Hf. unfold synthesizeSpeech, isEnabled, google_request. rewrite Hp.
  unfold generateGoogleCloudTTS. rewrite Hf. cbn [mapFormatToGoogleEncoding].
  cbv zeta. split; [|split].
  - intros r. destruct (enabled this); cbn [negb]; [|discriminate].
    destruct (googleApiKey this) as [[|c k]|]; cbn [truthy negb]; try discriminate.
    destruct (google_fetch net _ _ _ _ _ _) as [resp|] eqn:Hfetch; cbn [rbind];
      [|discriminate].
    destruct (ok resp) eqn:Hok; cbn [negb]; [|discriminate].
    destruct (audioContent resp) as [[|c0 content]|] eqn:Hraw; try discriminate.
    destruct (Rate.wrapLinear16AsWav _ _) as [wrapped|] eqn:Hw; [|discriminate].
    intros Hr. injection Hr as <-. cbn [buffer format].
    destruct (Rate.wrapLinear16AsWav_result _ _ _ Hw) as (Hwrapped & Hlen & _).
    destruct (proj1 (Rate.wrapLinear16AsWav_returns _ _) (ex_intro _ wrapped Hw))
      as (H0 & H1 & _).
    exists (String c k), resp, (String c0 content).
    repeat split; try assumption; discriminate.
  - intros key resp content Hen Hkey Hne Hfetch Hok Hraw Hcontent H0 H1 H2.
    rewrite Hen, Hkey. destruct key as [|c k]; [contradiction|]. cbn [truthy negb].
    rewrite Hfetch. cbn [rbind]. rewrite Hok. cbn [negb]. rewrite Hraw.
    destruct content as [|c0 content]; [contradiction|].
    destruct (proj2 (Rate.wrapLinear16AsWav_returns
                       (Buffer_from_base64 net (String c0 content))
                       (googleSampleRate this)) (conj H0 (conj H1 H2)))
      as [wrapped Hw].
    rewrite Hw. destruct (Rate.wrapLinear16AsWav_result _ _ _ Hw) as (-> & _).
    reflexivity.
  - intros key resp Hen Hkey Hne Hfetch Hok Hraw.
    rewrite Hen, Hkey. destruct key as [|c k]; [contradiction|]. cbn [truthy negb].
    rewrite Hfetch. cbn [rbind]. rewrite Hok. cbn [negb].
    destruct Hraw as [->| ->]; reflexivity.
Qed.

End SynthesisFacts.

(** A network in which OpenAI and Google answer, with a decoder that knows
    one document. *)
Definition studio_network : network := {|
  openai_speech_create := fun _ _ _ => Ok [79; 103; 103; 83];
  elevenlabs_fetch := fun _ _ _ => Throw (Rejected "offline");
  google_fetch := fun _ _ _ _ _ _ =>
    Ok {| ok := true; status := 200; text := ""; arrayBuffer := [];
          audioContent := Some "AQD/fw==" |};
  Buffer_from_base64 := fun s => if String.eqb s "AQD/fw==" then [1; 0; 255; 127] else []
|}.

Definition azure_service : VoiceService := {|
  provider := azure; voiceName := "en-GB-SoniaNeural"; audioFormat := wav;
  enabled := true; openaiClient := true; elevenLabsApiKey := Some "sk-demo";
  googleApiKey := Some "AIza-demo"; googleSampleRate := 24000
|}.

Definition openai_service : VoiceService := {|
  provider := openai; voiceName := "alloy"; audioFormat := wav;
  enabled := true; openaiClient := true; elevenLabsApiKey := None;
  googleApiKey := None; googleSampleRate := 24000
|}.

Definition google_service : VoiceService := {|
  provider := google; voiceName := "en-US-Neural2-F"; audioFormat := wav;
  enabled := true; openaiClient := false; elevenLabsApiKey := None;
  googleApiKey := Some "AIza-demo"; googleSampleRate := 24000
|}.

Lemma unserved_provider_disabled_witness :
  isEnabled azure_service = false
  /\ synthesizeSpeech studio_network demo_env azure_service "hello" None (Some mp3)
     = Throw (Error "Voice output is disabled.").
Proof.
  apply (unserved_provider_disabled studio_network demo_env azure_service "hello"
           None (Some mp3)).
  reflexivity.
Defined.

Lemma requested_format_reported_witness :
  format {| buffer := [79; 103; 103; 83]; format := opus |}
  = default (audioFormat openai_service) (Some opus).
Proof.
  apply (requested_format_reported studio_network demo_env openai_service "hello"
           None (Some opus)).
  - discriminate.
  - reflexivity.
Defined.

Lemma google_wav_wrapped_witness :
  (forall r, synthesizeSpeech studio_network demo_env google_service "hello" None None
             = Ok r ->
     exists key resp content,
       googleApiKey google_service = Some key
       /\ google_request studio_network demo_env google_service key "hello" LINEAR16
          = Ok resp
       /\ ok resp = true
       /\ audioContent resp = Some content /\ content <> ""
       /\ buffer r
          = (Rate.wav_header
               (Z.of_nat (length (Buffer_from_base64 studio_network content)))
               (googleSampleRate google_service)
             ++ Buffer_from_base64 studio_network content)%list
       /\ length (buffer r)
          = (length (Buffer_from_base64 studio_network content) + 44)%nat
       /\ format r = wav
       /\ (0 <= googleSampleRate google_service)%Q
       /\ (googleSampleRate google_service * 2 <= 4294967295)%Q)
  /\ synthesizeSpeech studio_network demo_env google_service "hello" None None
     = Ok {| buffer :=
               (Rate.wav_header 4 (googleSampleRate google_service)
                ++ [1; 0; 255; 127])%list;
             format := wav |}.
Proof.
  destruct (google_wav_wrapped studio_network demo_env google_service "hello" None None)
    as (H1 & H2 & _); [reflexivity|reflexivity|].
  split; [exact H1|].
  apply (H2 "AIza-demo"
            {| ok := true; status := 200; text := ""; arrayBuffer := [];
               audioContent := Some "AQD/fw==" |} "AQD/fw==");
    try reflexivity; try discriminate.
Defined.

Example google_wav_synthesis :
  synthesizeSpeech studio_network demo_env google_service "hello" None None
  = Ok {| buffer :=
            [82; 73; 70; 70; 40; 0; 0; 0; 87; 65; 86; 69; 102; 109; 116; 32;
             16; 0; 0; 0; 1; 0; 1; 0; 192; 93; 0; 0; 128; 187; 0; 0; 2; 0; 16; 0;
             100; 97; 116; 97; 4; 0; 0; 0; 1; 0; 255; 127];
          format := wav |}.
Proof. reflexivity. Qed.

End Voice.

(** ** The delivery pipeline *)

Module Delivery.

Local Open Scope string_scope.

(** A voice connection of [@discordjs/voice]: its identity and the guild
    and channel of its [joinConfig]. *)
Record VoiceConnection := {
  connection_id : nat;
  guildId : string;
  channelId : string
}.

#[global] Instance VoiceConnection_eq_dec : EqDecision VoiceConnection.
Proof. solve_decision. Defined.

Inductive resource := Primary | Silence (frames : nat).

(** What the pipeline does to the transport and to the console, in order. *)
Inductive event :=
| ConnectionDestroyed (c : VoiceConnection)
| ConnectionJoined (c : VoiceConnection)
| AwaitReady (c : VoiceConnection)
| PlayerCreated
| PlayerSubscribed (c : VoiceConnection)
| PlayerPlay (r : resource)
| AwaitPlaying (timeout : Z)
| AwaitIdle (timeout : Z)
| Unsubscribed
| PlayerStopped
| ConsoleWarn (message : string).

Inductive error :=
| Error (message : string)
| Aborted (what : string).

(** The tracked connections (one per guild, as [getVoiceConnection] sees
    them), the next connection identity and the trace so far. *)
Record world := {
  connections : gmap string VoiceConnection;
  next_connection : nat;
  trace : list event
}.

(** How the transport answers during one call: every wait and every call
    into the voice library either succeeds or fails with an error. *)
Record transport := {
  ready_30s : result error unit;
  opus_stream : result error unit;
  subscribe : bool;
  play_primary : result error unit;
  playing_5s : result error unit;
  idle_120s : result error unit;
  silence_resource : result error unit;
  play_silence : result error unit;
  silence_playing_1s : result error unit;
  silence_idle_2s : result error unit
}.

(** Computations that change the world and may throw. *)
Definition M (A : Type) : Type := world -> result error A * world.

Definition ret {A} (a : A) : M A := fun w => (Ok a, w).

Definition throw {A} (e : error) : M A := fun w => (Throw e, w).

Definition bind {A B} (m : M A) (k : A -> M B) : M B :=
  fun w => match m w with
           | (Ok a, w') => k a w'
           | (Throw e, w') => (Throw e, w')
           end.

Definition lift {A} (r : result error A) : M A := fun w => (r, w).

Definition emit (e : event) : M unit :=
  fun w => (Ok tt, {| connections := connections w;
                      next_connection := next_connection w;
                      trace := trace w ++ [e] |}).

(** [try { body } catch (error) { handler(error) }] *)
Definition try_catch {A} (body : M A) (handler : error -> M A) : M A :=
  fun w => match body w with
           | (Ok a, w') => (Ok a, w')
           | (Throw e, w') => handler e w'
           end.

(** [try { body } finally { cleanup }] *)
Definition try_finally {A} (body : M A) (cleanup : M unit) : M A :=
  fun w => match body w with
           | (r, w') => match cleanup w' with
                        | (Ok _, w'') => (r, w'')
                        | (Throw e, w'') => (Throw e, w'')
                        end
           end.

Declare Scope delivery_scope.
Delimit Scope delivery_scope with delivery.
Notation "'do!' x <- m ; k" := (bind m (fun x => k))
  (at level 10, x name, m at level 100, k at level 200) : delivery_scope.
Notation "'run!' m ; k" := (bind m (fun _ => k))
  (at level 10, m at level 100, k at level 200) : delivery_scope.
Local Open Scope delivery_scope.

(** [getVoiceConnection(guildId)] *)
Definition getVoiceConnection (guild : string) : M (option VoiceConnection) :=
  fun w => (Ok (connections w !! guild), w).

(** The library tracks a connection from [joinVoiceChannel] until it is
    destroyed: the connections that are alive are the tracked ones. *)
Definition alive (c : VoiceConnection) (w : world) : bool :=
  bool_decide (map_Exists (fun _ tracked => tracked = c) (connections w)).

(** [connection.destroy()]: the connection is no longer tracked.  The
    library refuses to destroy a connection a second time. *)
Definition destroy (c : VoiceConnection) : M unit :=
  fun w =>
    if alive c w
    then (Ok tt, {| connections := delete (guildId c) (connections w);
                    next_connection := next_connection w;
                    trace := trace w ++ [ConnectionDestroyed c] |})
    else (Throw (Error "Cannot destroy VoiceConnection - it has already been destroyed"),
          w).

(** [joinVoiceChannel({channelId, guildId, ...})]: a new tracked
    connection. *)
Definition joinVoiceChannel (channel guild : string) : M VoiceConnection :=
  fun w =>
    let c := {| connection_id := next_connection w; guildId := guild;
                channelId := channel |} in
    (Ok c, {| connections := <[guild := c]> (connections w);
              next_connection := S (next_connection w);
              trace := trace w ++ [ConnectionJoined c] |}).

Section Pipeline.

Variable t : transport.

(** [DiscordBot.createSilenceStream], default frame count. *)
Definition default_silence_frames : nat := 5.

(** [DiscordBot.flushSilenceFrames] *)
Definition flushSilenceFrames : M unit :=
  try_catch
    (run! lift (silence_resource t);
     run! emit (PlayerPlay (Silence default_silence_frames));
     run! lift (play_silence t);
     run! emit (AwaitPlaying 1000);
     run! lift (silence_playing_1s t);
     run! emit (AwaitIdle 2000);
     lift (silence_idle_2s t))
    (fun _ => emit (ConsoleWarn "Failed to flush silence frames:")).

(** [connection.subscribe(audioPlayer)]: the library gives a subscription
    unless the connection is destroyed.  [subscribe t] tells whether the
    connection is still alive at this point; one that is not was destroyed
    from outside while the call was waiting, and is no longer tracked. *)
Definition connection_subscribe (c : VoiceConnection) : M bool :=
  if subscribe t then ret true
  else fun w => (Ok false, {| connections := delete (guildId c) (connections w);
                              next_connection := next_connection w;
                              trace := trace w |}).

(** [DiscordBot.playAudioBuffer] *)
Definition playAudioBuffer (guild voiceChannel : string) : M unit :=
  do! connection <- getVoiceConnection guild;
  do! connection <-
    match connection with
    | Some c =>
        let currentChannel := channelId c in
        if negb (String.eqb currentChannel voiceChannel)
        then run! destroy c; ret None
        else ret (Some c)
    | None => ret None
    end;
  do! connection <-
    match connection with
    | None => joinVoiceChannel voiceChannel guild
    | Some c => ret c
    end;
  run! emit (AwaitReady connection);
  run! lift (ready_30s t);
  run! emit PlayerCreated;
  run! lift (opus_stream t);
  do! subscription <- connection_subscribe connection;
  if negb subscription
  then run! destroy connection;
       throw (Error "Unable to subscribe audio player to the voice connection.")
  else
    run! emit (PlayerSubscribed connection);
    run! emit (PlayerPlay Primary);
    run! lift (play_primary t);
    try_finally
      (run! emit (AwaitPlaying 5000);
       run! lift (playing_5s t);
       run! emit (AwaitIdle 120000);
       run! lift (idle_120s t);
       flushSilenceFrames)
      (run! emit Unsubscribed; emit PlayerStopped).

End Pipeline.

(** [DiscordBot.handleLeaveVoiceCommand] *)
Definition handleLeaveVoiceCommand (guild : string) : M string :=
  do! connection <- getVoiceConnection guild;
  match connection with
  | None => ret "I'm not connected to a voice channel right now."
  | Some c => run! destroy c; ret "Disconnected from the voice channel."
  end.

(** Connections are tracked under the guild of their [joinConfig]. *)
Definition well_keyed (w : world) : Prop :=
  forall g c, connections w !! g = Some c -> guildId c = g.

(** The events of the audio player. *)
Definition uses_player (e : event) : bool :=
  match e with PlayerPlay _ | PlayerCreated | PlayerSubscribed _ => true | _ => false end.

(** A resource handed to the player. *)
Definition is_play (e : event) : bool :=
  match e with PlayerPlay _ => true | _ => false end.

(** The connection that the call waits for: the tracked one when it is bound
    to the requested channel, a new one otherwise. *)
Definition awaited (guild voiceChannel : string) (w : world) : VoiceConnection :=
  match connections w !! guild with
  | Some c =>
      if String.eqb (channelId c) voiceChannel then c
      else {| connection_id := next_connection w; guildId := guild;
              channelId := voiceChannel |}
  | None => {| connection_id := next_connection w; guildId := guild;
               channelId := voiceChannel |}
  end.


(** A transport whose connection is destroyed before the player can be
    subscribed. *)
Definition deaf_transport : transport := {|
  ready_30s := Ok tt; opus_stream := Ok tt; subscribe := false;
  play_primary := Ok tt; playing_5s := Ok tt; idle_120s := Ok tt;
  silence_resource := Ok tt; play_silence := Ok tt;
  silence_playing_1s := Ok tt; silence_idle_2s := Ok tt
|}.

Definition is_join (e : event) : bool :=
  match e with ConnectionJoined _ => true | _ => false end.

Definition is_destroy (e : event) : bool :=
  match e with ConnectionDestroyed _ => true | _ => false end.

Definition is_warn (e : event) : bool :=
  match e with ConsoleWarn _ => true | _ => false end.

(** The flush ran into an error at one of its four fallible steps. *)
Definition flush_failed (t : transport) : Prop :=
  (exists e, silence_resource t = Throw e)
  \/ (exists e, play_silence t = Throw e)
  \/ (exists e, silence_playing_1s t = Throw e)
  \/ (exists e, silence_idle_2s t = Throw e).

(** *** Facts *)

Lemma alive_tracked (g : string) (c : VoiceConnection) (w : world) :
  connections w !! g = Some c -> alive c w = true.
Proof.
  intros H. apply bool_decide_eq_true. exists g, c. split; [exact H|reflexivity].
Qed.

Lemma alive_untracked (c : VoiceConnection) (m : gmap string VoiceConnection)
  (n : nat) (l : list event) :
  (forall g c', m !! g = Some c' -> guildId c' = g) ->
  alive c {| connections := delete (guildId c) m; next_connection := n; trace := l |}
  = false.
Proof.
  intros Hk. apply bool_decide_eq_false. intros (g & c' & Hg & ->).
  cbn [connections] in Hg. apply lookup_delete_Some in Hg as [Hne Hg].
  apply Hne. exact (Hk _ _ Hg).
Qed.

Ltac case_transport :=
  repeat match goal with
    | |- context [match ?f ?t with Ok _ => _ | Throw _ => _ end] =>
        let r := fresh "r" in destruct (f t) as [[]|r] eqn:?
    | |- context [if subscribe ?t then _ else _] =>
        destruct (subscribe t) eqn:?;
        cbn [fst snd trace connections next_connection negb]
    | |- context [if alive ?c ?w then _ else _] =>
        destruct (alive c w) eqn:?
    end.

Ltac run_pipeline :=
  unfold playAudioBuffer, flushSilenceFrames, connection_subscribe, try_finally,
    try_catch, bind, getVoiceConnection, destroy, joinVoiceChannel, emit, lift,
    throw, ret;
  cbn [fst snd trace connections next_connection negb].

(** C6: when the guild's connection is bound to another channel than the
    requested one, the old connection is destroyed and only then the new
    one is joined, and the new one is the connection that is awaited; when
    it is bound to the requested channel it is awaited as it is, nothing
    is joined, and nothing is destroyed unless the subscription fails. *)
Theorem playAudioBuffer_rebinding (t : transport) (guild voiceChannel : string)
  (w : world) (c : VoiceConnection) :
  connections w !! guild = Some c ->
  (channelId c <> voiceChannel ->
   exists c' rest,
     trace (snd (playAudioBuffer t guild voiceChannel w))
     = (trace w ++ ConnectionDestroyed c :: ConnectionJoined c' :: AwaitReady c' :: rest)%list
     /\ channelId c' = voiceChannel /\ guildId c' = guild
     /\ existsb is_join rest = false)
  /\ (channelId c = voiceChannel ->
      exists rest,
        trace (snd (playAudioBuffer t guild voiceChannel w))
        = (trace w ++ AwaitReady c :: rest)%list
        /\ existsb is_join rest = false
        /\ (subscribe t = true -> existsb is_destroy rest = false)).
Proof.
  intros Hc. split; intros Hch.
  - apply String.eqb_neq in Hch. run_pipeline. rewrite Hc, Hch.
    cbn [fst snd trace connections next_connection negb].
    rewrite (alive_tracked _ _ _ Hc).
    eexists {| connection_id := next_connection w; guildId := guild;
               channelId := voiceChannel |}.
    case_transport; cbn [fst snd trace connections next_connection negb];
      rewrite <- !app_assoc; cbn [app];
      eexists; (split; [reflexivity|]); repeat split; reflexivity.
  - apply String.eqb_eq in Hch. run_pipeline. rewrite Hc, Hch.
    cbn [fst snd trace connections next_connection negb].
    case_transport; cbn [fst snd trace connections next_connection negb];
      rewrite <- ?app_assoc; cbn [app];
      eexists; (split; [reflexivity|]); split;
      solve [reflexivity | discriminate | intros _; reflexivity].
Qed.

Definition demo_transport : transport := {|
  ready_30s := Ok tt; opus_stream := Ok tt; subscribe := true;
  play_primary := Ok tt; playing_5s := Ok tt; idle_120s := Ok tt;
  silence_resource := Ok tt; play_silence := Ok tt;
  silence_playing_1s := Throw (Aborted "The operation was aborted");
  silence_idle_2s := Ok tt
|}.

Definition lounge : VoiceConnection :=
  {| connection_id := 0; guildId := "g1"; channelId := "lounge" |}.

Definition demo_world : world :=
  {| connections := {[ "g1" := lounge ]}; next_connection := 1; trace := [] |}.

Lemma playAudioBuffer_rebinding_witness :
  (channelId lounge <> "stage" ->
   exists c' rest,
     trace (snd (playAudioBuffer demo_transport "g1" "stage" demo_world))
     = (trace demo_world
        ++ ConnectionDestroyed lounge :: ConnectionJoined c' :: AwaitReady c' :: rest)%list
     /\ channelId c' = "stage" /\ guildId c' = "g1"
     /\ existsb is_join rest = false)
  /\ (channelId lounge = "stage" ->
      exists rest,
        trace (snd (playAudioBuffer demo_transport "g1" "stage" demo_world))
        = (trace demo_world ++ AwaitReady lounge :: rest)%list
        /\ existsb is_join rest = false
        /\ (subscribe demo_transport = true -> existsb is_destroy rest = false)).
Proof.
  apply (playAudioBuffer_rebinding demo_transport "g1" "stage" demo_world lounge).
  reflexivity.
Defined.

Example playAudioBuffer_switch_trace :
  playAudioBuffer demo_transport "g1" "stage" demo_world
  = (Ok tt,
     let stage := {| connection_id := 1; guildId := "g1"; channelId := "stage" |} in
     {| connections := {[ "g1" := stage ]};
        next_connection := 2;
        trace := [ConnectionDestroyed lounge; ConnectionJoined stage;
                  AwaitReady stage; PlayerCreated; PlayerSubscribed stage;
                  PlayerPlay Primary; AwaitPlaying 5000; AwaitIdle 120000;
                  PlayerPlay (Silence 5); AwaitPlaying 1000;
                  ConsoleWarn "Failed to flush silence frames:";
                  Unsubscribed; PlayerStopped] |}).
Proof. reflexivity. Qed.

(** C8: the draining phase never throws; an error at any of its steps
    ends it with a warning on the console; and a playback whose waits for
    the primary content all succeeded succeeds, however the draining
    went. *)
Theorem flushSilenceFrames_swallows (t : transport) (w : world) :
  fst (flushSilenceFrames t w) = Ok tt
  /\ (flush_failed t ->
      exists evs, trace (snd (flushSilenceFrames t w))
                  = (trace w ++ evs ++ [ConsoleWarn "Failed to flush silence frames:"])%list)
  /\ (forall guild voiceChannel,
        ready_30s t = Ok tt -> opus_stream t = Ok tt -> subscribe t = true ->
        play_primary t = Ok tt -> playing_5s t = Ok tt -> idle_120s t = Ok tt ->
        fst (playAudioBuffer t guild voiceChannel w) = Ok tt).
Proof.
  split; [|split].
  - run_pipeline. case_transport; reflexivity.
  - intros Hfail. run_pipeline.
    case_transport; cbn [fst snd trace connections next_connection];
      rewrite <- ?app_assoc; cbn [app];
      try (destruct Hfail as [[e He]|[[e He]|[[e He]|[e He]]]]; congruence).
    all: first
      [ exists []; reflexivity
      | exists [PlayerPlay (Silence default_silence_frames)]; reflexivity
      | exists [PlayerPlay (Silence default_silence_frames); AwaitPlaying 1000];
        reflexivity
      | exists [PlayerPlay (Silence default_silence_frames); AwaitPlaying 1000;
                AwaitIdle 2000];
        reflexivity ].
  - intros guild voiceChannel Hready Hopus Hsub Hplay Hplaying Hidle.
    run_pipeline. rewrite Hready, Hopus, Hsub, Hplay, Hplaying, Hidle.
    destruct (connections w !! guild) as [c|] eqn:Hc;
      [destruct (negb (channelId c =? voiceChannel)%string)|];
      cbn [fst snd trace connections next_connection negb];
      try rewrite (alive_tracked _ _ _ Hc);
      cbn [fst snd trace connections next_connection negb];
      case_transport; reflexivity.
Qed.

(** *** More facts *)

(** X10: once the player is subscribed and the resource handed over, the player
    is unsubscribed and stopped at the end, whether the waits succeed or
    not; the call fails exactly when one of the two waits for the primary
    content fails, with the error of that wait. *)
Theorem playAudioBuffer_cleanup (t : transport) (guild voiceChannel : string)
  (w : world) :
  ready_30s t = Ok tt -> opus_stream t = Ok tt -> subscribe t = true ->
  play_primary t = Ok tt ->
  (exists evs,
     trace (snd (playAudioBuffer t guild voiceChannel w))
     = (trace w ++ evs ++ [Unsubscribed; PlayerStopped])%list)
  /\ fst (playAudioBuffer t guild voiceChannel w)
     = match playing_5s t with
       | Throw e => Throw e
       | Ok _ => match idle_120s t with Throw e => Throw e | Ok _ => Ok tt end
       end.
Proof.
  intros Hready Hopus Hsub Hplay. run_pipeline.
  rewrite Hready, Hopus, Hsub, Hplay.
  destruct (connections w !! guild) as [c|] eqn:Hc;
    [destruct (negb (channelId c =? voiceChannel)%string)|];
    cbn [fst snd trace connections next_connection negb];
    try rewrite (alive_tracked _ _ _ Hc);
    case_transport; cbn [fst snd trace connections next_connection negb];
    rewrite <- ?app_assoc; cbn [app];
    (split; [|reflexivity]);
    match goal with
    | |- exists evs, (?l ++ ?x)%list = _ =>
        let n := eval cbv in (length x - 2)%nat in
        exists (firstn n x); reflexivity
    end.
Qed.

Lemma playAudioBuffer_cleanup_witness :
  (exists evs,
     trace (snd (playAudioBuffer demo_transport "g1" "stage" demo_world))
     = (trace demo_world ++ evs ++ [Unsubscribed; PlayerStopped])%list)
  /\ fst (playAudioBuffer demo_transport "g1" "stage" demo_world)
     = match playing_5s demo_transport with
       | Throw e => Throw e
       | Ok _ => match idle_120s demo_transport with
                 | Throw e => Throw e
                 | Ok _ => Ok tt
                 end
       end.
Proof.
  apply (playAudioBuffer_cleanup demo_transport "g1" "stage" demo_world); reflexivity.
Defined.



(** X12: the library gives no subscription only for a connection that was
    destroyed in the meantime, and it refuses to destroy a connection twice:
    when the player cannot be subscribed, the call fails with the error of
    [connection.destroy()], not with its own message; it ends right after
    the player was created, nothing is played, and the guild is left without
    a tracked connection. *)
Theorem playAudioBuffer_no_subscription (t : transport) (guild voiceChannel : string)
  (w : world) :
  well_keyed w ->
  ready_30s t = Ok tt -> opus_stream t = Ok tt -> subscribe t = false ->
  fst (playAudioBuffer t guild voiceChannel w)
  = Throw (Error "Cannot destroy VoiceConnection - it has already been destroyed")
  /\ fst (playAudioBuffer t guild voiceChannel w)
     <> Throw (Error "Unable to subscribe audio player to the voice connection.")
  /\ connections (snd (playAudioBuffer t guild voiceChannel w)) !! guild = None
  /\ exists evs,
       trace (snd (playAudioBuffer t guild voiceChannel w))
       = (trace w ++ evs
          ++ [AwaitReady (awaited guild voiceChannel w); PlayerCreated])%list
       /\ existsb uses_player evs = false.
Proof.
  intros Hwk Hready Hopus Hsub.
  assert (Hres : fst (playAudioBuffer t guild voiceChannel w)
                 = Throw (Error "Cannot destroy VoiceConnection - it has already been destroyed")
          /\ connections (snd (playAudioBuffer t guild voiceChannel w)) !! guild = None
          /\ exists evs,
               trace (snd (playAudioBuffer t guild voiceChannel w))
               = (trace w ++ evs
                  ++ [AwaitReady (awaited guild voiceChannel w); PlayerCreated])%list
               /\ existsb uses_player evs = false).
  { unfold awaited. run_pipeline. rewrite Hready, Hopus, Hsub.
    destruct (connections w !! guild) as [c|] eqn:Hc;
      [destruct (String.eqb_spec (channelId c) voiceChannel) as [Heq|Hne]|];
      cbn [fst snd trace connections next_connection negb channelId];
      try rewrite (alive_tracked _ _ _ Hc);
      cbn [fst snd trace connections next_connection negb channelId].
    - rewrite alive_untracked by exact Hwk.
      cbn [fst snd trace connections next_connection negb channelId].
      rewrite <- ?app_assoc; cbn [app]. split; [reflexivity|].
      rewrite (Hwk _ _ Hc). split; [apply lookup_delete_eq|].
      exists []. split; reflexivity.
    - rewrite alive_untracked.
      2:{ intros g c' H. apply lookup_insert_Some in H as [[<- <-]|[_ H]];
            [reflexivity|].
          apply lookup_delete_Some in H as [_ H]. exact (Hwk _ _ H). }
      cbn [fst snd trace connections next_connection negb channelId guildId].
      rewrite <- ?app_assoc; cbn [app]. split; [reflexivity|].
      split; [apply lookup_delete_eq|].
      eexists [_; _]. split; reflexivity.
    - rewrite alive_untracked.
      2:{ intros g c' H. apply lookup_insert_Some in H as [[<- <-]|[_ H]];
            [reflexivity|exact (Hwk _ _ H)]. }
      cbn [fst snd trace connections next_connection negb channelId guildId].
      rewrite <- ?app_assoc; cbn [app]. split; [reflexivity|].
      split; [apply lookup_delete_eq|].
      eexists [_]. split; reflexivity. }
  destruct Hres as (Hthrow & Hgone & Htrace).
  split; [exact Hthrow|]. split; [rewrite Hthrow; discriminate|].
  split; assumption.
Qed.

Lemma demo_world_keyed : well_keyed demo_world.
Proof.
  intros g c H. unfold demo_world in H. cbn [connections] in H.
  apply lookup_singleton_Some in H as [<- <-]. reflexivity.
Qed.

Lemma playAudioBuffer_no_subscription_witness :
  fst (playAudioBuffer deaf_transport "g1" "lounge" demo_world)
  = Throw (Error "Cannot destroy VoiceConnection - it has already been destroyed")
  /\ fst (playAudioBuffer deaf_transport "g1" "lounge" demo_world)
     <> Throw (Error "Unable to subscribe audio player to the voice connection.")
  /\ connections (snd (playAudioBuffer deaf_transport "g1" "lounge" demo_world)) !! "g1"
     = None
  /\ exists evs,
       trace (snd (playAudioBuffer deaf_transport "g1" "lounge" demo_world))
       = (trace demo_world ++ evs
          ++ [AwaitReady (awaited "g1" "lounge" demo_world); PlayerCreated])%list
       /\ existsb uses_player evs = false.
Proof.
  apply (playAudioBuffer_no_subscription deaf_transport "g1" "lounge" demo_world);
    first [exact demo_world_keyed | reflexivity].
Defined.



(** X14: leaving never fails.  A guild that is connected is disconnected, which
    the reply says, and the connection is destroyed; a guild that is not
    connected gets the other reply and nothing happens.  Either way the
    guild has no connection afterwards, the other guilds keep theirs, and a
    second leave finds nothing to disconnect. *)
Theorem handleLeaveVoiceCommand_spec (guild : string) (w : world) :
  well_keyed w ->
  fst (handleLeaveVoiceCommand guild w)
  = Ok (match connections w !! guild with
        | Some _ => "Disconnected from the voice channel."
        | None => "I'm not connected to a voice channel right now."
        end)
  /\ trace (snd (handleLeaveVoiceCommand guild w))
     = (trace w ++ match connections w !! guild with
                  | Some c => [ConnectionDestroyed c]
                  | None => []
                  end)%list
  /\ connections (snd (handleLeaveVoiceCommand guild w)) = delete guild (connections w)
  /\ well_keyed (snd (handleLeaveVoiceCommand guild w))
  /\ handleLeaveVoiceCommand guild (snd (handleLeaveVoiceCommand guild w))
     = (Ok "I'm not connected to a voice channel right now.",
        snd (handleLeaveVoiceCommand guild w)).
Proof.
  intros Hwk. unfold handleLeaveVoiceCommand, bind, getVoiceConnection, destroy, ret.
  destruct (connections w !! guild) as [c|] eqn:Hc;
    cbn [fst snd trace connections next_connection].
  - rewrite (alive_tracked _ _ _ Hc).
    cbn [fst snd trace connections next_connection].
    rewrite (Hwk _ _ Hc). rewrite lookup_delete_eq.
    repeat split; try reflexivity.
    intros g c0 H. cbn [connections] in H.
    apply lookup_delete_Some in H as [_ H]. exact (Hwk _ _ H).
  - rewrite Hc. rewrite app_nil_r.
    rewrite (delete_id (connections w) guild Hc).
    repeat split; try reflexivity; exact Hwk.
Qed.

Lemma handleLeaveVoiceCommand_spec_witness :
  fst (handleLeaveVoiceCommand "g1" demo_world)
  = Ok (match connections demo_world !! "g1" with
        | Some _ => "Disconnected from the voice channel."
        | None => "I'm not connected to a voice channel right now."
        end)
  /\ trace (snd (handleLeaveVoiceCommand "g1" demo_world))
     = (trace demo_world ++ match connections demo_world !! "g1" with
                           | Some c => [ConnectionDestroyed c]
                           | None => []
                           end)%list
  /\ connections (snd (handleLeaveVoiceCommand "g1" demo_world))
     = delete "g1" (connections demo_world)
  /\ well_keyed (snd (handleLeaveVoiceCommand "g1" demo_world))
  /\ handleLeaveVoiceCommand "g1" (snd (handleLeaveVoiceCommand "g1" demo_world))
     = (Ok "I'm not connected to a voice channel right now.",
        snd (handleLeaveVoiceCommand "g1" demo_world)).
Proof.
  apply (handleLeaveVoiceCommand_spec "g1" demo_world). exact demo_world_keyed.
Defined.

End Delivery.

(** ** The per-guild playback queue *)

Module Queue.

Local Open Scope nat_scope.

(** *** Promises and the job queue

    Promises live in a store and are known by their index; [===] on
    promises is equality of indices.  A promise is pending, fulfilled or
    rejected, and while it is pending it holds the reactions registered by
    [then].  Settling a promise turns its reactions into jobs of the
    microtask queue, which runs them first in, first out. *)

Definition pid := nat.

(** The values that travel along the chains: [undefined], or some object
    (an error, as a rule). *)
Inductive value := undefined | object (id : nat).

Inductive pstate := Pending | Fulfilled (v : value) | Rejected (e : value).

(** A [VoiceTask] is opaque: when called it either throws, or returns a
    promise that the environment settles later. *)
Inductive task := Throws (e : value) | Async.

(** The callback handed to [finally] in [enqueue]:
    [() => { if (this.queues.get(guildId) === next) this.queues.delete(guildId) }] *)
Inductive callback := Cleanup (guildId : string) (next : pid).

(** The functions that sit in reactions: the closures of [enqueue] and the
    ones that the promise built-ins create. *)
Inductive handler :=
| Identity                                (* missing [onFulfilled] *)
| Thrower                                 (* missing [onRejected] *)
| LogPrevious (guildId : string)          (* the first [catch] of [enqueue] *)
| RunTask (ticket : nat) (t : task)       (* [() => task()] *)
| LogExecuting (guildId : string)         (* the second [catch] of [enqueue] *)
| ThenFinally (onFinally : callback)      (* [finally], fulfilled side *)
| CatchFinally (onFinally : callback)     (* [finally], rejected side *)
| ValueThunk (v : value)                  (* [() => value] *)
| ThrowThunk (e : value)                  (* [() => { throw reason }] *)
| ResolveFn (p : pid)                     (* resolving functions of [p] *)
| RejectFn (p : pid).

Record reaction := {
  on_fulfilled : handler;
  on_rejected : handler;
  derived : pid
}.

Record promise := {
  settled : pstate;
  reactions : list reaction
}.

Inductive job :=
| ReactionJob (h : handler) (target : pid) (argument : value)
| ThenableJob (promiseToResolve : pid) (thenable : pid).

(** How a task ended. *)
Inductive outcome := Returned (v : value) | Failed (e : value).

(** The trace: submissions, starts and ends of tasks (tickets number the
    calls of [enqueue]), and the two [console.error] lines. *)
Inductive event :=
| Submitted (ticket : nat) (guildId : string) (handle : pid)
| Started (ticket : nat)
| Finished (ticket : nat) (o : outcome)
| LoggedPrevious (guildId : string) (e : value)
| LoggedExecuting (guildId : string) (e : value).

Record state := {
  heap : gmap pid promise;
  next_pid : pid;
  jobs : list job;
  queues : gmap string pid;       (* [this.queues] *)
  running : gmap pid nat;         (* promises of started tasks, by ticket *)
  submitted : nat;
  log : list event
}.

Definition init : state := {|
  heap := ∅; next_pid := 0; jobs := []; queues := ∅; running := ∅;
  submitted := 0; log := []
|}.

Definition set_heap (f : gmap pid promise -> gmap pid promise) (s : state) : state :=
  {| heap := f (heap s); next_pid := next_pid s; jobs := jobs s;
     queues := queues s; running := running s; submitted := submitted s;
     log := log s |}.

Definition set_jobs (f : list job -> list job) (s : state) : state :=
  {| heap := heap s; next_pid := next_pid s; jobs := f (jobs s);
     queues := queues s; running := running s; submitted := submitted s;
     log := log s |}.

Definition set_queues (f : gmap string pid -> gmap string pid) (s : state) : state :=
  {| heap := heap s; next_pid := next_pid s; jobs := jobs s;
     queues := f (queues s); running := running s; submitted := submitted s;
     log := log s |}.

Definition set_running (f : gmap pid nat -> gmap pid nat) (s : state) : state :=
  {| heap := heap s; next_pid := next_pid s; jobs := jobs s;
     queues := queues s; running := f (running s); submitted := submitted s;
     log := log s |}.

Definition emit (evs : list event) (s : state) : state :=
  {| heap := heap s; next_pid := next_pid s; jobs := jobs s;
     queues := queues s; running := running s; submitted := submitted s;
     log := log s ++ evs |}.

(** A new promise object. *)
Definition alloc (st : pstate) (s : state) : pid * state :=
  (next_pid s,
   {| heap := <[next_pid s := {| settled := st; reactions := [] |}]> (heap s);
      next_pid := S (next_pid s); jobs := jobs s; queues := queues s;
      running := running s; submitted := submitted s; log := log s |}).

Definition state_of (p : pid) (s : state) : pstate :=
  match heap s !! p with
  | Some c => settled c
  | None => Pending
  end.

(** [Promise.resolve(v)] for a value that is not a promise. *)
Definition Promise_resolve (v : value) (s : state) : pid * state :=
  alloc (Fulfilled v) s.

(** Fulfilling or rejecting a promise: a settled promise stays as it is;
    a pending one takes the state, and each of its reactions becomes a
    job, in the order of registration. *)
Definition settle (p : pid) (st : pstate) (s : state) : state :=
  match heap s !! p with
  | Some {| settled := Pending; reactions := rs |} =>
      let new_jobs :=
        map (fun r =>
               match st with
               | Rejected e => ReactionJob (on_rejected r) (derived r) e
               | Fulfilled v => ReactionJob (on_fulfilled r) (derived r) v
               | Pending => ReactionJob (on_fulfilled r) (derived r) undefined
               end) rs in
      set_jobs (fun js => js ++ new_jobs)
        (set_heap (insert p {| settled := st; reactions := [] |}) s)
  | _ => s
  end.

(** [p.then(onFulfilled, onRejected)] *)
Definition Promise_then (p : pid) (onFulfilled onRejected : handler) (s : state)
  : pid * state :=
  let (q, s) := alloc Pending s in
  let r := {| on_fulfilled := onFulfilled; on_rejected := onRejected; derived := q |} in
  match heap s !! p with
  | Some {| settled := Pending; reactions := rs |} =>
      (q, set_heap (insert p {| settled := Pending; reactions := rs ++ [r] |}) s)
  | Some {| settled := Fulfilled v |} =>
      (q, set_jobs (fun js => js ++ [ReactionJob onFulfilled q v]) s)
  | Some {| settled := Rejected e |} =>
      (q, set_jobs (fun js => js ++ [ReactionJob onRejected q e]) s)
  | None => (q, s)
  end.

(** [p.catch(onRejected)] *)
Definition Promise_catch (p : pid) (onRejected : handler) (s : state) : pid * state :=
  Promise_then p Identity onRejected s.

(** [p.finally(onFinally)] *)
Definition Promise_finally (p : pid) (onFinally : callback) (s : state) : pid * state :=
  Promise_then p (ThenFinally onFinally) (CatchFinally onFinally) s.

(** What a handler hands back: a plain value, a promise, or a throw. *)
Inductive completion :=
| Normal (v : value)
| NormalPromise (p : pid)
| Abrupt (e : value).

(** The body of the [finally] callback of [enqueue]. *)
Definition run_callback (c : callback) (s : state) : state :=
  match c with
  | Cleanup guildId next =>
      if decide (queues s !! guildId = Some next)
      then set_queues (delete guildId) s
      else s
  end.

(** Calling a handler with an argument. *)
Definition call (h : handler) (x : value) (s : state) : completion * state :=
  match h with
  | Identity => (Normal x, s)
  | Thrower => (Abrupt x, s)
  | LogPrevious guildId => (Normal undefined, emit [LoggedPrevious guildId x] s)
  | RunTask ticket t =>
      match t with
      | Throws e => (Abrupt e, emit [Started ticket; Finished ticket (Failed e)] s)
      | Async =>
          let (r, s) := alloc Pending (emit [Started ticket] s) in
          (NormalPromise r, set_running (insert r ticket) s)
      end
  | LogExecuting guildId => (Normal undefined, emit [LoggedExecuting guildId x] s)
  | ThenFinally onFinally =>
      let s := run_callback onFinally s in
      let (promise, s) := Promise_resolve undefined s in
      let (chained, s) := Promise_then promise (ValueThunk x) Thrower s in
      (NormalPromise chained, s)
  | CatchFinally onFinally =>
      let s := run_callback onFinally s in
      let (promise, s) := Promise_resolve undefined s in
      let (chained, s) := Promise_then promise (ThrowThunk x) Thrower s in
      (NormalPromise chained, s)
  | ValueThunk v => (Normal v, s)
  | ThrowThunk e => (Abrupt e, s)
  | ResolveFn p => (Normal undefined, settle p (Fulfilled x) s)
  | RejectFn p => (Normal undefined, settle p (Rejected x) s)
  end.

(** Resolving the derived promise with what its handler handed back: a
    returned promise is adopted through a job of its own. *)
Definition resolve_with (target : pid) (c : completion) (s : state) : state :=
  match c with
  | Normal v => settle target (Fulfilled v) s
  | NormalPromise p => set_jobs (fun js => js ++ [ThenableJob target p]) s
  | Abrupt e => settle target (Rejected e) s
  end.

Definition run_job (j : job) (s : state) : state :=
  match j with
  | ReactionJob h target x =>
      let (c, s) := call h x s in
      resolve_with target c s
  | ThenableJob target thenable =>
      snd (Promise_then thenable (ResolveFn target) (RejectFn target) s)
  end.

(** *** The queue *)

(** [VoicePlaybackQueue.enqueue] *)
Definition enqueue (guildId : string) (t : task) (s : state) : pid * state :=
  let ticket := submitted s in
  let (previous, s) :=
    match queues s !! guildId with
    | Some p => (p, s)
    | None => Promise_resolve undefined s
    end in
  let (caught, s) := Promise_catch previous (LogPrevious guildId) s in
  let (ran, s) := Promise_then caught (RunTask ticket t) Thrower s in
  let (next, s) := Promise_catch ran (LogExecuting guildId) s in
  let (tail, s) := Promise_finally next (Cleanup guildId next) s in
  let s := set_queues (insert guildId tail) s in
  (next,
   {| heap := heap s; next_pid := next_pid s; jobs := jobs s;
      queues := queues s; running := running s; submitted := S ticket;
      log := log s ++ [Submitted ticket guildId next] |}).

(** *** The event loop

    Between two jobs anything may happen outside: a caller enqueues a
    task, or the promise of a started task settles.  [Tick] runs the
    oldest job. *)
Inductive action :=
| Enqueue (guildId : string) (t : task)
| Tick
| Settle (r : pid) (o : outcome).

Definition step (s : state) (a : action) : state :=
  match a with
  | Enqueue guildId t => snd (enqueue guildId t s)
  | Tick =>
      match jobs s with
      | j :: rest => run_job j (set_jobs (fun _ => rest) s)
      | [] => s
      end
  | Settle r o =>
      match running s !! r with
      | Some ticket =>
          let st := match o with Returned v => Fulfilled v | Failed e => Rejected e end in
          settle r st (emit [Finished ticket o] (set_running (delete r) s))
      | None => s
      end
  end.

Definition run (acts : list action) (s : state) : state := foldl step s acts.

(** Nothing left to do: no job is queued and no started task is still
    running. *)
Definition quiescent (s : state) : Prop := jobs s = [] /\ running s = ∅.

(** Running the queued jobs, at most [fuel] of them. *)
Definition drain (fuel : nat) (s : state) : state := run (replicate fuel Tick) s.

(** *** The shape of the reachable states

    Every call of [enqueue] creates a chain of four promises: [caught],
    [ran], [next] (the handle that is returned) and [tail] (the promise that
    is stored in the map).  The chain of a ticket goes through the stages
    below; each stage fixes the contents of the promises that the chain
    still uses and the jobs that it has in the queue. *)

#[global] Instance value_eq_dec : EqDecision value.
Proof. solve_decision. Defined.
#[global] Instance pstate_eq_dec : EqDecision pstate.
Proof. solve_decision. Defined.
#[global] Instance task_eq_dec : EqDecision task.
Proof. solve_decision. Defined.
#[global] Instance callback_eq_dec : EqDecision callback.
Proof. solve_decision. Defined.
#[global] Instance handler_eq_dec : EqDecision handler.
Proof. solve_decision. Defined.
#[global] Instance job_eq_dec : EqDecision job.
Proof. solve_decision. Defined.
#[global] Instance outcome_eq_dec : EqDecision outcome.
Proof. solve_decision. Defined.
#[global] Instance event_eq_dec : EqDecision event.
Proof. solve_decision. Defined.

Inductive stage :=
| Waiting                                   (* the previous chain is not done *)
| Linked (v : value)                        (* the job that fulfils [caught] is queued *)
| Ready (v : value)                         (* the job that calls the task is queued *)
| Adopting (r : pid) (o : option outcome)   (* the task returned [r]; its adoption is queued *)
| Awaiting (r d : pid)                      (* [ran] waits for the pending [r] *)
| Resolving (d : pid) (o : outcome)         (* [r] settled; the job that settles [ran] is queued *)
| Ran (o : outcome)                         (* [ran] settled; the job for [next] is queued *)
| Handled (o : outcome)                     (* [next] fulfilled; the [finally] job is queued *)
| Closing1 (pt : pid) (o : outcome)         (* callback done; thunk job and adoption queued *)
| Closing2 (pt : pid) (o : outcome)         (* thunk done; adoption queued *)
| Closing3 (pt d : pid) (o : outcome)       (* adoption registered; thunk job queued *)
| Closing4 (d : pid) (o : outcome)          (* the job that fulfils [tail] is queued *)
| Complete (o : outcome).                   (* [tail] fulfilled *)

Record chain := {
  ticket : nat;
  guild : string;
  the_task : task;
  base : pid;
  succ : option (nat * pid);
  stage_of : stage
}.

Definition caught (c : chain) : pid := base c.
Definition ran (c : chain) : pid := S (base c).
Definition next (c : chain) : pid := S (S (base c)).
Definition tail (c : chain) : pid := S (S (S (base c))).

Definition with_stage (s : stage) (c : chain) : chain :=
  {| ticket := ticket c; guild := guild c; the_task := the_task c;
     base := base c; succ := succ c; stage_of := s |}.

Definition with_succ (m : nat) (q : pid) (c : chain) : chain :=
  {| ticket := ticket c; guild := guild c; the_task := the_task c;
     base := base c; succ := Some (m, q); stage_of := stage_of c |}.

Definition result_value (o : outcome) : value :=
  match o with Returned v => v | Failed _ => undefined end.

Definition settled_as (o : outcome) : pstate :=
  match o with Returned v => Fulfilled v | Failed e => Rejected e end.

Definition pending (rs : list reaction) : promise :=
  {| settled := Pending; reactions := rs |}.

Definition done (st : pstate) : promise := {| settled := st; reactions := [] |}.

Definition to_caught (k : string) (q : pid) : reaction :=
  {| on_fulfilled := Identity; on_rejected := LogPrevious k; derived := q |}.

Definition to_ran (c : chain) : reaction :=
  {| on_fulfilled := RunTask (ticket c) (the_task c); on_rejected := Thrower;
     derived := ran c |}.

Definition to_next (c : chain) : reaction :=
  {| on_fulfilled := Identity; on_rejected := LogExecuting (guild c);
     derived := next c |}.

Definition to_tail (c : chain) : reaction :=
  {| on_fulfilled := ThenFinally (Cleanup (guild c) (next c));
     on_rejected := CatchFinally (Cleanup (guild c) (next c));
     derived := tail c |}.

Definition adopt (target d : pid) : reaction :=
  {| on_fulfilled := ResolveFn target; on_rejected := RejectFn target; derived := d |}.

Definition tail_cell (c : chain) : promise :=
  pending match succ c with
          | Some (_, q) => [to_caught (guild c) q]
          | None => []
          end.

Definition fulfilled_next (c : chain) (o : outcome) : pid * promise :=
  (next c, done (Fulfilled (result_value o))).

(** The promises a chain still uses, with their contents. *)
Definition cells (c : chain) : list (pid * promise) :=
  let front := [(ran c, pending [to_next c]); (next c, pending [to_tail c]);
                (tail c, tail_cell c)] in
  match stage_of c with
  | Waiting | Linked _ => (caught c, pending [to_ran c]) :: front
  | Ready _ => front
  | Adopting r None => front ++ [(r, pending [])]
  | Adopting r (Some o) => front ++ [(r, done (settled_as o))]
  | Awaiting r d => front ++ [(r, pending [adopt (ran c) d]); (d, pending [])]
  | Resolving d o => front ++ [(d, pending [])]
  | Ran o => [(next c, pending [to_tail c]); (tail c, tail_cell c)]
  | Handled o => [fulfilled_next c o; (tail c, tail_cell c)]
  | Closing1 pt o => [fulfilled_next c o; (tail c, tail_cell c); (pt, pending [])]
  | Closing2 pt o =>
      [fulfilled_next c o; (tail c, tail_cell c);
       (pt, done (Fulfilled (result_value o)))]
  | Closing3 pt d o =>
      [fulfilled_next c o; (tail c, tail_cell c);
       (pt, pending [adopt (tail c) d]); (d, pending [])]
  | Closing4 d o => [fulfilled_next c o; (tail c, tail_cell c); (d, pending [])]
  | Complete o => [fulfilled_next c o; (tail c, done (Fulfilled (result_value o)))]
  end.

(** The promises that belong to a chain. *)
Definition extra (s : stage) : list pid :=
  match s with
  | Adopting r _ => [r]
  | Awaiting r d => [r; d]
  | Resolving d _ => [d]
  | Closing1 pt _ | Closing2 pt _ => [pt]
  | Closing3 pt d _ => [pt; d]
  | Closing4 d _ => [d]
  | _ => []
  end.

Definition tracked (c : chain) : list pid :=
  [caught c; ran c; next c; tail c] ++ extra (stage_of c).

Definition resolving_job (target d : pid) (o : outcome) : job :=
  match o with
  | Returned v => ReactionJob (ResolveFn target) d v
  | Failed e => ReactionJob (RejectFn target) d e
  end.

Definition next_job (c : chain) (o : outcome) : job :=
  match o with
  | Returned v => ReactionJob Identity (next c) v
  | Failed e => ReactionJob (LogExecuting (guild c)) (next c) e
  end.

(** The jobs a chain has in the queue. *)
Definition due (c : chain) : list job :=
  match stage_of c with
  | Waiting | Awaiting _ _ | Complete _ => []
  | Linked v => [ReactionJob Identity (caught c) v]
  | Ready v => [ReactionJob (RunTask (ticket c) (the_task c)) (ran c) v]
  | Adopting r _ => [ThenableJob (ran c) r]
  | Resolving d o => [resolving_job (ran c) d o]
  | Ran o => [next_job c o]
  | Handled o =>
      [ReactionJob (ThenFinally (Cleanup (guild c) (next c))) (tail c) (result_value o)]
  | Closing1 pt o =>
      [ReactionJob (ValueThunk (result_value o)) pt undefined; ThenableJob (tail c) pt]
  | Closing2 pt o => [ThenableJob (tail c) pt]
  | Closing3 pt d o => [ReactionJob (ValueThunk (result_value o)) pt undefined]
  | Closing4 d o => [ReactionJob (ResolveFn (tail c)) d (result_value o)]
  end.

(** The task promise that the environment still has to settle. *)
Definition runs (c : chain) (r : pid) : Prop :=
  stage_of c = Adopting r None \/ exists d, stage_of c = Awaiting r d.

Definition waiting (c : chain) : Prop := stage_of c = Waiting.

Definition complete (c : chain) : Prop := exists o, stage_of c = Complete o.

Definition active (c : chain) : Prop := ~ waiting c /\ ~ complete c.

Definition started (s : stage) : bool :=
  match s with
  | Waiting | Linked _ | Ready _ => false
  | _ => true
  end.

Definition ended (s : stage) : option outcome :=
  match s with
  | Waiting | Linked _ | Ready _ | Adopting _ None | Awaiting _ _ => None
  | Adopting _ (Some o) | Resolving _ o | Ran o | Handled o | Closing1 _ o
  | Closing2 _ o | Closing3 _ _ o | Closing4 _ o | Complete o => Some o
  end.

(** *** Reading the trace *)

(** The [Started] events of a ticket. *)
Definition starts (n : nat) (l : list event) : list event :=
  filter (fun e => e = Started n) l.

(** The outcomes in the [Finished] events of a ticket. *)
Definition end_of (n : nat) (e : event) : option outcome :=
  match e with
  | Finished m o => if decide (m = n) then Some o else None
  | _ => None
  end.

Definition ends (n : nat) (l : list event) : list outcome := omap (end_of n) l.

(** [a] occurs in the trace at an earlier position than [b]. *)
Definition before (a b : event) (l : list event) : Prop :=
  exists i j, i < j /\ l !! i = Some a /\ l !! j = Some b.

(** The tickets submitted for a guild, in the order of submission. *)
Definition ticket_for (k : string) (e : event) : option nat :=
  match e with
  | Submitted n k' _ => if decide (k' = k) then Some n else None
  | _ => None
  end.

Definition submissions (k : string) (l : list event) : list nat :=
  omap (ticket_for k) l.

(** An event that says nothing about the start or end of ticket [n]. *)
Definition beside (n : nat) (e : event) : Prop :=
  match e with
  | Started m | Finished m _ => m <> n
  | Submitted m _ _ => m <> n
  | _ => True
  end.

(** What the trace says about one chain. *)
Record log_ok (c : chain) (l : list event) : Prop := {
  log_submitted : Submitted (ticket c) (guild c) (next c) ∈ l;
  log_starts :
    starts (ticket c) l = if started (stage_of c) then [Started (ticket c)] else [];
  log_ends :
    ends (ticket c) l = match ended (stage_of c) with Some o => [o] | None => [] end;
  log_start_end :
    forall o, ended (stage_of c) = Some o ->
              before (Started (ticket c)) (Finished (ticket c) o) l
}.

(** An event of a ticket below [bound]. *)
Definition within (bound : nat) (e : event) : Prop :=
  match e with
  | Submitted n _ _ | Started n | Finished n _ => n < bound
  | _ => True
  end.

(** The invariant, first part: what [G], the chains by ticket, says about
    the store, the job queue, the running tasks and the trace. *)
Record local (G : list chain) (s : state) : Prop := {
  loc_ticket : forall n c, G !! n = Some c -> ticket c = n;
  loc_submitted : submitted s = length G;
  loc_heap : forall c p x, c ∈ G -> (p, x) ∈ cells c -> heap s !! p = Some x;
  loc_fresh : forall c p, c ∈ G -> p ∈ tracked c -> p < next_pid s;
  loc_disjoint : NoDup (G ≫= tracked);
  loc_jobs : jobs s ≡ₚ G ≫= due;
  loc_running1 : forall c r, c ∈ G -> runs c r -> running s !! r = Some (ticket c);
  loc_running2 :
    forall r n, running s !! r = Some n -> exists c, G !! n = Some c /\ runs c r;
  loc_log : forall c, c ∈ G -> log_ok c (log s);
  loc_known :
    forall n k h, Submitted n k h ∈ log s ->
      exists c, G !! n = Some c /\ guild c = k /\ next c = h;
  loc_bound : Forall (within (length G)) (log s)
}.

(** Second part: how the chains of one guild follow each other, and what
    the map holds. *)
Record links (G : list chain) (s : state) : Prop := {
  lnk_queue1 : forall c, c ∈ G -> is_Some (queues s !! guild c);
  lnk_queue2 :
    forall k t, queues s !! k = Some t ->
                exists c, c ∈ G /\ guild c = k /\ tail c = t /\ succ c = None;
  lnk_succ :
    forall n c m q, G !! n = Some c -> succ c = Some (m, q) ->
      exists cm, G !! m = Some cm /\ base cm = q /\ guild cm = guild c /\ n < m
                 /\ (~ complete c -> waiting cm);
  lnk_wait :
    forall m cm, G !! m = Some cm -> waiting cm ->
      exists n c, G !! n = Some c /\ succ c = Some (m, base cm) /\ ~ complete c;
  lnk_pred :
    forall m cm n c, G !! m = Some cm -> G !! n = Some c -> n < m ->
      guild c = guild cm -> ~ waiting cm -> complete c;
  lnk_between :
    forall n c m q n' c', G !! n = Some c -> succ c = Some (m, q) ->
      G !! n' = Some c' -> guild c' = guild c -> n < n' -> m <= n';
  lnk_last :
    forall n c n' c', G !! n = Some c -> succ c = None ->
      G !! n' = Some c' -> guild c' = guild c -> n' <= n;
  lnk_order :
    forall m cm n c, G !! m = Some cm -> G !! n = Some c -> n < m ->
      guild c = guild cm -> started (stage_of cm) = true ->
      exists o, before (Finished n o) (Started m) (log s)
}.

Record inv (G : list chain) (s : state) : Prop := {
  inv_local : local G s;
  inv_links : links G s
}.

(** An event of the chain of ticket [n] that is not its submission. *)
Definition about (n : nat) (e : event) : Prop :=
  match e with
  | Submitted _ _ _ => False
  | Started m | Finished m _ => m = n
  | _ => True
  end.

Definition job_of (st : pstate) (r : reaction) : job :=
  match st with
  | Rejected e => ReactionJob (on_rejected r) (derived r) e
  | Fulfilled v => ReactionJob (on_fulfilled r) (derived r) v
  | Pending => ReactionJob (on_fulfilled r) (derived r) undefined
  end.

(** *** Measures and properties of traces *)

(** Two versions of a chain with the same ticket, guild, promises and
    successor. *)
Definition same_static (c0 c1 : chain) : Prop :=
  ticket c1 = ticket c0 /\ guild c1 = guild c0 /\ base c1 = base c0
  /\ succ c1 = succ c0.

(** How chain [i] changes when chain [n] completes and wakes its
    successor [sm]. *)
Definition moved (n : nat) (sm : option nat) (i : nat) (c0 c1 : chain) : Prop :=
  same_static c0 c1
  /\ (started (stage_of c1) = true -> started (stage_of c0) = true)
  /\ ((i = n /\ complete c1)
      \/ (sm = Some i /\ active c1)
      \/ (i <> n /\ sm <> Some i
          /\ (waiting c1 <-> waiting c0) /\ (complete c1 <-> complete c0))).

(** The store after the tail of [c] got the first reaction of the chain at
    [q]; a tail that is settled holds no reactions. *)
Definition relink (c : chain) (q : pid) (s : state) : state :=
  match stage_of c with
  | Complete _ => s
  | _ => set_heap (insert (tail c) (pending [to_caught (guild c) q])) s
  end.

(** A bound on the steps a chain still takes. *)
Definition rank (st : stage) : nat :=
  match st with
  | Waiting | Linked _ => 10
  | Ready _ => 9
  | Adopting _ None => 8
  | Adopting _ (Some _) | Awaiting _ _ => 7
  | Resolving _ _ => 6
  | Ran _ => 5
  | Handled _ => 4
  | Closing1 _ _ => 3
  | Closing2 _ _ | Closing3 _ _ _ => 2
  | Closing4 _ _ => 1
  | Complete _ => 0
  end.

Definition potential (G : list chain) : nat :=
  sum_list (map (fun c => rank (stage_of c)) G).

(** An event that is not a submission. *)
Definition quiet (e : event) : Prop :=
  match e with Submitted _ _ _ => False | _ => True end.

(** Tickets grow along the trace. *)
Definition ordered (l : list event) : Prop :=
  forall n m k k' h h',
    before (Submitted n k h) (Submitted m k' h') l -> n < m.

(** The counter is above every ticket handed out. *)
Definition numbered (s : state) : Prop :=
  (forall n k h, Submitted n k h ∈ log s -> n < submitted s) /\ ordered (log s).

(** The steps that are not calls of [enqueue]. *)
Definition internal (a : action) : Prop :=
  match a with Enqueue _ _ => False | _ => True end.

(** A ticket starts and ends at most once. *)
Definition once (l : list event) : Prop :=
  forall n, length (starts n l) <= 1 /\ length (ends n l) <= 1.

(** Only submitted tickets start, and a ticket ends after it started. *)
Definition bracketed (l : list event) : Prop :=
  (forall n, Started n ∈ l -> exists k h, Submitted n k h ∈ l)
  /\ (forall n o, Finished n o ∈ l -> before (Started n) (Finished n o) l).

(** A ticket starts after every ticket submitted earlier for its guild has
    ended, whatever the outcome. *)
Definition fifo (l : list event) : Prop :=
  forall k n m hn hm,
    before (Submitted n k hn) (Submitted m k hm) l -> Started m ∈ l ->
    exists o, before (Finished n o) (Started m) l.

(** Every submitted ticket has started and ended. *)
Definition served (l : list event) : Prop :=
  forall n k h, Submitted n k h ∈ l ->
    Started n ∈ l /\ exists o, Finished n o ∈ l.

(** Four tasks, three for one guild; the first two fail. *)
Definition sample : list action :=
  [Enqueue "g" (Throws (object 1)); Enqueue "g" Async; Enqueue "h" Async;
   Enqueue "g" Async]
  ++ replicate 30 Tick ++ [Settle 23 (Failed (object 2))]
  ++ replicate 30 Tick ++ [Settle 28 (Returned undefined);
                           Settle 18 (Returned undefined)]
  ++ replicate 30 Tick.

(** The handle takes the outcome of its task. *)
Definition handle_reflects_outcome : Prop :=
  forall acts n k h o,
    Submitted n k h ∈ log (run acts init) ->
    Finished n o ∈ log (run acts init) ->
    quiescent (run acts init) ->
    state_of h (run acts init) = settled_as o.

(** One task that fails. *)
Definition failing : list action :=
  Enqueue "g" (Throws (object 1)) :: replicate 12 Tick.

(** One task that succeeds. *)
Definition single : list action :=
  Enqueue "g" Async :: replicate 12 Tick
  ++ [Settle 5 (Returned undefined)] ++ replicate 12 Tick.

(** The events of a job. *)
Definition emitted (j : job) : list event :=
  match j with
  | ReactionJob (LogPrevious k) _ x => [LoggedPrevious k x]
  | ReactionJob (RunTask n (Throws e)) _ _ => [Started n; Finished n (Failed e)]
  | ReactionJob (RunTask n Async) _ _ => [Started n]
  | ReactionJob (LogExecuting k) _ x => [LoggedExecuting k x]
  | _ => []
  end.

(** The error of a task that failed, once the second [catch] has run. *)
Definition reported (st : stage) : option value :=
  match st with
  | Handled (Failed e) | Closing1 _ (Failed e) | Closing2 _ (Failed e)
  | Closing3 _ _ (Failed e) | Closing4 _ (Failed e) | Complete (Failed e) => Some e
  | _ => None
  end.

(** Every failure that a chain has handled is on the console. *)
Definition reports (G : list chain) (l : list event) : Prop :=
  forall c e, c ∈ G -> reported (stage_of c) = Some e ->
              LoggedExecuting (guild c) e ∈ l.

(** What the console lines in a trace stand for. *)
Definition genuine (l : list event) (ev : event) : Prop :=
  match ev with
  | LoggedPrevious _ _ => False
  | LoggedExecuting k e =>
      exists n h, Submitted n k h ∈ l /\ Finished n (Failed e) ∈ l
  | _ => True
  end.

(** Every console line of the trace is genuine. *)
Definition sound (l : list event) : Prop := Forall (genuine l) l.

(** A line of the first [catch]. *)
Definition previous_line (ev : event) : bool :=
  match ev with LoggedPrevious _ _ => true | _ => false end.

(** Two guilds: the task of the first never ends, the task of the second
    fails. *)
Definition stuck : list action :=
  [Enqueue "g" Async; Enqueue "h" (Throws (object 1))] ++ replicate 30 Tick.

(** *** Calls and their tasks *)

(** The calls of [enqueue] among the actions, in order. *)
Definition call_of (a : action) : option (string * task) :=
  match a with Enqueue k t => Some (k, t) | _ => None end.

Definition calls (acts : list action) : list (string * task) := omap call_of acts.

(** The ticket and the guild of a submission. *)
Definition submission (e : event) : option (nat * string) :=
  match e with Submitted n k _ => Some (n, k) | _ => None end.

(** The submissions that [calls], numbered from [first], make. *)
Definition numbered_from (first : nat) (cs : list (string * task))
  : list (nat * string) :=
  imap (fun i kt => (first + i, fst kt)) cs.

(** A handler that calls a task belongs to the call of [enqueue] with its
    ticket and calls the task of that call. *)
Definition handler_ok (cs : list (string * task)) (h : handler) : Prop :=
  match h with
  | RunTask n t => exists k, cs !! n = Some (k, t)
  | _ => True
  end.

Definition reaction_ok (cs : list (string * task)) (r : reaction) : Prop :=
  handler_ok cs (on_fulfilled r) /\ handler_ok cs (on_rejected r).

Definition job_ok (cs : list (string * task)) (j : job) : Prop :=
  match j with
  | ReactionJob h _ _ => handler_ok cs h
  | ThenableJob _ _ => True
  end.

(** The outcome of a task that throws is its own error. *)
Definition own_outcome (t : task) (o : outcome) : Prop :=
  match t with
  | Throws e => o = Failed e
  | Async => True
  end.

(** What the store, the jobs, the running tasks and the trace of a state
    say about the calls [cs] that led to it. *)
Record tasks_ok (cs : list (string * task)) (s : state) : Prop := {
  ok_heap : forall p c, heap s !! p = Some c -> Forall (reaction_ok cs) (reactions c);
  ok_jobs : Forall (job_ok cs) (jobs s);
  ok_running : forall r n, running s !! r = Some n -> exists k, cs !! n = Some (k, Async);
  ok_log : forall n o, Finished n o ∈ log s ->
                       exists k t, cs !! n = Some (k, t) /\ own_outcome t o
}.

(** *** Trace lemmas *)

Lemma starts_app n l1 l2 : starts n (l1 ++ l2) = starts n l1 ++ starts n l2.
Proof. apply filter_app. Qed.

Lemma ends_app n l1 l2 : ends n (l1 ++ l2) = ends n l1 ++ ends n l2.
Proof. apply omap_app. Qed.

Lemma submissions_app k l1 l2 :
  submissions k (l1 ++ l2) = submissions k l1 ++ submissions k l2.
Proof. apply omap_app. Qed.

Lemma before_app a b l1 l2 : before a b l1 -> before a b (l1 ++ l2).
Proof.
  intros (i & j & Hij & Hi & Hj). exists i, j.
  split; [assumption|]. split; apply lookup_app_l_Some; assumption.
Qed.

Lemma before_snoc a b l1 l2 : a ∈ l1 -> before a b (l1 ++ b :: l2).
Proof.
  intros Ha. apply list_elem_of_lookup in Ha as [i Hi].
  exists i, (length l1). split; [eapply lookup_lt_Some, Hi|].
  split; [apply lookup_app_l_Some, Hi|apply list_lookup_middle; reflexivity].
Qed.

Lemma starts_beside n evs : Forall (beside n) evs -> starts n evs = [].
Proof.
  unfold starts. induction 1 as [|e evs He _ IH]; [reflexivity|].
  rewrite filter_cons, IH. destruct (decide (e = Started n)) as [->|]; [|reflexivity].
  simpl in He. congruence.
Qed.

Lemma ends_beside n evs : Forall (beside n) evs -> ends n evs = [].
Proof.
  unfold ends. induction 1 as [|e evs He _ IH]; [reflexivity|].
  assert (Hn : end_of n e = None).
  { destruct e; simpl in *; try reflexivity.
    destruct (decide (ticket0 = n)); [contradiction|reflexivity]. }
  change (omap (end_of n) (e :: evs))
    with (match end_of n e with
          | Some y => y :: omap (end_of n) evs
          | None => omap (end_of n) evs
          end).
  rewrite Hn. exact IH.
Qed.

Lemma ends_elem n o l : ends n l = [o] -> Finished n o ∈ l.
Proof.
  unfold ends. induction l as [|e l IH]; [discriminate|].
  change (omap (end_of n) (e :: l))
    with (match end_of n e with
          | Some y => y :: omap (end_of n) l
          | None => omap (end_of n) l
          end).
  destruct (end_of n e) as [o'|] eqn:He.
  - intros H. injection H as -> _. destruct e; simpl in He; try discriminate.
    destruct (decide (ticket0 = n)); [|discriminate]. injection He as ->. subst.
    apply list_elem_of_here.
  - intros H. apply list_elem_of_further, IH, H.
Qed.

Lemma log_ok_app c l evs :
  log_ok c l -> Forall (beside (ticket c)) evs -> log_ok c (l ++ evs).
Proof.
  intros [Hs Hst He Hb] Hevs. split.
  - apply elem_of_app. left. assumption.
  - rewrite starts_app, (starts_beside _ evs), app_nil_r by assumption. assumption.
  - rewrite ends_app, (ends_beside _ evs), app_nil_r by assumption. assumption.
  - intros o Ho. apply before_app, Hb, Ho.
Qed.

Lemma log_ok_stage c s l :
  started s = started (stage_of c) -> ended s = ended (stage_of c) ->
  log_ok c l -> log_ok (with_stage s c) l.
Proof.
  intros Hst He [H1 H2 H3 H4]. split; simpl; rewrite ?Hst, ?He; assumption.
Qed.

(** *** Updating one chain *)

Lemma chain_split (G : list chain) n c :
  G !! n = Some c -> G = take n G ++ c :: drop (S n) G.
Proof. intros H. symmetry. apply take_drop_middle, H. Qed.

Lemma chain_insert (G : list chain) n c c' :
  G !! n = Some c -> <[n := c']> G = take n G ++ c' :: drop (S n) G.
Proof. intros H. apply insert_take_drop. eapply lookup_lt_Some, H. Qed.

Lemma bind_split {B} (f : chain -> list B) (G : list chain) n c :
  G !! n = Some c ->
  G ≫= f = (take n G ≫= f) ++ f c ++ (drop (S n) G ≫= f).
Proof.
  intros H. rewrite (chain_split G n c H) at 1.
  rewrite bind_app, bind_cons. reflexivity.
Qed.

Lemma bind_insert {B} (f : chain -> list B) (G : list chain) n c c' :
  G !! n = Some c ->
  <[n := c']> G ≫= f = (take n G ≫= f) ++ f c' ++ (drop (S n) G ≫= f).
Proof.
  intros H. rewrite (chain_insert G n c c' H).
  rewrite bind_app, bind_cons. reflexivity.
Qed.

Lemma elem_of_insert_chain (G : list chain) n c c' c0 :
  G !! n = Some c -> c0 ∈ <[n := c']> G ->
  c0 = c' \/ (exists i, i <> n /\ G !! i = Some c0).
Proof.
  intros Hn H0. apply list_elem_of_lookup in H0 as [i Hi].
  destruct (decide (i = n)) as [->|Hne].
  - rewrite list_lookup_insert_eq in Hi by (eapply lookup_lt_Some, Hn).
    left. congruence.
  - rewrite list_lookup_insert_ne in Hi by congruence. right. eauto.
Qed.

Lemma cells_tracked c p x : (p, x) ∈ cells c -> p ∈ tracked c.
Proof.
  unfold cells, tracked, fulfilled_next.
  destruct (stage_of c) as [| | |r [o|]| | | | | | | | |]; simpl;
    rewrite ?elem_of_cons, ?elem_of_nil; intros H;
    repeat match goal with
      | H : _ \/ _ |- _ => destruct H as [H|H]
      | H : (_, _) = (_, _) |- _ => injection H as -> ->
      | H : False |- _ => destruct H
      end; set_solver.
Qed.

Lemma due_tracked c j :
  j ∈ due c ->
  match j with
  | ReactionJob _ target _ | ThenableJob target _ => target ∈ tracked c
  end.
Proof.
  unfold due, tracked, resolving_job, next_job.
  destruct (stage_of c) as [| | | | |d [v|e]|[v|e]| | | | | |]; simpl;
    rewrite ?elem_of_cons, ?elem_of_nil; intros H;
    repeat match goal with
      | H : _ \/ _ |- _ => destruct H as [H|H]
      | H : False |- _ => destruct H
      end; subst; set_solver.
Qed.

(** *** Lists of owned promises *)

Lemma NoDup_bind_disjoint {A B} (f : A -> list B) (l : list A) i j a b y :
  NoDup (l ≫= f) -> l !! i = Some a -> l !! j = Some b -> i <> j ->
  y ∈ f a -> y ∈ f b -> False.
Proof.
  revert i j. induction l as [|x l IH]; intros i j Hnd Hi Hj Hij Ha Hb.
  - discriminate.
  - rewrite bind_cons in Hnd. apply NoDup_app in Hnd as (_ & Hx & Hl).
    destruct i as [|i], j as [|j]; simpl in *.
    + congruence.
    + injection Hi as ->. apply (Hx y Ha). apply list_elem_of_bind.
      exists b. split; [assumption|]. eapply list_elem_of_lookup_2, Hj.
    + injection Hj as ->. apply (Hx y Hb). apply list_elem_of_bind.
      exists a. split; [assumption|]. eapply list_elem_of_lookup_2, Hi.
    + eapply (IH i j); eauto.
Qed.

Lemma NoDup_bind_elem {A B} (f : A -> list B) (l : list A) a :
  NoDup (l ≫= f) -> a ∈ l -> NoDup (f a).
Proof.
  intros Hnd Ha. apply list_elem_of_split in Ha as (l1 & l2 & ->).
  rewrite bind_app, bind_cons in Hnd.
  apply NoDup_app in Hnd as (_ & _ & Hnd). apply NoDup_app in Hnd as (Hnd & _).
  exact Hnd.
Qed.

Lemma NoDup_replace (A B T T' : list nat) (bound : nat) :
  NoDup (A ++ T ++ B) -> NoDup T' ->
  (forall x, x ∈ T' -> x ∈ T \/ bound <= x) ->
  (forall x, x ∈ A -> x < bound) -> (forall x, x ∈ B -> x < bound) ->
  NoDup (A ++ T' ++ B).
Proof.
  intros Hnd HT' Hsub HA HB.
  apply NoDup_app in Hnd as (HndA & HAT & Hnd).
  apply NoDup_app in Hnd as (_ & HTB & HndB).
  apply NoDup_app. split; [assumption|]. split.
  - intros x Hx Hin. apply elem_of_app in Hin as [Hin|Hin].
    + destruct (Hsub x Hin) as [Hin'|Hge].
      * apply (HAT x Hx). apply elem_of_app. left. assumption.
      * specialize (HA x Hx). lia.
    + apply (HAT x Hx). apply elem_of_app. right. assumption.
  - apply NoDup_app. split; [assumption|]. split; [|assumption].
    intros x Hx Hin. destruct (Hsub x Hx) as [Hin'|Hge].
    + apply (HTB x Hin' Hin).
    + specialize (HB x Hin). lia.
Qed.

Lemma elem_of_take_bind {A B} (f : A -> list B) (l : list A) n y :
  y ∈ take n l ≫= f -> exists a, a ∈ l /\ y ∈ f a.
Proof.
  intros H. apply list_elem_of_bind in H as (a & Hy & Ha).
  exists a. split; [|assumption].
  apply list_elem_of_lookup in Ha as [i Hi]. apply lookup_take_Some in Hi as [Hi _].
  eapply list_elem_of_lookup_2, Hi.
Qed.

Lemma elem_of_drop_bind {A B} (f : A -> list B) (l : list A) n y :
  y ∈ drop n l ≫= f -> exists a, a ∈ l /\ y ∈ f a.
Proof.
  intros H. apply list_elem_of_bind in H as (a & Hy & Ha).
  exists a. split; [|assumption].
  apply list_elem_of_lookup in Ha as [i Hi]. rewrite lookup_drop in Hi.
  eapply list_elem_of_lookup_2, Hi.
Qed.

Lemma tracked_static c c' :
  base c' = base c ->
  tracked c' = [caught c; ran c; next c; tail c] ++ extra (stage_of c').
Proof. unfold tracked, caught, ran, next, tail. intros ->. reflexivity. Qed.

(** *** Reading the invariant *)

Section Projections.

Variables (G : list chain) (s : state).
Hypothesis HI : inv G s.

Lemma inv_ticket n c : G !! n = Some c -> ticket c = n.
Proof. apply (loc_ticket _ _ (inv_local _ _ HI)). Qed.

Lemma inv_heap c p x : c ∈ G -> (p, x) ∈ cells c -> heap s !! p = Some x.
Proof. apply (loc_heap _ _ (inv_local _ _ HI)). Qed.

Lemma inv_fresh c p : c ∈ G -> p ∈ tracked c -> p < next_pid s.
Proof. apply (loc_fresh _ _ (inv_local _ _ HI)). Qed.

Lemma inv_disjoint : NoDup (G ≫= tracked).
Proof. apply (loc_disjoint _ _ (inv_local _ _ HI)). Qed.

Lemma inv_jobs : jobs s ≡ₚ G ≫= due.
Proof. apply (loc_jobs _ _ (inv_local _ _ HI)). Qed.

Lemma inv_running1 c r : c ∈ G -> runs c r -> running s !! r = Some (ticket c).
Proof. apply (loc_running1 _ _ (inv_local _ _ HI)). Qed.

Lemma inv_running2 r n :
  running s !! r = Some n -> exists c, G !! n = Some c /\ runs c r.
Proof. apply (loc_running2 _ _ (inv_local _ _ HI)). Qed.

Lemma inv_log c : c ∈ G -> log_ok c (log s).
Proof. apply (loc_log _ _ (inv_local _ _ HI)). Qed.

Lemma inv_queue2 k t :
  queues s !! k = Some t ->
  exists c, c ∈ G /\ guild c = k /\ tail c = t /\ succ c = None.
Proof. apply (lnk_queue2 _ _ (inv_links _ _ HI)). Qed.

End Projections.

Lemma about_beside n m evs : n <> m -> Forall (about n) evs -> Forall (beside m) evs.
Proof.
  intros Hne Hall. eapply Forall_impl; [exact Hall|].
  intros [] H; simpl in *; try congruence; auto.
Qed.

Lemma about_not_submitted n evs m k h :
  Forall (about n) evs -> Submitted m k h ∉ evs.
Proof.
  intros Hall Hin. rewrite Forall_forall in Hall. apply (Hall _ Hin).
Qed.

(** *** One chain changes: the local part *)

Section LocalUpdate.

Variables (G : list chain) (s s' : state) (c c' : chain).
Variables (popped keep new : list job) (evs : list event).

Hypothesis HL : local G s.
Hypothesis Hc : G !! ticket c = Some c.
Hypothesis Hticket : ticket c' = ticket c.
Hypothesis Hguild : guild c' = guild c.
Hypothesis Hbase : base c' = base c.
Hypothesis Hnext : next_pid s <= next_pid s'.
Hypothesis Hframe :
  forall p, p < next_pid s -> p ∉ tracked c -> heap s' !! p = heap s !! p.
Hypothesis Hcells : forall p x, (p, x) ∈ cells c' -> heap s' !! p = Some x.
Hypothesis Hextra :
  forall p, p ∈ extra (stage_of c') ->
            p ∈ extra (stage_of c) \/ next_pid s <= p < next_pid s'.
Hypothesis Hnodup : NoDup (extra (stage_of c')).
Hypothesis Hpopped : due c ≡ₚ popped ++ keep.
Hypothesis Hdue : due c' ≡ₚ keep ++ new.
Hypothesis Hjobs : popped ++ jobs s' ≡ₚ jobs s ++ new.
Hypothesis Hsubmitted : submitted s' = submitted s.
Hypothesis Hrun1 : forall r, runs c' r -> running s' !! r = Some (ticket c).
Hypothesis Hrun2 :
  forall r n, running s' !! r = Some n ->
              (n = ticket c /\ runs c' r) \/ (n <> ticket c /\ running s !! r = Some n).
Hypothesis Hrun3 :
  forall r n, n <> ticket c -> running s !! r = Some n -> running s' !! r = Some n.
Hypothesis Hlog : log s' = log s ++ evs.
Hypothesis Habout : Forall (about (ticket c)) evs.
Hypothesis Hlog_ok : log_ok c' (log s').

Let G' := <[ticket c := c']> G.

Lemma update_lookup i c0 :
  G' !! i = Some c0 ->
  (i = ticket c /\ c0 = c') \/ (i <> ticket c /\ G !! i = Some c0).
Proof.
  unfold G'. intros H. destruct (decide (i = ticket c)) as [->|Hne].
  - rewrite list_lookup_insert_eq in H by (eapply lookup_lt_Some, Hc).
    left. split; congruence.
  - rewrite list_lookup_insert_ne in H by congruence. right. auto.
Qed.

Lemma update_lookup_self : G' !! ticket c = Some c'.
Proof. apply list_lookup_insert_eq. eapply lookup_lt_Some, Hc. Qed.

Lemma update_lookup_other i c0 :
  i <> ticket c -> G !! i = Some c0 -> G' !! i = Some c0.
Proof. intros Hne H. unfold G'. rewrite list_lookup_insert_ne by congruence. exact H. Qed.

Lemma update_elem c0 :
  c0 ∈ G' -> c0 = c' \/ (c0 ∈ G /\ ticket c0 <> ticket c).
Proof.
  intros H. apply list_elem_of_lookup in H as [i Hi].
  apply update_lookup in Hi as [[_ ->]|[Hne Hi]]; [left; reflexivity|].
  right. split; [eapply list_elem_of_lookup_2, Hi|].
  rewrite (loc_ticket _ _ HL _ _ Hi). exact Hne.
Qed.

Lemma disjoint_other c0 p :
  c0 ∈ G -> ticket c0 <> ticket c -> p ∈ tracked c0 -> p ∉ tracked c.
Proof.
  intros H0 Hne Hp Hpc. apply list_elem_of_lookup in H0 as [i Hi].
  eapply (NoDup_bind_disjoint tracked G i (ticket c) c0 c p);
    eauto using loc_disjoint.
  rewrite <- (loc_ticket _ _ HL _ _ Hi). exact Hne.
Qed.

Lemma update_tracked p :
  p ∈ tracked c' -> p ∈ tracked c \/ next_pid s <= p < next_pid s'.
Proof.
  rewrite (tracked_static c c' Hbase). unfold tracked.
  rewrite !elem_of_app. intros [H|H]; [left; left; exact H|].
  destruct (Hextra p H) as [H'|H']; [left; right; exact H'|right; exact H'].
Qed.

Lemma update_nodup : NoDup (tracked c').
Proof.
  rewrite (tracked_static c c' Hbase).
  assert (Hold : NoDup (tracked c)).
  { eapply NoDup_bind_elem; [apply (loc_disjoint _ _ HL)|].
    eapply list_elem_of_lookup_2, Hc. }
  unfold tracked in Hold. apply NoDup_app in Hold as (Hst & Hdis & _).
  apply NoDup_app. split; [assumption|]. split; [|assumption].
  intros p Hp Hin. destruct (Hextra p Hin) as [H'|H'].
  - apply (Hdis p Hp H').
  - assert (p < next_pid s); [|lia].
    apply (loc_fresh _ _ HL c); [eapply list_elem_of_lookup_2, Hc|].
    unfold tracked. apply elem_of_app. left. exact Hp.
Qed.

Lemma local_update : local G' s'.
Proof.
  assert (HcG : c ∈ G) by (eapply list_elem_of_lookup_2, Hc).
  split.
  - (* tickets *)
    intros n c0 H. apply update_lookup in H as [[-> ->]|[_ H]]; [assumption|].
    apply (loc_ticket _ _ HL _ _ H).
  - (* submitted *)
    unfold G'. rewrite length_insert, Hsubmitted. apply (loc_submitted _ _ HL).
  - (* heap *)
    intros c0 p x H0 Hp. apply update_elem in H0 as [->|[H0 Hne]]; [auto|].
    rewrite Hframe.
    + apply (loc_heap _ _ HL c0); assumption.
    + apply (loc_fresh _ _ HL c0); [assumption|]. eapply cells_tracked, Hp.
    + eapply disjoint_other; eauto using cells_tracked.
  - (* fresh *)
    intros c0 p H0 Hp. apply update_elem in H0 as [->|[H0 Hne]].
    + apply update_tracked in Hp as [Hp|Hp]; [|lia].
      pose proof (loc_fresh _ _ HL c p HcG Hp). lia.
    + pose proof (loc_fresh _ _ HL c0 p H0 Hp). lia.
  - (* disjoint *)
    unfold G'. rewrite (bind_insert tracked G _ c c' Hc).
    pose proof (loc_disjoint _ _ HL) as Hnd.
    rewrite (bind_split tracked G _ c Hc) in Hnd.
    eapply (NoDup_replace _ _ _ _ (next_pid s)); [exact Hnd|apply update_nodup| | |].
    + intros p Hp. apply update_tracked in Hp as [Hp|Hp]; [left; exact Hp|right; lia].
    + intros p Hp. apply elem_of_take_bind in Hp as (c0 & H0 & Hp).
      apply (loc_fresh _ _ HL c0 p H0 Hp).
    + intros p Hp. apply elem_of_drop_bind in Hp as (c0 & H0 & Hp).
      apply (loc_fresh _ _ HL c0 p H0 Hp).
  - (* jobs *)
    unfold G'. rewrite (bind_insert due G _ c c' Hc).
    pose proof (loc_jobs _ _ HL) as HJ.
    rewrite (bind_split due G _ c Hc) in HJ.
    apply (Permutation_app_inv_l popped).
    rewrite Hjobs, HJ, Hpopped, Hdue. solve_Permutation.
  - (* running, from the chains *)
    intros c0 r H0 Hr. apply update_elem in H0 as [->|[H0 Hne]].
    + rewrite Hticket. auto.
    + apply Hrun3; [assumption|]. apply (loc_running1 _ _ HL); assumption.
  - (* running, to the chains *)
    intros r n Hr. apply Hrun2 in Hr as [[-> Hr]|[Hne Hr]].
    + exists c'. split; [apply update_lookup_self|assumption].
    + apply (loc_running2 _ _ HL) in Hr as (c0 & H0 & Hr).
      exists c0. split; [apply update_lookup_other; assumption|assumption].
  - (* trace, chain by chain *)
    intros c0 H0. apply update_elem in H0 as [->|[H0 Hne]]; [assumption|].
    rewrite Hlog. apply log_ok_app; [apply (loc_log _ _ HL); assumption|].
    eapply about_beside; [|exact Habout]. congruence.
  - (* submissions are known *)
    intros n k h Hin. rewrite Hlog in Hin. apply elem_of_app in Hin as [Hin|Hin].
    + apply (loc_known _ _ HL) in Hin as (c0 & H0 & Hg0 & Hn0).
      destruct (decide (n = ticket c)) as [->|Hne].
      * exists c'. assert (c0 = c) as -> by congruence.
        unfold next in *. rewrite Hguild, Hbase.
        split; [apply update_lookup_self|auto].
      * exists c0. split; [apply update_lookup_other; assumption|auto].
    + exfalso. eapply about_not_submitted; eauto.
  - (* tickets in the trace *)
    unfold G'. rewrite length_insert, Hlog. apply Forall_app.
    split; [apply (loc_bound _ _ HL)|].
    eapply Forall_impl; [exact Habout|].
    assert (Hlt : ticket c < length G) by (eapply lookup_lt_Some, Hc).
    intros [] He; simpl in *; subst; auto; contradiction.
Qed.

End LocalUpdate.

(** *** One chain moves on: the links

    The chain is neither waiting nor complete, before and after. *)

Section LinksUpdate.

Variables (G : list chain) (s s' : state) (c c' : chain) (evs : list event).

Hypothesis HL : local G s.
Hypothesis HK : links G s.
Hypothesis Hc : G !! ticket c = Some c.
Hypothesis Hticket : ticket c' = ticket c.
Hypothesis Hguild : guild c' = guild c.
Hypothesis Hbase : base c' = base c.
Hypothesis Hsucc : succ c' = succ c.
Hypothesis Hactive : active c.
Hypothesis Hactive' : active c'.
Hypothesis Hqueues : queues s' = queues s.
Hypothesis Hlog : log s' = log s ++ evs.
Hypothesis Hstart :
  started (stage_of c) = false -> started (stage_of c') = true ->
  log s' !! length (log s) = Some (Started (ticket c)).

Let G' := <[ticket c := c']> G.

(** A chain of [G] found again in [G'], with the same static part. *)
Lemma update_static i c0 :
  G !! i = Some c0 ->
  exists c1, G' !! i = Some c1 /\ ticket c1 = ticket c0 /\ guild c1 = guild c0
             /\ base c1 = base c0 /\ succ c1 = succ c0
             /\ (waiting c1 <-> waiting c0) /\ (complete c1 <-> complete c0).
Proof.
  intros Hi. destruct (decide (i = ticket c)) as [->|Hne].
  - exists c'. unfold G'. rewrite (update_lookup_self G c c' Hc).
    assert (c0 = c) as -> by congruence.
    destruct Hactive as [Hw Hk], Hactive' as [Hw' Hk'].
    repeat split; auto; try tauto.
  - exists c0. unfold G'. rewrite (update_lookup_other G c c' i c0) by assumption.
    repeat split; auto.
Qed.

Lemma update_back i c1 :
  G' !! i = Some c1 ->
  exists c0, G !! i = Some c0 /\ ticket c1 = ticket c0 /\ guild c1 = guild c0
             /\ base c1 = base c0 /\ succ c1 = succ c0
             /\ (waiting c1 <-> waiting c0) /\ (complete c1 <-> complete c0).
Proof.
  intros Hi. apply (update_lookup G c c' Hc) in Hi as [[-> ->]|[Hne Hi]].
  - exists c. destruct Hactive as [Hw Hk], Hactive' as [Hw' Hk'].
    repeat split; auto; try tauto.
  - exists c1. repeat split; auto.
Qed.

Lemma links_update : links G' s'.
Proof.
  pose proof Hactive as [Hnw Hnc]. pose proof Hactive' as [Hnw' Hnc'].
  split.
  - (* map entries exist *)
    intros c0 H0. rewrite Hqueues.
    apply (update_elem G s c c' HL Hc) in H0 as [->|[H0 _]].
    + rewrite Hguild. apply (lnk_queue1 _ _ HK). eapply list_elem_of_lookup_2, Hc.
    + apply (lnk_queue1 _ _ HK). assumption.
  - (* map entries are tails *)
    intros k t Hk. rewrite Hqueues in Hk.
    apply (lnk_queue2 _ _ HK) in Hk as (c0 & H0 & Hg & Ht & Hs).
    apply list_elem_of_lookup in H0 as [i Hi].
    destruct (update_static i c0 Hi) as (c1 & H1 & _ & Hg1 & Hb1 & Hs1 & _).
    exists c1. split; [eapply list_elem_of_lookup_2, H1|].
    unfold tail in *. rewrite Hg1, Hb1, Hs1. auto.
  - (* successors *)
    intros n c1 m q H1 Hs1.
    destruct (update_back n c1 H1) as (c0 & H0 & _ & Hg0 & _ & Hs0 & _ & Hk0).
    rewrite Hs0 in Hs1.
    destruct (lnk_succ _ _ HK n c0 m q H0 Hs1) as (cm & Hm & Hbm & Hgm & Hlt & Hwm).
    destruct (update_static m cm Hm) as (cm' & Hm' & _ & Hgm' & Hbm' & _ & Hw' & _).
    exists cm'. rewrite Hgm', Hbm', Hg0. repeat split; try assumption.
    intros Hk. apply Hw', Hwm. rewrite <- Hk0. exact Hk.
  - (* waiting chains have a predecessor *)
    intros m cm' Hm' Hw'.
    destruct (update_back m cm' Hm') as (cm & Hm & _ & _ & Hbm & _ & Hwm & _).
    destruct (lnk_wait _ _ HK m cm Hm (proj1 Hwm Hw')) as (n & c0 & H0 & Hs0 & Hk0).
    destruct (update_static n c0 H0) as (c1 & H1 & _ & _ & _ & Hs1 & _ & Hk1).
    exists n, c1. rewrite Hs1, Hbm. repeat split; try assumption.
    rewrite Hk1. exact Hk0.
  - (* earlier chains of the guild are complete *)
    intros m cm' n c1 Hm' H1 Hlt Hg Hw'.
    destruct (update_back m cm' Hm') as (cm & Hm & _ & Hgm & _ & _ & Hwm & _).
    destruct (update_back n c1 H1) as (c0 & H0 & _ & Hg0 & _ & _ & _ & Hk0).
    apply Hk0. apply (lnk_pred _ _ HK m cm n c0); try assumption.
    + congruence.
    + rewrite <- Hwm. exact Hw'.
  - (* nothing of the guild between a chain and its successor *)
    intros n c1 m q n' c1' H1 Hs1 H1' Hg Hlt.
    destruct (update_back n c1 H1) as (c0 & H0 & _ & Hg0 & _ & Hs0 & _).
    destruct (update_back n' c1' H1') as (c0' & H0' & _ & Hg0' & _).
    apply (lnk_between _ _ HK n c0 m q n' c0'); try assumption; congruence.
  - (* the chain without successor is the last of its guild *)
    intros n c1 n' c1' H1 Hs1 H1' Hg.
    destruct (update_back n c1 H1) as (c0 & H0 & _ & Hg0 & _ & Hs0 & _).
    destruct (update_back n' c1' H1') as (c0' & H0' & _ & Hg0' & _).
    apply (lnk_last _ _ HK n c0 n' c0'); try assumption; congruence.
  - (* order *)
    intros m cm' n c1 Hm' H1 Hlt Hg Hst. rewrite Hlog.
    destruct (update_back n c1 H1) as (c0 & H0 & _ & Hg0 & _ & _ & _ & Hk0).
    apply (update_lookup G c c' Hc) in Hm' as [[-> ->]|[Hne Hm]].
    + destruct (started (stage_of c)) eqn:Hold.
      * destruct (lnk_order _ _ HK (ticket c) c n c0) as [o Ho]; try assumption.
        { congruence. }
        exists o. apply before_app, Ho.
      * assert (Hk : complete c0).
        { apply (lnk_pred _ _ HK (ticket c) c n c0); try assumption. congruence. }
        destruct Hk as [o Hk].
        assert (H0G : c0 ∈ G) by (eapply list_elem_of_lookup_2, H0).
        pose proof (log_ends _ _ (loc_log _ _ HL c0 H0G)) as He.
        rewrite Hk in He. simpl in He.
        rewrite (loc_ticket _ _ HL _ _ H0) in He.
        apply ends_elem, list_elem_of_lookup in He as [i Hi].
        exists o, i, (length (log s)). split; [eapply lookup_lt_Some, Hi|].
        split; [apply lookup_app_l_Some, Hi|].
        rewrite <- Hlog. auto.
    + destruct (lnk_order _ _ HK m cm' n c0) as [o Ho]; try assumption.
      { congruence. }
      exists o. apply before_app, Ho.
Qed.

End LinksUpdate.

(** The step lemma for a chain that is neither waiting nor complete, before
    and after: the other chains see neither their promises nor their jobs
    change. *)
Lemma inv_update G s s' c c' popped keep new evs :
  inv G s ->
  G !! ticket c = Some c ->
  ticket c' = ticket c -> guild c' = guild c -> the_task c' = the_task c ->
  base c' = base c -> succ c' = succ c ->
  active c -> active c' ->
  next_pid s <= next_pid s' ->
  (forall p, p < next_pid s -> p ∉ tracked c -> heap s' !! p = heap s !! p) ->
  (forall p x, (p, x) ∈ cells c' -> heap s' !! p = Some x) ->
  (forall p, p ∈ extra (stage_of c') ->
             p ∈ extra (stage_of c) \/ next_pid s <= p < next_pid s') ->
  NoDup (extra (stage_of c')) ->
  due c ≡ₚ popped ++ keep ->
  due c' ≡ₚ keep ++ new ->
  popped ++ jobs s' ≡ₚ jobs s ++ new ->
  queues s' = queues s ->
  submitted s' = submitted s ->
  (forall r, runs c' r -> running s' !! r = Some (ticket c)) ->
  (forall r n, running s' !! r = Some n ->
               (n = ticket c /\ runs c' r) \/ (n <> ticket c /\ running s !! r = Some n)) ->
  (forall r n, n <> ticket c -> running s !! r = Some n -> running s' !! r = Some n) ->
  log s' = log s ++ evs ->
  Forall (about (ticket c)) evs ->
  log_ok c' (log s') ->
  (started (stage_of c) = false -> started (stage_of c') = true ->
   log s' !! length (log s) = Some (Started (ticket c))) ->
  inv (<[ticket c := c']> G) s'.
Proof.
  intros [HL HK] **. split.
  - eapply local_update; eassumption.
  - eapply links_update; eassumption.
Qed.

(** *** The primitives on known cells *)

Lemma settle_pending p st rs s :
  heap s !! p = Some (pending rs) ->
  settle p st s
  = set_jobs (fun js => js ++ map (job_of st) rs)
      (set_heap (insert p (done st)) s).
Proof. unfold settle, pending. intros ->. reflexivity. Qed.

Lemma then_pending p f g rs s :
  p <> next_pid s ->
  heap s !! p = Some (pending rs) ->
  Promise_then p f g s
  = (next_pid s,
     set_heap (insert p (pending (rs ++ [{| on_fulfilled := f; on_rejected := g;
                                            derived := next_pid s |}])))
       (snd (alloc Pending s))).
Proof.
  intros Hne Hp. unfold Promise_then, alloc, pending in *. cbn [heap].
  rewrite lookup_insert_ne by congruence. rewrite Hp. reflexivity.
Qed.

Lemma then_fulfilled p f g v s :
  p <> next_pid s ->
  heap s !! p = Some (done (Fulfilled v)) ->
  Promise_then p f g s
  = (next_pid s,
     set_jobs (fun js => js ++ [ReactionJob f (next_pid s) v]) (snd (alloc Pending s))).
Proof.
  intros Hne Hp. unfold Promise_then, alloc, done in *. cbn [heap].
  rewrite lookup_insert_ne by congruence. rewrite Hp. reflexivity.
Qed.

Lemma then_rejected p f g e s :
  p <> next_pid s ->
  heap s !! p = Some (done (Rejected e)) ->
  Promise_then p f g s
  = (next_pid s,
     set_jobs (fun js => js ++ [ReactionJob g (next_pid s) e]) (snd (alloc Pending s))).
Proof.
  intros Hne Hp. unfold Promise_then, alloc, done in *. cbn [heap].
  rewrite lookup_insert_ne by congruence. rewrite Hp. reflexivity.
Qed.

(** *** What the invariant says about one chain *)

Lemma chain_cells G s c :
  inv G s -> G !! ticket c = Some c ->
  Forall (fun px => heap s !! px.1 = Some px.2) (cells c).
Proof.
  intros HI Hc. apply Forall_forall. intros [p x] Hin.
  apply (inv_heap _ _ HI c); [eapply list_elem_of_lookup_2, Hc|exact Hin].
Qed.

Lemma chain_tracked G s c :
  inv G s -> G !! ticket c = Some c ->
  NoDup (tracked c) /\ Forall (fun p => p < next_pid s) (tracked c).
Proof.
  intros HI Hc. assert (HcG : c ∈ G) by (eapply list_elem_of_lookup_2, Hc). split.
  - eapply NoDup_bind_elem; [apply (inv_disjoint _ _ HI)|exact HcG].
  - apply Forall_forall. intros p Hp. apply (inv_fresh _ _ HI c p HcG Hp).
Qed.

Lemma job_owner G s j rest :
  inv G s -> jobs s = j :: rest ->
  exists c, G !! ticket c = Some c /\ j ∈ due c.
Proof.
  intros HI Hj. assert (Hin : j ∈ G ≫= due).
  { rewrite <- (inv_jobs _ _ HI), Hj. apply list_elem_of_here. }
  apply list_elem_of_bind in Hin as (c & Hin & HcG).
  apply list_elem_of_lookup in HcG as [n Hn].
  exists c. rewrite (inv_ticket _ _ HI _ _ Hn). auto.
Qed.

Lemma not_runs G s c r n :
  inv G s -> G !! ticket c = Some c -> (forall r, ~ runs c r) ->
  running s !! r = Some n -> n <> ticket c.
Proof.
  intros HI Hc Hno Hr ->. apply (inv_running2 _ _ HI) in Hr as (c0 & H0 & Hr).
  assert (c0 = c) as -> by congruence. apply (Hno r Hr).
Qed.

Ltac split_forall :=
  repeat match goal with
    | H : Forall _ (_ :: _) |- _ =>
        let H1 := fresh "Hcell" in apply Forall_cons in H as [H1 H]; cbn [fst snd] in H1
    | H : Forall _ [] |- _ => clear H
    end.

Ltac split_nodup :=
  repeat match goal with
    | H : NoDup (_ :: _) |- _ =>
        let H1 := fresh "Hne" in
        apply NoDup_cons in H as [H1 H];
        rewrite ?not_elem_of_cons in H1; destruct_and?
    | H : NoDup [] |- _ => clear H
    | H : _ ∉ [] |- _ => clear H
    end.

Ltac static := unfold caught, ran, next, tail in *.

Ltac chain_facts HI Hc Hst :=
  let Hcells := fresh "Hcells" in
  let Hnd := fresh "Hnd" in
  let Hlt := fresh "Hlt" in
  pose proof (chain_cells _ _ _ HI Hc) as Hcells;
  pose proof (chain_tracked _ _ _ HI Hc) as [Hnd Hlt];
  unfold cells, tracked, fulfilled_next in Hcells, Hnd, Hlt;
  rewrite Hst in Hcells, Hnd, Hlt;
  cbn [app extra] in Hcells, Hnd, Hlt;
  split_forall; split_nodup; static.

Ltac state_simpl :=
  cbn [heap next_pid jobs queues running submitted log
       set_heap set_jobs set_queues set_running emit alloc fst snd
       run_job call resolve_with Promise_resolve
       ticket guild the_task base succ stage_of with_stage].

Lemma cells_forall (h : gmap pid promise) c :
  Forall (fun px => h !! px.1 = Some px.2) (cells c) ->
  forall p x, (p, x) ∈ cells c -> h !! p = Some x.
Proof. intros H p x Hin. rewrite Forall_forall in H. apply (H (p, x) Hin). Qed.

Ltac solve_active Hst :=
  unfold active, waiting, complete; state_simpl; rewrite ?Hst;
  split; [discriminate|intros [? ?]; discriminate].

Ltac solve_lookup :=
  repeat first
    [ rewrite lookup_insert_eq
    | rewrite lookup_insert_ne by lia ];
  first [ reflexivity | eassumption ].

Ltac solve_cells :=
  apply cells_forall; unfold cells, fulfilled_next; state_simpl; cbn [app]; static;
  state_simpl;
  repeat (apply Forall_cons; split; [cbn [fst snd]; solve_lookup|]);
  apply Forall_nil_2.

Ltac solve_frame Hst :=
  let p := fresh "p" in
  let Hp := fresh "Hp" in
  let Hnt := fresh "Hnt" in
  intros p Hp Hnt; unfold tracked in Hnt; rewrite Hst in Hnt; cbn [app extra] in Hnt;
  static; rewrite ?not_elem_of_cons in Hnt; destruct_and?;
  rewrite ?lookup_insert_ne by lia; reflexivity.

Ltac solve_extra Hst :=
  let p := fresh "p" in
  let Hp := fresh "Hp" in
  intros p Hp; rewrite ?Hst; cbn [extra] in *;
  rewrite ?elem_of_cons, ?elem_of_nil in *; state_simpl;
  intuition (subst; lia).

Ltac solve_nodup :=
  cbn [extra]; rewrite ?NoDup_cons, ?not_elem_of_cons, ?elem_of_nil;
  repeat split; try lia; try apply NoDup_nil_2; try tauto.

Ltac solve_due Hst :=
  unfold due, resolving_job, next_job; state_simpl; rewrite ?Hst; static; cbn [app];
  solve [reflexivity | solve_Permutation].

Ltac no_runs Hst :=
  let r := fresh "r" in
  intros r [?|[? ?]]; cbn [stage_of with_stage] in *; congruence.

Ltac same_running HI Hc Hst :=
  let r := fresh "r" in
  let n := fresh "n" in
  let Hr := fresh "Hr" in
  intros r n Hr; right; split; [|exact Hr];
  eapply (not_runs _ _ _ r n HI Hc); [|exact Hr];
  intros ? [?|[? ?]]; congruence.

Lemma tick_linked G s c v rest :
  inv G s -> G !! ticket c = Some c -> stage_of c = Linked v ->
  jobs s = ReactionJob Identity (caught c) v :: rest ->
  inv (<[ticket c := with_stage (Ready v) c]> G) (step s Tick).
Proof.
  intros HI Hc Hst Hj. chain_facts HI Hc Hst.
  unfold step. rewrite Hj. cbn [run_job call resolve_with].
  erewrite settle_pending by (state_simpl; eassumption).
  eapply (inv_update G s _ c (with_stage (Ready v) c)
            [ReactionJob Identity (base c) v] []
            [ReactionJob (RunTask (ticket c) (the_task c)) (S (base c)) v] []);
    try eassumption; try reflexivity; state_simpl.
  - solve_active Hst.
  - solve_active Hst.
  - solve_frame Hst.
  - solve_cells.
  - solve_extra Hst.
  - solve_nodup.
  - solve_due Hst.
  - rewrite Hj. reflexivity.
  - no_runs Hst.
  - same_running HI Hc Hst.
  - auto.
  - rewrite app_nil_r. reflexivity.
  - constructor.
  - apply log_ok_stage; [rewrite Hst; reflexivity..|].
    apply (inv_log _ _ HI). eapply list_elem_of_lookup_2, Hc.
  - rewrite Hst. discriminate.
Qed.

(** *** The trace of the chain that moves *)

Lemma starts_elem n l : starts n l = [Started n] -> Started n ∈ l.
Proof.
  intros H. assert (Hin : Started n ∈ starts n l) by (rewrite H; apply list_elem_of_here).
  unfold starts in Hin. apply list_elem_of_filter in Hin as [_ Hin]. exact Hin.
Qed.

Lemma not_started_not_ended s : started s = false -> ended s = None.
Proof. destruct s; simpl; congruence. Qed.

Lemma starts_self n : starts n [Started n] = [Started n].
Proof. unfold starts. rewrite filter_cons, decide_True by reflexivity. reflexivity. Qed.

Lemma starts_finished n m o : starts n [Finished m o] = [].
Proof. unfold starts. rewrite filter_cons, decide_False by discriminate. reflexivity. Qed.

Lemma ends_self n o : ends n [Finished n o] = [o].
Proof. unfold ends. cbn. rewrite decide_True by reflexivity. reflexivity. Qed.

Lemma log_ok_start c l s' :
  log_ok c l -> started (stage_of c) = false ->
  started s' = true -> ended s' = None ->
  log_ok (with_stage s' c) (l ++ [Started (ticket c)]).
Proof.
  intros [H1 H2 H3 H4] Hold Hst He. pose proof (not_started_not_ended _ Hold) as Hold'.
  rewrite Hold in H2. rewrite Hold' in H3.
  split; cbn [ticket guild with_stage stage_of base]; rewrite ?Hst, ?He.
  - apply elem_of_app. left. exact H1.
  - rewrite starts_app, H2, starts_self. reflexivity.
  - rewrite ends_app, H3. reflexivity.
  - discriminate.
Qed.

Lemma log_ok_end c l s' o :
  log_ok c l -> started (stage_of c) = true -> ended (stage_of c) = None ->
  started s' = true -> ended s' = Some o ->
  log_ok (with_stage s' c) (l ++ [Finished (ticket c) o]).
Proof.
  intros [H1 H2 H3 H4] Hold Hold' Hst He.
  rewrite Hold in H2. rewrite Hold' in H3.
  split; cbn [ticket guild with_stage stage_of base]; rewrite ?Hst, ?He.
  - apply elem_of_app. left. exact H1.
  - rewrite starts_app, H2, starts_finished. reflexivity.
  - rewrite ends_app, H3, ends_self. reflexivity.
  - intros o' Ho'. injection Ho' as <-. apply (before_snoc _ _ l []).
    apply starts_elem, H2.
Qed.

Lemma log_ok_start_end c l s' o :
  log_ok c l -> started (stage_of c) = false ->
  started s' = true -> ended s' = Some o ->
  log_ok (with_stage s' c) (l ++ [Started (ticket c); Finished (ticket c) o]).
Proof.
  intros Hok Hold Hst He.
  change (l ++ [Started (ticket c); Finished (ticket c) o])
    with (l ++ [Started (ticket c)] ++ [Finished (ticket c) o]).
  rewrite app_assoc.
  pose proof (log_ok_start c l (Adopting 0 None) Hok Hold eq_refl eq_refl) as Hmid.
  pose proof (log_ok_end (with_stage (Adopting 0 None) c) _ s' o Hmid
                eq_refl eq_refl Hst He) as Hfin.
  exact Hfin.
Qed.

Lemma log_ok_beside c l s' e :
  log_ok c l -> beside (ticket c) e ->
  started s' = started (stage_of c) -> ended s' = ended (stage_of c) ->
  log_ok (with_stage s' c) (l ++ [e]).
Proof.
  intros Hok He Hst Hen. apply log_ok_stage; [assumption..|].
  apply log_ok_app; [assumption|]. constructor; [assumption|constructor].
Qed.

Ltac chain_elem Hc := eapply list_elem_of_lookup_2, Hc.

Ltac update_auto HI Hc Hst Hj :=
  try eassumption; try reflexivity; state_simpl;
  try first
    [ solve [solve_active Hst]
    | solve [rewrite Hj; rewrite ?app_nil_r; reflexivity]
    | solve [solve_frame Hst]
    | solve [solve_cells]
    | solve [solve_extra Hst]
    | solve [solve_nodup]
    | solve [solve_due Hst]
    | solve [no_runs Hst]
    | solve [same_running HI Hc Hst]
    | solve [auto]
    | solve [lia]
    | solve [rewrite ?app_nil_r; reflexivity]
    | solve [repeat constructor]
    | solve [rewrite Hst; discriminate]
    | solve [apply log_ok_stage; [rewrite Hst; reflexivity..|];
             apply (inv_log _ _ HI); chain_elem Hc] ].

Lemma tick_ready_throws G s c v e rest :
  inv G s -> G !! ticket c = Some c -> stage_of c = Ready v ->
  the_task c = Throws e ->
  jobs s = ReactionJob (RunTask (ticket c) (the_task c)) (ran c) v :: rest ->
  inv (<[ticket c := with_stage (Ran (Failed e)) c]> G) (step s Tick).
Proof.
  intros HI Hc Hst Ht Hj. chain_facts HI Hc Hst.
  unfold step. rewrite Hj, Ht. state_simpl.
  erewrite settle_pending by (state_simpl; eassumption).
  eapply (inv_update G s _ c (with_stage (Ran (Failed e)) c)
            [ReactionJob (RunTask (ticket c) (the_task c)) (S (base c)) v] []
            [ReactionJob (LogExecuting (guild c)) (S (S (base c))) e]
            [Started (ticket c); Finished (ticket c) (Failed e)]);
    update_auto HI Hc Hst Hj.
  - apply log_ok_start_end; [apply (inv_log _ _ HI); chain_elem Hc|..];
      rewrite ?Hst; reflexivity.
  - intros _ _. apply list_lookup_middle. reflexivity.
Qed.

Lemma tick_ready_async G s c v rest :
  inv G s -> G !! ticket c = Some c -> stage_of c = Ready v ->
  the_task c = Async ->
  jobs s = ReactionJob (RunTask (ticket c) (the_task c)) (ran c) v :: rest ->
  inv (<[ticket c := with_stage (Adopting (next_pid s) None) c]> G) (step s Tick).
Proof.
  intros HI Hc Hst Ht Hj. chain_facts HI Hc Hst.
  unfold step. rewrite Hj, Ht. state_simpl.
  eapply (inv_update G s _ c (with_stage (Adopting (next_pid s) None) c)
            [ReactionJob (RunTask (ticket c) (the_task c)) (S (base c)) v] []
            [ThenableJob (S (base c)) (next_pid s)]
            [Started (ticket c)]);
    update_auto HI Hc Hst Hj.
  - intros r [Hr|[d Hr]]; cbn [stage_of with_stage] in Hr; [|discriminate].
    injection Hr as <-. apply lookup_insert_eq.
  - intros r n Hr. destruct (decide (r = next_pid s)) as [->|Hne].
    + rewrite lookup_insert_eq in Hr. injection Hr as <-.
      left. split; [reflexivity|]. left. reflexivity.
    + rewrite lookup_insert_ne in Hr by congruence. right. split; [|exact Hr].
      eapply (not_runs _ _ _ r n HI Hc); [|exact Hr].
      intros ? [?|[? ?]]; congruence.
  - intros r n Hne Hr. rewrite lookup_insert_ne; [exact Hr|].
    intros <-. apply (inv_running2 _ _ HI) in Hr as (c0 & Hc0 & Hr).
    assert (Hin : next_pid s ∈ tracked c0).
    { unfold tracked. apply elem_of_app. right.
      destruct Hr as [Hr|[d Hr]]; rewrite Hr; cbn [extra]; set_solver. }
    pose proof (inv_fresh _ _ HI c0 _ ltac:(chain_elem Hc0) Hin). lia.
  - apply log_ok_start; [apply (inv_log _ _ HI); chain_elem Hc|..];
      rewrite ?Hst; reflexivity.
  - intros _ _. apply list_lookup_middle. reflexivity.
Qed.

Lemma tick_adopting_pending G s c r rest :
  inv G s -> G !! ticket c = Some c -> stage_of c = Adopting r None ->
  jobs s = ThenableJob (ran c) r :: rest ->
  inv (<[ticket c := with_stage (Awaiting r (next_pid s)) c]> G) (step s Tick).
Proof.
  intros HI Hc Hst Hj. chain_facts HI Hc Hst.
  unfold step. rewrite Hj. state_simpl.
  erewrite then_pending by (state_simpl; first [lia|eassumption]).
  state_simpl.
  eapply (inv_update G s _ c (with_stage (Awaiting r (next_pid s)) c)
            [ThenableJob (S (base c)) r] [] [] []);
    update_auto HI Hc Hst Hj.
  - intros r' [Hr|[d Hr]]; cbn [stage_of with_stage] in Hr; [discriminate|].
    injection Hr as <- _. apply (inv_running1 _ _ HI c); [chain_elem Hc|].
    left. exact Hst.
  - intros r' n Hr. destruct (decide (n = ticket c)) as [->|Hne]; [left|right; auto].
    split; [reflexivity|]. apply (inv_running2 _ _ HI) in Hr as (c0 & Hc0 & Hr).
    assert (c0 = c) as -> by congruence.
    destruct Hr as [Hr|[d Hr]]; [|congruence].
    right. exists (next_pid s). cbn [stage_of with_stage]. congruence.
Qed.

Lemma tick_adopting_settled G s c r o rest :
  inv G s -> G !! ticket c = Some c -> stage_of c = Adopting r (Some o) ->
  jobs s = ThenableJob (ran c) r :: rest ->
  inv (<[ticket c := with_stage (Resolving (next_pid s) o) c]> G) (step s Tick).
Proof.
  intros HI Hc Hst Hj. chain_facts HI Hc Hst.
  unfold step. rewrite Hj. state_simpl.
  destruct o as [v|e]; cbn [settled_as] in *.
  - erewrite then_fulfilled by (state_simpl; first [lia|eassumption]).
    state_simpl.
    eapply (inv_update G s _ c (with_stage (Resolving (next_pid s) (Returned v)) c)
              [ThenableJob (S (base c)) r] []
              [ReactionJob (ResolveFn (S (base c))) (next_pid s) v] []);
      update_auto HI Hc Hst Hj.
  - erewrite then_rejected by (state_simpl; first [lia|eassumption]).
    state_simpl.
    eapply (inv_update G s _ c (with_stage (Resolving (next_pid s) (Failed e)) c)
              [ThenableJob (S (base c)) r] []
              [ReactionJob (RejectFn (S (base c))) (next_pid s) e] []);
      update_auto HI Hc Hst Hj.
Qed.

Lemma tick_resolving G s c d o rest :
  inv G s -> G !! ticket c = Some c -> stage_of c = Resolving d o ->
  jobs s = resolving_job (ran c) d o :: rest ->
  inv (<[ticket c := with_stage (Ran o) c]> G) (step s Tick).
Proof.
  intros HI Hc Hst Hj. chain_facts HI Hc Hst.
  unfold step. rewrite Hj.
  destruct o as [v|e]; cbn [resolving_job] in *; state_simpl.
  - erewrite (settle_pending (S (base c))) by (state_simpl; eassumption).
    erewrite (settle_pending d)
      by (state_simpl; rewrite lookup_insert_ne by lia; eassumption).
    eapply (inv_update G s _ c (with_stage (Ran (Returned v)) c)
              [ReactionJob (ResolveFn (S (base c))) d v] []
              [ReactionJob Identity (S (S (base c))) v] []);
      update_auto HI Hc Hst Hj.
  - erewrite (settle_pending (S (base c))) by (state_simpl; eassumption).
    erewrite (settle_pending d)
      by (state_simpl; rewrite lookup_insert_ne by lia; eassumption).
    eapply (inv_update G s _ c (with_stage (Ran (Failed e)) c)
              [ReactionJob (RejectFn (S (base c))) d e] []
              [ReactionJob (LogExecuting (guild c)) (S (S (base c))) e] []);
      update_auto HI Hc Hst Hj.
Qed.

Lemma tick_ran G s c o rest :
  inv G s -> G !! ticket c = Some c -> stage_of c = Ran o ->
  jobs s = next_job c o :: rest ->
  inv (<[ticket c := with_stage (Handled o) c]> G) (step s Tick).
Proof.
  intros HI Hc Hst Hj. chain_facts HI Hc Hst.
  unfold step. rewrite Hj.
  destruct o as [v|e]; cbn [next_job] in *; state_simpl.
  - erewrite settle_pending by (state_simpl; eassumption).
    eapply (inv_update G s _ c (with_stage (Handled (Returned v)) c)
              [ReactionJob Identity (S (S (base c))) v] []
              [ReactionJob (ThenFinally (Cleanup (guild c) (S (S (base c)))))
                 (S (S (S (base c)))) v] []);
      update_auto HI Hc Hst Hj.
  - erewrite settle_pending by (state_simpl; eassumption).
    eapply (inv_update G s _ c (with_stage (Handled (Failed e)) c)
              [ReactionJob (LogExecuting (guild c)) (S (S (base c))) e] []
              [ReactionJob (ThenFinally (Cleanup (guild c) (S (S (base c)))))
                 (S (S (S (base c)))) undefined]
              [LoggedExecuting (guild c) e]);
      update_auto HI Hc Hst Hj.
    apply log_ok_beside; [apply (inv_log _ _ HI); chain_elem Hc|exact I|..];
      rewrite Hst; reflexivity.
Qed.

(** The map never holds a handle: its values are the [tail] promises, and
    the comparison in the [finally] callback is against [next]. *)
Lemma queue_entry_not_next G s c k :
  inv G s -> G !! ticket c = Some c -> queues s !! k <> Some (next c).
Proof.
  intros HI Hc Hq. apply (inv_queue2 _ _ HI) in Hq as (c0 & Hc0 & _ & Ht & _).
  apply list_elem_of_lookup in Hc0 as [i Hi].
  destruct (decide (i = ticket c)) as [->|Hne].
  - assert (c0 = c) as -> by congruence. unfold tail, next in Ht. lia.
  - eapply (NoDup_bind_disjoint tracked G i (ticket c) c0 c (next c));
      eauto using inv_disjoint.
    + rewrite <- Ht. unfold tracked. set_solver.
    + unfold tracked. set_solver.
Qed.

Lemma cleanup_noop G s c s0 :
  inv G s -> G !! ticket c = Some c -> queues s0 = queues s ->
  run_callback (Cleanup (guild c) (next c)) s0 = s0.
Proof.
  intros HI Hc Hq. unfold run_callback. rewrite Hq.
  rewrite decide_False; [reflexivity|]. eapply queue_entry_not_next; eauto.
Qed.

Lemma tick_handled G s c o rest :
  inv G s -> G !! ticket c = Some c -> stage_of c = Handled o ->
  jobs s = ReactionJob (ThenFinally (Cleanup (guild c) (next c))) (tail c)
             (result_value o) :: rest ->
  inv (<[ticket c := with_stage (Closing1 (S (next_pid s)) o) c]> G) (step s Tick).
Proof.
  intros HI Hc Hst Hj.
  pose proof (fun s0 => cleanup_noop G s c s0 HI Hc) as Hclean.
  chain_facts HI Hc Hst.
  unfold step. rewrite Hj. state_simpl.
  rewrite Hclean by reflexivity. state_simpl.
  erewrite then_fulfilled
    by (state_simpl; first [lia|apply lookup_insert_eq]).
  state_simpl.
  eapply (inv_update G s _ c (with_stage (Closing1 (S (next_pid s)) o) c)
            [ReactionJob (ThenFinally (Cleanup (guild c) (S (S (base c))))) (S (S (S (base c))))
               (result_value o)] []
            [ReactionJob (ValueThunk (result_value o)) (S (next_pid s)) undefined;
             ThenableJob (S (S (S (base c)))) (S (next_pid s))] []);
    update_auto HI Hc Hst Hj.
  rewrite Hj, <- !app_assoc. reflexivity.
Qed.

Lemma tick_closing1_thunk G s c pt o rest :
  inv G s -> G !! ticket c = Some c -> stage_of c = Closing1 pt o ->
  jobs s = ReactionJob (ValueThunk (result_value o)) pt undefined :: rest ->
  inv (<[ticket c := with_stage (Closing2 pt o) c]> G) (step s Tick).
Proof.
  intros HI Hc Hst Hj. chain_facts HI Hc Hst.
  unfold step. rewrite Hj. state_simpl.
  erewrite settle_pending by (state_simpl; eassumption).
  eapply (inv_update G s _ c (with_stage (Closing2 pt o) c)
            [ReactionJob (ValueThunk (result_value o)) pt undefined]
            [ThenableJob (S (S (S (base c)))) pt] [] []);
    update_auto HI Hc Hst Hj.
Qed.

Lemma tick_closing1_adopt G s c pt o rest :
  inv G s -> G !! ticket c = Some c -> stage_of c = Closing1 pt o ->
  jobs s = ThenableJob (tail c) pt :: rest ->
  inv (<[ticket c := with_stage (Closing3 pt (next_pid s) o) c]> G) (step s Tick).
Proof.
  intros HI Hc Hst Hj. chain_facts HI Hc Hst.
  unfold step. rewrite Hj. state_simpl.
  erewrite then_pending by (state_simpl; first [lia|eassumption]).
  state_simpl.
  eapply (inv_update G s _ c (with_stage (Closing3 pt (next_pid s) o) c)
            [ThenableJob (S (S (S (base c)))) pt]
            [ReactionJob (ValueThunk (result_value o)) pt undefined] [] []);
    update_auto HI Hc Hst Hj.
Qed.

Lemma tick_closing2 G s c pt o rest :
  inv G s -> G !! ticket c = Some c -> stage_of c = Closing2 pt o ->
  jobs s = ThenableJob (tail c) pt :: rest ->
  inv (<[ticket c := with_stage (Closing4 (next_pid s) o) c]> G) (step s Tick).
Proof.
  intros HI Hc Hst Hj. chain_facts HI Hc Hst.
  unfold step. rewrite Hj. state_simpl.
  erewrite then_fulfilled by (state_simpl; first [lia|eassumption]).
  state_simpl.
  eapply (inv_update G s _ c (with_stage (Closing4 (next_pid s) o) c)
            [ThenableJob (S (S (S (base c)))) pt] []
            [ReactionJob (ResolveFn (S (S (S (base c))))) (next_pid s) (result_value o)] []);
    update_auto HI Hc Hst Hj.
Qed.

Lemma tick_closing3 G s c pt d o rest :
  inv G s -> G !! ticket c = Some c -> stage_of c = Closing3 pt d o ->
  jobs s = ReactionJob (ValueThunk (result_value o)) pt undefined :: rest ->
  inv (<[ticket c := with_stage (Closing4 d o) c]> G) (step s Tick).
Proof.
  intros HI Hc Hst Hj. chain_facts HI Hc Hst.
  unfold step. rewrite Hj. state_simpl.
  erewrite settle_pending by (state_simpl; eassumption).
  eapply (inv_update G s _ c (with_stage (Closing4 d o) c)
            [ReactionJob (ValueThunk (result_value o)) pt undefined] []
            [ReactionJob (ResolveFn (S (S (S (base c))))) d (result_value o)] []);
    update_auto HI Hc Hst Hj.
Qed.

Ltac settle_running HI Hc Hst Hr c :=
  first
    [ (* nothing runs in the new stage *)
      solve [no_runs Hst]
    | (* what still runs ran before *)
      let r' := fresh "r" in
      let m := fresh "m" in
      let Hr' := fresh "Hr" in
      let Hc0 := fresh "Hc" in
      let c0 := fresh "c" in
      solve [
        intros r' m Hr'; right;
        apply lookup_delete_Some in Hr' as [? Hr'];
        split; [|exact Hr'];
        intros ->; apply (inv_running2 _ _ HI) in Hr' as (c0 & Hc0 & Hr');
        assert (c0 = c) as -> by congruence;
        destruct Hr' as [Hr'|[? Hr']]; rewrite Hst in Hr'; congruence ]
    | let r' := fresh "r" in
      let m := fresh "m" in
      let Hr' := fresh "Hr" in
      solve [
        intros r' m ? Hr'; rewrite lookup_delete_ne; [exact Hr'|];
        intros <-; congruence ] ].

Lemma settle_adopting G s c r o :
  inv G s -> G !! ticket c = Some c -> stage_of c = Adopting r None ->
  running s !! r = Some (ticket c) ->
  inv (<[ticket c := with_stage (Adopting r (Some o)) c]> G) (step s (Settle r o)).
Proof.
  intros HI Hc Hst Hr. chain_facts HI Hc Hst.
  unfold step. rewrite Hr.
  erewrite settle_pending by (state_simpl; eassumption).
  eapply (inv_update G s _ c (with_stage (Adopting r (Some o)) c)
            [] [ThenableJob (S (base c)) r] [] [Finished (ticket c) o]);
    update_auto HI Hc Hst Hr; try settle_running HI Hc Hst Hr c.
  - apply log_ok_end; [apply (inv_log _ _ HI); chain_elem Hc|..];
      rewrite ?Hst; reflexivity.
Qed.

Lemma settle_awaiting G s c r d o :
  inv G s -> G !! ticket c = Some c -> stage_of c = Awaiting r d ->
  running s !! r = Some (ticket c) ->
  inv (<[ticket c := with_stage (Resolving d o) c]> G) (step s (Settle r o)).
Proof.
  intros HI Hc Hst Hr. chain_facts HI Hc Hst.
  unfold step. rewrite Hr.
  erewrite settle_pending by (state_simpl; eassumption).
  eapply (inv_update G s _ c (with_stage (Resolving d o) c)
            [] [] [resolving_job (S (base c)) d o] [Finished (ticket c) o]);
    update_auto HI Hc Hst Hr; try settle_running HI Hc Hst Hr c.
  - destruct o; reflexivity.
  - apply log_ok_end; [apply (inv_log _ _ HI); chain_elem Hc|..];
      rewrite ?Hst; reflexivity.
Qed.

(** *** A chain completes: the links

    The chain of ticket [n] becomes complete, and its successor, when it
    has one, stops waiting. *)

Lemma fst_succ (o : option (nat * pid)) (m : nat) :
  fst <$> o = Some m -> exists q, o = Some (m, q).
Proof. destruct o as [[m' q]|]; simpl; intros H; [|discriminate]. exists q. congruence. Qed.

Section LinksComplete.

Variables (G G' : list chain) (s s' : state) (n : nat) (c : chain).
Variables (evs : list event).

Hypothesis HL : local G s.
Hypothesis HK : links G s.
Hypothesis Hc : G !! n = Some c.
Hypothesis Hactive : active c.
Hypothesis Hfwd :
  forall i c0, G !! i = Some c0 ->
               exists c1, G' !! i = Some c1 /\ moved n (fst <$> succ c) i c0 c1.
Hypothesis Hbwd :
  forall i c1, G' !! i = Some c1 ->
               exists c0, G !! i = Some c0 /\ moved n (fst <$> succ c) i c0 c1.
Hypothesis Hqueues : queues s' = queues s.
Hypothesis Hlog : log s' = log s ++ evs.

Lemma successor_waits m q : succ c = Some (m, q) ->
  exists cm, G !! m = Some cm /\ waiting cm /\ n < m /\ guild cm = guild c.
Proof.
  intros Hs. destruct (lnk_succ _ _ HK n c m q Hc Hs) as (cm & Hm & _ & Hg & Hlt & Hw).
  exists cm. repeat split; auto. apply Hw. apply Hactive.
Qed.

Lemma one_predecessor n0 c0 m q q0 :
  succ c = Some (m, q) -> G !! n0 = Some c0 -> succ c0 = Some (m, q0) -> n0 = n.
Proof.
  intros Hs H0 Hs0.
  destruct (lnk_succ _ _ HK n c m q Hc Hs) as (cm & Hm & _ & Hg & Hlt & _).
  destruct (lnk_succ _ _ HK n0 c0 m q0 H0 Hs0) as (cm' & Hm' & _ & Hg' & Hlt' & _).
  assert (cm' = cm) as -> by congruence.
  destruct (Nat.lt_total n0 n) as [Hlt0|[->|Hgt]]; [|reflexivity|].
  - pose proof (lnk_between _ _ HK n0 c0 m q0 n c H0 Hs0 Hc ltac:(congruence) Hlt0). lia.
  - pose proof (lnk_between _ _ HK n c m q n0 c0 Hc Hs H0 ltac:(congruence) Hgt). lia.
Qed.

Lemma moved_not_complete i c0 c1 :
  G !! i = Some c0 -> moved n (fst <$> succ c) i c0 c1 -> i <> n ->
  ~ complete c1 -> ~ complete c0.
Proof.
  intros H0 (_ & _ & [[-> _]|[[Hm Ha]|(_ & _ & _ & Hk)]]) Hne Hnk Hk0.
  - congruence.
  - destruct (fst_succ _ _ Hm) as [q Hs].
    destruct (successor_waits i q Hs) as (cm & Hcm & Hw & _).
    assert (cm = c0) as -> by congruence.
    destruct Hk0 as [o Hk0]. unfold waiting in Hw. congruence.
  - apply Hnk, Hk, Hk0.
Qed.

Lemma moved_complete i c0 c1 :
  G !! i = Some c0 -> moved n (fst <$> succ c) i c0 c1 ->
  complete c0 -> complete c1.
Proof.
  intros H0 (_ & _ & [[-> Hk]|[[Hm Ha]|(_ & _ & _ & Hk)]]) Hk0.
  - exact Hk.
  - exfalso. destruct (fst_succ _ _ Hm) as [q Hs].
    destruct (successor_waits i q Hs) as (cm & Hcm & Hw & _).
    assert (cm = c0) as -> by congruence.
    destruct Hk0 as [o Hk0]. unfold waiting in Hw. congruence.
  - apply Hk, Hk0.
Qed.

Lemma moved_waiting i c0 c1 :
  G !! i = Some c0 -> moved n (fst <$> succ c) i c0 c1 ->
  waiting c1 -> waiting c0 /\ i <> n /\ fst <$> succ c <> Some i.
Proof.
  intros H0 (_ & _ & [[-> [o Hk]]|[[Hm [Ha _]]|(Hne & Hns & Hw & _)]]) Hw1.
  - unfold waiting in Hw1. congruence.
  - contradiction.
  - split; [apply Hw, Hw1|auto].
Qed.

Lemma links_complete : links G' s'.
Proof.
  pose proof Hactive as [Hnw Hnc]. split.
  - (* map entries exist *)
    intros c1 H1. rewrite Hqueues. apply list_elem_of_lookup in H1 as [i Hi].
    destruct (Hbwd i c1 Hi) as (c0 & H0 & (_ & Hg & _) & _).
    rewrite Hg. apply (lnk_queue1 _ _ HK). eapply list_elem_of_lookup_2, H0.
  - (* map entries are tails *)
    intros k t Hk. rewrite Hqueues in Hk.
    apply (lnk_queue2 _ _ HK) in Hk as (c0 & H0 & Hg & Ht & Hs).
    apply list_elem_of_lookup in H0 as [i Hi].
    destruct (Hfwd i c0 Hi) as (c1 & H1 & (_ & Hg1 & Hb1 & Hs1) & _).
    exists c1. split; [eapply list_elem_of_lookup_2, H1|].
    unfold tail in *. rewrite Hg1, Hb1, Hs1. auto.
  - (* successors *)
    intros n0 c1 m q H1 Hs1.
    destruct (Hbwd n0 c1 H1) as (c0 & H0 & Hmv0).
    pose proof Hmv0 as ((_ & Hg0 & _ & Hs0) & _).
    rewrite Hs0 in Hs1.
    destruct (lnk_succ _ _ HK n0 c0 m q H0 Hs1) as (cm & Hm & Hbm & Hgm & Hlt & Hwm).
    destruct (Hfwd m cm Hm) as (cm' & Hm' & Hmvm).
    pose proof Hmvm as ((_ & Hgm' & Hbm' & _) & _ & Hcase).
    exists cm'. rewrite Hgm', Hbm', Hg0. repeat split; try assumption.
    intros Hk1. destruct (decide (n0 = n)) as [->|Hne].
    { exfalso. apply Hk1. assert (c0 = c) as -> by congruence.
      destruct Hmv0 as (_ & _ & [[_ Hk]|[[Hsm _]|(Hne & _)]]); [exact Hk| |congruence].
      rewrite Hs1 in Hsm. simpl in Hsm. injection Hsm as ->. lia. }
    pose proof (Hwm (moved_not_complete n0 c0 c1 H0 Hmv0 Hne Hk1)) as Hw.
    destruct Hcase as [[-> _]|[[Hsm _]|(_ & _ & Hw' & _)]].
    + exfalso. assert (cm = c) as -> by congruence. contradiction.
    + exfalso. destruct (fst_succ _ _ Hsm) as [q' Hs]. apply Hne.
      eapply (one_predecessor n0 c0 m q' q); eauto.
    + apply Hw', Hw.
  - (* waiting chains have a predecessor *)
    intros m cm' Hm' Hw'.
    destruct (Hbwd m cm' Hm') as (cm & Hm & Hmvm).
    pose proof Hmvm as ((_ & _ & Hbm & _) & _).
    destruct (moved_waiting m cm cm' Hm Hmvm Hw') as (Hw & Hne & Hns).
    destruct (lnk_wait _ _ HK m cm Hm Hw) as (n0 & c0 & H0 & Hs0 & Hk0).
    destruct (Hfwd n0 c0 H0) as (c1 & H1 & Hmv0).
    pose proof Hmv0 as ((_ & _ & _ & Hs1) & _ & Hcase).
    exists n0, c1. rewrite Hs1, Hbm. repeat split; try assumption.
    intros Hk1. destruct Hcase as [[-> _]|[[Hsm [_ Hnk]]|(_ & _ & _ & Hk)]].
    + assert (c0 = c) as -> by congruence. rewrite Hs0 in Hns. simpl in Hns. congruence.
    + contradiction.
    + apply Hk0, Hk, Hk1.
  - (* earlier chains of the guild are complete *)
    intros m cm' n0 c1 Hm' H1 Hlt Hg Hw'.
    destruct (Hbwd m cm' Hm') as (cm & Hm & Hmvm).
    destruct (Hbwd n0 c1 H1) as (c0 & H0 & Hmv0).
    pose proof Hmvm as ((_ & Hgm & _) & _ & Hcase).
    pose proof Hmv0 as ((_ & Hg0 & _) & _ & Hcase0).
    assert (Hgg : guild c0 = guild cm) by congruence.
    destruct Hcase as [[-> _]|[[Hsm _]|(Hne & Hns & Hw & _)]].
    + assert (cm = c) as -> by congruence.
      apply (moved_complete n0 c0 c1 H0 Hmv0).
      apply (lnk_pred _ _ HK n c n0 c0); assumption.
    + destruct (fst_succ _ _ Hsm) as [q' Hs].
      destruct (successor_waits m q' Hs) as (cm0 & Hcm0 & _ & Hnm & Hgc).
      assert (cm0 = cm) as -> by congruence.
      destruct (Nat.lt_total n0 n) as [Hlt0|[->|Hgt]].
      * apply (moved_complete n0 c0 c1 H0 Hmv0).
        apply (lnk_pred _ _ HK n c n0 c0); try assumption. congruence.
      * destruct Hcase0 as [[_ Hk]|[[Hsm' _]|(Hne & _)]]; [exact Hk| |congruence].
        rewrite Hs in Hsm'. simpl in Hsm'. injection Hsm' as ->. lia.
      * pose proof (lnk_between _ _ HK n c m q' n0 c0 Hc Hs H0 ltac:(congruence) Hgt).
        lia.
    + apply (moved_complete n0 c0 c1 H0 Hmv0).
      apply (lnk_pred _ _ HK m cm n0 c0); try assumption. rewrite <- Hw. exact Hw'.
  - (* nothing of the guild between a chain and its successor *)
    intros n0 c1 m q n' c1' H1 Hs1 H1' Hg Hlt.
    destruct (Hbwd n0 c1 H1) as (c0 & H0 & (_ & Hg0 & _ & Hs0) & _).
    destruct (Hbwd n' c1' H1') as (c0' & H0' & (_ & Hg0' & _) & _).
    apply (lnk_between _ _ HK n0 c0 m q n' c0'); try assumption; congruence.
  - (* the chain without successor is the last of its guild *)
    intros n0 c1 n' c1' H1 Hs1 H1' Hg.
    destruct (Hbwd n0 c1 H1) as (c0 & H0 & (_ & Hg0 & _ & Hs0) & _).
    destruct (Hbwd n' c1' H1') as (c0' & H0' & (_ & Hg0' & _) & _).
    apply (lnk_last _ _ HK n0 c0 n' c0'); try assumption; congruence.
  - (* order *)
    intros m cm' n0 c1 Hm' H1 Hlt Hg Hst. rewrite Hlog.
    destruct (Hbwd m cm' Hm') as (cm & Hm & (_ & Hgm & _) & Hstm & _).
    destruct (Hbwd n0 c1 H1) as (c0 & H0 & (_ & Hg0 & _) & _).
    destruct (lnk_order _ _ HK m cm n0 c0) as [o Ho]; try assumption; auto.
    { congruence. }
    exists o. apply before_app, Ho.
Qed.

End LinksComplete.

Lemma lookup_insert2 (G : list chain) n m c' cm' i c1 :
  n < length G -> m < length G -> n <> m ->
  <[m := cm']> (<[n := c']> G) !! i = Some c1 ->
  (i = n /\ c1 = c') \/ (i = m /\ c1 = cm') \/ (i <> n /\ i <> m /\ G !! i = Some c1).
Proof.
  intros Hn Hm Hne H. destruct (decide (i = m)) as [->|Him].
  - rewrite list_lookup_insert_eq in H by (rewrite length_insert; exact Hm).
    right. left. split; congruence.
  - rewrite list_lookup_insert_ne in H by congruence.
    destruct (decide (i = n)) as [->|Hin].
    + rewrite list_lookup_insert_eq in H by exact Hn. left. split; congruence.
    + rewrite list_lookup_insert_ne in H by congruence. auto.
Qed.

Lemma tick_closing4_last G s c d o rest :
  inv G s -> G !! ticket c = Some c -> stage_of c = Closing4 d o ->
  succ c = None ->
  jobs s = ReactionJob (ResolveFn (tail c)) d (result_value o) :: rest ->
  inv (<[ticket c := with_stage (Complete o) c]> G) (step s Tick).
Proof.
  intros HI Hc Hst Hs Hj. chain_facts HI Hc Hst.
  unfold tail_cell in *. rewrite Hs in *.
  unfold step. rewrite Hj. state_simpl.
  erewrite (settle_pending (S (S (S (base c))))) by (state_simpl; eassumption).
  erewrite (settle_pending d)
    by (state_simpl; rewrite lookup_insert_ne by lia; eassumption).
  assert (Hact : active c) by solve_active Hst.
  assert (Hlen : ticket c < length G) by (eapply lookup_lt_Some, Hc).
  destruct HI as [HL HK]. split.
  - eapply (local_update G s _ c (with_stage (Complete o) c)
              [ReactionJob (ResolveFn (S (S (S (base c))))) d (result_value o)] [] [] []);
      try eassumption; try reflexivity; state_simpl;
      try first
        [ solve [solve_frame Hst] | solve [solve_cells] | solve [solve_extra Hst]
        | solve [solve_nodup] | solve [solve_due Hst] | solve [no_runs Hst]
        | solve [rewrite Hj; rewrite ?app_nil_r; reflexivity]
        | solve [auto] | solve [lia] | solve [rewrite ?app_nil_r; reflexivity]
        | solve [repeat constructor] ].
    + intros r n Hr. right. split; [|exact Hr]. intros ->.
      apply (loc_running2 _ _ HL) in Hr as (c0 & Hc0 & Hr).
      assert (c0 = c) as -> by congruence.
      destruct Hr as [Hr|[? Hr]]; congruence.
    + apply log_ok_stage; [rewrite Hst; reflexivity..|].
      apply (loc_log _ _ HL). chain_elem Hc.
  - eapply (links_complete G _ s _ (ticket c) c []); try eassumption;
      try (state_simpl; rewrite ?app_nil_r; reflexivity).
    + intros i c0 Hi. rewrite Hs. cbn [fmap option_fmap option_map].
      destruct (decide (i = ticket c)) as [->|Hne].
      * assert (c0 = c) as -> by congruence.
        exists (with_stage (Complete o) c).
        rewrite list_lookup_insert_eq by exact Hlen.
        split; [reflexivity|]. split; [repeat split|].
        split; [rewrite Hst; reflexivity|]. left. split; [reflexivity|].
        exists o. reflexivity.
      * exists c0. rewrite list_lookup_insert_ne by congruence.
        split; [exact Hi|]. split; [repeat split|]. split; [auto|].
        right. right. repeat split; auto; discriminate.
    + intros i c1 Hi. rewrite Hs. cbn [fmap option_fmap option_map].
      destruct (decide (i = ticket c)) as [->|Hne].
      * rewrite list_lookup_insert_eq in Hi by exact Hlen. injection Hi as <-.
        exists c. split; [exact Hc|]. split; [repeat split|].
        split; [rewrite Hst; reflexivity|]. left. split; [reflexivity|].
        exists o. reflexivity.
      * rewrite list_lookup_insert_ne in Hi by congruence.
        exists c1. split; [exact Hi|]. split; [repeat split|]. split; [auto|].
        right. right. repeat split; auto; discriminate.
Qed.

Lemma tick_closing4_next G s c d o m q rest :
  inv G s -> G !! ticket c = Some c -> stage_of c = Closing4 d o ->
  succ c = Some (m, q) ->
  jobs s = ReactionJob (ResolveFn (tail c)) d (result_value o) :: rest ->
  exists cm,
    G !! m = Some cm
    /\ inv (<[m := with_stage (Linked (result_value o)) cm]>
              (<[ticket c := with_stage (Complete o) c]> G)) (step s Tick).
Proof.
  intros HI Hc Hst Hs Hj.
  assert (Hact : active c) by solve_active Hst.
  destruct (successor_waits G s (ticket c) c (inv_links _ _ HI) Hc Hact m q Hs)
    as (cm & Hm & Hw & Hlt & Hg).
  destruct (lnk_succ _ _ (inv_links _ _ HI) _ c m q Hc Hs) as (cm0 & Hm0 & Hq & _).
  assert (cm0 = cm) as -> by congruence. clear Hm0.
  pose proof (inv_ticket _ _ HI _ _ Hm) as Htm.
  exists cm. split; [exact Hm|].
  chain_facts HI Hc Hst.
  unfold tail_cell in *. rewrite Hs in *.
  unfold step. rewrite Hj. state_simpl.
  erewrite (settle_pending (S (S (S (base c))))) by (state_simpl; eassumption).
  erewrite (settle_pending d)
    by (state_simpl; rewrite lookup_insert_ne by lia; eassumption).
  cbn [map job_of to_caught on_fulfilled derived].
  assert (Hlen : ticket c < length G) by (eapply lookup_lt_Some, Hc).
  assert (Hlenm : m < length G) by (eapply lookup_lt_Some, Hm).
  destruct HI as [HL HK].
  set (c' := with_stage (Complete o) c).
  set (cm' := with_stage (Linked (result_value o)) cm).
  set (s' := set_jobs _ (set_heap _ (set_jobs _ (set_heap _ (set_jobs _ s))))).
  set (s1 := set_jobs (fun _ => rest) s').
  assert (HL1 : local (<[ticket c := c']> G) s1).
  { eapply (local_update G s s1 c c'
              [ReactionJob (ResolveFn (S (S (S (base c))))) d (result_value o)] [] [] []);
      try eassumption; try reflexivity; subst s1 s' c'; state_simpl;
      try first
        [ solve [solve_frame Hst] | solve [solve_cells] | solve [solve_extra Hst]
        | solve [solve_nodup] | solve [solve_due Hst] | solve [no_runs Hst]
        | solve [rewrite Hj; rewrite ?app_nil_r; reflexivity]
        | solve [auto] | solve [lia] | solve [rewrite ?app_nil_r; reflexivity]
        | solve [repeat constructor] ].
    - intros r n Hr. right. split; [|exact Hr]. intros ->.
      apply (loc_running2 _ _ HL) in Hr as (c0 & Hc0 & Hr).
      assert (c0 = c) as -> by congruence.
      destruct Hr as [Hr|[? Hr]]; congruence.
    - apply log_ok_stage; [rewrite Hst; reflexivity..|].
      apply (loc_log _ _ HL). chain_elem Hc. }
  assert (Hm1 : <[ticket c := c']> G !! ticket cm = Some cm).
  { rewrite Htm, list_lookup_insert_ne by lia. exact Hm. }
  assert (Hcm1 : cm ∈ <[ticket c := c']> G) by (eapply list_elem_of_lookup_2, Hm1).
  split.
  - rewrite <- Htm.
    eapply (local_update _ s1 s' cm cm' [] [] [ReactionJob Identity (base cm) (result_value o)] []);
      try eassumption; try reflexivity; subst s1 s' cm'; state_simpl;
      try first
        [ solve [auto] | solve [lia] | solve [rewrite ?app_nil_r; reflexivity]
        | solve [repeat constructor] ].
    + intros p x Hin. apply (loc_heap _ _ HL1 cm p x Hcm1).
      unfold cells in *. rewrite Hw. exact Hin.
    + intros p Hp. cbn [extra] in Hp. apply elem_of_nil in Hp. contradiction.
    + unfold due. rewrite Hw. reflexivity.
    + rewrite Hq, app_nil_r. reflexivity.
    + intros r [Hr|[? Hr]]; cbn [stage_of with_stage] in Hr; discriminate.
    + intros r n Hr. right. split; [|exact Hr]. intros ->.
      apply (loc_running2 _ _ HL1) in Hr as (c0 & Hc0 & Hr).
      assert (c0 = cm) as -> by congruence. unfold waiting in Hw.
      destruct Hr as [Hr|[? Hr]]; congruence.
    + apply log_ok_stage; [rewrite Hw; reflexivity..|].
      apply (loc_log _ _ HL1 cm Hcm1).
  - eapply (links_complete G _ s s' (ticket c) c []); try eassumption;
      try (subst s'; state_simpl; rewrite ?app_nil_r; reflexivity).
    + intros i c0 Hi. rewrite Hs. cbn [fmap option_fmap option_map fst].
      destruct (decide (i = ticket c)) as [->|Hne]; [|destruct (decide (i = m)) as [->|Hnm]].
      * assert (c0 = c) as -> by congruence. exists c'.
        rewrite list_lookup_insert_ne, list_lookup_insert_eq by (lia || exact Hlen).
        split; [reflexivity|]. split; [repeat split|].
        split; [rewrite Hst; reflexivity|]. left. split; [reflexivity|].
        exists o. reflexivity.
      * assert (c0 = cm) as -> by congruence. exists cm'.
        rewrite list_lookup_insert_eq by (rewrite length_insert; exact Hlenm).
        split; [reflexivity|]. split; [repeat split|].
        split; [discriminate|]. right. left. split; [reflexivity|].
        subst cm'. solve_active Hw.
      * exists c0. rewrite !list_lookup_insert_ne by congruence.
        split; [exact Hi|]. split; [repeat split|]. split; [auto|].
        right. right. repeat split; auto; congruence.
    + intros i c1 Hi. rewrite Hs. cbn [fmap option_fmap option_map fst].
      apply lookup_insert2 in Hi as [[-> ->]|[[-> ->]|(Hne & Hnm & Hi)]];
        try assumption; try lia.
      * exists c. split; [exact Hc|]. split; [repeat split|].
        split; [rewrite Hst; reflexivity|]. left. split; [reflexivity|].
        exists o. reflexivity.
      * exists cm. split; [exact Hm|]. split; [repeat split|].
        split; [discriminate|]. right. left. split; [reflexivity|].
        subst cm'. solve_active Hw.
      * exists c1. split; [exact Hi|]. split; [repeat split|]. split; [auto|].
        right. right. repeat split; auto; congruence.
Qed.

(** *** A new chain: the local part *)

Lemma within_beside n evs : Forall (within n) evs -> Forall (beside n) evs.
Proof.
  intros H. eapply Forall_impl; [exact H|]. intros [] He; simpl in *; lia || exact I.
Qed.

Lemma within_mono n m evs : n <= m -> Forall (within n) evs -> Forall (within m) evs.
Proof.
  intros Hle H. eapply Forall_impl; [exact H|]. intros [] He; simpl in *; lia || exact I.
Qed.

Section LocalExtend.

Variables (G : list chain) (s s' : state) (cN : chain).

Hypothesis HL : local G s.
Hypothesis Hticket : ticket cN = length G.
Hypothesis Hextra : extra (stage_of cN) = [].
Hypothesis Hstarted : started (stage_of cN) = false.
Hypothesis Hbase : next_pid s <= base cN /\ base cN + 3 < next_pid s'.
Hypothesis Hframe : forall p, p < next_pid s -> heap s' !! p = heap s !! p.
Hypothesis Hcells : forall p x, (p, x) ∈ cells cN -> heap s' !! p = Some x.
Hypothesis Hjobs : jobs s' ≡ₚ jobs s ++ due cN.
Hypothesis Hrunning : running s' = running s.
Hypothesis Hlog : log s' = log s ++ [Submitted (length G) (guild cN) (next cN)].
Hypothesis Hsubmitted : submitted s' = S (submitted s).

Lemma extend_lookup i c0 :
  (G ++ [cN]) !! i = Some c0 ->
  (i < length G /\ G !! i = Some c0) \/ (i = length G /\ c0 = cN).
Proof.
  intros H. apply lookup_app_Some in H as [H|[Hge H]].
  - left. split; [eapply lookup_lt_Some, H|exact H].
  - right. destruct (i - length G) as [|k] eqn:Hk; simpl in H; [|discriminate].
    split; [lia|congruence].
Qed.

Lemma extend_elem c0 : c0 ∈ G ++ [cN] -> c0 ∈ G \/ c0 = cN.
Proof.
  intros H. apply elem_of_app in H as [H|H]; [left; exact H|].
  right. apply list_elem_of_singleton in H. exact H.
Qed.

Lemma not_started_no_runs r : ~ runs cN r.
Proof. intros [H|[d H]]; rewrite H in Hstarted; discriminate. Qed.

Lemma tracked_new p : p ∈ tracked cN -> base cN <= p <= base cN + 3.
Proof.
  unfold tracked, caught, ran, next, tail. rewrite Hextra, app_nil_r.
  rewrite !elem_of_cons, elem_of_nil. lia.
Qed.

Lemma local_extend : local (G ++ [cN]) s'.
Proof.
  split.
  - intros n c0 H. apply extend_lookup in H as [[_ H]|[-> ->]]; [|exact Hticket].
    apply (loc_ticket _ _ HL _ _ H).
  - rewrite length_app, Hsubmitted, (loc_submitted _ _ HL). simpl. lia.
  - intros c0 p x H0 Hp. apply extend_elem in H0 as [H0| ->]; [|auto].
    rewrite Hframe; [apply (loc_heap _ _ HL c0); assumption|].
    apply (loc_fresh _ _ HL c0); [assumption|]. eapply cells_tracked, Hp.
  - intros c0 p H0 Hp. apply extend_elem in H0 as [H0| ->].
    + pose proof (loc_fresh _ _ HL c0 p H0 Hp). lia.
    + apply tracked_new in Hp. lia.
  - rewrite bind_app, bind_singleton. apply NoDup_app.
    split; [apply (loc_disjoint _ _ HL)|]. split.
    + intros p Hp Hin. apply list_elem_of_bind in Hp as (c0 & Hp & H0).
      pose proof (loc_fresh _ _ HL c0 p H0 Hp). apply tracked_new in Hin. lia.
    + unfold tracked, caught, ran, next, tail. rewrite Hextra, app_nil_r.
      rewrite !NoDup_cons, !not_elem_of_cons, !elem_of_nil.
      repeat split; try lia; try tauto. apply NoDup_nil_2.
  - rewrite bind_app, bind_singleton, Hjobs, (loc_jobs _ _ HL). reflexivity.
  - intros c0 r H0 Hr. rewrite Hrunning. apply extend_elem in H0 as [H0| ->].
    + apply (loc_running1 _ _ HL); assumption.
    + exfalso. eapply not_started_no_runs, Hr.
  - intros r n Hr. rewrite Hrunning in Hr.
    apply (loc_running2 _ _ HL) in Hr as (c0 & H0 & Hr).
    exists c0. split; [apply lookup_app_l_Some, H0|exact Hr].
  - intros c0 H0. rewrite Hlog. apply extend_elem in H0 as [H0| ->].
    + apply log_ok_app; [apply (loc_log _ _ HL); assumption|].
      constructor; [|constructor]. simpl.
      apply list_elem_of_lookup in H0 as [i Hi].
      rewrite (loc_ticket _ _ HL _ _ Hi). apply lookup_lt_Some in Hi. lia.
    + pose proof (within_beside _ _ (loc_bound _ _ HL)) as Hb.
      split.
      * rewrite Hticket. apply elem_of_app. right. apply list_elem_of_here.
      * rewrite Hstarted, starts_app, Hticket, (starts_beside _ (log s)) by exact Hb.
        unfold starts. rewrite filter_cons, decide_False by discriminate. reflexivity.
      * rewrite (not_started_not_ended _ Hstarted), ends_app, Hticket.
        rewrite (ends_beside _ (log s)) by exact Hb. reflexivity.
      * intros o Ho. rewrite (not_started_not_ended _ Hstarted) in Ho. discriminate.
  - intros n k h Hin. rewrite Hlog in Hin. apply elem_of_app in Hin as [Hin|Hin].
    + apply (loc_known _ _ HL) in Hin as (c0 & H0 & Hk).
      exists c0. split; [apply lookup_app_l_Some, H0|exact Hk].
    + apply list_elem_of_singleton in Hin. injection Hin as -> -> ->.
      exists cN. split; [|auto]. apply list_lookup_middle. reflexivity.
  - rewrite length_app, Hlog. apply Forall_app. split.
    + eapply within_mono; [|apply (loc_bound _ _ HL)]. lia.
    + constructor; [simpl; lia|constructor].
Qed.

End LocalExtend.

(** *** A new chain: the links *)

Lemma waiting_stage c s : stage_of c = s -> waiting (with_stage s c) <-> s = Waiting.
Proof. intros _. unfold waiting. simpl. tauto. Qed.

Section LinksFirst.

(** The guild has no entry in the map: the new chain is its first one. *)

Variables (G : list chain) (s s' : state) (cN : chain) (evs : list event).

Hypothesis HL : local G s.
Hypothesis HK : links G s.
Hypothesis Hnone : queues s !! guild cN = None.
Hypothesis Hticket : ticket cN = length G.
Hypothesis Hsucc : succ cN = None.
Hypothesis Hnw : ~ waiting cN.
Hypothesis Hstarted : started (stage_of cN) = false.
Hypothesis Hqueues : queues s' = <[guild cN := tail cN]> (queues s).
Hypothesis Hlog : log s' = log s ++ evs.

Lemma first_of_guild i c0 : G !! i = Some c0 -> guild c0 <> guild cN.
Proof.
  intros Hi Hg. destruct (lnk_queue1 _ _ HK c0) as [t Ht].
  - eapply list_elem_of_lookup_2, Hi.
  - rewrite Hg in Ht. congruence.
Qed.

Lemma first_lookup i c1 :
  (G ++ [cN]) !! i = Some c1 ->
  (i < length G /\ G !! i = Some c1) \/ (i = length G /\ c1 = cN).
Proof.
  intros H. apply lookup_app_Some in H as [H|[Hge H]].
  - left. split; [eapply lookup_lt_Some, H|exact H].
  - right. destruct (i - length G) as [|k] eqn:Hk; simpl in H; [|discriminate].
    split; [lia|congruence].
Qed.

Lemma links_first : links (G ++ [cN]) s'.
Proof.
  split.
  - intros c1 H1. rewrite Hqueues. apply list_elem_of_lookup in H1 as [i Hi].
    apply first_lookup in Hi as [[_ Hi]|[_ ->]].
    + rewrite lookup_insert_ne by (intros Hg; eapply first_of_guild; eauto).
      apply (lnk_queue1 _ _ HK). eapply list_elem_of_lookup_2, Hi.
    + rewrite lookup_insert_eq. eauto.
  - intros k t Hk. rewrite Hqueues in Hk.
    destruct (decide (guild cN = k)) as [<-|Hne].
    + rewrite lookup_insert_eq in Hk. injection Hk as <-.
      exists cN. split; [|auto]. apply elem_of_app. right. apply list_elem_of_here.
    + rewrite lookup_insert_ne in Hk by exact Hne.
      apply (lnk_queue2 _ _ HK) in Hk as (c0 & H0 & Hk).
      exists c0. split; [|exact Hk]. apply elem_of_app. left. exact H0.
  - intros n c1 m q H1 Hs1. apply first_lookup in H1 as [[_ H1]|[_ ->]]; [|congruence].
    destruct (lnk_succ _ _ HK n c1 m q H1 Hs1) as (cm & Hm & Hrest).
    exists cm. split; [apply lookup_app_l_Some, Hm|exact Hrest].
  - intros m cm Hm Hw. apply first_lookup in Hm as [[_ Hm]|[_ ->]]; [|contradiction].
    destruct (lnk_wait _ _ HK m cm Hm Hw) as (n & c0 & H0 & Hrest).
    exists n, c0. split; [apply lookup_app_l_Some, H0|exact Hrest].
  - intros m cm n c1 Hm H1 Hlt Hg Hw.
    apply first_lookup in H1 as [[_ H1]|[-> ->]].
    + apply first_lookup in Hm as [[_ Hm]|[_ ->]].
      * apply (lnk_pred _ _ HK m cm n c1); assumption.
      * exfalso. eapply first_of_guild; eauto.
    + apply first_lookup in Hm as [[Hm' _]|[-> _]]; lia.
  - intros n c1 m q n' c1' H1 Hs1 H1' Hg Hlt.
    apply first_lookup in H1 as [[_ H1]|[_ ->]]; [|congruence].
    apply first_lookup in H1' as [[_ H1']|[_ ->]].
    + apply (lnk_between _ _ HK n c1 m q n' c1'); assumption.
    + exfalso. eapply (first_of_guild n c1); eauto.
  - intros n c1 n' c1' H1 Hs1 H1' Hg.
    apply first_lookup in H1 as [[Hn H1]|[-> ->]].
    + apply first_lookup in H1' as [[_ H1']|[_ ->]].
      * apply (lnk_last _ _ HK n c1 n' c1'); assumption.
      * exfalso. eapply (first_of_guild n c1); eauto.
    + apply first_lookup in H1' as [[Hn' _]|[-> _]]; lia.
  - intros m cm n c1 Hm H1 Hlt Hg Hst. rewrite Hlog.
    apply first_lookup in Hm as [[Hlm Hm]|[_ ->]]; [|congruence].
    apply first_lookup in H1 as [[_ H1]|[-> _]]; [|lia].
    destruct (lnk_order _ _ HK m cm n c1) as [o Ho]; try assumption.
    exists o. apply before_app, Ho.
Qed.

End LinksFirst.

Section LinksNext.

(** The map holds the tail of chain [c]: the new chain follows it. *)

Variables (G : list chain) (s s' : state) (c cN : chain) (evs : list event).

Hypothesis HL : local G s.
Hypothesis HK : links G s.
Hypothesis Hc : G !! ticket c = Some c.
Hypothesis Hlast : succ c = None.
Hypothesis Hticket : ticket cN = length G.
Hypothesis Hguild : guild cN = guild c.
Hypothesis Hsucc : succ cN = None.
Hypothesis Hphase : (waiting cN <-> ~ complete c) /\ (complete c \/ ~ complete c).
Hypothesis Hstarted : started (stage_of cN) = false.
Hypothesis Hqueues : queues s' = <[guild cN := tail cN]> (queues s).
Hypothesis Hlog : log s' = log s ++ evs.

Let c' := with_succ (length G) (base cN) c.
Let G' := <[ticket c := c']> G ++ [cN].

Definition relinked (i : nat) (c0 c1 : chain) : Prop :=
  ticket c1 = ticket c0 /\ guild c1 = guild c0 /\ base c1 = base c0
  /\ stage_of c1 = stage_of c0
  /\ ((i = ticket c /\ c0 = c /\ succ c1 = Some (length G, base cN))
      \/ (i <> ticket c /\ c1 = c0)).

Lemma next_back i c1 :
  G' !! i = Some c1 ->
  (i = length G /\ c1 = cN)
  \/ (i < length G /\ exists c0, G !! i = Some c0 /\ relinked i c0 c1).
Proof.
  unfold G'. intros H. apply lookup_app_Some in H as [H|[Hge H]].
  - right. pose proof (lookup_lt_Some _ _ _ H) as Hlt. rewrite length_insert in Hlt.
    split; [exact Hlt|]. destruct (decide (i = ticket c)) as [->|Hne].
    + rewrite list_lookup_insert_eq in H by (eapply lookup_lt_Some, Hc).
      injection H as <-. exists c. split; [exact Hc|].
      repeat split. left. auto.
    + rewrite list_lookup_insert_ne in H by congruence.
      exists c1. split; [exact H|]. repeat split. right. auto.
  - left. rewrite length_insert in *.
    destruct (i - length G) as [|k] eqn:Hk; simpl in H; [|discriminate].
    split; [lia|congruence].
Qed.

Lemma next_fwd i c0 :
  G !! i = Some c0 -> exists c1, G' !! i = Some c1 /\ relinked i c0 c1.
Proof.
  intros H. unfold G'. destruct (decide (i = ticket c)) as [->|Hne].
  - exists c'. assert (c0 = c) as -> by congruence. split.
    + apply lookup_app_l_Some, list_lookup_insert_eq. eapply lookup_lt_Some, Hc.
    + repeat split. left. auto.
  - exists c0. split.
    + apply lookup_app_l_Some. rewrite list_lookup_insert_ne by congruence. exact H.
    + repeat split. right. auto.
Qed.

Lemma next_new : G' !! length G = Some cN.
Proof.
  unfold G'. rewrite <- (length_insert G (ticket c) c').
  apply list_lookup_middle. reflexivity.
Qed.

Lemma relinked_waiting i c0 c1 : relinked i c0 c1 -> waiting c1 <-> waiting c0.
Proof. intros (_ & _ & _ & Hst & _). unfold waiting. rewrite Hst. tauto. Qed.

Lemma relinked_complete i c0 c1 : relinked i c0 c1 -> complete c1 <-> complete c0.
Proof. intros (_ & _ & _ & Hst & _). unfold complete. rewrite Hst. tauto. Qed.

Lemma last_of_guild i c0 : G !! i = Some c0 -> guild c0 = guild c -> i <= ticket c.
Proof. intros Hi Hg. apply (lnk_last _ _ HK (ticket c) c i c0); assumption. Qed.

Lemma links_next : links G' s'.
Proof.
  destruct Hphase as [Hwait Hdec].
  assert (Hlen : ticket c < length G) by (eapply lookup_lt_Some, Hc).
  split.
  - intros c1 H1. rewrite Hqueues. apply list_elem_of_lookup in H1 as [i Hi].
    apply next_back in Hi as [[_ ->]|[_ (c0 & H0 & (_ & Hg & _))]].
    + rewrite lookup_insert_eq. eauto.
    + rewrite Hg. destruct (decide (guild cN = guild c0)) as [->|Hne].
      * rewrite lookup_insert_eq. eauto.
      * rewrite lookup_insert_ne by exact Hne.
        apply (lnk_queue1 _ _ HK). eapply list_elem_of_lookup_2, H0.
  - intros k t Hk. rewrite Hqueues in Hk.
    destruct (decide (guild cN = k)) as [<-|Hne].
    + rewrite lookup_insert_eq in Hk. injection Hk as <-.
      exists cN. split; [|auto]. eapply list_elem_of_lookup_2, next_new.
    + rewrite lookup_insert_ne in Hk by exact Hne.
      apply (lnk_queue2 _ _ HK) in Hk as (c0 & H0 & Hg0 & Ht0 & Hs0).
      apply list_elem_of_lookup in H0 as [i Hi].
      destruct (next_fwd i c0 Hi) as (c1 & H1 & (_ & Hg1 & Hb1 & _ & [(-> & -> & _)|[_ ->]])).
      * congruence.
      * exists c0. split; [eapply list_elem_of_lookup_2, H1|auto].
  - intros n c1 m q H1 Hs1.
    apply next_back in H1 as [[_ ->]|[Hn (c0 & H0 & Hrl)]]; [congruence|].
    pose proof Hrl as (_ & Hg & _ & _ & [(-> & -> & Hs)|[Hne ->]]).
    + rewrite Hs in Hs1. injection Hs1 as <- <-.
      exists cN. rewrite Hg. split; [apply next_new|]. repeat split; auto.
      intros Hk. apply Hwait. rewrite <- (relinked_complete _ _ _ Hrl). exact Hk.
    + destruct (lnk_succ _ _ HK n c0 m q H0 Hs1) as (cm & Hm & Hbm & Hgm & Hlt & Hw).
      destruct (next_fwd m cm Hm) as (cm' & Hm' & Hrlm).
      pose proof Hrlm as (_ & Hgm' & Hbm' & _).
      exists cm'. rewrite Hgm', Hbm'. repeat split; auto.
      intros Hk. apply (relinked_waiting _ _ _ Hrlm), Hw, Hk.
  - intros m cm' Hm' Hw'.
    apply next_back in Hm' as [[-> ->]|[Hm (cm & Hcm & Hrlm)]].
    + exists (ticket c), c'. split; [|split; [reflexivity|]].
      * unfold G'. apply lookup_app_l_Some, list_lookup_insert_eq. exact Hlen.
      * intros Hk. apply Hwait in Hw'. apply Hw'. exact Hk.
    + pose proof Hrlm as (_ & _ & Hbm & _).
      destruct (lnk_wait _ _ HK m cm Hcm (proj1 (relinked_waiting _ _ _ Hrlm) Hw'))
        as (n & c0 & H0 & Hs0 & Hk0).
      destruct (next_fwd n c0 H0) as (c1 & H1 & Hrl).
      pose proof Hrl as (_ & _ & _ & _ & [(-> & -> & _)|[_ ->]]); [congruence|].
      exists n, c0. rewrite Hbm. auto.
  - intros m cm' n c1 Hm' H1 Hlt Hg Hw'.
    apply next_back in H1 as [[-> ->]|[Hn (c0 & H0 & Hrl)]].
    { apply next_back in Hm' as [[-> _]|[Hm _]]; lia. }
    apply (relinked_complete _ _ _ Hrl).
    pose proof Hrl as (_ & Hg0 & _).
    apply next_back in Hm' as [[-> ->]|[Hm (cm & Hcm & Hrlm)]].
    + assert (Hk : complete c) by (destruct Hdec as [Hk|Hk]; [exact Hk|]; tauto).
      assert (Hle : n <= ticket c) by (apply (last_of_guild n c0 H0); congruence).
      destruct (decide (n = ticket c)) as [->|Hne]; [congruence|].
      apply (lnk_pred _ _ HK (ticket c) c n c0); try assumption; try lia.
      * congruence.
      * destruct Hk as [o Hk]. unfold waiting. congruence.
    + pose proof Hrlm as (_ & Hgm & _).
      apply (lnk_pred _ _ HK m cm n c0); try assumption.
      * congruence.
      * rewrite <- (relinked_waiting _ _ _ Hrlm). exact Hw'.
  - intros n c1 m q n' c1' H1 Hs1 H1' Hg Hlt.
    apply next_back in H1 as [[_ ->]|[Hn (c0 & H0 & Hrl)]]; [congruence|].
    pose proof Hrl as (_ & Hg0 & _ & _ & Hcase).
    apply next_back in H1' as [[-> ->]|[Hn' (c0' & H0' & Hrl')]].
    + destruct Hcase as [(-> & -> & Hs)|[Hne ->]].
      * rewrite Hs in Hs1. injection Hs1 as <- _. lia.
      * destruct (lnk_succ _ _ HK n c0 m q H0 Hs1) as (cm & Hm & _).
        apply lookup_lt_Some in Hm. lia.
    + pose proof Hrl' as (_ & Hg0' & _).
      destruct Hcase as [(-> & -> & Hs)|[Hne ->]].
      * assert (n' <= ticket c); [|lia].
        apply (last_of_guild n' c0' H0'). congruence.
      * apply (lnk_between _ _ HK n c0 m q n' c0'); try assumption. congruence.
  - intros n c1 n' c1' H1 Hs1 H1' Hg.
    apply next_back in H1' as [[-> ->]|[Hn' (c0' & H0' & Hrl')]].
    + apply next_back in H1 as [[-> _]|[Hn (c0 & H0 & Hrl)]]; [lia|].
      pose proof Hrl as (_ & Hg0 & _ & _ & [(-> & -> & Hs)|[Hne ->]]); [congruence|].
      exfalso. apply Hne.
      assert (n <= ticket c) by (apply (last_of_guild n c0 H0); congruence).
      assert (ticket c <= n); [|lia].
      apply (lnk_last _ _ HK n c0 (ticket c) c); try assumption. congruence.
    + apply next_back in H1 as [[-> _]|[Hn (c0 & H0 & Hrl)]]; [lia|].
      pose proof Hrl' as (_ & Hg0' & _).
      pose proof Hrl as (_ & Hg0 & _ & _ & [(-> & -> & Hs)|[Hne ->]]); [congruence|].
      apply (lnk_last _ _ HK n c0 n' c0'); try assumption. congruence.
  - intros m cm' n c1 Hm' H1 Hlt Hg Hst. rewrite Hlog.
    apply next_back in Hm' as [[-> ->]|[Hm (cm & Hcm & Hrlm)]]; [congruence|].
    apply next_back in H1 as [[-> _]|[Hn (c0 & H0 & Hrl)]]; [lia|].
    pose proof Hrlm as (_ & Hgm & _ & Hstm & _). pose proof Hrl as (_ & Hg0 & _).
    destruct (lnk_order _ _ HK m cm n c0) as [o Ho]; try assumption; try congruence.
    exists o. apply before_app, Ho.
Qed.

End LinksNext.

Lemma lookup_insert_same (m : gmap pid promise) (k k' : pid) (v : promise) :
  k = k' -> <[k := v]> m !! k' = Some v.
Proof. intros ->. apply lookup_insert_eq. Qed.

Ltac heap_lookup :=
  state_simpl;
  repeat first
    [ rewrite lookup_insert_same by lia
    | rewrite lookup_insert_ne by lia ];
  first [ reflexivity | eassumption ].

Ltac new_cells :=
  apply cells_forall; unfold cells, fulfilled_next, tail_cell; state_simpl;
  cbn [app]; static; state_simpl;
  repeat (apply Forall_cons; split; [cbn [fst snd]; heap_lookup|]);
  apply Forall_nil_2.

Lemma enqueue_first G s k t :
  inv G s -> queues s !! k = None ->
  inv (G ++ [{| ticket := length G; guild := k; the_task := t;
                base := S (next_pid s); succ := None;
                stage_of := Linked undefined |}])
      (step s (Enqueue k t)).
Proof.
  intros [HL HK] Hq. unfold step, enqueue, Promise_catch, Promise_finally.
  rewrite Hq, (loc_submitted _ _ HL). state_simpl.
  erewrite then_fulfilled by (state_simpl; first [lia|heap_lookup]).
  state_simpl.
  erewrite then_pending by (state_simpl; first [lia|heap_lookup]).
  state_simpl.
  erewrite then_pending by (state_simpl; first [lia|heap_lookup]).
  state_simpl.
  erewrite then_pending by (state_simpl; first [lia|heap_lookup]).
  state_simpl.
  split.
  - eapply local_extend; try eassumption; try reflexivity; state_simpl.
    + lia.
    + intros p Hp. rewrite !lookup_insert_ne by lia. reflexivity.
    + new_cells.
    + rewrite (loc_submitted _ _ HL). reflexivity.
  - eapply (links_first G s _ _ [_]); try eassumption; try reflexivity;
      state_simpl; try assumption.
    unfold waiting. discriminate.
Qed.

(** *** Linking a chain to its successor *)

Lemma tail_cell_in_cells c :
  ~ complete c -> (tail c, tail_cell c) ∈ cells c.
Proof.
  intros Hk. unfold cells, fulfilled_next.
  destruct (stage_of c) as [| | |r [o|]| | | | | | | | |o] eqn:Hst; cbn [app];
    try (rewrite !elem_of_cons; tauto).
  exfalso. apply Hk. exists o. exact Hst.
Qed.

Lemma tail_done_in_cells c o :
  stage_of c = Complete o -> (tail c, done (Fulfilled (result_value o))) ∈ cells c.
Proof. intros Hst. unfold cells. rewrite Hst. rewrite !elem_of_cons. tauto. Qed.

Lemma complete_dec c : complete c \/ ~ complete c.
Proof.
  unfold complete. destruct (stage_of c); try (right; intros [? ?]; discriminate).
  left. eauto.
Qed.

Lemma relink_fields c q s :
  next_pid (relink c q s) = next_pid s /\ jobs (relink c q s) = jobs s
  /\ queues (relink c q s) = queues s /\ running (relink c q s) = running s
  /\ submitted (relink c q s) = submitted s /\ log (relink c q s) = log s.
Proof. unfold relink. destruct (stage_of c); repeat split. Qed.

Lemma relink_heap_tail c q s :
  ~ complete c ->
  heap (relink c q s) !! tail c = Some (pending [to_caught (guild c) q]).
Proof.
  intros Hk. unfold relink, complete in *.
  destruct (stage_of c) eqn:Hst; cbn [heap set_heap];
    try apply lookup_insert_eq.
  exfalso. apply Hk. eauto.
Qed.

Lemma relink_heap_other c q s p :
  p <> tail c \/ complete c -> heap (relink c q s) !! p = heap s !! p.
Proof.
  intros Hp. unfold relink, complete in *.
  destruct (stage_of c) eqn:Hst; cbn [heap set_heap]; try reflexivity;
    (destruct Hp as [Hp|[? Hp]]; [|discriminate]);
    rewrite lookup_insert_ne by congruence; reflexivity.
Qed.

Lemma log_ok_relink c m q l : log_ok c l -> log_ok (with_succ m q c) l.
Proof. intros [H1 H2 H3 H4]. split; assumption. Qed.

Lemma local_relink G s c m q :
  local G s -> G !! ticket c = Some c -> succ c = None ->
  local (<[ticket c := with_succ m q c]> G) (relink c q s).
Proof.
  intros HL Hc Hs.
  destruct (relink_fields c q s) as (Hnp & Hjobs & Hqueues & Hrun & Hsub & Hlog).
  assert (HcG : c ∈ G) by (eapply list_elem_of_lookup_2, Hc).
  eapply (local_update G s _ c (with_succ m q c) [] (due c) [] []);
    try eassumption; try reflexivity.
  - lia.
  - intros p Hp Hnt. apply relink_heap_other. left.
    intros ->. apply Hnt. unfold tracked. set_solver.
  - intros p x Hin.
    assert (Hcase : (p = tail c /\ ~ complete c) \/ (p <> tail c \/ complete c)).
    { destruct (decide (p = tail c)) as [->|Hne]; [|tauto].
      destruct (complete_dec c); tauto. }
    destruct Hcase as [[-> Hk]|Hno].
    + rewrite (relink_heap_tail c q s Hk).
      pose proof (tail_cell_in_cells (with_succ m q c)) as Htail.
      assert (Hk' : ~ complete (with_succ m q c)) by exact Hk.
      specialize (Htail Hk').
      assert (Hnd : NoDup (tracked (with_succ m q c))).
      { eapply (NoDup_bind_elem tracked G c); [apply (loc_disjoint _ _ HL)|exact HcG]. }
      (* the cells of a chain have distinct addresses *)
      assert (Hfun : forall y, (tail c, y) ∈ cells (with_succ m q c) ->
                               y = tail_cell (with_succ m q c)).
      { clear -Hnd Hk'. intros y Hy. unfold cells, fulfilled_next, tracked in *.
        unfold complete in Hk'. cbn [stage_of with_succ] in *.
        destruct (stage_of c) as [| | |r [o|]| | | | | | | | |o];
          cbn [app extra] in *; split_nodup; static; cbn [base with_succ] in *;
          rewrite ?elem_of_cons, ?elem_of_nil in Hy;
          repeat match goal with
            | H : _ \/ _ |- _ => destruct H as [H|H]
            | H : (_, _) = (_, _) |- _ => injection H as ? ?
            | H : False |- _ => destruct H
            end; subst; try lia; try reflexivity; try congruence.
        exfalso. apply Hk'. eauto. }
      rewrite (Hfun x Hin). unfold tail_cell. cbn [succ with_succ]. reflexivity.
    + rewrite (relink_heap_other c q s p Hno).
      apply (loc_heap _ _ HL c p x HcG).
      unfold cells, fulfilled_next, tail_cell in *. cbn [stage_of with_succ succ] in *.
      rewrite Hs.
      destruct (stage_of c) as [| | |r [o|]| | | | | | | | |o] eqn:Hst;
        cbn [app] in *; rewrite ?elem_of_cons, ?elem_of_nil in *;
        repeat match goal with
          | H : _ \/ _ |- _ => destruct H as [H|H]
          | H : False |- _ => destruct H
          end;
        try (injection Hin as -> ->); try tauto;
        exfalso;
        first [ apply Hno; reflexivity
              | destruct Hno as [? Hno]; rewrite Hst in Hno; discriminate ].
  - intros p Hp. left. exact Hp.
  - assert (Hnd : NoDup (tracked c)).
    { eapply (NoDup_bind_elem tracked G c); [apply (loc_disjoint _ _ HL)|exact HcG]. }
    unfold tracked in Hnd. apply NoDup_app in Hnd as (_ & _ & Hnd). exact Hnd.
  - rewrite app_nil_r. reflexivity.
  - rewrite Hjobs, app_nil_r. reflexivity.
  - intros r Hr. rewrite Hrun. apply (loc_running1 _ _ HL c r HcG Hr).
  - intros r n Hr. rewrite Hrun in Hr.
    destruct (decide (n = ticket c)) as [->|Hne]; [left|right; auto].
    split; [reflexivity|]. apply (loc_running2 _ _ HL) in Hr as (c0 & Hc0 & Hr).
    assert (c0 = c) as -> by congruence. exact Hr.
  - intros r n _ Hr. rewrite Hrun. exact Hr.
  - rewrite Hlog, app_nil_r. reflexivity.
  - constructor.
  - rewrite Hlog. apply log_ok_relink, (loc_log _ _ HL c HcG).
Qed.

Lemma enqueue_next_chain G s k t pt :
  inv G s -> queues s !! k = Some pt ->
  exists c st,
    G !! ticket c = Some c /\ started st = false
    /\ inv (<[ticket c := with_succ (length G) (next_pid s) c]> G
            ++ [{| ticket := length G; guild := k; the_task := t;
                   base := next_pid s; succ := None; stage_of := st |}])
           (step s (Enqueue k t)).
Proof.
  intros [HL HK] Hq.
  destruct (lnk_queue2 _ _ HK k pt Hq) as (c & HcG & Hg & Ht & Hs).
  assert (Hc : G !! ticket c = Some c).
  { apply list_elem_of_lookup in HcG as [i Hi].
    rewrite (loc_ticket _ _ HL _ _ Hi). exact Hi. }
  assert (Hlt : pt < next_pid s).
  { apply (loc_fresh _ _ HL c pt HcG). rewrite <- Ht. unfold tracked. set_solver. }
  pose proof (local_relink G s c (length G) (next_pid s) HL Hc Hs) as HL1.
  destruct (relink_fields c (next_pid s) s)
    as (Hnp & Hjobs & Hqueues & Hrun & Hsub & Hlog).
  assert (Hlen : length (<[ticket c := with_succ (length G) (next_pid s) c]> G)
                 = length G) by apply length_insert.
  destruct (complete_dec c) as [[o Hst]|Hk].
  - (* the previous chain is complete *)
    pose proof (loc_heap _ _ HL c _ _ HcG (tail_done_in_cells c o Hst)) as Htail.
    rewrite Ht in Htail.
    set (cN := {| ticket := length G; guild := k; the_task := t;
                  base := next_pid s; succ := None;
                  stage_of := Linked (result_value o) |}).
    exists c, (Linked (result_value o)). split; [exact Hc|]. split; [reflexivity|].
    fold cN.
    unfold step, enqueue, Promise_catch, Promise_finally.
    rewrite Hq, (loc_submitted _ _ HL). state_simpl.
    rewrite (then_fulfilled pt Identity (LogPrevious k) (result_value o) s)
      by first [lia|exact Htail].
    state_simpl.
    erewrite then_pending by (state_simpl; first [lia|heap_lookup]).
    state_simpl.
    erewrite then_pending by (state_simpl; first [lia|heap_lookup]).
    state_simpl.
    erewrite then_pending by (state_simpl; first [lia|heap_lookup]).
    state_simpl.
    split.
    + eapply (local_extend _ (relink c (next_pid s) s) _ cN); try exact HL1;
        rewrite ?Hlen, ?Hnp, ?Hjobs, ?Hrun, ?Hsub, ?Hlog; try reflexivity;
        subst cN; state_simpl.
      * lia.
      * intros p Hp. rewrite relink_heap_other by (right; exists o; exact Hst).
        rewrite !lookup_insert_ne by lia. reflexivity.
      * new_cells.
      * rewrite (loc_submitted _ _ HL). reflexivity.
    + eapply (links_next G s _ c cN [_]); try eassumption; try reflexivity;
        subst cN; state_simpl; try (symmetry; assumption).
      * split; [|apply complete_dec]. unfold waiting. cbn [stage_of].
        split; [discriminate|]. intros Hn. exfalso. apply Hn. exists o. exact Hst.
  - (* the previous chain is not complete: the new one waits *)
    pose proof (loc_heap _ _ HL c _ _ HcG (tail_cell_in_cells c Hk)) as Htail.
    rewrite Ht in Htail. unfold tail_cell in Htail. rewrite Hs in Htail.
    set (cN := {| ticket := length G; guild := k; the_task := t;
                  base := next_pid s; succ := None; stage_of := Waiting |}).
    exists c, Waiting. split; [exact Hc|]. split; [reflexivity|].
    fold cN.
    unfold step, enqueue, Promise_catch, Promise_finally.
    rewrite Hq, (loc_submitted _ _ HL). state_simpl.
    rewrite (then_pending pt Identity (LogPrevious k) [] s)
      by first [lia|exact Htail].
    state_simpl.
    erewrite then_pending by (state_simpl; first [lia|heap_lookup]).
    state_simpl.
    erewrite then_pending by (state_simpl; first [lia|heap_lookup]).
    state_simpl.
    erewrite then_pending by (state_simpl; first [lia|heap_lookup]).
    state_simpl.
    split.
    + eapply (local_extend _ (relink c (next_pid s) s) _ cN); try exact HL1;
        rewrite ?Hlen, ?Hnp, ?Hjobs, ?Hrun, ?Hsub, ?Hlog; try reflexivity;
        subst cN; state_simpl.
      * lia.
      * intros p Hp. destruct (decide (p = tail c)) as [->|Hne].
        -- rewrite (relink_heap_tail c _ s Hk), Ht, Hg.
           rewrite !lookup_insert_ne by lia. rewrite lookup_insert_eq. reflexivity.
        -- rewrite relink_heap_other by (left; exact Hne).
           rewrite !lookup_insert_ne by (lia || congruence). reflexivity.
      * new_cells.
      * rewrite app_nil_r. reflexivity.
      * rewrite (loc_submitted _ _ HL). reflexivity.
    + eapply (links_next G s _ c cN [_]); try eassumption; try reflexivity;
        subst cN; state_simpl; try (symmetry; assumption).
      split; [|apply complete_dec]. unfold waiting. cbn [stage_of]. tauto.
Qed.

Lemma enqueue_next G s k t pt :
  inv G s -> queues s !! k = Some pt ->
  exists G', inv G' (step s (Enqueue k t)).
Proof.
  intros HI Hq.
  destruct (enqueue_next_chain G s k t pt HI Hq) as (c & st & _ & _ & H).
  eexists. exact H.
Qed.

(** *** Every step keeps the invariant

    [rank] bounds the number of steps a chain still takes; every job that
    runs and every task that settles lowers the sum. *)

Lemma potential_insert G i c c' :
  G !! i = Some c ->
  potential (<[i := c']> G) + rank (stage_of c) = potential G + rank (stage_of c').
Proof.
  unfold potential. revert i. induction G as [|c0 G IH]; intros [|i] H;
    try discriminate.
  - injection H as ->. cbn -[rank]. lia.
  - change (<[S i := c']> (c0 :: G)) with (c0 :: <[i := c']> G).
    specialize (IH i H). cbn -[rank insert] in *. lia.
Qed.

Lemma potential_stage G c st :
  G !! ticket c = Some c -> rank st < rank (stage_of c) ->
  potential (<[ticket c := with_stage st c]> G) < potential G.
Proof.
  intros Hc Hlt.
  pose proof (potential_insert G (ticket c) c (with_stage st c) Hc) as H.
  cbn [stage_of with_stage] in H. lia.
Qed.

Lemma due_singleton (j x : job) : j ∈ [x] -> j = x.
Proof. intros H. apply list_elem_of_singleton in H. exact H. Qed.

Ltac lower Hc Hst :=
  apply potential_stage; [exact Hc | rewrite Hst; cbn [rank]; lia].

Lemma tick_inv G s :
  inv G s ->
  exists G', inv G' (step s Tick) /\ (jobs s <> [] -> potential G' < potential G).
Proof.
  intros HI. destruct (jobs s) as [|j rest] eqn:Hj.
  { exists G. unfold step. rewrite Hj. split; [exact HI|]. intros H. contradiction. }
  destruct (job_owner G s j rest HI Hj) as (c & Hc & Hd).
  unfold due in Hd.
  destruct (stage_of c) as [|v|v|r [o|]|r d|d o|o|o|pt o|pt o|pt d o|d o|o] eqn:Hst;
    try (apply elem_of_nil in Hd; contradiction);
    try (apply due_singleton in Hd; subst j).
  - eexists. split; [eapply tick_linked; eassumption|]. intros _. lower Hc Hst.
  - destruct (the_task c) as [e|] eqn:Ht.
    + eexists. split; [eapply tick_ready_throws; try eassumption;
                       rewrite Ht; eassumption|].
      intros _. lower Hc Hst.
    + eexists. split; [eapply tick_ready_async; try eassumption;
                       rewrite Ht; eassumption|].
      intros _. lower Hc Hst.
  - eexists. split; [eapply tick_adopting_settled; eassumption|]. intros _. lower Hc Hst.
  - eexists. split; [eapply tick_adopting_pending; eassumption|]. intros _. lower Hc Hst.
  - eexists. split; [eapply tick_resolving; eassumption|]. intros _. lower Hc Hst.
  - eexists. split; [eapply tick_ran; eassumption|]. intros _. lower Hc Hst.
  - eexists. split; [eapply tick_handled; eassumption|]. intros _. lower Hc Hst.
  - apply elem_of_cons in Hd as [->|Hd]; [|apply due_singleton in Hd; subst j].
    + eexists. split; [eapply tick_closing1_thunk; eassumption|]. intros _. lower Hc Hst.
    + eexists. split; [eapply tick_closing1_adopt; eassumption|]. intros _. lower Hc Hst.
  - eexists. split; [eapply tick_closing2; eassumption|]. intros _. lower Hc Hst.
  - eexists. split; [eapply tick_closing3; eassumption|]. intros _. lower Hc Hst.
  - destruct (succ c) as [[m q]|] eqn:Hs.
    + destruct (tick_closing4_next G s c d o m q rest HI Hc Hst Hs Hj) as (cm & Hm & H).
      eexists. split; [exact H|]. intros _.
      destruct (lnk_succ _ _ (inv_links _ _ HI) _ _ _ _ Hc Hs)
        as (cm' & Hm' & _ & _ & Hlt & Hw).
      rewrite Hm in Hm'. injection Hm' as <-.
      assert (Hwait : stage_of cm = Waiting).
      { apply Hw. intros [o' Ho']. rewrite Hst in Ho'. discriminate. }
      pose proof (potential_insert G (ticket c) c (with_stage (Complete o) c) Hc) as H1.
      assert (Hm1 : <[ticket c := with_stage (Complete o) c]> G !! m = Some cm).
      { rewrite list_lookup_insert_ne by lia. exact Hm. }
      pose proof (potential_insert _ m cm
                    (with_stage (Linked (result_value o)) cm) Hm1) as H2.
      cbn [stage_of with_stage] in H1, H2. rewrite Hst in H1. rewrite Hwait in H2.
      cbn [rank] in H1, H2. lia.
    + eexists. split; [eapply tick_closing4_last; eassumption|]. intros _. lower Hc Hst.
Qed.

Lemma settle_inv G s r o :
  inv G s ->
  exists G', inv G' (step s (Settle r o))
             /\ (is_Some (running s !! r) -> potential G' < potential G).
Proof.
  intros HI. destruct (running s !! r) as [n|] eqn:Hr.
  - destruct (inv_running2 G s HI r n Hr) as (c & Hc & Hruns).
    assert (Hn : ticket c = n) by apply (loc_ticket _ _ (inv_local _ _ HI) _ _ Hc).
    subst n. destruct Hruns as [Hst|[d Hst]].
    + eexists. split; [eapply settle_adopting; eassumption|]. intros _. lower Hc Hst.
    + eexists. split; [eapply settle_awaiting; eassumption|]. intros _. lower Hc Hst.
  - exists G. unfold step. rewrite Hr. split; [exact HI|].
    intros [? H]. discriminate.
Qed.

Lemma step_inv G s a : inv G s -> exists G', inv G' (step s a).
Proof.
  intros HI. destruct a as [k t| |r o].
  - destruct (queues s !! k) as [pt|] eqn:Hq.
    + eapply enqueue_next; eassumption.
    + eexists. eapply enqueue_first; eassumption.
  - destruct (tick_inv G s HI) as (G' & H & _). eauto.
  - destruct (settle_inv G s r o HI) as (G' & H & _). eauto.
Qed.

Lemma init_inv : inv [] init.
Proof.
  split; split; cbn; try (intros; set_solver); try constructor.
  all: try (intros; rewrite ?lookup_nil in *; try discriminate).
Qed.

Lemma run_inv acts G s : inv G s -> exists G', inv G' (run acts s).
Proof.
  revert G s. induction acts as [|a acts IH]; intros G s HI.
  - exists G. exact HI.
  - destruct (step_inv G s a HI) as (G1 & H1). exact (IH G1 _ H1).
Qed.

Lemma reachable_inv acts : exists G, inv G (run acts init).
Proof. apply (run_inv acts [] init init_inv). Qed.

(** *** The job queue runs empty *)

Lemma drain_empty fuel s : jobs s = [] -> drain fuel s = s.
Proof.
  intros H. unfold drain, run. induction fuel as [|n IH]; [reflexivity|].
  cbn. rewrite H. exact IH.
Qed.

Lemma drain_bound n : forall G s,
  inv G s -> potential G <= n -> jobs (drain n s) = [].
Proof.
  induction n as [|n IH]; intros G s HI Hle.
  - destruct (jobs s) as [|j rest] eqn:Hj; [exact Hj|].
    destruct (tick_inv G s HI) as (G' & _ & Hlt).
    assert (potential G' < potential G) by (apply Hlt; rewrite Hj; discriminate). lia.
  - destruct (jobs s) as [|j rest] eqn:Hj.
    + rewrite drain_empty by exact Hj. exact Hj.
    + destruct (tick_inv G s HI) as (G' & HI' & Hlt).
      assert (potential G' < potential G) by (apply Hlt; rewrite Hj; discriminate).
      change (drain (S n) s) with (drain n (step s Tick)).
      apply (IH G' _ HI'). lia.
Qed.

(** *** Tickets follow the order of submission

    This part looks at the trace only. *)

Lemma settle_log p st s :
  log (settle p st s) = log s /\ submitted (settle p st s) = submitted s.
Proof.
  unfold settle. destruct (heap s !! p) as [[[] rs]|]; split; reflexivity.
Qed.

Lemma then_log p f g s :
  log (snd (Promise_then p f g s)) = log s
  /\ submitted (snd (Promise_then p f g s)) = submitted s.
Proof.
  unfold Promise_then, alloc.
  match goal with
  | |- context [match ?x with _ => _ end] => destruct x as [[[] rs]|]
  end; split; reflexivity.
Qed.

Lemma callback_log c s :
  log (run_callback c s) = log s /\ submitted (run_callback c s) = submitted s.
Proof.
  destruct c as [k p]. unfold run_callback.
  destruct (decide (queues s !! k = Some p)); split; reflexivity.
Qed.

Lemma finally_log c f s :
  log (snd (let s := run_callback c s in
            let (promise, s) := Promise_resolve undefined s in
            let (chained, s) := Promise_then promise f Thrower s in
            (NormalPromise chained, s))) = log s
  /\ submitted (snd (let s := run_callback c s in
                     let (promise, s) := Promise_resolve undefined s in
                     let (chained, s) := Promise_then promise f Thrower s in
                     (NormalPromise chained, s))) = submitted s.
Proof.
  cbv zeta. unfold Promise_resolve, alloc.
  match goal with
  | |- context [Promise_then ?p ?f ?g ?s1] =>
      pose proof (then_log p f g s1) as [H1 H2];
      destruct (Promise_then p f g s1) as [q s2]
  end.
  cbn [snd log submitted] in *. destruct (callback_log c s) as [H3 H4].
  split; congruence.
Qed.

Lemma call_log h x s :
  exists evs, log (snd (call h x s)) = log s ++ evs /\ Forall quiet evs
              /\ submitted (snd (call h x s)) = submitted s.
Proof.
  assert (Hsame : forall s', log s' = log s -> submitted s' = submitted s ->
            exists evs, log s' = log s ++ evs /\ Forall quiet evs
                        /\ submitted s' = submitted s).
  { intros s' H1 H2. exists []. rewrite app_nil_r. repeat split; auto. }
  destruct h as [| |k|n [e|]|k|c|c|v|e|p|p]; cbn [call].
  - apply Hsame; reflexivity.
  - apply Hsame; reflexivity.
  - eexists [_]. repeat split. repeat constructor.
  - eexists [_; _]. repeat split. repeat constructor.
  - eexists [_]. repeat split. repeat constructor.
  - eexists [_]. repeat split. repeat constructor.
  - destruct (finally_log c (ValueThunk x) s). apply Hsame; assumption.
  - destruct (finally_log c (ThrowThunk x) s). apply Hsame; assumption.
  - apply Hsame; reflexivity.
  - apply Hsame; reflexivity.
  - destruct (settle_log p (Fulfilled x) s). apply Hsame; assumption.
  - destruct (settle_log p (Rejected x) s). apply Hsame; assumption.
Qed.

Lemma run_job_log j s :
  exists evs, log (run_job j s) = log s ++ evs /\ Forall quiet evs
              /\ submitted (run_job j s) = submitted s.
Proof.
  destruct j as [h target x|target p]; cbn [run_job].
  - destruct (call_log h x s) as (evs & H1 & H2 & H3).
    destruct (call h x s) as [c s1]. cbn [snd] in *.
    exists evs. destruct c as [v|q|e]; cbn [resolve_with].
    + destruct (settle_log target (Fulfilled v) s1) as [H4 H5].
      repeat split; [congruence|assumption|congruence].
    + repeat split; assumption.
    + destruct (settle_log target (Rejected e) s1) as [H4 H5].
      repeat split; [congruence|assumption|congruence].
  - destruct (then_log p (ResolveFn target) (RejectFn target) s) as [H1 H2].
    exists []. rewrite app_nil_r. repeat split; [assumption|constructor|assumption].
Qed.

Lemma enqueue_log k t s :
  log (snd (enqueue k t s)) = log s ++ [Submitted (submitted s) k (fst (enqueue k t s))]
  /\ submitted (snd (enqueue k t s)) = S (submitted s).
Proof.
  unfold enqueue, Promise_catch, Promise_finally, Promise_resolve.
  set (s0 := match queues s !! k with
             | Some p => (p, s)
             | None => alloc (Fulfilled undefined) s
             end).
  assert (H0 : log (snd s0) = log s).
  { subst s0. destruct (queues s !! k); reflexivity. }
  destruct s0 as [previous s0]. cbn [snd] in H0.
  pose proof (then_log previous Identity (LogPrevious k) s0) as [H1 _].
  destruct (Promise_then previous Identity (LogPrevious k) s0) as [caught s1].
  pose proof (then_log caught (RunTask (submitted s) t) Thrower s1) as [H2 _].
  destruct (Promise_then caught (RunTask (submitted s) t) Thrower s1) as [ran s2].
  pose proof (then_log ran Identity (LogExecuting k) s2) as [H3 _].
  destruct (Promise_then ran Identity (LogExecuting k) s2) as [next s3].
  pose proof (then_log next (ThenFinally (Cleanup k next))
                (CatchFinally (Cleanup k next)) s3) as [H4 _].
  destruct (Promise_then next (ThenFinally (Cleanup k next))
              (CatchFinally (Cleanup k next)) s3) as [tail s4].
  cbn [snd fst log submitted set_queues] in *. split; [|reflexivity].
  congruence.
Qed.

Lemma before_elem a b l : before a b l -> a ∈ l /\ b ∈ l.
Proof.
  intros (i & j & _ & Hi & Hj). split; eapply list_elem_of_lookup_2; eassumption.
Qed.

Lemma before_quiet a b l evs :
  Forall quiet evs -> ~ quiet b -> before a b (l ++ evs) -> before a b l.
Proof.
  intros Hq Hb (i & j & Hlt & Hi & Hj).
  apply lookup_app_Some in Hj as [Hj|[_ Hj]].
  - exists i, j. repeat split; [exact Hlt| |exact Hj].
    pose proof (lookup_lt_Some _ _ _ Hj).
    rewrite lookup_app_l in Hi by lia. exact Hi.
  - exfalso. apply Hb. eapply Forall_forall; [exact Hq|].
    eapply list_elem_of_lookup_2, Hj.
Qed.

Lemma numbered_quiet s s' evs :
  numbered s -> log s' = log s ++ evs -> Forall quiet evs ->
  submitted s' = submitted s -> numbered s'.
Proof.
  intros [Hb Ho] Hl Hq Hs. split.
  - intros n k h H. rewrite Hl in H. rewrite Hs.
    apply elem_of_app in H as [H|H]; [eapply Hb, H|].
    exfalso. apply (proj1 (Forall_forall _ _) Hq _ H).
  - intros n m k k' h h' H. rewrite Hl in H.
    apply (Ho n m k k' h h'). eapply before_quiet; [exact Hq| |exact H].
    intros Hx. exact Hx.
Qed.

Lemma numbered_step s a : numbered s -> numbered (step s a).
Proof.
  intros HN. destruct a as [k t| |r o]; cbn [step].
  - destruct (enqueue_log k t s) as [Hl Hs]. destruct HN as [Hb Ho]. split.
    + intros n k0 h H. rewrite Hl in H. rewrite Hs.
      apply elem_of_app in H as [H|H]; [specialize (Hb _ _ _ H); lia|].
      apply list_elem_of_singleton in H. injection H as -> _ _. lia.
    + intros n m k1 k2 h1 h2 (i & j & Hlt & Hi & Hj). rewrite Hl in Hi, Hj.
      apply lookup_app_Some in Hj as [Hj|[Hge Hj]].
      * apply (Ho n m k1 k2 h1 h2). exists i, j.
        pose proof (lookup_lt_Some _ _ _ Hj).
        rewrite lookup_app_l in Hi by lia. auto.
      * apply list_lookup_singleton_Some in Hj as [Hj Heq].
        injection Heq as <- _ _.
        rewrite lookup_app_l in Hi by lia.
        eapply Hb, list_elem_of_lookup_2, Hi.
  - destruct (jobs s) as [|j rest]; [exact HN|].
    destruct (run_job_log j (set_jobs (fun _ => rest) s)) as (evs & H1 & H2 & H3).
    eapply numbered_quiet; eassumption.
  - destruct (running s !! r) as [n|]; [|exact HN].
    destruct (settle_log r (match o with Returned v => Fulfilled v
                                       | Failed e => Rejected e end)
                (emit [Finished n o] (set_running (delete r) s))) as [H1 H2].
    eapply (numbered_quiet s _ [Finished n o]); try eassumption.
    repeat constructor.
Qed.

Lemma numbered_run acts : forall s, numbered s -> numbered (run acts s).
Proof.
  induction acts as [|a acts IH]; intros s H; [exact H|].
  apply IH, numbered_step, H.
Qed.

Lemma numbered_init : numbered init.
Proof.
  split.
  - intros n k h H. apply elem_of_nil in H. contradiction.
  - intros n m k k' h h' (i & j & _ & Hi & _). destruct i; discriminate Hi.
Qed.

(** *** When nothing is left to do *)

Lemma idle_stage c :
  due c = [] -> (forall r, ~ runs c r) -> waiting c \/ complete c.
Proof.
  unfold due, runs, waiting, complete. intros Hd Hr.
  destruct (stage_of c) eqn:Hst; try discriminate.
  - left. reflexivity.
  - exfalso. eapply Hr. right. eauto.
  - right. eauto.
Qed.

Lemma quiescent_complete G s :
  inv G s -> quiescent s -> forall n c, G !! n = Some c -> complete c.
Proof.
  intros HI [Hj Hr].
  assert (Hdue : forall n c, G !! n = Some c -> due c = []).
  { intros n c Hc. pose proof (loc_jobs _ _ (inv_local _ _ HI)) as HP.
    rewrite Hj in HP. apply Permutation_nil in HP.
    destruct (due c) as [|j js] eqn:Hd; [reflexivity|]. exfalso.
    assert (Hin : j ∈ G ≫= due).
    { apply list_elem_of_bind. exists c. split.
      - rewrite Hd. apply list_elem_of_here.
      - eapply list_elem_of_lookup_2, Hc. }
    rewrite HP in Hin. apply elem_of_nil in Hin. exact Hin. }
  assert (Hrun : forall n c r, G !! n = Some c -> ~ runs c r).
  { intros n c r Hc H.
    pose proof (inv_running1 G s HI c r (list_elem_of_lookup_2 _ _ _ Hc) H) as Hx.
    rewrite Hr in Hx. rewrite lookup_empty in Hx. discriminate. }
  assert (Hidle : forall n c, G !! n = Some c -> waiting c \/ complete c).
  { intros n c Hc. apply idle_stage; [eapply Hdue, Hc|]. intros r. eapply Hrun, Hc. }
  assert (Hnw : forall m cm, G !! m = Some cm -> ~ waiting cm).
  { induction m as [m IH] using lt_wf_ind. intros cm Hm Hw.
    destruct (lnk_wait _ _ (inv_links _ _ HI) m cm Hm Hw) as (n & c & Hn & Hs & Hnc).
    destruct (lnk_succ _ _ (inv_links _ _ HI) n c m _ Hn Hs)
      as (_ & _ & _ & _ & Hlt & _).
    destruct (Hidle n c Hn) as [H|H]; [exact (IH n Hlt c Hn H)|exact (Hnc H)]. }
  intros n c Hc. destruct (Hidle n c Hc) as [H|H]; [|exact H].
  exfalso. exact (Hnw n c Hc H).
Qed.

Lemma to_quiescent n : forall G s,
  inv G s -> potential G <= n ->
  exists rest, Forall internal rest /\ quiescent (run rest s).
Proof.
  induction n as [n IH] using lt_wf_ind. intros G s HI Hle.
  destruct (jobs s) as [|j js] eqn:Hj.
  - destruct (decide (running s = ∅)) as [He|Hne].
    + exists []. split; [constructor|]. split; assumption.
    + apply map_choose in Hne as (r & m & Hr).
      destruct (settle_inv G s r (Returned undefined) HI) as (G' & HI' & Hlt).
      assert (Hp : potential G' < potential G) by (apply Hlt; eauto).
      destruct (IH (potential G') ltac:(lia) G' _ HI' (Nat.le_refl _))
        as (rest & Hall & Hq).
      exists (Settle r (Returned undefined) :: rest).
      split; [constructor; [exact I|exact Hall]|exact Hq].
  - destruct (tick_inv G s HI) as (G' & HI' & Hlt).
    assert (Hp : potential G' < potential G) by (apply Hlt; rewrite Hj; discriminate).
    destruct (IH (potential G') ltac:(lia) G' _ HI' (Nat.le_refl _))
      as (rest & Hall & Hq).
    exists (Tick :: rest). split; [constructor; [exact I|exact Hall]|exact Hq].
Qed.

Lemma rank_bound st : rank st <= 10.
Proof. destruct st as [| | |? []| | | | | | | | |]; cbn; lia. Qed.

Lemma potential_bound G : potential G <= 10 * length G.
Proof.
  unfold potential. induction G as [|c G IH]; [cbn; lia|].
  pose proof (rank_bound (stage_of c)). cbn -[rank Nat.mul] in *. lia.
Qed.

(** *** What the invariant says about the trace *)

Lemma starts_in n l : Started n ∈ l -> starts n l <> [].
Proof.
  intros H Hnil. assert (Hin : Started n ∈ starts n l).
  { unfold starts. apply list_elem_of_filter. split; [reflexivity|exact H]. }
  rewrite Hnil in Hin. apply elem_of_nil in Hin. exact Hin.
Qed.

Lemma ends_in n o l : Finished n o ∈ l -> o ∈ ends n l.
Proof.
  intros H. unfold ends. apply list_elem_of_omap. exists (Finished n o).
  split; [exact H|]. cbn. rewrite decide_True by reflexivity. reflexivity.
Qed.

Lemma starts_outside n b l : Forall (within b) l -> b <= n -> starts n l = [].
Proof.
  intros H Hle. apply starts_beside, within_beside.
  eapply within_mono; [exact Hle|exact H].
Qed.

Lemma ends_outside n b l : Forall (within b) l -> b <= n -> ends n l = [].
Proof.
  intros H Hle. apply ends_beside, within_beside.
  eapply within_mono; [exact Hle|exact H].
Qed.

Section Trace.

Variables (G : list chain) (s : state).
Hypothesis HI : inv G s.

Lemma chain_log n c : G !! n = Some c -> ticket c = n /\ log_ok c (log s).
Proof.
  intros Hc. split; [apply (loc_ticket _ _ (inv_local _ _ HI) _ _ Hc)|].
  apply (inv_log G s HI). eapply list_elem_of_lookup_2, Hc.
Qed.

Lemma known n : n < length G \/ (starts n (log s) = [] /\ ends n (log s) = []).
Proof.
  destruct (decide (n < length G)) as [H|H]; [left; exact H|right].
  pose proof (loc_bound _ _ (inv_local _ _ HI)) as Hb.
  split; [eapply starts_outside|eapply ends_outside]; try exact Hb; lia.
Qed.

Lemma at_most_once n :
  length (starts n (log s)) <= 1 /\ length (ends n (log s)) <= 1.
Proof.
  destruct (known n) as [Hlt|[-> ->]]; [|cbn; lia].
  apply lookup_lt_is_Some_2 in Hlt as [c Hc].
  destruct (chain_log n c Hc) as [<- [_ H1 H2 _]]. rewrite H1, H2.
  destruct (started (stage_of c)), (ended (stage_of c)); cbn; lia.
Qed.

Lemma started_chain n :
  Started n ∈ log s ->
  exists c, G !! n = Some c /\ ticket c = n /\ started (stage_of c) = true.
Proof.
  intros H. apply starts_in in H.
  destruct (known n) as [Hlt|[H0 _]]; [|contradiction].
  apply lookup_lt_is_Some_2 in Hlt as [c Hc]. exists c.
  destruct (chain_log n c Hc) as [Ht [_ H1 _ _]]. rewrite Ht in H1.
  repeat split; try assumption.
  destruct (started (stage_of c)); [reflexivity|contradiction].
Qed.

Lemma started_submitted n :
  Started n ∈ log s -> exists k h, Submitted n k h ∈ log s.
Proof.
  intros H. destruct (started_chain n H) as (c & Hc & Ht & _).
  destruct (chain_log n c Hc) as [_ [H0 _ _ _]]. rewrite Ht in H0. eauto.
Qed.

Lemma finished_after_start n o :
  Finished n o ∈ log s -> before (Started n) (Finished n o) (log s).
Proof.
  intros H. apply ends_in in H.
  destruct (known n) as [Hlt|[_ H0]].
  2:{ rewrite H0 in H. apply elem_of_nil in H. contradiction. }
  apply lookup_lt_is_Some_2 in Hlt as [c Hc].
  destruct (chain_log n c Hc) as [Ht [_ _ H2 H3]]. rewrite Ht in *.
  rewrite H2 in H. destruct (ended (stage_of c)) as [o'|] eqn:He.
  - apply list_elem_of_singleton in H. subst o'. apply H3. reflexivity.
  - apply elem_of_nil in H. contradiction.
Qed.

Lemma in_order k n m hn hm :
  n < m -> Submitted n k hn ∈ log s -> Submitted m k hm ∈ log s ->
  Started m ∈ log s ->
  exists o, before (Finished n o) (Started m) (log s).
Proof.
  intros Hlt Hn Hm Hs.
  destruct (loc_known _ _ (inv_local _ _ HI) _ _ _ Hn) as (c & Hc & Hg & _).
  destruct (started_chain m Hs) as (cm & Hcm & _ & Hst).
  destruct (loc_known _ _ (inv_local _ _ HI) _ _ _ Hm) as (cm' & Hcm' & Hgm & _).
  rewrite Hcm in Hcm'. injection Hcm' as <-.
  apply (lnk_order _ _ (inv_links _ _ HI) m cm n c Hcm Hc Hlt); [congruence|exact Hst].
Qed.

Lemma all_done :
  quiescent s ->
  forall n k h, Submitted n k h ∈ log s ->
    Started n ∈ log s /\ exists o, Finished n o ∈ log s.
Proof.
  intros Hq n k h H.
  destruct (loc_known _ _ (inv_local _ _ HI) _ _ _ H) as (c & Hc & _ & _).
  destruct (quiescent_complete G s HI Hq n c Hc) as [o Ho].
  destruct (chain_log n c Hc) as [Ht [_ H1 H2 _]]. rewrite Ht, Ho in *.
  cbn [started ended] in H1, H2. split.
  - apply starts_elem, H1.
  - exists o. apply ends_elem, H2.
Qed.

End Trace.

(** *** The queue serves every guild in order *)

Lemma run_app acts rest s : run (acts ++ rest) s = run rest (run acts s).
Proof. apply foldl_app. Qed.

Lemma no_jobs_due G s :
  inv G s -> jobs s = [] -> forall n c, G !! n = Some c -> due c = [].
Proof.
  intros HI Hj n c Hc. pose proof (loc_jobs _ _ (inv_local _ _ HI)) as HP.
  rewrite Hj in HP. apply Permutation_nil in HP.
  destruct (due c) as [|j js] eqn:Hd; [reflexivity|]. exfalso.
  assert (Hin : j ∈ G ≫= due).
  { apply list_elem_of_bind. exists c. split.
    - rewrite Hd. apply list_elem_of_here.
    - eapply list_elem_of_lookup_2, Hc. }
  rewrite HP in Hin. apply elem_of_nil in Hin. exact Hin.
Qed.

(** *** The calls of [enqueue] and their tickets *)

Lemma quiet_no_submission evs : Forall quiet evs -> omap submission evs = [].
Proof.
  induction 1 as [|e evs He _ IH]; [reflexivity|].
  destruct e; try contradiction; exact IH.
Qed.

Lemma step_submission s a :
  exists evs,
    log (step s a) = log s ++ evs
    /\ omap submission evs
       = match call_of a with Some (k, _) => [(submitted s, k)] | None => [] end
    /\ submitted (step s a)
       = match call_of a with Some _ => S (submitted s) | None => submitted s end.
Proof.
  destruct a as [k t| |r o]; cbn [step call_of].
  - destruct (enqueue_log k t s) as [Hl Hs]. eexists. split; [exact Hl|].
    split; [reflexivity|exact Hs].
  - destruct (jobs s) as [|j rest].
    + exists []. rewrite app_nil_r. auto.
    + destruct (run_job_log j (set_jobs (fun _ => rest) s)) as (evs & H1 & H2 & H3).
      exists evs. split; [exact H1|]. split; [apply quiet_no_submission, H2|exact H3].
  - destruct (running s !! r) as [n|].
    + destruct (settle_log r (match o with Returned v => Fulfilled v
                                         | Failed e => Rejected e end)
                  (emit [Finished n o] (set_running (delete r) s))) as [H1 H2].
      exists [Finished n o]. split; [exact H1|]. split; [reflexivity|exact H2].
    + exists []. rewrite app_nil_r. auto.
Qed.

Lemma numbered_from_snoc first cs kt :
  numbered_from first (cs ++ [kt])
  = numbered_from first cs ++ [(first + length cs, fst kt)].
Proof.
  unfold numbered_from. rewrite imap_app. cbn [imap]. rewrite Nat.add_0_r.
  reflexivity.
Qed.

Lemma run_snoc acts a s : run (acts ++ [a]) s = step (run acts s) a.
Proof. unfold run. rewrite foldl_app. reflexivity. Qed.

(** The trace of a run holds one submission per call of [enqueue], in the
    order of the calls, numbered from the counter. *)
Lemma run_submissions acts s :
  omap submission (log (run acts s))
  = omap submission (log s) ++ numbered_from (submitted s) (calls acts)
  /\ submitted (run acts s) = submitted s + length (calls acts)
  /\ exists evs, log (run acts s) = log s ++ evs.
Proof.
  induction acts as [|a acts IH] using rev_ind.
  - cbn. rewrite app_nil_r. split; [reflexivity|]. split; [lia|].
    exists []. rewrite app_nil_r. reflexivity.
  - destruct IH as (IH1 & IH2 & evs0 & IH3). rewrite run_snoc.
    destruct (step_submission (run acts s) a) as (evs & H1 & H2 & H3).
    assert (Hc : calls (acts ++ [a])
                 = calls acts ++ match call_of a with Some kt => [kt] | None => [] end).
    { unfold calls. rewrite omap_app. f_equal. }
    rewrite Hc, H1, omap_app, IH1, H2, H3, IH2.
    destruct (call_of a) as [[k t]|].
    + rewrite numbered_from_snoc, length_app. cbn [length fst].
      rewrite <- app_assoc. split; [reflexivity|]. split; [lia|].
      exists (evs0 ++ evs). rewrite IH3, app_assoc. reflexivity.
    + rewrite !app_nil_r. split; [reflexivity|]. split; [lia|].
      exists (evs0 ++ evs). rewrite IH3, app_assoc. reflexivity.
Qed.

Lemma submission_elem (n : nat) (k : string) (l : list event) :
  (n, k) ∈ omap submission l <-> exists h, Submitted n k h ∈ l.
Proof.
  rewrite list_elem_of_omap. split.
  - intros (e & He & Hs). destruct e; try discriminate. injection Hs as -> ->. eauto.
  - intros [h H]. exists (Submitted n k h). split; [exact H|reflexivity].
Qed.

(** A submission is the trace of a call, and every call leaves one. *)
Lemma submitted_call acts n k :
  (exists h, Submitted n k h ∈ log (run acts init))
  <-> exists t, calls acts !! n = Some (k, t).
Proof.
  rewrite <- submission_elem.
  assert (H : omap submission (log (run acts init)) = numbered_from 0 (calls acts))
    by (destruct (run_submissions acts init) as (H1 & _); rewrite H1; reflexivity).
  rewrite H. unfold numbered_from. rewrite list_elem_of_lookup. split.
  - intros [i Hi]. rewrite list_lookup_imap in Hi.
    destruct (calls acts !! i) as [[k' t]|] eqn:Hc; [|discriminate].
    cbn in Hi. injection Hi as <- <-. eauto.
  - intros [t Ht]. exists n. rewrite list_lookup_imap, Ht. reflexivity.
Qed.

(** *** The task that runs is the task that was handed over *)

Lemma handler_ok_mono cs more h : handler_ok cs h -> handler_ok (cs ++ more) h.
Proof.
  destruct h; cbn; auto. intros [k H]. exists k. apply lookup_app_l_Some, H.
Qed.

Lemma tasks_ok_mono cs more s : tasks_ok cs s -> tasks_ok (cs ++ more) s.
Proof.
  intros [H1 H2 H3 H4]. split.
  - intros p c Hp. eapply Forall_impl; [exact (H1 p c Hp)|].
    intros r [Ha Hb]. split; apply handler_ok_mono; assumption.
  - eapply Forall_impl; [exact H2|]. intros [h ? ?|? ?]; cbn; [|auto].
    apply handler_ok_mono.
  - intros r n Hr. destruct (H3 r n Hr) as [k Hk]. exists k.
    apply lookup_app_l_Some, Hk.
  - intros n o Hn. destruct (H4 n o Hn) as (k & t & Hk & Ho). exists k, t.
    split; [apply lookup_app_l_Some, Hk|exact Ho].
Qed.

Section Primitives.

Variable cs : list (string * task).

Lemma alloc_ok st s : tasks_ok cs s -> tasks_ok cs (snd (alloc st s)).
Proof.
  intros [H1 H2 H3 H4]. split; cbn [alloc snd heap jobs running log];
    try assumption.
  intros p c Hp. apply lookup_insert_Some in Hp as [[_ <-]|[_ Hp]];
    [constructor|exact (H1 p c Hp)].
Qed.

Lemma settle_ok p st s : tasks_ok cs s -> tasks_ok cs (settle p st s).
Proof.
  intros HS. pose proof HS as [H1 H2 H3 H4]. unfold settle.
  destruct (heap s !! p) as [[[|v|e] rs]|] eqn:Hp; try exact HS.
  pose proof (H1 p _ Hp) as Hrs. cbn [reactions] in Hrs.
  split; cbn [set_jobs set_heap heap jobs running log]; try assumption.
  - intros q c Hq. apply lookup_insert_Some in Hq as [[_ <-]|[_ Hq]];
      [constructor|exact (H1 q c Hq)].
  - apply Forall_app. split; [exact H2|]. apply Forall_fmap.
    eapply Forall_impl; [exact Hrs|]. intros r [Ha Hb]. destruct st; cbn; assumption.
Qed.

Lemma then_ok p f g s :
  handler_ok cs f -> handler_ok cs g -> tasks_ok cs s ->
  tasks_ok cs (snd (Promise_then p f g s)).
Proof.
  intros Hf Hg HS. unfold Promise_then.
  pose proof (alloc_ok Pending s HS) as HA.
  destruct (alloc Pending s) as [q s1]. cbn [snd] in HA.
  pose proof HA as [H1 H2 H3 H4].
  destruct (heap s1 !! p) as [[[|v|e] rs]|] eqn:Hp; cbn [snd]; try exact HA.
  - split; cbn [set_jobs set_heap heap jobs running log]; try assumption.
    intros q' c Hq. apply lookup_insert_Some in Hq as [[_ <-]|[_ Hq]];
      [|exact (H1 q' c Hq)].
    cbn [reactions]. apply Forall_app. split; [exact (H1 p _ Hp)|].
    repeat constructor; assumption.
  - split; cbn [set_jobs set_heap heap jobs running log]; try assumption.
    apply Forall_app. split; [exact H2|]. repeat constructor. exact Hf.
  - split; cbn [set_jobs set_heap heap jobs running log]; try assumption.
    apply Forall_app. split; [exact H2|]. repeat constructor. exact Hg.
Qed.

Lemma callback_ok c s : tasks_ok cs s -> tasks_ok cs (run_callback c s).
Proof.
  intros HS. destruct c as [k p]. unfold run_callback.
  destruct (decide (queues s !! k = Some p)); [|exact HS].
  destruct HS as [H1 H2 H3 H4]. split; assumption.
Qed.

Lemma finally_ok c f s :
  handler_ok cs f -> tasks_ok cs s ->
  tasks_ok cs (snd (let s := run_callback c s in
                    let (promise, s) := Promise_resolve undefined s in
                    let (chained, s) := Promise_then promise f Thrower s in
                    (NormalPromise chained, s))).
Proof.
  intros Hf HS. cbv zeta. unfold Promise_resolve.
  pose proof (alloc_ok (Fulfilled undefined) _ (callback_ok c s HS)) as HA.
  destruct (alloc (Fulfilled undefined) (run_callback c s)) as [q s1]. cbn [snd] in HA.
  pose proof (then_ok q f Thrower s1 Hf I HA) as HT.
  destruct (Promise_then q f Thrower s1) as [q2 s2]. exact HT.
Qed.

Lemma emit_ok evs s :
  tasks_ok cs s ->
  (forall n o, Finished n o ∈ evs ->
               exists k t, cs !! n = Some (k, t) /\ own_outcome t o) ->
  tasks_ok cs (emit evs s).
Proof.
  intros [H1 H2 H3 H4] He. split; cbn [emit heap jobs running log];
    try assumption.
  intros n o Hn. apply elem_of_app in Hn as [Hn|Hn]; [exact (H4 n o Hn)|exact (He n o Hn)].
Qed.

Lemma call_ok h x s :
  handler_ok cs h -> tasks_ok cs s -> tasks_ok cs (snd (call h x s)).
Proof.
  intros Hh HS.
  destruct h as [| |k|n [e|]|k|c|c|v|e|p|p]; cbn [call snd]; try exact HS.
  - apply emit_ok; [exact HS|]. intros n o H. apply list_elem_of_singleton in H.
    discriminate H.
  - destruct Hh as [k Hk]. apply emit_ok; [exact HS|]. intros m o H.
    apply elem_of_cons in H as [H|H]; [discriminate H|].
    apply list_elem_of_singleton in H. injection H as -> ->.
    exists k, (Throws e). split; [exact Hk|reflexivity].
  - destruct Hh as [k Hk].
    assert (HE : tasks_ok cs (emit [Started n] s)).
    { apply emit_ok; [exact HS|]. intros m o H. apply list_elem_of_singleton in H.
      discriminate H. }
    pose proof (alloc_ok Pending _ HE) as HA.
    destruct (alloc Pending (emit [Started n] s)) as [r s1] eqn:Hal. cbn [snd] in *.
    destruct HA as [H1 H2 H3 H4].
    split; cbn [set_running heap jobs running log]; try assumption.
    intros r' m Hr. apply lookup_insert_Some in Hr as [[_ <-]|[_ Hr]];
      [eauto|exact (H3 r' m Hr)].
  - apply emit_ok; [exact HS|]. intros n o H. apply list_elem_of_singleton in H.
    discriminate H.
  - apply (finally_ok c (ValueThunk x) s I HS).
  - apply (finally_ok c (ThrowThunk x) s I HS).
  - apply settle_ok, HS.
  - apply settle_ok, HS.
Qed.

Lemma run_job_ok j s : job_ok cs j -> tasks_ok cs s -> tasks_ok cs (run_job j s).
Proof.
  intros Hj HS. destruct j as [h target x|target p]; cbn [run_job].
  - pose proof (call_ok h x s Hj HS) as HC.
    destruct (call h x s) as [c s1]. cbn [snd] in HC.
    destruct c as [v|q|e]; cbn [resolve_with]; try (apply settle_ok, HC).
    destruct HC as [H1 H2 H3 H4].
    split; cbn [set_jobs heap jobs running log]; try assumption.
    apply Forall_app. split; [exact H2|]. repeat constructor.
  - apply then_ok; [exact I|exact I|exact HS].
Qed.

Lemma internal_ok s a : internal a -> tasks_ok cs s -> tasks_ok cs (step s a).
Proof.
  intros Ha HS. destruct a as [k t| |r o]; [contradiction| |]; cbn [step].
  - destruct (jobs s) as [|j rest] eqn:Hj; [exact HS|].
    pose proof HS as [H1 H2 H3 H4]. rewrite Hj in H2.
    apply Forall_cons in H2 as [Hjob Hrest].
    apply run_job_ok; [exact Hjob|].
    split; cbn [set_jobs heap jobs running log]; assumption.
  - destruct (running s !! r) as [n|] eqn:Hr; [|exact HS].
    pose proof HS as [H1 H2 H3 H4]. destruct (H3 r n Hr) as [k Hk].
    apply settle_ok. apply emit_ok.
    + split; cbn [set_running heap jobs running log]; try assumption.
      intros r' m Hm. apply lookup_delete_Some in Hm as [_ Hm]. exact (H3 r' m Hm).
    + intros m o' H. apply list_elem_of_singleton in H. injection H as -> ->.
      exists k, Async. split; [exact Hk|exact I].
Qed.

End Primitives.

Lemma enqueue_ok cs k t s :
  tasks_ok cs s -> submitted s = length cs ->
  tasks_ok (cs ++ [(k, t)]) (snd (enqueue k t s)).
Proof.
  intros HS Hn. set (cs' := cs ++ [(k, t)]).
  assert (Hrun : handler_ok cs' (RunTask (submitted s) t)).
  { exists k. subst cs'. rewrite Hn. apply list_lookup_middle. reflexivity. }
  unfold enqueue, Promise_catch, Promise_finally, Promise_resolve.
  set (start := match queues s !! k with
                | Some p => (p, s)
                | None => alloc (Fulfilled undefined) s
                end).
  assert (HS0 : tasks_ok cs' (snd start)).
  { apply tasks_ok_mono. subst start. destruct (queues s !! k); cbn [snd]; [exact HS|].
    apply alloc_ok, HS. }
  destruct start as [previous s0]. cbn [snd] in HS0.
  pose proof (then_ok cs' previous Identity (LogPrevious k) s0 I I HS0) as HS1.
  destruct (Promise_then previous Identity (LogPrevious k) s0) as [caught s1].
  cbn [snd] in HS1.
  pose proof (then_ok cs' caught (RunTask (submitted s) t) Thrower s1 Hrun I HS1) as HS2.
  destruct (Promise_then caught (RunTask (submitted s) t) Thrower s1) as [ran s2].
  cbn [snd] in HS2.
  pose proof (then_ok cs' ran Identity (LogExecuting k) s2 I I HS2) as HS3.
  destruct (Promise_then ran Identity (LogExecuting k) s2) as [next s3].
  cbn [snd] in HS3.
  pose proof (then_ok cs' next (ThenFinally (Cleanup k next))
                (CatchFinally (Cleanup k next)) s3 I I HS3) as HS4.
  destruct (Promise_then next (ThenFinally (Cleanup k next))
              (CatchFinally (Cleanup k next)) s3) as [tail s4].
  cbn [snd] in HS4. destruct HS4 as [H1 H2 H3 H4].
  split; cbn [snd set_queues heap jobs running log]; try assumption.
  intros n o H. apply elem_of_app in H as [H|H]; [exact (H4 n o H)|].
  apply list_elem_of_singleton in H. discriminate H.
Qed.

Lemma init_ok : tasks_ok [] init.
Proof.
  split; cbn.
  - intros p c H. rewrite lookup_empty in H. discriminate.
  - constructor.
  - intros r n H. rewrite lookup_empty in H. discriminate.
  - intros n o H. apply elem_of_nil in H. contradiction.
Qed.

Lemma run_ok acts : tasks_ok (calls acts) (run acts init).
Proof.
  induction acts as [|a acts IH] using rev_ind; [exact init_ok|].
  rewrite run_snoc.
  assert (Hc : calls (acts ++ [a])
               = calls acts ++ match call_of a with Some kt => [kt] | None => [] end).
  { unfold calls. rewrite omap_app. f_equal. }
  rewrite Hc. destruct a as [k t| |r o]; cbn [call_of step].
  - apply enqueue_ok; [exact IH|].
    destruct (run_submissions acts init) as (_ & H & _). exact H.
  - rewrite app_nil_r. apply (internal_ok _ _ Tick I IH).
  - rewrite app_nil_r. apply (internal_ok _ _ (Settle r o) I IH).
Qed.

(** A task that throws ends with its own error, whatever ran before it. *)
Lemma throws_own_error acts n k e o :
  calls acts !! n = Some (k, Throws e) ->
  Finished n o ∈ log (run acts init) -> o = Failed e.
Proof.
  intros Hc Hf. destruct (ok_log _ _ (run_ok acts) n o Hf) as (k' & t & Hk & Ho).
  rewrite Hc in Hk. injection Hk as <- <-. exact Ho.
Qed.

(** *** A task that has not started waits for a running task of its guild *)

Lemma idle_unstarted c : due c = [] -> started (stage_of c) = false -> waiting c.
Proof.
  unfold due, waiting. destruct (stage_of c); try discriminate; reflexivity.
Qed.

Lemma waits_for_running G s :
  inv G s -> jobs s = [] ->
  forall m cm, G !! m = Some cm -> started (stage_of cm) = false ->
    exists n c r, G !! n = Some c /\ n < m /\ guild c = guild cm /\ runs c r.
Proof.
  intros HI Hj. induction m as [m IH] using lt_wf_ind. intros cm Hm Hs.
  pose proof (idle_unstarted cm (no_jobs_due G s HI Hj m cm Hm) Hs) as Hw.
  destruct (lnk_wait _ _ (inv_links _ _ HI) m cm Hm Hw) as (n & c & Hn & Hsucc & Hnc).
  destruct (lnk_succ _ _ (inv_links _ _ HI) n c m _ Hn Hsucc)
    as (cm' & Hm' & _ & Hg & Hlt & _).
  rewrite Hm in Hm'. injection Hm' as <-.
  pose proof (no_jobs_due G s HI Hj n c Hn) as Hd.
  destruct (started (stage_of c)) eqn:Hst.
  - assert (Hr : exists r, runs c r).
    { unfold due in Hd. unfold runs, complete in *.
      destruct (stage_of c) as [|v|v|r [o|]|r d|d o|o|o|pt o|pt o|pt d o|d o|o];
        try discriminate; [eauto|exfalso; eauto]. }
    destruct Hr as [r Hr]. exists n, c, r. auto.
  - destruct (IH n Hlt c Hn Hst) as (n' & c' & r & Hn' & Hlt' & Hg' & Hr).
    exists n', c', r. repeat split; [exact Hn'|lia|congruence|exact Hr].
Qed.

Lemma blocked_by_running acts m k h :
  jobs (run acts init) = [] ->
  Submitted m k h ∈ log (run acts init) -> Started m ∉ log (run acts init) ->
  exists n hn r,
    n < m /\ Submitted n k hn ∈ log (run acts init)
    /\ Started n ∈ log (run acts init)
    /\ (forall o, Finished n o ∉ log (run acts init))
    /\ running (run acts init) !! r = Some n.
Proof.
  intros Hj Hsub Hns. destruct (reachable_inv acts) as [G HI].
  destruct (loc_known _ _ (inv_local _ _ HI) _ _ _ Hsub) as (cm & Hm & Hg & _).
  destruct (chain_log G _ HI m cm Hm) as [Ht [_ Hstarts _ _]]. rewrite Ht in Hstarts.
  assert (Hs : started (stage_of cm) = false).
  { destruct (started (stage_of cm)); [|reflexivity].
    exfalso. apply Hns, starts_elem, Hstarts. }
  destruct (waits_for_running G _ HI Hj m cm Hm Hs) as (n & c & r & Hn & Hlt & Hgc & Hr).
  destruct (chain_log G _ HI n c Hn) as [Htn [Hsubn Hstartn Hendn _]].
  rewrite Htn in *.
  assert (Hst : started (stage_of c) = true /\ ended (stage_of c) = None).
  { destruct Hr as [Hr|[d Hr]]; rewrite Hr; split; reflexivity. }
  destruct Hst as [Hst Hen]. rewrite Hst in Hstartn. rewrite Hen in Hendn.
  exists n, (next c), r. split; [exact Hlt|].
  split; [rewrite <- Hg, <- Hgc; exact Hsubn|].
  split; [apply starts_elem, Hstartn|]. split.
  - intros o Ho. apply ends_in in Ho. rewrite Hendn in Ho.
    apply elem_of_nil in Ho. exact Ho.
  - rewrite <- Htn.
    apply (inv_running1 G _ HI c r); [eapply list_elem_of_lookup_2, Hn|exact Hr].
Qed.

Lemma started_is_running acts m :
  jobs (run acts init) = [] ->
  Started m ∈ log (run acts init) ->
  (forall o, Finished m o ∉ log (run acts init)) ->
  exists r, running (run acts init) !! r = Some m.
Proof.
  intros Hj Hs Hnf. destruct (reachable_inv acts) as [G HI].
  destruct (started_chain G _ HI m Hs) as (c & Hc & Ht & Hst).
  destruct (chain_log G _ HI m c Hc) as [_ [_ _ Hends _]]. rewrite Ht in Hends.
  pose proof (no_jobs_due G _ HI Hj m c Hc) as Hd.
  assert (Hr : exists r, runs c r).
  { unfold due in Hd. unfold runs.
    destruct (stage_of c) as [|v|v|r [o|]|r d|d o|o|o|pt o|pt o|pt d o|d o|o];
      try discriminate; [eauto|].
    exfalso. apply (Hnf o), ends_elem, Hends. }
  destruct Hr as [r Hr]. exists r. rewrite <- Ht.
  apply (inv_running1 G _ HI c r); [eapply list_elem_of_lookup_2, Hc|exact Hr].
Qed.

(** *** Every call is served in the end *)

Lemma calls_internal acts rest : Forall internal rest -> calls (acts ++ rest) = calls acts.
Proof.
  intros H. unfold calls. rewrite omap_app.
  assert (Hnil : omap call_of rest = []).
  { induction H as [|a rest Ha _ IH]; [reflexivity|].
    destruct a; try contradiction; exact IH. }
  rewrite Hnil. apply app_nil_r.
Qed.

Lemma served_in_the_end acts :
  exists rest,
    Forall internal rest /\ quiescent (run (acts ++ rest) init)
    /\ forall n k t, calls acts !! n = Some (k, t) ->
         Started n ∈ log (run (acts ++ rest) init)
         /\ exists o, Finished n o ∈ log (run (acts ++ rest) init) /\ own_outcome t o.
Proof.
  destruct (reachable_inv acts) as [G HI].
  destruct (to_quiescent (potential G) G _ HI (Nat.le_refl _)) as (rest & Hall & Hq).
  exists rest. rewrite <- run_app in Hq. split; [exact Hall|]. split; [exact Hq|].
  intros n k t Hc. rewrite <- (calls_internal acts rest Hall) in Hc.
  destruct (proj2 (submitted_call (acts ++ rest) n k) (ex_intro _ t Hc)) as [h Hsub].
  destruct (reachable_inv (acts ++ rest)) as [G' HI'].
  destruct (all_done G' _ HI' Hq n k h Hsub) as [Hs [o Ho]].
  split; [exact Hs|]. exists o. split; [exact Ho|].
  destruct (ok_log _ _ (run_ok (acts ++ rest)) n o Ho) as (k' & t' & Hk & Hown).
  rewrite Hc in Hk. injection Hk as <- <-. exact Hown.
Qed.

Lemma drained acts :
  jobs (drain (10 * submitted (run acts init)) (run acts init)) = [].
Proof.
  destruct (reachable_inv acts) as [G HI]. apply (drain_bound _ G _ HI).
  rewrite (loc_submitted _ _ (inv_local _ _ HI)). apply potential_bound.
Qed.

(** C1: whatever is enqueued, in whatever interleaving with the jobs and
    with the ends of the tasks: every call of enqueue is submitted, under the
    next ticket and for its guild, and the trace holds no other submission;
    the tickets are numbered in the order of submission; every task starts at
    most once and ends at most once, after its start; a task of a guild
    starts only after every task submitted earlier for that guild has ended,
    by success or by failure; a task that throws ends with its own error,
    whatever the tasks before it did; when no job is left, a submitted task
    that has not started has an earlier task of its guild that is still
    running, and a task that has started and has not ended is itself
    running; when no job is left and no task is running, every submitted task
    has run; the jobs in the queue always run out, after at most ten jobs per
    call of enqueue; and as soon as the running tasks end, a state with
    nothing left to do is reached in which the task of every call has started
    and has ended, a task that throws with its own error. *)
Theorem enqueue_fifo (acts : list action) :
  omap submission (log (run acts init)) = imap (fun n kt => (n, fst kt)) (calls acts)
  /\ ordered (log (run acts init))
  /\ once (log (run acts init))
  /\ bracketed (log (run acts init))
  /\ fifo (log (run acts init))
  /\ (forall n k e o,
        calls acts !! n = Some (k, Throws e) ->
        Finished n o ∈ log (run acts init) -> o = Failed e)
  /\ (jobs (run acts init) = [] ->
      forall m k h,
        Submitted m k h ∈ log (run acts init) -> Started m ∉ log (run acts init) ->
        exists n hn r,
          n < m /\ Submitted n k hn ∈ log (run acts init)
          /\ Started n ∈ log (run acts init)
          /\ (forall o, Finished n o ∉ log (run acts init))
          /\ running (run acts init) !! r = Some n)
  /\ (jobs (run acts init) = [] ->
      forall m,
        Started m ∈ log (run acts init) ->
        (forall o, Finished m o ∉ log (run acts init)) ->
        exists r, running (run acts init) !! r = Some m)
  /\ (quiescent (run acts init) -> served (log (run acts init)))
  /\ jobs (drain (10 * submitted (run acts init)) (run acts init)) = []
  /\ exists rest,
       Forall internal rest /\ quiescent (run (acts ++ rest) init)
       /\ forall n k t, calls acts !! n = Some (k, t) ->
            Started n ∈ log (run (acts ++ rest) init)
            /\ exists o, Finished n o ∈ log (run (acts ++ rest) init)
                         /\ own_outcome t o.
Proof.
  destruct (reachable_inv acts) as [G HI].
  pose proof (numbered_run acts init numbered_init) as [_ Hord].
  split.
  { destruct (run_submissions acts init) as (H & _). exact H. }
  split; [exact Hord|].
  split; [intros n; apply (at_most_once G _ HI)|].
  split; [split; [apply (started_submitted G _ HI)|apply (finished_after_start G _ HI)]|].
  split.
  { intros k n m hn hm Hb Hs.
    destruct (before_elem _ _ _ Hb) as [Hn Hm].
    apply (in_order G _ HI k n m hn hm); try assumption.
    eapply Hord, Hb. }
  split; [intros n k e o; apply throws_own_error|].
  split; [intros Hj m k h; apply blocked_by_running, Hj|].
  split; [intros Hj m; apply started_is_running, Hj|].
  split; [exact (all_done G _ HI)|].
  split; [apply drained|apply served_in_the_end].
Qed.

Example sample_trace :
  log (run sample init)
  = [Submitted 0 "g" 3; Submitted 1 "g" 7; Submitted 2 "h" 12; Submitted 3 "g" 16;
     Started 0; Finished 0 (Failed (object 1)); Started 2;
     LoggedExecuting "g" (object 1); Started 1; Finished 1 (Failed (object 2));
     LoggedExecuting "g" (object 2); Started 3;
     Finished 3 (Returned undefined); Finished 2 (Returned undefined)]
  /\ quiescent (run sample init).
Proof. split; [|split]; vm_compute; reflexivity. Qed.

(** *** The handle of a task *)

Example failing_trace :
  log (run failing init)
  = [Submitted 0 "g" 3; Started 0; Finished 0 (Failed (object 1));
     LoggedExecuting "g" (object 1)]
  /\ quiescent (run failing init)
  /\ state_of 3 (run failing init) = Fulfilled undefined
  /\ queues (run failing init) !! "g" = Some 4.
Proof. repeat split; vm_compute; reflexivity. Qed.

(** C2, as claimed: the handle of a task that fails is not rejected; it is
    fulfilled with undefined, the value of the handler that logs the
    error. *)
Lemma handle_hides_failure : ~ handle_reflects_outcome.
Proof.
  intros H. destruct failing_trace as (Hl & Hq & Hh & _).
  specialize (H failing 0 "g" 3 (Failed (object 1))).
  rewrite Hh, Hl in H. cbn [settled_as] in H.
  assert (Hx : Fulfilled undefined = Rejected (object 1)).
  { apply H; [| |exact Hq]; rewrite !elem_of_cons; auto. }
  discriminate Hx.
Qed.

Lemma handle_cell c :
  exists x, (next c, x) ∈ cells c
    /\ ((settled x = Pending /\ ~ complete c)
        \/ exists o, ended (stage_of c) = Some o
                     /\ settled x = Fulfilled (result_value o)).
Proof.
  unfold cells, fulfilled_next, complete.
  destruct (stage_of c) as [|v|v|r [o|]|r d|d o|o|o|pt o|pt o|pt d o|d o|o];
    cbn [ended app];
    first [ exists (pending [to_tail c]); split;
            [rewrite !elem_of_cons; solve [auto]
            |left; split; [reflexivity|intros [? ?]; discriminate]]
          | exists (done (Fulfilled (result_value o))); split;
            [rewrite !elem_of_cons; solve [auto]|right; eauto] ].
Qed.

Lemma idle_ended c o : due c = [] -> ended (stage_of c) = Some o -> stage_of c = Complete o.
Proof.
  unfold due. destruct (stage_of c) as [|v|v|r [o'|]|r d|d o'|o'|o'|pt o'|pt o'|pt d o'|d o'|o'];
    try discriminate. intros _ H. injection H as ->. reflexivity.
Qed.

Lemma handle_after_task acts n k h o :
  Submitted n k h ∈ log (run acts init) ->
  Finished n o ∈ log (run acts init) -> jobs (run acts init) = [] ->
  state_of h (run acts init) = Fulfilled (result_value o).
Proof.
  intros Hsub Hfin Hj. destruct (reachable_inv acts) as [G HI].
  destruct (loc_known _ _ (inv_local _ _ HI) _ _ _ Hsub) as (c & Hc & _ & Hh).
  destruct (chain_log G _ HI n c Hc) as [Ht [_ _ Hends _]]. rewrite Ht in Hends.
  apply ends_in in Hfin. rewrite Hends in Hfin.
  destruct (ended (stage_of c)) as [o'|] eqn:He;
    [|apply elem_of_nil in Hfin; contradiction].
  apply list_elem_of_singleton in Hfin. subst o'.
  pose proof (idle_ended c o (no_jobs_due G _ HI Hj n c Hc) He) as Hst.
  destruct (handle_cell c) as (x & Hx & Hcase).
  pose proof (loc_heap _ _ (inv_local _ _ HI) c _ _
                (list_elem_of_lookup_2 _ _ _ Hc) Hx) as Hheap.
  rewrite Hh in Hheap. unfold state_of. rewrite Hheap.
  destruct Hcase as [[_ Hnc]|(o' & Ho' & Hf)].
  - exfalso. apply Hnc. exists o. exact Hst.
  - rewrite He in Ho'. injection Ho' as <-. exact Hf.
Qed.

Lemma drain_run n acts : drain n (run acts init) = run (acts ++ replicate n Tick) init.
Proof. unfold drain. rewrite run_app. reflexivity. Qed.

Lemma log_grows acts rest e :
  e ∈ log (run acts init) -> e ∈ log (run (acts ++ rest) init).
Proof.
  intros H. rewrite run_app.
  destruct (run_submissions rest (run acts init)) as (_ & _ & evs & Hl).
  rewrite Hl. apply elem_of_app. left. exact H.
Qed.

(** C2, amended: the handle is never rejected; it is fulfilled only once its
    own task has ended, with the value of the task if the task returned one
    and with undefined if the task failed; it is pending as long as its task
    has not ended; once its task has ended it is fulfilled as soon as the
    queued jobs have run, whatever the other tasks do: in the state itself
    when no job is left, and otherwise after at most ten jobs per call of
    enqueue; and when nothing is left to do it is fulfilled. *)
Theorem handle_outcome (acts : list action) (n : nat) (k : string) (h : pid) :
  Submitted n k h ∈ log (run acts init) ->
  (forall e, state_of h (run acts init) <> Rejected e)
  /\ (forall v, state_of h (run acts init) = Fulfilled v ->
        exists o, Finished n o ∈ log (run acts init) /\ v = result_value o)
  /\ ((forall o, Finished n o ∉ log (run acts init)) ->
      state_of h (run acts init) = Pending)
  /\ (forall o, Finished n o ∈ log (run acts init) ->
        (jobs (run acts init) = [] ->
         state_of h (run acts init) = Fulfilled (result_value o))
        /\ state_of h (drain (10 * submitted (run acts init)) (run acts init))
           = Fulfilled (result_value o))
  /\ (quiescent (run acts init) ->
        exists o, Finished n o ∈ log (run acts init)
                  /\ state_of h (run acts init) = Fulfilled (result_value o)).
Proof.
  intros Hsub.
  assert (Hcase : state_of h (run acts init) = Pending
                  \/ exists o, Finished n o ∈ log (run acts init)
                               /\ state_of h (run acts init) = Fulfilled (result_value o)).
  { destruct (reachable_inv acts) as [G HI].
    destruct (loc_known _ _ (inv_local _ _ HI) _ _ _ Hsub) as (c & Hc & _ & Hh).
    destruct (chain_log G _ HI n c Hc) as [Ht [_ _ Hends _]]. rewrite Ht in Hends.
    destruct (handle_cell c) as (x & Hx & Hcase).
    pose proof (loc_heap _ _ (inv_local _ _ HI) c _ _
                  (list_elem_of_lookup_2 _ _ _ Hc) Hx) as Hheap.
    rewrite Hh in Hheap. unfold state_of. rewrite Hheap.
    destruct Hcase as [[Hp _]|(o & Ho & Hf)]; [left; exact Hp|right].
    exists o. split; [|exact Hf]. rewrite Ho in Hends. apply ends_elem, Hends. }
  split; [|split; [|split; [|split]]].
  - intros e. destruct Hcase as [->|(o & _ & ->)]; discriminate.
  - intros v Hv. destruct Hcase as [Hp|(o & Ho & Hf)]; [congruence|].
    exists o. split; [exact Ho|congruence].
  - intros Hno. destruct Hcase as [Hp|(o & Ho & _)]; [exact Hp|].
    exfalso. exact (Hno o Ho).
  - intros o Ho. split; [apply (handle_after_task acts n k h o Hsub Ho)|].
    rewrite drain_run. apply (handle_after_task _ n k h o).
    + apply log_grows, Hsub.
    + apply log_grows, Ho.
    + rewrite <- drain_run. apply drained.
  - intros Hq. destruct (reachable_inv acts) as [G HI].
    destruct (all_done G _ HI Hq n k h Hsub) as [_ [o Ho]]. exists o.
    split; [exact Ho|]. apply (handle_after_task acts n k h o Hsub Ho), Hq.
Qed.

Lemma handle_outcome_witness :
  Submitted 0 "g" 3 ∈ log (run failing init)
  /\ Finished 0 (Failed (object 1)) ∈ log (run failing init)
  /\ jobs (run failing init) = []
  /\ state_of 3 (run failing init) = Fulfilled undefined
  /\ state_of 3 (drain (10 * submitted (run failing init)) (run failing init))
     = Fulfilled undefined
  /\ (forall e, state_of 3 (run failing init) <> Rejected e).
Proof.
  assert (Hsub : Submitted 0 "g" 3 ∈ log (run failing init))
    by (rewrite (proj1 failing_trace); apply list_elem_of_here).
  assert (Hfin : Finished 0 (Failed (object 1)) ∈ log (run failing init))
    by (rewrite (proj1 failing_trace), !elem_of_cons; auto).
  assert (Hj : jobs (run failing init) = []) by (vm_compute; reflexivity).
  destruct (handle_outcome failing 0 "g" 3 Hsub) as (Hrej & _ & _ & Hdone & _).
  destruct (Hdone _ Hfin) as [Hnow Hdrain].
  split; [exact Hsub|]. split; [exact Hfin|]. split; [exact Hj|].
  split; [exact (Hnow Hj)|]. split; [exact Hdrain|exact Hrej].
Defined.

(** *** The map of the queue *)

Example single_trace :
  log (run single init)
  = [Submitted 0 "g" 3; Started 0; Finished 0 (Returned undefined)]
  /\ quiescent (run single init)
  /\ state_of 3 (run single init) = Fulfilled undefined
  /\ queues (run single init) !! "g" = Some 4
  /\ state_of 4 (run single init) = Fulfilled undefined.
Proof. repeat split; vm_compute; reflexivity. Qed.

(** C3: the map holds the promise that [finally] returned, and the callback
    compares it with the handle; the two are never the same promise, so a
    guild that has had a task keeps its entry for good, also when nothing is
    left to do. *)
Theorem entry_never_removed (acts : list action) (n : nat) (k : string) (h : pid) :
  Submitted n k h ∈ log (run acts init) ->
  is_Some (queues (run acts init) !! k)
  /\ forall k' n' h', Submitted n' k' h' ∈ log (run acts init) ->
                      queues (run acts init) !! k <> Some h'.
Proof.
  intros Hsub. destruct (reachable_inv acts) as [G HI].
  destruct (loc_known _ _ (inv_local _ _ HI) _ _ _ Hsub) as (c & Hc & Hg & _).
  split.
  - rewrite <- Hg. apply (lnk_queue1 _ _ (inv_links _ _ HI)).
    eapply list_elem_of_lookup_2, Hc.
  - intros k' n' h' Hsub'.
    destruct (loc_known _ _ (inv_local _ _ HI) _ _ _ Hsub') as (c' & Hc' & _ & Hh').
    rewrite <- Hh'. apply (queue_entry_not_next G _ c' k HI).
    rewrite (loc_ticket _ _ (inv_local _ _ HI) _ _ Hc'). exact Hc'.
Qed.

Lemma entry_never_removed_witness :
  quiescent (run single init)
  /\ is_Some (queues (run single init) !! "g")
  /\ forall k' n' h', Submitted n' k' h' ∈ log (run single init) ->
                      queues (run single init) !! "g" <> Some h'.
Proof.
  split; [split; vm_compute; reflexivity|].
  apply (entry_never_removed single 0 "g" 3).
  vm_compute. apply list_elem_of_here.
Defined.

(** *** What a job writes to the trace *)

Lemma resolve_with_log target c s : log (resolve_with target c s) = log s.
Proof.
  destruct c as [v|p|e]; cbn [resolve_with]; try reflexivity; apply settle_log.
Qed.

Lemma run_job_emitted j s : log (run_job j s) = log s ++ emitted j.
Proof.
  destruct j as [h target x|target p]; cbn [run_job].
  - destruct (call h x s) as [c s1] eqn:Hcall. rewrite resolve_with_log.
    destruct h as [| |k|n [e|]|k|cb|cb|v|e|p|p]; cbn [call emitted] in *;
      try (injection Hcall as <- <-; cbn [log emit]; rewrite ?app_nil_r; reflexivity).
    + pose proof (finally_log cb (ValueThunk x) s) as [H _].
      cbv zeta in H. rewrite Hcall in H. rewrite app_nil_r. exact H.
    + pose proof (finally_log cb (ThrowThunk x) s) as [H _].
      cbv zeta in H. rewrite Hcall in H. rewrite app_nil_r. exact H.
    + injection Hcall as <- <-. rewrite app_nil_r. apply settle_log.
    + injection Hcall as <- <-. rewrite app_nil_r. apply settle_log.
  - rewrite app_nil_r. apply then_log.
Qed.

Lemma tick_log s j rest :
  jobs s = j :: rest -> log (step s Tick) = log s ++ emitted j.
Proof. intros H. cbn [step]. rewrite H. rewrite run_job_emitted. reflexivity. Qed.

Lemma settle_step_log s r o :
  log (step s (Settle r o))
  = log s ++ match running s !! r with Some n => [Finished n o] | None => [] end.
Proof.
  cbn [step]. destruct (running s !! r) as [n|]; [|rewrite app_nil_r; reflexivity].
  destruct (settle_log r (match o with Returned v => Fulfilled v
                                     | Failed e => Rejected e end)
              (emit [Finished n o] (set_running (delete r) s))) as [H _].
  exact H.
Qed.

(** *** Errors on the console *)

Lemma genuine_mono l evs ev : genuine l ev -> genuine (l ++ evs) ev.
Proof.
  destruct ev; cbn; try tauto. intros (n & h & H1 & H2).
  exists n, h. split; apply elem_of_app; auto.
Qed.

Lemma sound_app l evs : sound l -> Forall (genuine l) evs -> sound (l ++ evs).
Proof.
  intros Hl He. apply Forall_app. split.
  - eapply Forall_impl; [exact Hl|]. intros ev. apply genuine_mono.
  - eapply Forall_impl; [exact He|]. intros ev. apply genuine_mono.
Qed.

Lemma reported_started st : started st = false -> reported st = None.
Proof. destruct st; cbn; try discriminate; reflexivity. Qed.

Lemma reports_update G c st l evs :
  reports G l -> G !! ticket c = Some c ->
  (forall e, reported st = Some e ->
             reported (stage_of c) = Some e \/ LoggedExecuting (guild c) e ∈ evs) ->
  reports (<[ticket c := with_stage st c]> G) (l ++ evs).
Proof.
  intros HR Hc Hst c0 e H0 He. apply elem_of_app.
  apply (elem_of_insert_chain _ _ _ _ _ Hc) in H0 as [->|(i & _ & Hi)].
  - cbn [stage_of with_stage guild] in *. destruct (Hst e He) as [H|H]; [|auto].
    left. apply (HR c e); [eapply list_elem_of_lookup_2, Hc|exact H].
  - left. apply (HR c0 e); [eapply list_elem_of_lookup_2, Hi|exact He].
Qed.

Lemma reports_same G c st l evs :
  reports G l -> G !! ticket c = Some c ->
  (reported st = None \/ reported st = reported (stage_of c)) ->
  reports (<[ticket c := with_stage st c]> G) (l ++ evs).
Proof.
  intros HR Hc Hst. apply reports_update; [exact HR|exact Hc|].
  intros e He. left. destruct Hst as [H|H]; congruence.
Qed.

Lemma reports_enqueue G c m q cN l evs :
  reports G l -> G !! ticket c = Some c -> reported (stage_of cN) = None ->
  reports (<[ticket c := with_succ m q c]> G ++ [cN]) (l ++ evs).
Proof.
  intros HR Hc HN c0 e H0 He. apply elem_of_app. left.
  apply elem_of_app in H0 as [H0|H0].
  - apply (elem_of_insert_chain _ _ _ _ _ Hc) in H0 as [->|(i & _ & Hi)].
    + apply (HR c e); [eapply list_elem_of_lookup_2, Hc|exact He].
    + apply (HR c0 e); [eapply list_elem_of_lookup_2, Hi|exact He].
  - apply list_elem_of_singleton in H0. subst c0. congruence.
Qed.

Lemma reports_first G cN l evs :
  reports G l -> reported (stage_of cN) = None -> reports (G ++ [cN]) (l ++ evs).
Proof.
  intros HR HN c0 e H0 He. apply elem_of_app. left.
  apply elem_of_app in H0 as [H0|H0]; [exact (HR c0 e H0 He)|].
  apply list_elem_of_singleton in H0. subst c0. congruence.
Qed.

(** The console lines of the jobs of a chain. *)
Lemma due_genuine c j l :
  j ∈ due c -> log_ok c l -> Forall (genuine l) (emitted j).
Proof.
  intros Hj [Hsub _ Hends _]. unfold due in Hj.
  destruct (stage_of c) as [|v|v|r [o|]|r d|d [v|e]|[v|e]|o|pt o|pt o|pt d o|d o|o] eqn:Hst;
    cbn [resolving_job next_job] in Hj;
    repeat (apply elem_of_cons in Hj as [->|Hj]);
    try (apply elem_of_nil in Hj; contradiction);
    cbn [emitted]; try (destruct (the_task c));
    repeat (apply Forall_cons_2); try apply Forall_nil_2; try exact I.
  all: cbn [ended] in Hends; exists (ticket c), (next c); split; [exact Hsub|].
  all: apply ends_elem, Hends.
Qed.

Ltac report1 Hc Hst :=
  apply reports_same; [assumption|exact Hc|rewrite Hst; cbn [reported]; auto].

Lemma tick_reports G s :
  inv G s -> reports G (log s) -> sound (log s) ->
  exists G', inv G' (step s Tick) /\ reports G' (log (step s Tick))
             /\ sound (log (step s Tick)).
Proof.
  intros HI HR HS. destruct (jobs s) as [|j rest] eqn:Hj.
  { exists G. unfold step. rewrite Hj. auto. }
  destruct (job_owner G s j rest HI Hj) as (c & Hc & Hd).
  pose proof (inv_log G s HI c (list_elem_of_lookup_2 _ _ _ Hc)) as Hlog.
  rewrite (tick_log s j rest Hj).
  assert (HS' : sound (log s ++ emitted j)).
  { apply sound_app; [exact HS|]. eapply due_genuine; eassumption. }
  cut (exists G', inv G' (step s Tick) /\ reports G' (log s ++ emitted j)).
  { intros (G' & H1 & H2). eauto. }
  clear HS HS' Hlog. unfold due in Hd.
  destruct (stage_of c) as [|v|v|r [o|]|r d|d o|o|o|pt o|pt o|pt d o|d o|o] eqn:Hst;
    try (apply elem_of_nil in Hd; contradiction);
    try (apply due_singleton in Hd; subst j).
  - eexists. split; [eapply tick_linked; eassumption|]. report1 Hc Hst.
  - destruct (the_task c) as [e|] eqn:Ht.
    + eexists. split; [eapply tick_ready_throws; try eassumption;
                       rewrite Ht; eassumption|].
      report1 Hc Hst.
    + eexists. split; [eapply tick_ready_async; try eassumption;
                       rewrite Ht; eassumption|].
      report1 Hc Hst.
  - eexists. split; [eapply tick_adopting_settled; eassumption|]. report1 Hc Hst.
  - eexists. split; [eapply tick_adopting_pending; eassumption|]. report1 Hc Hst.
  - eexists. split; [eapply tick_resolving; eassumption|]. report1 Hc Hst.
  - eexists. split; [eapply tick_ran; eassumption|].
    apply reports_update; [assumption|exact Hc|].
    intros e He. right. destruct o as [v|e0]; cbn [reported] in He; [discriminate|].
    injection He as ->. cbn [next_job emitted]. apply list_elem_of_here.
  - eexists. split; [eapply tick_handled; eassumption|]. report1 Hc Hst.
  - apply elem_of_cons in Hd as [->|Hd]; [|apply due_singleton in Hd; subst j].
    + eexists. split; [eapply tick_closing1_thunk; eassumption|]. report1 Hc Hst.
    + eexists. split; [eapply tick_closing1_adopt; eassumption|]. report1 Hc Hst.
  - eexists. split; [eapply tick_closing2; eassumption|]. report1 Hc Hst.
  - eexists. split; [eapply tick_closing3; eassumption|]. report1 Hc Hst.
  - destruct (succ c) as [[m q]|] eqn:Hs.
    + destruct (tick_closing4_next G s c d o m q rest HI Hc Hst Hs Hj) as (cm & Hm & H).
      eexists. split; [exact H|].
      pose proof (loc_ticket _ _ (inv_local _ _ HI) _ _ Hm) as Htm.
      destruct (lnk_succ _ _ (inv_links _ _ HI) _ _ _ _ Hc Hs)
        as (_ & _ & _ & _ & Hlt & _).
      rewrite <- (app_nil_r (log s ++ _)). rewrite <- Htm.
      apply reports_same; [report1 Hc Hst| |left; reflexivity].
      rewrite list_lookup_insert_ne by lia. rewrite Htm. exact Hm.
    + eexists. split; [eapply tick_closing4_last; eassumption|]. report1 Hc Hst.
Qed.

Lemma settle_reports G s r o :
  inv G s -> reports G (log s) -> sound (log s) ->
  exists G', inv G' (step s (Settle r o)) /\ reports G' (log (step s (Settle r o)))
             /\ sound (log (step s (Settle r o))).
Proof.
  intros HI HR HS. rewrite settle_step_log.
  assert (HS' : sound (log s ++ match running s !! r with
                                | Some n => [Finished n o] | None => [] end)).
  { apply sound_app; [exact HS|]. destruct (running s !! r); repeat constructor. }
  destruct (running s !! r) as [n|] eqn:Hr.
  - destruct (inv_running2 G s HI r n Hr) as (c & Hc & Hruns).
    assert (Hn : ticket c = n) by apply (loc_ticket _ _ (inv_local _ _ HI) _ _ Hc).
    subst n. destruct Hruns as [Hst|[d Hst]].
    + eexists. split; [eapply settle_adopting; eassumption|]. split; [|exact HS'].
      report1 Hc Hst.
    + eexists. split; [eapply settle_awaiting; eassumption|]. split; [|exact HS'].
      report1 Hc Hst.
  - exists G. unfold step. rewrite Hr. rewrite app_nil_r in *. auto.
Qed.

Lemma enqueue_reports G s k t :
  inv G s -> reports G (log s) -> sound (log s) ->
  exists G', inv G' (step s (Enqueue k t)) /\ reports G' (log (step s (Enqueue k t)))
             /\ sound (log (step s (Enqueue k t))).
Proof.
  intros HI HR HS. destruct (enqueue_log k t s) as [Hl _].
  change (snd (enqueue k t s)) with (step s (Enqueue k t)) in Hl. rewrite Hl.
  assert (HS' : sound (log s ++ [Submitted (submitted s) k (fst (enqueue k t s))])).
  { apply sound_app; [exact HS|]. repeat constructor. }
  destruct (queues s !! k) as [pt|] eqn:Hq.
  - destruct (enqueue_next_chain G s k t pt HI Hq) as (c & st & Hc & Hst & H).
    eexists. split; [exact H|]. split; [|exact HS'].
    apply reports_enqueue; [exact HR|exact Hc|]. apply reported_started, Hst.
  - eexists. split; [eapply enqueue_first; eassumption|]. split; [|exact HS'].
    apply reports_first; [exact HR|reflexivity].
Qed.

Lemma run_reports acts : forall G s,
  inv G s -> reports G (log s) -> sound (log s) ->
  exists G', inv G' (run acts s) /\ reports G' (log (run acts s))
             /\ sound (log (run acts s)).
Proof.
  induction acts as [|a acts IH]; intros G s HI HR HS; [eauto|].
  assert (exists G1, inv G1 (step s a) /\ reports G1 (log (step s a))
                     /\ sound (log (step s a))) as (G1 & H1 & H2 & H3).
  { destruct a as [k t| |r o].
    - apply (enqueue_reports G); assumption.
    - apply (tick_reports G); assumption.
    - apply (settle_reports G); assumption. }
  exact (IH G1 _ H1 H2 H3).
Qed.

Lemma reachable_reports acts :
  exists G, inv G (run acts init) /\ reports G (log (run acts init))
            /\ sound (log (run acts init)).
Proof.
  apply (run_reports acts [] init init_inv).
  - intros c e H. apply elem_of_nil in H. contradiction.
  - constructor.
Qed.

(** X15: the first [catch] of [enqueue] never logs: the promise it is attached
    to is never rejected, so no trace holds a line of it. *)
Theorem previous_error_never_logged (acts : list action) :
  existsb previous_line (log (run acts init)) = false.
Proof.
  destruct (reachable_reports acts) as (G & _ & _ & HS).
  destruct (existsb previous_line (log (run acts init))) eqn:Hex; [|reflexivity].
  apply existsb_exists in Hex as (ev & Hin & Hev). exfalso.
  apply list_elem_of_In in Hin.
  pose proof (proj1 (Forall_forall _ _) HS _ Hin) as Hg.
  destruct ev; try discriminate Hev. exact Hg.
Qed.

(** X16: the second [catch] logs the errors of failed tasks and nothing else: a
    line names the error of a task of that guild that failed; and whenever no
    job is queued, the error of every task that has failed so far is on the
    console. *)
Theorem failures_logged (acts : list action) :
  (forall k e, LoggedExecuting k e ∈ log (run acts init) ->
     exists n h, Submitted n k h ∈ log (run acts init)
                 /\ Finished n (Failed e) ∈ log (run acts init))
  /\ (jobs (run acts init) = [] ->
      forall n k h e,
        Submitted n k h ∈ log (run acts init) ->
        Finished n (Failed e) ∈ log (run acts init) ->
        LoggedExecuting k e ∈ log (run acts init)).
Proof.
  destruct (reachable_reports acts) as (G & HI & HR & HS). split.
  - intros k e H. apply (proj1 (Forall_forall _ _) HS _ H).
  - intros Hj n k h e Hsub Hfin.
    destruct (loc_known _ _ (inv_local _ _ HI) _ _ _ Hsub) as (c & Hc & Hg & _).
    destruct (chain_log G _ HI n c Hc) as [Ht [_ _ Hends _]]. rewrite Ht in Hends.
    apply ends_in in Hfin. rewrite Hends in Hfin.
    pose proof (no_jobs_due G _ HI Hj n c Hc) as Hdue. unfold due in Hdue.
    rewrite <- Hg. apply (HR c e); [eapply list_elem_of_lookup_2, Hc|].
    destruct (stage_of c) as [|v|v|r [o|]|r d|d o|o|o|pt o|pt o|pt d o|d o|o];
      try discriminate; cbn [ended] in Hfin;
      try (apply elem_of_nil in Hfin; contradiction).
    apply list_elem_of_singleton in Hfin. subst o. reflexivity.
Qed.

(** *** Guilds do not wait for each other *)

(** X17: when no job is queued and none of the running tasks belongs to guild
    [k], every task submitted for [k] has run, whatever the tasks of the
    other guilds do. *)
Theorem guilds_independent (acts : list action) (k : string) :
  jobs (run acts init) = [] ->
  (forall r n h, running (run acts init) !! r = Some n ->
                 Submitted n k h ∉ log (run acts init)) ->
  forall n h, Submitted n k h ∈ log (run acts init) ->
    Started n ∈ log (run acts init)
    /\ exists o, Finished n o ∈ log (run acts init).
Proof.
  intros Hj Hidle. destruct (reachable_inv acts) as [G HI].
  assert (Hdone : forall m cm, G !! m = Some cm -> guild cm = k -> complete cm).
  { induction m as [m IH] using lt_wf_ind. intros cm Hm Hg.
    destruct (chain_log G _ HI m cm Hm) as [Ht [Hsub _ _ _]].
    assert (Hcase : waiting cm \/ complete cm).
    { apply idle_stage; [eapply no_jobs_due; eassumption|]. intros r Hr.
      pose proof (inv_running1 G _ HI cm r (list_elem_of_lookup_2 _ _ _ Hm) Hr) as Hx.
      apply (Hidle r (ticket cm) (next cm) Hx). rewrite <- Hg. exact Hsub. }
    destruct Hcase as [Hw|Hc]; [|exact Hc]. exfalso.
    destruct (lnk_wait _ _ (inv_links _ _ HI) m cm Hm Hw)
        as (n & c & Hn & Hs & Hnc).
      destruct (lnk_succ _ _ (inv_links _ _ HI) n c m _ Hn Hs)
        as (cm' & Hm' & _ & Hg' & Hlt & _).
    rewrite Hm in Hm'. injection Hm' as <-.
    apply Hnc, (IH n Hlt c Hn). congruence. }
  intros n h Hsub.
  destruct (loc_known _ _ (inv_local _ _ HI) _ _ _ Hsub) as (c & Hc & Hg & _).
  destruct (Hdone n c Hc Hg) as [o Ho].
  destruct (chain_log G _ HI n c Hc) as [Ht [_ H1 H2 _]]. rewrite Ht, Ho in *.
  cbn [started ended] in H1, H2. split.
  - apply starts_elem, H1.
  - exists o. apply ends_elem, H2.
Qed.

Example stuck_trace :
  log (run stuck init)
  = [Submitted 0 "g" 3; Submitted 1 "h" 8; Started 0; Started 1;
     Finished 1 (Failed (object 1)); LoggedExecuting "h" (object 1)]
  /\ jobs (run stuck init) = []
  /\ running (run stuck init) = {[ 10 := 0 ]}.
Proof. repeat split; vm_compute; reflexivity. Qed.

Lemma guilds_independent_witness :
  jobs (run stuck init) = []
  /\ forall n h, Submitted n "h" h ∈ log (run stuck init) ->
       Started n ∈ log (run stuck init)
       /\ exists o, Finished n o ∈ log (run stuck init).
Proof.
  split; [vm_compute; reflexivity|].
  apply (guilds_independent stuck "h").
  - vm_compute. reflexivity.
  - intros r n h Hr Hin.
    assert (Hrun : running (run stuck init) = {[ 10 := 0 ]}) by (vm_compute; reflexivity).
    assert (Hlog : log (run stuck init)
                   = [Submitted 0 "g" 3; Submitted 1 "h" 8; Started 0; Started 1;
                      Finished 1 (Failed (object 1)); LoggedExecuting "h" (object 1)])
      by (vm_compute; reflexivity).
    rewrite Hrun in Hr. apply lookup_singleton_Some in Hr as [_ <-].
    rewrite Hlog in Hin. rewrite !elem_of_cons in Hin.
    destruct Hin as [H|[H|[H|[H|[H|[H|H]]]]]]; try discriminate H.
    apply elem_of_nil in H. exact H.
Defined.

(** *** The promise in the map *)

Lemma tail_cell_state c :
  exists x, (tail c, x) ∈ cells c
    /\ ((settled x = Pending /\ ~ complete c)
        \/ exists o, stage_of c = Complete o
                     /\ settled x = Fulfilled (result_value o)).
Proof.
  destruct (complete_dec c) as [[o Ho]|Hn].
  - exists (done (Fulfilled (result_value o))). split.
    + apply tail_done_in_cells, Ho.
    + right. eauto.
  - exists (tail_cell c). split; [apply tail_cell_in_cells, Hn|].
    left. split; [reflexivity|exact Hn].
Qed.

(** X18: the map has an entry for exactly the guilds for which a task was ever
    submitted; the promise it holds is never rejected, and it is fulfilled
    when nothing is left to do. *)
Theorem map_entries (acts : list action) (k : string) :
  (is_Some (queues (run acts init) !! k)
   <-> exists n h, Submitted n k h ∈ log (run acts init))
  /\ (forall t, queues (run acts init) !! k = Some t ->
        (forall e, state_of t (run acts init) <> Rejected e)
        /\ (quiescent (run acts init) ->
            exists v, state_of t (run acts init) = Fulfilled v)).
Proof.
  destruct (reachable_inv acts) as [G HI]. split; [split|].
  - intros [t Ht].
    destruct (lnk_queue2 _ _ (inv_links _ _ HI) k t Ht) as (c & Hc & Hg & _).
    exists (ticket c), (next c). rewrite <- Hg.
    apply (log_submitted _ _ (inv_log G _ HI c Hc)).
  - intros (n & h & Hsub).
    destruct (loc_known _ _ (inv_local _ _ HI) _ _ _ Hsub) as (c & Hc & Hg & _).
    rewrite <- Hg. apply (lnk_queue1 _ _ (inv_links _ _ HI)).
    eapply list_elem_of_lookup_2, Hc.
  - intros t Ht.
    destruct (lnk_queue2 _ _ (inv_links _ _ HI) k t Ht) as (c & Hc & _ & Htail & _).
    destruct (tail_cell_state c) as (x & Hx & Hcase).
    pose proof (inv_heap G _ HI c _ _ Hc Hx) as Hheap. rewrite Htail in Hheap.
    unfold state_of. rewrite Hheap.
    apply list_elem_of_lookup in Hc as [i Hi].
    destruct Hcase as [[Hp Hnc]|(o & _ & Hf)].
    + rewrite Hp. split; [discriminate|]. intros Hq. exfalso.
      apply Hnc, (quiescent_complete G _ HI Hq i c Hi).
    + rewrite Hf. split; [discriminate|eauto].
Qed.

(** *** What a call of [enqueue] leaves behind *)

(** X19: the call returns before the task starts: the trace gains the
    submission only, and the handle is a new promise, still pending. *)
Theorem enqueue_defers (acts : list action) (k : string) (t : task) :
  log (snd (enqueue k t (run acts init)))
  = log (run acts init)
    ++ [Submitted (submitted (run acts init)) k (fst (enqueue k t (run acts init)))]
  /\ state_of (fst (enqueue k t (run acts init))) (snd (enqueue k t (run acts init)))
     = Pending
  /\ forall n' k' h', Submitted n' k' h' ∈ log (run acts init) ->
                      h' <> fst (enqueue k t (run acts init)).
Proof.
  destruct (enqueue_log k t (run acts init)) as [Hlog Hsub].
  split; [exact Hlog|].
  destruct (reachable_inv acts) as [G HI].
  destruct (step_inv G _ (Enqueue k t) HI) as [G' HI'].
  change (step (run acts init) (Enqueue k t))
    with (snd (enqueue k t (run acts init))) in HI'.
  set (s := run acts init) in *. set (h := fst (enqueue k t s)) in *.
  set (s' := snd (enqueue k t s)) in *.
  assert (Hin : Submitted (submitted s) k h ∈ log s').
  { rewrite Hlog. apply elem_of_app. right. apply list_elem_of_here. }
  destruct (loc_known _ _ (inv_local _ _ HI') _ _ _ Hin) as (c & Hc & _ & Hh).
  destruct (chain_log G' _ HI' _ c Hc) as [Ht [_ _ Hends _]].
  assert (Hnone : ends (submitted s) (log s') = []).
  { rewrite Hlog, ends_app.
    rewrite (ends_outside (submitted s) (length G) (log s)).
    - reflexivity.
    - apply (loc_bound _ _ (inv_local _ _ HI)).
    - rewrite (loc_submitted _ _ (inv_local _ _ HI)). lia. }
  rewrite Ht, Hnone in Hends. split.
  - destruct (handle_cell c) as (x & Hx & Hcase).
    pose proof (loc_heap _ _ (inv_local _ _ HI') c _ _
                  (list_elem_of_lookup_2 _ _ _ Hc) Hx) as Hheap.
    rewrite Hh in Hheap. unfold state_of. rewrite Hheap.
    destruct Hcase as [[Hp _]|(o & Ho & _)]; [exact Hp|].
    rewrite Ho in Hends. discriminate.
  - intros n' k' h' Hold Heq.
    assert (Hold' : Submitted n' k' h' ∈ log s').
    { rewrite Hlog. apply elem_of_app. left. exact Hold. }
    destruct (loc_known _ _ (inv_local _ _ HI') _ _ _ Hold') as (c' & Hc' & _ & Hh').
    assert (Hlt : n' < submitted s).
    { pose proof (loc_bound _ _ (inv_local _ _ HI)) as Hb.
      rewrite Forall_forall in Hb. specialize (Hb _ Hold). cbn in Hb.
      rewrite (loc_submitted _ _ (inv_local _ _ HI)). exact Hb. }
    apply (NoDup_bind_disjoint tracked G' n' (submitted s) c' c h
             (loc_disjoint _ _ (inv_local _ _ HI')) Hc' Hc); [lia| |].
    + rewrite <- Heq, <- Hh'. unfold tracked. set_solver.
    + rewrite <- Hh. unfold tracked. set_solver.
Qed.

End Queue.

(** ** Presets, administrators and preferences of the bot *)

Module Bot.

Local Open Scope string_scope.

(** *** Strings

    A string is the sequence of its code units, each below 256 here; the
    white space and line terminators of [String.prototype.trim] in that
    range are U+0009 to U+000D, the space and the no-break space. *)
Definition is_space (a : ascii) : bool :=
  let n := nat_of_ascii a in
  ((9 <=? n) && (n <=? 13) || (n =? 32) || (n =? 160))%nat.

Fixpoint trim_start (s : string) : string :=
  match s with
  | String c rest => if is_space c then trim_start rest else s
  | EmptyString => EmptyString
  end.

Fixpoint trim_end (s : string) : string :=
  match s with
  | EmptyString => EmptyString
  | String c rest =>
      match trim_end rest with
      | EmptyString => if is_space c then EmptyString else String c EmptyString
      | kept => String c kept
      end
  end.

(** [s.trim()] *)
Definition trim (s : string) : string := trim_end (trim_start s).

(** Truthiness of a string. *)
Definition nonempty (s : string) : bool := negb (String.eqb s "").

(** [x?.trim()] as a condition. *)
Definition has_text (x : option string) : bool :=
  match x with
  | Some s => nonempty (trim s)
  | None => false
  end.

(** *** Voices, models, providers *)

Definition SUPPORTED_OPENAI_VOICES : list string :=
  ["alloy"; "echo"; "fable"; "onyx"; "nova"; "shimmer"; "coral"; "verse";
   "ballad"; "ash"; "sage"; "marin"; "cedar"].

Record preset := {
  llmModel : string;
  description : string;
  ttsVoice : string
}.

Definition MODEL_PRESETS : list (string * preset) :=
  [("economy", {| llmModel := "google/gemini-2.5-flash";
                  description := "Economy (Gemini 2.5 Flash)";
                  ttsVoice := "ballad" |});
   ("balanced", {| llmModel := "openai/gpt-4o-mini";
                   description := "Balanced (GPT-4o Mini)";
                   ttsVoice := "alloy" |});
   ("premium", {| llmModel := "openai/gpt-4o";
                  description := "Premium (GPT-4o)";
                  ttsVoice := "sage" |});
   ("grok", {| llmModel := "x-ai/grok-4-fast";
               description := "Frontier (Grok 4 Fast)";
               ttsVoice := "onyx" |})].

(** The properties that an object literal inherits from
    [Object.prototype]. *)
Definition Object_prototype : list string :=
  ["constructor"; "__defineGetter__"; "__defineSetter__"; "hasOwnProperty";
   "__lookupGetter__"; "__lookupSetter__"; "isPrototypeOf";
   "propertyIsEnumerable"; "toString"; "valueOf"; "__proto__";
   "toLocaleString"].

(** [name in MODEL_PRESETS]: own and inherited properties. *)
Definition in_MODEL_PRESETS (name : string) : bool :=
  bool_decide (name ∈ MODEL_PRESETS.*1) || bool_decide (name ∈ Object_prototype).

(** [MODEL_PRESETS[name]] as far as the code reads it: the preset of an own
    key; an inherited property is a function or the prototype, whose
    [llmModel] and [description] are [undefined]. *)
Definition preset_of (name : string) : option preset :=
  (list_to_map MODEL_PRESETS : gmap string preset) !! name.

(** [DiscordBot.normalizeVoicePreset] *)
Definition normalizeVoicePreset (value : option string) : string :=
  match value with
  | Some v =>
      if nonempty v && bool_decide (v ∈ SUPPORTED_OPENAI_VOICES) then v else "alloy"
  | None => "alloy"
  end.

(** [DiscordBot.normalizeModelPreset] *)
Definition normalizeModelPreset (value : option string) : string :=
  match value with
  | Some v => if nonempty v && in_MODEL_PRESETS v then v else "balanced"
  | None => "balanced"
  end.

#[global] Instance provider_eq_dec : EqDecision Voice.TTSProvider.
Proof. solve_decision. Defined.

Definition provider_name (p : Voice.TTSProvider) : string :=
  match p with
  | Voice.openai => "openai"
  | Voice.elevenlabs => "elevenlabs"
  | Voice.playht => "playht"
  | Voice.coqui => "coqui"
  | Voice.azure => "azure"
  | Voice.google => "google"
  end.

Definition allowed : list Voice.TTSProvider :=
  [Voice.openai; Voice.elevenlabs; Voice.playht; Voice.coqui; Voice.azure;
   Voice.google].

(** [DiscordBot.normalizeTtsProvider]: the provider whose name the value is,
    or else OpenAI. *)
Definition normalizeTtsProvider (value : option string) : Voice.TTSProvider :=
  match value with
  | Some v =>
      if nonempty v then
        match list_find (fun p => provider_name p = v) allowed with
        | Some (_, p) => p
        | None => Voice.openai
        end
      else Voice.openai
  | None => Voice.openai
  end.

(** [process.env], as far as these functions read it. *)
Record process_env := {
  OPENAI_TTS_VOICE : option string;
  GOOGLE_TTS_VOICE : option string;
  DISCORD_ADMIN_IDS : option string
}.

Section Env.

Variable env : process_env.

(** [DiscordBot.resolveVoicePresetForProvider] *)
Definition resolveVoicePresetForProvider (provider : Voice.TTSProvider)
  (preferred : option string) : option string :=
  if has_text preferred then
    match provider with
    | Voice.openai => Some (normalizeVoicePreset preferred)
    | _ => preferred
    end
  else
    match provider with
    | Voice.openai => Some (normalizeVoicePreset (OPENAI_TTS_VOICE env))
    | Voice.google => Some (Locale.or_else (GOOGLE_TTS_VOICE env) "en-US-Neural2-F")
    | _ => None
    end.

(** [DiscordBot.getInitialVoicePreset] *)
Definition getInitialVoicePreset (provider : Voice.TTSProvider)
  (preferred : option string) : string :=
  let resolved := resolveVoicePresetForProvider provider preferred in
  if Voice.truthy resolved then default "" resolved
  else if has_text preferred then default "" preferred
  else match provider with
       | Voice.openai => normalizeVoicePreset None
       | _ => "alloy"
       end.

End Env.

(** *** Administrators *)

Definition comma : ascii := ","%char.

(** The identifiers of [DISCORD_ADMIN_IDS], as the constructor reads them:
    split at the commas, trimmed, the empty ones left out. *)
Definition admin_ids (env : process_env) : list string :=
  filter (fun id => nonempty id = true)
    (map trim (Locale.split comma (default "" (DISCORD_ADMIN_IDS env)))).

(** [this.adminUserIds] *)
Definition adminUserIds (env : process_env) : gset string :=
  list_to_set (admin_ids env).

(** [DiscordBot.isAdmin] *)
Definition isAdmin (admins : gset string) (userId : string) : bool :=
  bool_decide (size admins = 0%nat) || bool_decide (userId ∈ admins).

(** *** Voice preferences *)

Inductive voice_mode := speech | ai.

Record VoicePreference := {
  mode : voice_mode;
  language : option string;
  lastVoiceChannelId : option string;
  lastGuildId : option string
}.

(** [a ?? b] *)
Definition coalesce {A} (a b : option A) : option A :=
  match a with Some _ => a | None => b end.

(** [DiscordBot.updateVoicePreference]; [mode] is a required field, so the
    stored mode is the one of the argument. *)
Definition updateVoicePreference (userId : string) (preference : VoicePreference)
  (prefs : gmap string VoicePreference) : gmap string VoicePreference :=
  let current := prefs !! userId in
  <[userId := {|
      language := coalesce (language preference) (current ≫= language);
      mode := mode preference;
      lastVoiceChannelId :=
        coalesce (lastVoiceChannelId preference) (current ≫= lastVoiceChannelId);
      lastGuildId := coalesce (lastGuildId preference) (current ≫= lastGuildId)
    |}]> prefs.

(** [DiscordBot.getLanguagePreference] *)
Definition getLanguagePreference (userId : string)
  (prefs : gmap string VoicePreference) : option string :=
  prefs !! userId ≫= language.

(** *** Commands that change the settings *)

(** The fields of the bot that the commands read and write.  Of the AI
    service the model records whether it has [setDefaultModel] and the
    argument of the last call, [None] inside standing for [undefined]. *)
Record bot := {
  currentTtsProvider : Voice.TTSProvider;
  voicePreset : string;
  voiceService : Voice.VoiceService;
  currentModelPreset : string;
  hasSetDefaultModel : bool;
  setDefaultModel : option (option string);
  runtimeSettings : Settings.object
}.

Definition with_settings (f : Settings.object -> Settings.object) (b : bot) : bot :=
  {| currentTtsProvider := currentTtsProvider b; voicePreset := voicePreset b;
     voiceService := voiceService b; currentModelPreset := currentModelPreset b;
     hasSetDefaultModel := hasSetDefaultModel b;
     setDefaultModel := setDefaultModel b;
     runtimeSettings := f (runtimeSettings b) |}.

Definition with_voice (voice : string) (b : bot) : bot :=
  {| currentTtsProvider := currentTtsProvider b; voicePreset := voice;
     voiceService := Voice.setVoice voice (voiceService b);
     currentModelPreset := currentModelPreset b;
     hasSetDefaultModel := hasSetDefaultModel b;
     setDefaultModel := setDefaultModel b;
     runtimeSettings := runtimeSettings b |}.

Definition with_provider (p : Voice.TTSProvider) (b : bot) : bot :=
  {| currentTtsProvider := p; voicePreset := voicePreset b;
     voiceService := Voice.setProvider p (voiceService b);
     currentModelPreset := currentModelPreset b;
     hasSetDefaultModel := hasSetDefaultModel b;
     setDefaultModel := setDefaultModel b;
     runtimeSettings := runtimeSettings b |}.

(** [DiscordBot.applyModelPreset] *)
Definition applyModelPreset (name : string) (b : bot) : bot :=
  let config := preset_of name in
  {| currentTtsProvider := currentTtsProvider b; voicePreset := voicePreset b;
     voiceService := voiceService b; currentModelPreset := name;
     hasSetDefaultModel := hasSetDefaultModel b;
     setDefaultModel :=
       if hasSetDefaultModel b then Some (llmModel <$> config)
       else setDefaultModel b;
     runtimeSettings := runtimeSettings b |}.

(** A template literal prints [undefined] for a missing value. *)
Definition shown (x : option string) : string := default "undefined" x.

Section Commands.

Variable env : process_env.
Variable JSON_stringify : Settings.object -> string.

(** [DiscordBot.persistSettings]: a failed write is logged, not thrown. *)
Definition persistSettings (io : Settings.write_outcome) (b : bot)
  (d : Settings.disk) : Settings.disk :=
  snd (Settings.saveRuntimeSettings JSON_stringify io (runtimeSettings b) d).

(** [DiscordBot.handleModelPresetCommand] *)
Definition handleModelPresetCommand (io : Settings.write_outcome) (name : string)
  (b : bot) (d : Settings.disk) : string * bot * Settings.disk :=
  let normalized := normalizeModelPreset (Some name) in
  let b := applyModelPreset normalized b in
  let b := with_settings (insert "chatModelPreset" (Settings.JString normalized)) b in
  let d := persistSettings io b d in
  let config := preset_of normalized in
  ("Switched to **" ++ shown (description <$> config) ++ "** (LLM: "
   ++ shown (llmModel <$> config) ++ ").", b, d).

(** The providers that the engine command accepts. *)
Definition switchable (p : Voice.TTSProvider) : bool :=
  match p with
  | Voice.openai | Voice.elevenlabs | Voice.google => true
  | _ => false
  end.

(** [DiscordBot.handleTtsEngineCommand] *)
Definition handleTtsEngineCommand (io : Settings.write_outcome) (provider : string)
  (voice : option string) (b : bot) (d : Settings.disk)
  : string * bot * Settings.disk :=
  let normalizedProvider := normalizeTtsProvider (Some provider) in
  if negb (switchable normalizedProvider)
  then ("Support for " ++ provider_name normalizedProvider ++ " is coming soon.", b, d)
  else
    let candidateVoice := trim <$> voice in
    let candidateVoice :=
      if negb (Voice.truthy candidateVoice)
         && bool_decide (normalizedProvider = currentTtsProvider b)
      then Some (voicePreset b)
      else candidateVoice in
    let nextVoice := resolveVoicePresetForProvider env normalizedProvider candidateVoice in
    let nextVoice :=
      if negb (Voice.truthy nextVoice) && Voice.truthy candidateVoice
      then candidateVoice
      else nextVoice in
    match nextVoice with
    | Some (String c v) =>
        let b := with_provider normalizedProvider b in
        let b := with_voice (String c v) b in
        let b :=
          with_settings
            (insert "ttsProvider" (Settings.JString (provider_name normalizedProvider))) b in
        let b := with_settings (insert "ttsVoice" (Settings.JString (voicePreset b))) b in
        let d := persistSettings io b d in
        ("TTS provider set to **" ++ provider_name normalizedProvider
         ++ "** using voice **" ++ voicePreset b ++ "**.", b, d)
    | Some EmptyString | None =>
        ("Please provide a voice ID when switching to this provider.", b, d)
    end.

(** The command switched to provider [p] with voice [v]: the reply says so,
    the bot, the voice service and the settings hold both, the settings were
    handed to [saveRuntimeSettings], and nothing else changed. *)
Definition switched_to (io : Settings.write_outcome) (p : Voice.TTSProvider) (v : string)
  (b : bot) (d : Settings.disk) (out : string * bot * Settings.disk) : Prop :=
  let '(reply, b', d') := out in
  reply = "TTS provider set to **" ++ provider_name p ++ "** using voice **" ++ v ++ "**."
  /\ currentTtsProvider b' = p /\ voicePreset b' = v
  /\ voiceService b' = Voice.setVoice v (Voice.setProvider p (voiceService b))
  /\ runtimeSettings b'
     = <["ttsVoice" := Settings.JString v]>
         (<["ttsProvider" := Settings.JString (provider_name p)]> (runtimeSettings b))
  /\ currentModelPreset b' = currentModelPreset b
  /\ hasSetDefaultModel b' = hasSetDefaultModel b
  /\ setDefaultModel b' = setDefaultModel b
  /\ d' = snd (Settings.saveRuntimeSettings JSON_stringify io (runtimeSettings b') d).

(** [DiscordBot.handleVoicePresetCommand] *)
Definition handleVoicePresetCommand (io : Settings.write_outcome) (voice : string)
  (normalizeForOpenAi : option bool) (b : bot) (d : Settings.disk)
  : string * bot * Settings.disk :=
  let shouldNormalize :=
    default (bool_decide (currentTtsProvider b = Voice.openai)) normalizeForOpenAi in
  let b := with_voice (if shouldNormalize then normalizeVoicePreset (Some voice)
                       else voice) b in
  let b := with_settings (insert "ttsVoice" (Settings.JString (voicePreset b))) b in
  let d := persistSettings io b d in
  ("Updated TTS voice to **" ++ voicePreset b ++ "**.", b, d).

(** A command with its arguments and the fate of its write to disk. *)
Inductive command :=
| ModelPreset (name : string)
| TtsEngine (provider : string) (voice : option string)
| VoicePreset (voice : string) (normalizeForOpenAi : option bool).

Definition execute (b : bot * Settings.disk)
  (c : command * Settings.write_outcome) : bot * Settings.disk :=
  match c with
  | (ModelPreset name, io) =>
      let '(_, b', d') := handleModelPresetCommand io name (fst b) (snd b) in (b', d')
  | (TtsEngine provider voice, io) =>
      let '(_, b', d') := handleTtsEngineCommand io provider voice (fst b) (snd b) in
      (b', d')
  | (VoicePreset voice flag, io) =>
      let '(_, b', d') := handleVoicePresetCommand io voice flag (fst b) (snd b) in
      (b', d')
  end.

End Commands.

(** *** The speak command *)

Record channel := { channel_id : string; channel_name : string }.




Section Speak.

Variable net : Voice.network.
Variable venv : Voice.process_env.


End Speak.

(** *** Samples and invariants *)

(** An environment with two administrators. *)
Definition staff : process_env :=
  {| OPENAI_TTS_VOICE := None; GOOGLE_TTS_VOICE := None;
     DISCORD_ADMIN_IDS := Some " 1001 ,, 1002,   " |}.

(** The voice service uses the provider and the voice that the bot
    records. *)
Definition in_sync (b : bot) : Prop :=
  Voice.provider (voiceService b) = currentTtsProvider b
  /\ Voice.voiceName (voiceService b) = voicePreset b.

(** What the commands leave alone in the voice service. *)
Definition same_credentials (b b' : bot) : Prop :=
  Voice.enabled (voiceService b') = Voice.enabled (voiceService b)
  /\ Voice.openaiClient (voiceService b') = Voice.openaiClient (voiceService b)
  /\ Voice.elevenLabsApiKey (voiceService b') = Voice.elevenLabsApiKey (voiceService b)
  /\ Voice.googleApiKey (voiceService b') = Voice.googleApiKey (voiceService b)
  /\ Voice.audioFormat (voiceService b') = Voice.audioFormat (voiceService b)
  /\ Voice.googleSampleRate (voiceService b') = Voice.googleSampleRate (voiceService b).

(** An environment without settings. *)
Definition quiet_env : process_env :=
  {| OPENAI_TTS_VOICE := None; GOOGLE_TTS_VOICE := None; DISCORD_ADMIN_IDS := None |}.

(** A bot set to ElevenLabs. *)
Definition demo_bot : bot := {|
  currentTtsProvider := Voice.elevenlabs; voicePreset := "Rachel";
  voiceService := Voice.demo_service;
  currentModelPreset := "balanced";
  hasSetDefaultModel := true; setDefaultModel := None;
  runtimeSettings := Settings.DEFAULT_SETTINGS
|}.

(** Four commands; the write of the second fails. *)
Definition demo_commands : list (command * Settings.write_outcome) :=
  [(TtsEngine "google" None, Settings.Written);
   (VoicePreset "nova" None, Settings.WriteFailed (Settings.FsError "EACCES") None);
   (ModelPreset "toString", Settings.Written);
   (TtsEngine "espeak" (Some " shimmer "), Settings.Written)].

(** *** Facts *)

Lemma nonempty_true (s : string) : nonempty s = true <-> s <> "".
Proof.
  unfold nonempty. rewrite negb_true_iff. split.
  - intros H ->. discriminate.
  - intros H. apply String.eqb_neq, H.
Qed.

Lemma trim_start_head (s : string) :
  match trim_start s with
  | String c _ => is_space c = false
  | EmptyString => True
  end.
Proof.
  induction s as [|c s IH]; [exact I|]. cbn [trim_start].
  destruct (is_space c) eqn:Hc; [exact IH|exact Hc].
Qed.

Lemma trim_end_head (c : ascii) (s : string) :
  is_space c = false -> exists kept, trim_end (String c s) = String c kept.
Proof.
  intros Hc. cbn [trim_end]. destruct (trim_end s); rewrite ?Hc; eauto.
Qed.

Lemma trim_end_idem (s : string) : trim_end (trim_end s) = trim_end s.
Proof.
  induction s as [|c s IH]; [reflexivity|]. cbn [trim_end].
  destruct (trim_end s) as [|c' kept] eqn:Hs.
  - destruct (is_space c) eqn:Hc; [reflexivity|]. cbn [trim_end]. rewrite Hc. reflexivity.
  - change (trim_end (String c (String c' kept)))
      with (match trim_end (String c' kept) with
            | EmptyString => if is_space c then EmptyString else String c EmptyString
            | kept0 => String c kept0
            end).
    rewrite IH. reflexivity.
Qed.

Lemma trim_idem (s : string) : trim (trim s) = trim s.
Proof.
  unfold trim. pose proof (trim_start_head s) as Hh.
  destruct (trim_start s) as [|c rest]; [reflexivity|].
  destruct (trim_end_head c rest Hh) as [kept Hk]. rewrite Hk.
  cbn [trim_start]. rewrite Hh. rewrite <- Hk. apply trim_end_idem.
Qed.

Lemma supported_nonempty (s : string) :
  s ∈ SUPPORTED_OPENAI_VOICES -> nonempty s = true.
Proof.
  intros H. unfold SUPPORTED_OPENAI_VOICES in H.
  repeat (apply elem_of_cons in H as [->|H]; [reflexivity|]).
  apply elem_of_nil in H. contradiction.
Qed.

Lemma normalizeVoicePreset_in (value : option string) :
  normalizeVoicePreset value ∈ SUPPORTED_OPENAI_VOICES.
Proof.
  assert (Halloy : "alloy" ∈ SUPPORTED_OPENAI_VOICES) by apply list_elem_of_here.
  destruct value as [v|]; cbn; [|exact Halloy].
  destruct (nonempty v && bool_decide (v ∈ SUPPORTED_OPENAI_VOICES)) eqn:H;
    [|exact Halloy].
  apply andb_prop in H as [_ H]. apply bool_decide_eq_true in H. exact H.
Qed.

Lemma normalizeVoicePreset_id (s : string) :
  s ∈ SUPPORTED_OPENAI_VOICES -> normalizeVoicePreset (Some s) = s.
Proof.
  intros H. unfold normalizeVoicePreset.
  rewrite (supported_nonempty s H), bool_decide_true by exact H. reflexivity.
Qed.

(** X20: whatever is asked for, the voice is one of the thirteen OpenAI voices: a
    supported voice is kept; every value that is not one of them, a missing
    one, the empty string, a name in another case or with spaces, becomes
    [alloy]; normalizing twice changes nothing. *)
Theorem normalizeVoicePreset_supported (value : option string) :
  normalizeVoicePreset value ∈ SUPPORTED_OPENAI_VOICES
  /\ (forall s, s ∈ SUPPORTED_OPENAI_VOICES -> normalizeVoicePreset (Some s) = s)
  /\ ((forall s, s ∈ SUPPORTED_OPENAI_VOICES -> value <> Some s) ->
      normalizeVoicePreset value = "alloy")
  /\ normalizeVoicePreset None = "alloy"
  /\ normalizeVoicePreset (Some (normalizeVoicePreset value))
     = normalizeVoicePreset value.
Proof.
  split; [apply normalizeVoicePreset_in|]. split; [apply normalizeVoicePreset_id|].
  split; [|split; [reflexivity|apply normalizeVoicePreset_id, normalizeVoicePreset_in]].
  intros Hno. destruct value as [s|]; [|reflexivity]. unfold normalizeVoicePreset.
  destruct (bool_decide (s ∈ SUPPORTED_OPENAI_VOICES)) eqn:Hs.
  - apply bool_decide_eq_true in Hs. exfalso. exact (Hno s Hs eq_refl).
  - rewrite andb_false_r. reflexivity.
Qed.

Lemma preset_of_own (name : string) :
  name ∈ MODEL_PRESETS.*1 -> is_Some (preset_of name).
Proof.
  intros H. unfold MODEL_PRESETS in H. cbn in H.
  repeat (apply elem_of_cons in H as [->|H]; [eexists; reflexivity|]).
  apply elem_of_nil in H. contradiction.
Qed.

Lemma preset_of_inherited (name : string) :
  name ∈ Object_prototype -> preset_of name = None /\ nonempty name = true.
Proof.
  intros H. unfold Object_prototype in H.
  repeat (apply elem_of_cons in H as [->|H]; [split; reflexivity|]).
  apply elem_of_nil in H. contradiction.
Qed.

Lemma normalizeModelPreset_own (name : string) :
  name ∈ MODEL_PRESETS.*1 ->
  normalizeModelPreset (Some name) = name /\ is_Some (preset_of name).
Proof.
  intros H. split; [|apply preset_of_own, H].
  destruct (preset_of_own name H) as [p Hp].
  unfold normalizeModelPreset, in_MODEL_PRESETS.
  rewrite (bool_decide_true _ H). cbn [orb].
  destruct (nonempty name) eqn:Hn; [reflexivity|].
  apply negb_false_iff, String.eqb_eq in Hn. subst name. discriminate Hp.
Qed.

Lemma normalizeModelPreset_inherited (name : string) :
  name ∈ Object_prototype ->
  normalizeModelPreset (Some name) = name /\ preset_of name = None.
Proof.
  intros H. destruct (preset_of_inherited name H) as [Hp Hn].
  split; [|exact Hp]. unfold normalizeModelPreset, in_MODEL_PRESETS.
  rewrite Hn, (bool_decide_true _ H), orb_true_r. reflexivity.
Qed.

Lemma normalizeModelPreset_range (value : option string) :
  normalizeModelPreset value ∈ MODEL_PRESETS.*1
  \/ (value = Some (normalizeModelPreset value)
      /\ normalizeModelPreset value ∈ Object_prototype).
Proof.
  assert (Hb : "balanced" ∈ MODEL_PRESETS.*1).
  { cbn. rewrite !elem_of_cons. auto. }
  destruct value as [v|]; cbn [normalizeModelPreset]; [|left; exact Hb].
  destruct (nonempty v && in_MODEL_PRESETS v) eqn:H; [|left; exact Hb].
  apply andb_prop in H as [_ H]. unfold in_MODEL_PRESETS in H.
  apply orb_prop in H as [H|H]; apply bool_decide_eq_true in H; auto.
Qed.

Lemma normalizeModelPreset_other (value : option string) :
  (forall name, name ∈ MODEL_PRESETS.*1 -> value <> Some name) ->
  (forall name, name ∈ Object_prototype -> value <> Some name) ->
  normalizeModelPreset value = "balanced".
Proof.
  intros Hown Hinh. destruct value as [v|]; [|reflexivity].
  unfold normalizeModelPreset, in_MODEL_PRESETS.
  rewrite bool_decide_false by (intros H; exact (Hown v H eq_refl)).
  rewrite bool_decide_false by (intros H; exact (Hinh v H eq_refl)).
  rewrite andb_false_r. reflexivity.
Qed.

(** X21: the model preset is checked with [in], which also sees what an object
    inherits: a name of one of the four presets is kept; one of the twelve
    names of [Object.prototype], [toString] for one, is kept as well although
    it is no preset; every other value, also a missing one, becomes
    [balanced]. *)
Theorem normalizeModelPreset_cases (value : option string) :
  (forall name, name ∈ MODEL_PRESETS.*1 ->
     normalizeModelPreset (Some name) = name /\ is_Some (preset_of name))
  /\ (forall name, name ∈ Object_prototype ->
        normalizeModelPreset (Some name) = name /\ preset_of name = None)
  /\ ((forall name, name ∈ MODEL_PRESETS.*1 -> value <> Some name) ->
      (forall name, name ∈ Object_prototype -> value <> Some name) ->
      normalizeModelPreset value = "balanced")
  /\ normalizeModelPreset None = "balanced"
  /\ (normalizeModelPreset value ∈ MODEL_PRESETS.*1
      \/ (value = Some (normalizeModelPreset value)
          /\ normalizeModelPreset value ∈ Object_prototype)).
Proof.
  split; [|split; [|split; [|split]]].
  - apply normalizeModelPreset_own.
  - apply normalizeModelPreset_inherited.
  - apply normalizeModelPreset_other.
  - reflexivity.
  - apply normalizeModelPreset_range.
Qed.

Lemma has_text_nonempty (x : option string) :
  has_text x = true -> exists c s, x = Some (String c s).
Proof.
  destruct x as [[|c s]|]; cbn; try discriminate. eauto.
Qed.

Section EnvFacts.

Variable env : process_env.

Lemma or_else_nonempty (x : option string) (c : ascii) (s : string) :
  Locale.or_else x (String c s) <> "".
Proof. destruct x as [[|c0 s0]|]; discriminate. Qed.

(** X22: the voice that the bot starts with is never empty; for OpenAI it is one
    of the supported voices, whatever was persisted or configured; for
    another provider a persisted voice that is not blank is used as it is,
    with its spaces. *)
Theorem getInitialVoicePreset_spec (provider : Voice.TTSProvider)
  (preferred : option string) :
  getInitialVoicePreset env provider preferred <> ""
  /\ (provider = Voice.openai ->
      getInitialVoicePreset env provider preferred ∈ SUPPORTED_OPENAI_VOICES)
  /\ (provider <> Voice.openai -> has_text preferred = true ->
      Some (getInitialVoicePreset env provider preferred) = preferred).
Proof.
  assert (Hne : forall v, normalizeVoicePreset v <> "").
  { intros v H. pose proof (supported_nonempty _ (normalizeVoicePreset_in v)) as Hs.
    rewrite H in Hs. discriminate. }
  assert (Htruthy : forall v, Voice.truthy (Some (normalizeVoicePreset v)) = true).
  { intros v. specialize (Hne v). cbn. destruct (normalizeVoicePreset v);
      [contradiction|reflexivity]. }
  unfold getInitialVoicePreset, resolveVoicePresetForProvider.
  destruct (has_text preferred) eqn:Ht.
  - destruct (has_text_nonempty preferred Ht) as (c & s & ->).
    destruct provider; rewrite ?Htruthy; cbn [Voice.truthy default];
      (split; [first [apply Hne | discriminate]|]);
      (split; [intros H; first [apply normalizeVoicePreset_in | discriminate H]|]);
      intros H _; first [contradiction | reflexivity].
  - destruct provider; rewrite ?Htruthy; cbn [Voice.truthy default];
      try (destruct (Locale.or_else (GOOGLE_TTS_VOICE env) "en-US-Neural2-F") eqn:Hg;
           [exfalso; eapply or_else_nonempty, Hg|]);
      cbn [Voice.truthy default];
      (split; [first [apply Hne | discriminate]|]);
      (split; [intros H; first [apply normalizeVoicePreset_in | discriminate H]|]);
      intros _ H; discriminate H.
Qed.

End EnvFacts.

Lemma admin_ids_elem (env : process_env) (u : string) :
  u ∈ admin_ids env
  <-> u <> ""
      /\ exists seg, seg ∈ Locale.split comma (default "" (DISCORD_ADMIN_IDS env))
                     /\ trim seg = u.
Proof.
  unfold admin_ids. rewrite list_elem_of_filter, nonempty_true.
  rewrite list_elem_of_fmap. split.
  - intros [Hne (seg & -> & Hin)]. eauto.
  - intros [Hne (seg & Hin & <-)]. eauto.
Qed.

Lemma admin_ids_nil (env : process_env) :
  admin_ids env = []
  <-> forall seg, seg ∈ Locale.split comma (default "" (DISCORD_ADMIN_IDS env)) ->
                  trim seg = "".
Proof.
  split.
  - intros Hnil seg Hin. destruct (trim seg) as [|c s] eqn:Ht; [reflexivity|].
    exfalso. assert (H : String c s ∈ admin_ids env).
    { apply admin_ids_elem. split; [discriminate|]. eauto. }
    rewrite Hnil in H. apply elem_of_nil in H. exact H.
  - intros Hall. destruct (admin_ids env) as [|u l] eqn:Hids; [reflexivity|].
    exfalso. assert (H : u ∈ admin_ids env) by (rewrite Hids; apply list_elem_of_here).
    apply admin_ids_elem in H as [Hne (seg & Hin & Ht)].
    apply Hne. rewrite <- Ht. apply Hall, Hin.
Qed.

(** X23: who counts as an administrator: everybody, when [DISCORD_ADMIN_IDS] is
    unset, empty or holds nothing but commas and white space; otherwise
    exactly the users whose identifier is one of the comma-separated entries,
    trimmed. *)
Theorem isAdmin_spec (env : process_env) (userId : string) :
  (isAdmin (adminUserIds env) userId = true
   <-> (forall seg, seg ∈ Locale.split comma (default "" (DISCORD_ADMIN_IDS env)) ->
                    trim seg = "")
       \/ (userId <> ""
           /\ exists seg,
                seg ∈ Locale.split comma (default "" (DISCORD_ADMIN_IDS env))
                /\ trim seg = userId))
  /\ (DISCORD_ADMIN_IDS env = None -> isAdmin (adminUserIds env) userId = true).
Proof.
  assert (Hiff : isAdmin (adminUserIds env) userId = true
                 <-> admin_ids env = [] \/ userId ∈ admin_ids env).
  { unfold isAdmin, adminUserIds. rewrite orb_true_iff, !bool_decide_eq_true.
    rewrite elem_of_list_to_set. apply or_iff_compat_r.
    rewrite size_empty_iff. split.
    - intros H. destruct (admin_ids env) as [|u l]; [reflexivity|].
      exfalso. apply (proj1 (elem_of_equiv_empty _) H u).
      apply elem_of_list_to_set, list_elem_of_here.
    - intros ->. reflexivity. }
  split.
  - rewrite Hiff, admin_ids_nil, admin_ids_elem. reflexivity.
  - intros Hnone. apply Hiff. left. unfold admin_ids. rewrite Hnone. reflexivity.
Qed.

Example staff_ids :
  admin_ids staff = ["1001"; "1002"]
  /\ isAdmin (adminUserIds staff) "1002" = true
  /\ isAdmin (adminUserIds staff) "1003" = false
  /\ isAdmin (adminUserIds staff) "" = false.
Proof. repeat split; vm_compute; reflexivity. Qed.

Lemma language_after_update (u' u : string) (p : VoicePreference)
  (prefs : gmap string VoicePreference) :
  getLanguagePreference u' (updateVoicePreference u p prefs)
  = if decide (u' = u)
    then coalesce (language p) (getLanguagePreference u prefs)
    else getLanguagePreference u' prefs.
Proof.
  unfold getLanguagePreference, updateVoicePreference.
  destruct (decide (u' = u)) as [->|Hne].
  - rewrite lookup_insert_eq. reflexivity.
  - rewrite lookup_insert_ne by congruence. reflexivity.
Qed.

(** X24: an update replaces the entry of its user and of nobody else: the mode
    is the one of the update, and language, channel and guild are those of
    the update where it has them and the stored ones where it has not; the
    entries of the other users stay as they are, through any number of
    updates; and a language, once set, stays set. *)
Theorem language_kept (updates : list (string * VoicePreference))
  (prefs : gmap string VoicePreference) (u : string) :
  (forall p,
     updateVoicePreference u p prefs !! u
     = Some {| mode := mode p;
               language := match language p with
                           | Some l => Some l
                           | None => prefs !! u ≫= language
                           end;
               lastVoiceChannelId := match lastVoiceChannelId p with
                                     | Some c => Some c
                                     | None => prefs !! u ≫= lastVoiceChannelId
                                     end;
               lastGuildId := match lastGuildId p with
                              | Some g => Some g
                              | None => prefs !! u ≫= lastGuildId
                              end |})
  /\ (forall u' p, u' <> u -> updateVoicePreference u p prefs !! u' = prefs !! u')
  /\ (Forall (fun up => fst up <> u) updates ->
      foldl (fun m up => updateVoicePreference (fst up) (snd up) m) prefs updates !! u
      = prefs !! u)
  /\ (is_Some (getLanguagePreference u prefs) ->
      is_Some (getLanguagePreference u
                 (foldl (fun m up => updateVoicePreference (fst up) (snd up) m)
                    prefs updates))).
Proof.
  split; [|split; [|split]].
  - intros p. unfold updateVoicePreference. rewrite lookup_insert_eq.
    unfold coalesce. destruct (language p), (lastVoiceChannelId p), (lastGuildId p);
      reflexivity.
  - intros u' p Hne. unfold updateVoicePreference.
    apply lookup_insert_ne. congruence.
  - revert prefs. induction updates as [|[u0 p0] updates IH]; intros prefs H;
      [reflexivity|].
    apply Forall_cons in H as [Hne H]. cbn [foldl fst snd]. rewrite IH by exact H.
    unfold updateVoicePreference. apply lookup_insert_ne. exact Hne.
  - revert prefs. induction updates as [|[u0 p0] updates IH]; intros prefs H; [exact H|].
    cbn [foldl fst snd]. apply IH. rewrite language_after_update.
    destruct (decide (u = u0)) as [->|_]; [|exact H].
    destruct (language p0); [eauto|exact H].
Qed.

Section CommandFacts.

Variable env : process_env.
Variable JSON_stringify : Settings.object -> string.

Lemma normalizeVoicePreset_text (x : option string) :
  exists c v, normalizeVoicePreset x = String c v.
Proof.
  pose proof (supported_nonempty _ (normalizeVoicePreset_in x)) as H.
  destruct (normalizeVoicePreset x) as [|c v]; [discriminate H|eauto].
Qed.

Lemma engine_switch (io : Settings.write_outcome) (p : Voice.TTSProvider)
  (c : ascii) (v : string) (b : bot) (d : Settings.disk) :
  switched_to JSON_stringify io p (String c v) b d
    (let b := with_provider p b in
     let b := with_voice (String c v) b in
     let b := with_settings
                (insert "ttsProvider" (Settings.JString (provider_name p))) b in
     let b := with_settings (insert "ttsVoice" (Settings.JString (voicePreset b))) b in
     let d := persistSettings JSON_stringify io b d in
     ("TTS provider set to **" ++ provider_name p ++ "** using voice **"
      ++ voicePreset b ++ "**.", b, d)).
Proof. cbv zeta. repeat split. Qed.

(** X25: the outcome of the engine command, case by case.  A name that is no
    provider counts as OpenAI.  PlayHT, Coqui and Azure are refused and
    nothing changes.  With a voice that has text the command switches: to
    the trimmed voice, for OpenAI normalized.  Without one, OpenAI and Google
    switch as well, to the current voice when the provider stays the same
    and that voice has text, and to the configured or default voice
    otherwise; ElevenLabs keeps a current voice that is not empty when it is
    the provider already, and in every other case the command asks for a
    voice and nothing changes. *)
Theorem handleTtsEngineCommand_spec (io : Settings.write_outcome)
  (provider : string) (voice : option string) (b : bot) (d : Settings.disk) :
  let p := normalizeTtsProvider (Some provider) in
  let out := handleTtsEngineCommand env JSON_stringify io provider voice b d in
  let kept := bool_decide (p = currentTtsProvider b) in
  ((forall q, provider <> provider_name q) -> p = Voice.openai)
  /\ (switchable p = false ->
      out = ("Support for " ++ provider_name p ++ " is coming soon.", b, d))
  /\ (forall v, voice = Some v -> trim v <> "" -> switchable p = true ->
        switched_to JSON_stringify io p
          (if decide (p = Voice.openai) then normalizeVoicePreset (Some (trim v))
           else trim v) b d out)
  /\ (has_text voice = false -> p = Voice.openai ->
      switched_to JSON_stringify io p
        (normalizeVoicePreset
           (if kept && has_text (Some (voicePreset b)) then Some (voicePreset b)
            else OPENAI_TTS_VOICE env)) b d out)
  /\ (has_text voice = false -> p = Voice.google ->
      switched_to JSON_stringify io p
        (if kept && has_text (Some (voicePreset b)) then voicePreset b
         else Locale.or_else (GOOGLE_TTS_VOICE env) "en-US-Neural2-F") b d out)
  /\ (has_text voice = false -> p = Voice.elevenlabs ->
      if kept && nonempty (voicePreset b)
      then switched_to JSON_stringify io p (voicePreset b) b d out
      else out = ("Please provide a voice ID when switching to this provider.", b, d)).
Proof.
  cbv zeta. set (p := normalizeTtsProvider (Some provider)).
  split.
  { intros Hq. subst p. unfold normalizeTtsProvider.
    destruct (nonempty provider); [|reflexivity].
    destruct (list_find _ allowed) as [[i q]|] eqn:Hf; [|reflexivity].
    apply list_find_Some in Hf as (_ & Hname & _). exfalso. apply (Hq q).
    symmetry. exact Hname. }
  split.
  { intros Hsw. unfold handleTtsEngineCommand. fold p. rewrite Hsw. reflexivity. }
  assert (Hcand : has_text voice = false -> Voice.truthy (trim <$> voice) = false).
  { destruct voice as [v|]; cbn; [|reflexivity]. unfold nonempty.
    destruct (trim v); [reflexivity|discriminate]. }
  split.
  { intros v -> Hv Hsw. unfold handleTtsEngineCommand. fold p. rewrite Hsw.
    cbn [negb fmap option_fmap option_map].
    destruct (trim v) as [|c0 v0] eqn:Ht; [contradiction|].
    cbn [Voice.truthy negb andb].
    assert (Htext : has_text (Some (String c0 v0)) = true).
    { cbn [has_text]. rewrite <- Ht, trim_idem, Ht. reflexivity. }
    unfold resolveVoicePresetForProvider. rewrite Htext.
    destruct (decide (p = Voice.openai)) as [Hp|Hp].
    - rewrite Hp.
      destruct (normalizeVoicePreset_text (Some (String c0 v0))) as (c1 & v1 & Hn).
      rewrite Hn. cbn [Voice.truthy negb andb]. apply engine_switch.
    - destruct p; try contradiction; try discriminate Hsw;
        cbn [Voice.truthy negb andb]; apply engine_switch. }
  split.
  { intros Hv Hp. unfold handleTtsEngineCommand. fold p. rewrite Hp.
    cbn [switchable negb]. rewrite (Hcand Hv). cbn [negb andb].
    unfold resolveVoicePresetForProvider.
    destruct (bool_decide (Voice.openai = currentTtsProvider b)); cbn [andb].
    - destruct (has_text (Some (voicePreset b))).
      + destruct (normalizeVoicePreset_text (Some (voicePreset b))) as (c1 & v1 & Hn).
        rewrite Hn. cbn [Voice.truthy negb andb]. apply engine_switch.
      + destruct (normalizeVoicePreset_text (OPENAI_TTS_VOICE env)) as (c1 & v1 & Hn).
        rewrite Hn. cbn [Voice.truthy negb andb]. apply engine_switch.
    - assert (Ht : has_text (trim <$> voice) = false).
      { destruct voice as [v|]; [|reflexivity]. cbn [fmap option_fmap option_map has_text].
        rewrite trim_idem. exact Hv. }
      rewrite Ht.
      destruct (normalizeVoicePreset_text (OPENAI_TTS_VOICE env)) as (c1 & v1 & Hn).
      rewrite Hn. cbn [Voice.truthy negb andb]. apply engine_switch. }
  split.
  { intros Hv Hp. unfold handleTtsEngineCommand. fold p. rewrite Hp.
    cbn [switchable negb]. rewrite (Hcand Hv). cbn [negb andb].
    unfold resolveVoicePresetForProvider.
    assert (Hdef : exists c1 v1,
              Locale.or_else (GOOGLE_TTS_VOICE env) "en-US-Neural2-F" = String c1 v1).
    { destruct (GOOGLE_TTS_VOICE env) as [[|c1 v1]|]; cbn; eauto. }
    destruct Hdef as (c1 & v1 & Hdef).
    destruct (bool_decide (Voice.google = currentTtsProvider b)); cbn [andb].
    - destruct (has_text (Some (voicePreset b))) eqn:Ht.
      + destruct (has_text_nonempty _ Ht) as (c2 & v2 & Hb). injection Hb as Hb.
        rewrite Hb. cbn [Voice.truthy negb andb]. apply engine_switch.
      + rewrite Hdef. cbn [Voice.truthy negb andb]. apply engine_switch.
    - assert (Ht : has_text (trim <$> voice) = false).
      { destruct voice as [v|]; [|reflexivity]. cbn [fmap option_fmap option_map has_text].
        rewrite trim_idem. exact Hv. }
      rewrite Ht, Hdef. cbn [Voice.truthy negb andb]. apply engine_switch. }
  intros Hv Hp. unfold handleTtsEngineCommand. fold p. rewrite Hp.
  cbn [switchable negb]. rewrite (Hcand Hv). cbn [negb andb].
  unfold resolveVoicePresetForProvider.
  destruct (bool_decide (Voice.elevenlabs = currentTtsProvider b)); cbn [andb].
  - destruct (voicePreset b) as [|c1 v1] eqn:Hb; cbn [nonempty String.eqb negb].
    + destruct (has_text (Some "")); reflexivity.
    + destruct (has_text (Some (String c1 v1))); cbn [Voice.truthy negb andb];
        rewrite <- Hb at 1 2; rewrite Hb; apply engine_switch.
  - assert (Ht : has_text (trim <$> voice) = false).
    { destruct voice as [v|]; [|reflexivity]. cbn [fmap option_fmap option_map has_text].
      rewrite trim_idem. exact Hv. }
    rewrite Ht. cbn [Voice.truthy negb andb].
    pose proof (Hcand Hv) as Hc. destruct (trim <$> voice) as [[|c1 v1]|];
      try discriminate Hc; reflexivity.
Qed.

Lemma handleTtsEngineCommand_sync io provider voice b d :
  in_sync b ->
  in_sync (snd (fst (handleTtsEngineCommand env JSON_stringify io provider voice b d)))
  /\ same_credentials b
       (snd (fst (handleTtsEngineCommand env JSON_stringify io provider voice b d))).
Proof.
  intros Hs. unfold handleTtsEngineCommand.
  destruct (switchable _); cbn [negb fst snd]; [|split; [exact Hs|repeat split]].
  match goal with
  | |- context [match ?x with Some _ => _ | None => _ end] => destruct x as [[|c v]|]
  end; cbn [fst snd]; try (split; [exact Hs|repeat split]).
  split; repeat split.
Qed.

Lemma handleVoicePresetCommand_sync io voice flag b d :
  in_sync b ->
  in_sync (snd (fst (handleVoicePresetCommand JSON_stringify io voice flag b d)))
  /\ same_credentials b
       (snd (fst (handleVoicePresetCommand JSON_stringify io voice flag b d))).
Proof.
  intros [H1 H2]. unfold handleVoicePresetCommand. cbn. repeat split. exact H1.
Qed.

Lemma handleModelPresetCommand_sync io name b d :
  in_sync b ->
  in_sync (snd (fst (handleModelPresetCommand JSON_stringify io name b d)))
  /\ same_credentials b
       (snd (fst (handleModelPresetCommand JSON_stringify io name b d))).
Proof.
  intros [H1 H2]. unfold handleModelPresetCommand. cbn. repeat split; assumption.
Qed.

Lemma same_credentials_trans b1 b2 b3 :
  same_credentials b1 b2 -> same_credentials b2 b3 -> same_credentials b1 b3.
Proof.
  unfold same_credentials. intros (?&?&?&?&?&?) (?&?&?&?&?&?).
  repeat split; congruence.
Qed.

(** X26: through any sequence of the three commands, whatever their arguments
    and whether or not the writes to disk succeed, the voice service keeps
    using the provider and the voice that the bot records, and its enabled
    flag, keys, format and sample rate stay what they were. *)
Theorem commands_keep_sync
  (cmds : list (command * Settings.write_outcome)) (b : bot) (d : Settings.disk) :
  in_sync b ->
  in_sync (fst (foldl (execute env JSON_stringify) (b, d) cmds))
  /\ same_credentials b (fst (foldl (execute env JSON_stringify) (b, d) cmds)).
Proof.
  revert b d. induction cmds as [|[c io] cmds IH]; intros b d Hs.
  - split; [exact Hs|repeat split].
  - cbn [foldl]. 
    assert (Hstep : in_sync (fst (execute env JSON_stringify (b, d) (c, io)))
                    /\ same_credentials b
                         (fst (execute env JSON_stringify (b, d) (c, io)))).
    { destruct c as [name|provider voice|voice flag]; cbn [execute fst snd].
      - pose proof (handleModelPresetCommand_sync io name b d Hs) as H.
        destruct (handleModelPresetCommand JSON_stringify io name b d) as [[r b'] d'].
        exact H.
      - pose proof (handleTtsEngineCommand_sync io provider voice b d Hs) as H.
        destruct (handleTtsEngineCommand env JSON_stringify io provider voice b d)
          as [[r b'] d'].
        exact H.
      - pose proof (handleVoicePresetCommand_sync io voice flag b d Hs) as H.
        destruct (handleVoicePresetCommand JSON_stringify io voice flag b d)
          as [[r b'] d'].
        exact H. }
    destruct (execute env JSON_stringify (b, d) (c, io)) as [b1 d1].
    destruct Hstep as [Hs1 Hc1]. destruct (IH b1 d1 Hs1) as [Hs2 Hc2].
    split; [exact Hs2|]. eapply same_credentials_trans; eassumption.
Qed.

(** X27: the reply of the model command.  For one of the four presets it names
    the preset and its model, which is also the model handed to the AI
    service.  For a name that the object only inherits, the command still
    says that it switched: to [undefined], with model [undefined]; the name is
    recorded as the current preset and in the settings, and [undefined] is
    what the AI service gets.  Every other name stands for [balanced]. *)
Theorem handleModelPresetCommand_spec (io : Settings.write_outcome) (name : string)
  (b : bot) (d : Settings.disk) :
  let '(reply, b', d') := handleModelPresetCommand JSON_stringify io name b d in
  currentModelPreset b' = normalizeModelPreset (Some name)
  /\ runtimeSettings b'
     = <["chatModelPreset" := Settings.JString (currentModelPreset b')]>
         (runtimeSettings b)
  /\ d' = snd (Settings.saveRuntimeSettings JSON_stringify io (runtimeSettings b') d)
  /\ (name ∈ Object_prototype ->
      currentModelPreset b' = name
      /\ reply = "Switched to **undefined** (LLM: undefined)."
      /\ (hasSetDefaultModel b = true -> setDefaultModel b' = Some None))
  /\ (name ∉ Object_prototype ->
      exists p, (currentModelPreset b', p) ∈ MODEL_PRESETS
        /\ reply = "Switched to **" ++ description p ++ "** (LLM: " ++ llmModel p ++ ")."
        /\ (hasSetDefaultModel b = true -> setDefaultModel b' = Some (Some (llmModel p)))
        /\ (name ∉ MODEL_PRESETS.*1 -> currentModelPreset b' = "balanced")).
Proof.
  unfold handleModelPresetCommand.
  cbn [applyModelPreset with_settings currentModelPreset runtimeSettings
       persistSettings hasSetDefaultModel setDefaultModel].
  split; [reflexivity|]. split; [reflexivity|]. split; [reflexivity|].
  pose proof (normalizeModelPreset_range (Some name)) as Hcase.
  split.
  - intros Hin. destruct (normalizeModelPreset_inherited name Hin) as [Hn Hp].
    rewrite Hn, Hp.
    split; [reflexivity|]. split; [reflexivity|]. intros ->. reflexivity.
  - intros Hnot. destruct Hcase as [Hin|[Heq Hin]].
    2:{ injection Heq as Heq. exfalso. apply Hnot. rewrite Heq. exact Hin. }
    set (n := normalizeModelPreset (Some name)) in *.
    assert (Hp : exists p, (n, p) ∈ MODEL_PRESETS /\ preset_of n = Some p).
    { clearbody n. unfold MODEL_PRESETS in Hin. cbn in Hin.
      repeat (apply elem_of_cons in Hin as [->|Hin];
              [eexists; split; [|reflexivity]; unfold MODEL_PRESETS;
               rewrite !elem_of_cons; auto|]).
      apply elem_of_nil in Hin. contradiction. }
    destruct Hp as (p & Hp1 & Hp2). exists p. rewrite Hp2.
    split; [exact Hp1|]. split; [reflexivity|]. split; [intros ->; reflexivity|].
    intros Hno. subst n. unfold normalizeModelPreset, in_MODEL_PRESETS.
    rewrite (bool_decide_false _ Hno), (bool_decide_false _ Hnot).
    rewrite andb_false_r. reflexivity.
Qed.

End CommandFacts.

Section SpeakFacts.

Variable net : Voice.network.
Variable venv : Voice.process_env.


End SpeakFacts.

Lemma commands_keep_sync_witness :
  in_sync (fst (foldl (execute quiet_env Settings.toy_stringify) (demo_bot, None)
                  demo_commands))
  /\ same_credentials demo_bot
       (fst (foldl (execute quiet_env Settings.toy_stringify) (demo_bot, None)
               demo_commands)).
Proof.
  apply (commands_keep_sync quiet_env Settings.toy_stringify demo_commands demo_bot None).
  split; reflexivity.
Defined.

Example demo_commands_run :
  let b := fst (foldl (execute quiet_env Settings.toy_stringify) (demo_bot, None)
                  demo_commands) in
  currentTtsProvider b = Voice.openai
  /\ voicePreset b = "shimmer"
  /\ currentModelPreset b = "toString"
  /\ setDefaultModel b = Some None
  /\ runtimeSettings b
     = <["ttsVoice" := Settings.JString "shimmer"]>
         (<["ttsProvider" := Settings.JString "openai"]>
            (<["chatModelPreset" := Settings.JString "toString"]> ∅)).
Proof. repeat split; vm_compute; reflexivity. Qed.

Example engine_replies :
  fst (fst (handleTtsEngineCommand quiet_env Settings.toy_stringify Settings.Written
              "azure" None demo_bot None))
  = "Support for azure is coming soon."
  /\ fst (fst (handleTtsEngineCommand quiet_env Settings.toy_stringify Settings.Written
                 "openai" (Some "Rachel") demo_bot None))
     = "TTS provider set to **openai** using voice **alloy**."
  /\ fst (fst (handleTtsEngineCommand quiet_env Settings.toy_stringify Settings.Written
                 "elevenlabs" (Some "   ") demo_bot None))
     = "TTS provider set to **elevenlabs** using voice **Rachel**."
  /\ fst (fst (handleTtsEngineCommand quiet_env Settings.toy_stringify Settings.Written
                 "elevenlabs" None (with_provider Voice.openai demo_bot) None))
     = "Please provide a voice ID when switching to this provider.".
Proof. repeat split; vm_compute; reflexivity. Qed.

End Bot.
